(** * m3c: graph model, history codec, cycle algebra and rule engine

    A shallow embedding of the Python sources of m3c (bgx.pyx,
    bx_graph.pyx, cycles.pyx, generators.pyx) and the properties of
    the specification stated and proved over it.

    Conventions of the embedding:
    - a Python [int] is a [Z]; a [bytes] value is a list of [Z] in
      [0, 256); a [str] is the list of its Unicode code points;
    - a call that may raise returns a [result]: [Ok v], [Raise e] for
      an exception, [Hang] for a [while] loop that does not stop; an
      exception keeps its class and the fixed words of its message,
      the values formatted into the message are left out;
    - a Python [set] is a duplicate-free list in insertion order; the
      iteration order of a real set is unspecified, so statements on
      sets are made on membership and length only. *)

From Stdlib Require Import ZArith String Ascii Bool Lia List Permutation.
Import ListNotations.
Open Scope Z_scope.

(** ** The Python runtime the sources rely on *)

Module Py.

Inductive exn : Type :=
| ValueError (msg : string)
| IndexError
| TypeError
| OverflowError
| AttributeError
| UnicodeError.

Inductive result (A : Type) : Type :=
| Ok (a : A)
| Raise (e : exn)
| Hang.

Arguments Ok {A} a.
Arguments Raise {A} e.
Arguments Hang {A}.

Definition bind {A B : Type} (c : result A) (k : A -> result B) : result B :=
  match c with
  | Ok a => k a
  | Raise e => Raise e
  | Hang => Hang
  end.

Declare Scope py_scope.
Delimit Scope py_scope with py.

Notation "'let*' x ':=' c 'in' k" := (bind c (fun x => k))
  (at level 10, x name, c at level 100, k at level 200) : py_scope.
Notation "'let*' ' p ':=' c 'in' k" := (bind c (fun x => match x with p => k end))
  (at level 10, p pattern, c at level 100, k at level 200) : py_scope.

Open Scope py_scope.

(** [for x in xs: st = body(st, x)], leaving at the first exception. *)
Fixpoint foldM {A S : Type} (body : S -> A -> result S) (xs : list A) (st : S)
  : result S :=
  match xs with
  | [] => Ok st
  | x :: rest => let* st' := body st x in foldM body rest st'
  end.

(** [[f(x) for x in xs]] *)
Fixpoint mapM {A B : Type} (f : A -> result B) (xs : list A) : result (list B) :=
  match xs with
  | [] => Ok []
  | x :: rest => let* y := f x in let* ys := mapM f rest in Ok (y :: ys)
  end.

Definition len {A : Type} (l : list A) : Z := Z.of_nat (length l).

(** [range(a, b)] and [range(n)] *)
Definition range2 (a b : Z) : list Z :=
  map (fun k => a + Z.of_nat k) (seq 0 (Z.to_nat (b - a))).

Definition range (n : Z) : list Z := range2 0 n.

(** [l[i]] with Python's negative indices and [IndexError]. *)
Definition getitem {A : Type} (l : list A) (i : Z) : result A :=
  let k := if i <? 0 then i + len l else i in
  if (0 <=? k) && (k <? len l) then
    match nth_error l (Z.to_nat k) with
    | Some x => Ok x
    | None => Raise IndexError
    end
  else Raise IndexError.

Fixpoint replace_nth {A : Type} (k : nat) (v : A) (l : list A) : list A :=
  match l, k with
  | [], _ => []
  | _ :: rest, O => v :: rest
  | x :: rest, S k' => x :: replace_nth k' v rest
  end.

(** [l[i] = v] *)
Definition setitem {A : Type} (l : list A) (i : Z) (v : A) : result (list A) :=
  let k := if i <? 0 then i + len l else i in
  if (0 <=? k) && (k <? len l) then Ok (replace_nth (Z.to_nat k) v l)
  else Raise IndexError.

(** [l[i]] where the source makes [0 <= i < len(l)] hold by construction
    ([i] drawn from [range(len(l))] or reduced modulo [len(l)]). *)
Definition item (l : list Z) (i : Z) : Z := nth (Z.to_nat i) l 0.

(** Python slices [l[lo:hi]], [l[lo:]] and [l[:hi]]: bounds are clamped,
    negative bounds count from the end. *)
Definition clamp {A : Type} (l : list A) (i : Z) : nat :=
  Z.to_nat (if i <? 0 then Z.max (i + len l) 0 else Z.min i (len l)).

Definition slice {A : Type} (l : list A) (lo hi : Z) : list A :=
  firstn (clamp l hi - clamp l lo) (skipn (clamp l lo) l).

Definition slice_from {A : Type} (l : list A) (lo : Z) : list A :=
  skipn (clamp l lo) l.

Definition slice_to {A : Type} (l : list A) (hi : Z) : list A :=
  firstn (clamp l hi) l.

(** [sum(1 if p(x) else 0 for x in xs)] *)
Definition count {A : Type} (p : A -> bool) (xs : list A) : Z :=
  fold_left (fun acc x => acc + (if p x then 1 else 0)) xs 0.

(** A [str] as the list of its code points. *)
Definition str : Type := list Z.

Definition str_of (s : string) : str :=
  map (fun a => Z.of_N (N_of_ascii a)) (list_ascii_of_string s).

Definition str_eqb (s t : str) : bool :=
  if list_eq_dec Z.eq_dec s t then true else false.

Definition startswith (s p : str) : bool :=
  str_eqb (firstn (length p) s) p.

(** [s.strip()]: the code points for which [str.isspace] holds. *)
Definition isspace (c : Z) : bool :=
  ((9 <=? c) && (c <=? 13)) || ((28 <=? c) && (c <=? 32))
  || (c =? 133) || (c =? 160) || (c =? 5760)
  || ((8192 <=? c) && (c <=? 8202)) || (c =? 8232) || (c =? 8233)
  || (c =? 8239) || (c =? 8287) || (c =? 12288).

Fixpoint lstrip (s : str) : str :=
  match s with
  | c :: rest => if isspace c then lstrip rest else s
  | [] => []
  end.

Definition strip (s : str) : str := rev (lstrip (rev (lstrip s))).

(** [bytes(s, encoding="utf-8")] *)
Definition encode_point (c : Z) : result (list Z) :=
  if (c <? 0) || (1114111 <? c) then Raise UnicodeError
  else if c <? 128 then Ok [c]
  else if c <? 2048 then Ok [192 + c / 64; 128 + c mod 64]
  else if (55296 <=? c) && (c <=? 57343) then Raise UnicodeError
  else if c <? 65536 then
    Ok [224 + c / 4096; 128 + (c / 64) mod 64; 128 + c mod 64]
  else
    Ok [240 + c / 262144; 128 + (c / 4096) mod 64;
        128 + (c / 64) mod 64; 128 + c mod 64].

Fixpoint encode_utf8 (s : str) : result (list Z) :=
  match s with
  | [] => Ok []
  | c :: rest =>
      let* b := encode_point c in
      let* bs := encode_utf8 rest in
      Ok (b ++ bs)
  end.

Definition is_cont (b : Z) : bool := (128 <=? b) && (b <=? 191).

(** [bytes.decode(b, encoding="utf-8")], strict: no overlong forms, no
    surrogates, nothing above U+10FFFF. *)
Fixpoint decode_utf8 (b : list Z) : result str :=
  match b with
  | [] => Ok []
  | b0 :: r0 =>
      if (0 <=? b0) && (b0 <? 128) then
        let* s := decode_utf8 r0 in Ok (b0 :: s)
      else if (194 <=? b0) && (b0 <=? 223) then
        match r0 with
        | b1 :: r1 =>
            if is_cont b1 then
              let* s := decode_utf8 r1 in
              Ok (((b0 - 192) * 64 + (b1 - 128)) :: s)
            else Raise UnicodeError
        | _ => Raise UnicodeError
        end
      else if (224 <=? b0) && (b0 <=? 239) then
        match r0 with
        | b1 :: b2 :: r2 =>
            if is_cont b1 && is_cont b2
               && (negb (b0 =? 224) || (160 <=? b1))
               && (negb (b0 =? 237) || (b1 <=? 159)) then
              let* s := decode_utf8 r2 in
              Ok (((b0 - 224) * 4096 + (b1 - 128) * 64 + (b2 - 128)) :: s)
            else Raise UnicodeError
        | _ => Raise UnicodeError
        end
      else if (240 <=? b0) && (b0 <=? 244) then
        match r0 with
        | b1 :: b2 :: b3 :: r3 =>
            if is_cont b1 && is_cont b2 && is_cont b3
               && (negb (b0 =? 240) || (144 <=? b1))
               && (negb (b0 =? 244) || (b1 <=? 143)) then
              let* s := decode_utf8 r3 in
              Ok (((b0 - 240) * 262144 + (b1 - 128) * 4096
                   + (b2 - 128) * 64 + (b3 - 128)) :: s)
            else Raise UnicodeError
        | _ => Raise UnicodeError
        end
      else Raise UnicodeError
  end.

End Py.

Import Py.
Open Scope py_scope.

(** ** bgx.pyx: integers and bytes *)

Module bgx.

Definition bytes : Type := list Z.

Definition BITS : list Z := [1; 2; 4; 8; 16; 32; 64; 128].

Definition FLAGS : bytes := BITS.

(** [sys.byteorder] *)
Inductive byteorder : Type := little | big.

Fixpoint le_digits (sz : nat) (i : Z) : bytes :=
  match sz with
  | O => []
  | S k => (i mod 256) :: le_digits k (i / 256)
  end.

Fixpoint le_value (b : bytes) : Z :=
  match b with
  | [] => 0
  | x :: rest => x + 256 * le_value rest
  end.

(** [int.to_bytes(sz, order)]: unsigned, [OverflowError] when the value
    is negative or does not fit. *)
Definition to_bytes (order : byteorder) (i : Z) (sz : nat) : result bytes :=
  if (0 <=? i) && (i <? 256 ^ Z.of_nat sz) then
    Ok (match order with
        | little => le_digits sz i
        | big => rev (le_digits sz i)
        end)
  else Raise OverflowError.

(** [int.from_bytes(b, order)] *)
Definition from_bytes (order : byteorder) (b : bytes) : Z :=
  match order with
  | little => le_value b
  | big => le_value (rev b)
  end.

Definition bytes_from_int (order : byteorder) (i : Z) (sz : nat) : result bytes :=
  to_bytes order i sz.

Definition int_from_bytes (order : byteorder) (b : bytes) (ix : Z) (sz : nat)
  : Z * Z :=
  (from_bytes order (slice b ix (ix + Z.of_nat sz)), ix + Z.of_nat sz).

End bgx.

Import bgx.

(** ** bx_graph.pyx: operations, history and its codec *)

Module bx_graph.

(** The nested lists that [to_list] builds and the decoders return. *)
Inductive value : Type :=
| VStr (s : str)
| VInt (i : Z)
| VList (l : list value).

Definition is_str (v : value) (s : string) : bool :=
  match v with
  | VStr t => str_eqb t (str_of s)
  | _ => false
  end.

(** [bytes_from_int(x)] on an element of such a list. *)
Definition bytes_from_int_value (order : byteorder) (v : value) : result bytes :=
  match v with
  | VInt i => bytes_from_int order i 2
  | _ => Raise AttributeError
  end.

Definition bytes_from_op_list (order : byteorder) (op_list : list value)
  : result bytes :=
  let* op_name := getitem op_list 0 in
  if is_str op_name "v" then encode_utf8 (str_of "v ")
  else if is_str op_name "d" then
    let* tag := encode_utf8 (str_of "d ") in
    let* a := getitem op_list 1 in
    let* ba := bytes_from_int_value order a in
    let* b := getitem op_list 2 in
    let* bb := bytes_from_int_value order b in
    Ok (tag ++ ba ++ bb)
  else if is_str op_name "e" then
    let* tag := encode_utf8 (str_of "e ") in
    let* a := getitem op_list 1 in
    let* ba := bytes_from_int_value order a in
    let* b := getitem op_list 2 in
    let* bb := bytes_from_int_value order b in
    Ok (tag ++ ba ++ bb)
  else Raise (ValueError "Invalid operation").

(** [bytes((name + "  ")[0:2], encoding="utf-8")] *)
Definition tag_bytes (name : value) : result bytes :=
  match name with
  | VStr s => encode_utf8 (slice (s ++ str_of "  ") 0 2)
  | _ => Raise TypeError
  end.

(** Where the source takes an item as a sequence ([x[0]], [len(x)],
    [x[1:]], [for y in x]): a list, or a string as the sequence of its
    one-character strings; an integer raises [TypeError]. *)
Definition as_list (v : value) : result (list value) :=
  match v with
  | VList l => Ok l
  | VStr s => Ok (map (fun c => VStr [c]) s)
  | VInt _ => Raise TypeError
  end.

Definition bytes_from_tx (order : byteorder) (tx : list value) : result bytes :=
  let* name := getitem tx 0 in
  let* p1 := tag_bytes name in
  let* p2 := bytes_from_int order (len tx - 1) 2 in
  foldM (fun res op =>
           let* op_list := as_list op in
           let* b := bytes_from_op_list order op_list in
           Ok (res ++ b))
        (slice_from tx 1) (p1 ++ p2).

Definition bytes_from_hist (order : byteorder) (hist : list value) : result bytes :=
  let* root := getitem hist 0 in
  let* bb := tag_bytes root in
  let* cnt := bytes_from_int order (len hist - 1) 2 in
  foldM (fun res tx =>
           let* tx_list := as_list tx in
           let* b := bytes_from_tx order tx_list in
           Ok (res ++ b))
        (slice_from hist 1) (bb ++ cnt).

Definition op_list_from_bytes (order : byteorder) (b : bytes) (ix : Z)
  : result (list value * Z) :=
  let jx := ix in
  let* name := decode_utf8 (slice b ix (ix + 2)) in
  let op_name := strip name in
  let jx := jx + 2 in
  if str_eqb op_name (str_of "v") then Ok ([VStr op_name], jx)
  else if str_eqb op_name (str_of "e") || str_eqb op_name (str_of "d") then
    let '(i, jx) := int_from_bytes order b jx 2 in
    let '(j, jx) := int_from_bytes order b jx 2 in
    Ok ([VStr op_name; VInt i; VInt j], jx)
  else Raise (ValueError "Invalid operation").

Definition tx_from_bytes (order : byteorder) (b : bytes) (ix : Z)
  : result (list value * Z) :=
  let jx := ix in
  let* tx_name := decode_utf8 (slice b ix (ix + 2)) in
  let jx := jx + 2 in
  let '(tx_len, jx) := int_from_bytes order b jx 2 in
  let* '(ops, jx) :=
    foldM (fun '(ops, jx) _ =>
             let* '(op, jx) := op_list_from_bytes order b jx in
             Ok (ops ++ [VList op], jx))
          (range tx_len) ([], jx) in
  Ok (VStr tx_name :: ops, jx).

Definition hist_from_bytes (order : byteorder) (bb : bytes) : result (list value) :=
  let* root := decode_utf8 (slice bb 0 2) in
  let h_list := [VStr root] in
  let '(hlen, jx) := int_from_bytes order bb 2 2 in
  let* '(h_list, _) :=
    foldM (fun '(h_list, jx) _ =>
             let* '(tx, jx) := tx_from_bytes order bb jx in
             Ok (h_list ++ [VList tx], jx))
          (range hlen) (h_list, jx) in
  Ok h_list.

(** The three operation classes.  [AddEdge], [DelEdge] and [AddVertex]
    below are their constructors as the source calls them. *)
Inductive Operation : Type :=
| OpAddVertex
| OpAddEdge (i j : Z)
| OpDelEdge (i j : Z).

Definition AddEdge (i j : Z) : result Operation :=
  if i =? j then Raise (ValueError "Cannot connect a vertex to itself")
  else Ok (OpAddEdge i j).

Definition DelEdge (i j : Z) : Operation := OpDelEdge i j.

Definition AddVertex : Operation := OpAddVertex.

(** The class attribute [code] *)
Definition code (op : Operation) : str :=
  match op with
  | OpAddVertex => str_of "v"
  | OpAddEdge _ _ => str_of "e"
  | OpDelEdge _ _ => str_of "d"
  end.

(** [op.i] and [op.j]; the vertex operation has neither attribute. *)
Definition op_i (op : Operation) : result Z :=
  match op with
  | OpAddEdge i _ | OpDelEdge i _ => Ok i
  | OpAddVertex => Raise AttributeError
  end.

Definition op_j (op : Operation) : result Z :=
  match op with
  | OpAddEdge _ j | OpDelEdge _ j => Ok j
  | OpAddVertex => Raise AttributeError
  end.

Definition op_to_list (op : Operation) : list value :=
  match op with
  | OpAddVertex => [VStr (code op)]
  | OpAddEdge i j => [VStr (code op); VInt i; VInt j]
  | OpDelEdge i j => [VStr (code op); VInt i; VInt j]
  end.

Definition op_from_list (op_list : list value) : result Operation :=
  if len op_list <? 1 then Raise (ValueError "Cannot build an operation from list")
  else
    let* c := getitem op_list 0 in
    if is_str c "v" then Ok AddVertex
    else if is_str c "e" then
      match op_list with
      | [_; VInt i; VInt j] => AddEdge i j
      | _ => Raise (ValueError "Invalid list for edge addition")
      end
    else if is_str c "d" then
      match op_list with
      | [_; VInt i; VInt j] => Ok (DelEdge i j)
      | _ => Raise (ValueError "Invalid list for edge de;etion")
      end
    else Raise (ValueError "Cannot build an operation from list due to invalid code").

Record Transformation : Type := mkTransformation {
  alg : str;
  ops : list Operation
}.

Definition Transformation_to_list (t : Transformation) : list value :=
  VStr (alg t) :: map (fun op => VList (op_to_list op)) (ops t).

Definition transformation_from_list (e_list : list value) : result Transformation :=
  if len e_list <? 1 then
    Raise (ValueError "Cannot build history element from empty list")
  else
    match e_list with
    | VStr a :: rest =>
        let* ops := mapM (fun x => let* l := as_list x in op_from_list l) rest in
        Ok (mkTransformation a ops)
    | _ => Raise (ValueError "First item in history element list must be algorithm name")
    end.

Record History : Type := mkHistory {
  root : str;
  elements : list Transformation
}.

Definition History_to_list (h : History) : list value :=
  VStr (root h) :: map (fun x => VList (Transformation_to_list x)) (elements h).

Definition History_to_bytes (order : byteorder) (h : History) : result bytes :=
  bytes_from_hist order (History_to_list h).

Definition history_from_list (h_list : list value) : result History :=
  if len h_list <? 1 then Raise (ValueError "Cannot recreate history from empty list")
  else
    match h_list with
    | VStr r :: rest =>
        let* elements :=
          mapM (fun x => let* l := as_list x in transformation_from_list l) rest in
        Ok (mkHistory r elements)
    | _ => Raise (ValueError "First element of history list must be a string")
    end.

Definition history_from_bytes (order : byteorder) (bb : bytes) : result History :=
  let* h_list := hist_from_bytes order bb in
  history_from_list h_list.

(** *** The graph and its adjacency bits *)

Definition _are_conn (b : bytes) (n i j : Z) : result bool :=
  if (i <? 0) || (i >=? n) || (j <? 0) || (j >=? n) then Raise IndexError
  else if i =? j then Ok false
  else
    let '(ii, jj) := if i >? j then (i, j) else (j, i) in
    let bi := Z.shiftr (ii * (ii - 1)) 1 + jj in
    let* byte := getitem b (Z.shiftr bi 3) in
    Ok (negb (Z.land byte (item FLAGS (bi mod 8)) =? 0)).

Record BXGraph : Type := mkBXGraph {
  history : History;
  size : Z;
  badj : bytes;
  nedge : Z
}.

(** [BXGraph._nedge], run by the constructor on the fields just set. *)
Definition _nedge (size : Z) (badj : bytes) : result Z :=
  foldM (fun n i =>
           foldM (fun n j =>
                    let* c := _are_conn badj size i j in
                    Ok (if c then n + 1 else n))
                 (range i) n)
        (range2 1 size) 0.

(** [BXGraph(history, size, badj)] *)
Definition BXGraph_init (history : History) (size : Z) (badj : bytes)
  : result BXGraph :=
  let* n := _nedge size badj in
  Ok (mkBXGraph history size badj n).

Definition conn (g : BXGraph) (i j : Z) : result bool :=
  _are_conn (badj g) (size g) i j.

Definition matrix : Type := list (list Z).

(** [adj[i][j]] and [adj[i][j] = v] on a list of rows. *)
Definition get2 (adj : matrix) (i j : Z) : result Z :=
  let* row := getitem adj i in getitem row j.

Definition set2 (adj : matrix) (i j v : Z) : result matrix :=
  let* row := getitem adj i in
  let* row' := setitem row j v in
  setitem adj i row'.

(** [bytes(ba)] of a list of integers *)
Definition bytes_of_list (ba : list Z) : result bytes :=
  if forallb (fun x => (0 <=? x) && (x <? 256)) ba then Ok ba
  else Raise (ValueError "bytes must be in range(0, 256)").

Definition bytes_from_adj (adj : matrix) : result bytes :=
  let n := len adj in
  let* '(ba, bi, k) :=
    foldM (fun st i =>
             foldM (fun '(ba, bi, k) j =>
                      let* a := get2 adj i j in
                      let bi := if a =? 1 then bi + item BITS k else bi in
                      let k := k + 1 in
                      if k =? 8 then Ok (ba ++ [bi], 0, 0) else Ok (ba, bi, k))
                   (range i) st)
          (range2 1 n) ([], 0, 0) in
  bytes_of_list (if k >? 0 then ba ++ [bi] else ba).

(** [[[0 for i in range(m)] for j in range(m)]] *)
Definition zeros (m : Z) : matrix :=
  map (fun _ => map (fun _ => 0) (range m)) (range m).

Definition fill_from_bytes (ba : bytes) (n : Z) (adj : matrix) : result matrix :=
  foldM (fun adj i =>
           foldM (fun adj j =>
                    let* c := _are_conn ba n i j in
                    if c then
                      let* adj := set2 adj i j 1 in
                      set2 adj j i 1
                    else Ok adj)
                 (range i) adj)
        (range2 1 n) adj.

Definition adj_from_bytes (ba : bytes) (n : Z) : result matrix :=
  fill_from_bytes ba n (zeros n).

Definition ext_adj_from_bytes (ba : bytes) (n n_ext : Z) : result matrix :=
  fill_from_bytes ba n (zeros (n + n_ext)).

Definition graph_from_root (root : str) (adj : matrix) : result BXGraph :=
  let size := len adj in
  let* badj := bytes_from_adj adj in
  let history := mkHistory root [] in
  BXGraph_init history size badj.

(** One round of the loop of [apply_transformation] over the operations. *)
Definition apply_op (adj : matrix) (op : Operation) : result matrix :=
  match op with
  | OpAddEdge i j =>
      let* a := get2 adj i j in
      if a =? 1 then
        Raise (ValueError "Attempt to add edge which is already present.")
      else
        let* adj := set2 adj i j 1 in
        set2 adj j i 1
  | OpDelEdge i j =>
      let* a := get2 adj i j in
      if a =? 0 then
        Raise (ValueError "Attempt to delete edge which is not present.")
      else
        let* adj := set2 adj i j 0 in
        set2 adj j i 0
  | OpAddVertex => Ok adj
  end.

(** [sum([1 if tx.code == "v" else 0 for tx in transformation.ops])] *)
Definition count_vertex_ops (transformation : Transformation) : Z :=
  count (fun tx => str_eqb (code tx) (str_of "v")) (ops transformation).

Definition apply_transformation (graph : BXGraph) (transformation : Transformation)
  : result BXGraph :=
  let n_ext := count_vertex_ops transformation in
  let* adj := ext_adj_from_bytes (badj graph) (size graph) n_ext in
  let* adj := foldM apply_op (ops transformation) adj in
  let history :=
    mkHistory (root (history graph))
              (elements (history graph) ++ [transformation]) in
  let* b := bytes_from_adj adj in
  BXGraph_init history (size graph + n_ext) b.

End bx_graph.

Import bx_graph.

(** ** cycles.pyx: canonical cycles and their codec *)

Module cycles.

(** The state of the loop of [_arg_min]: [None] at first, then
    [(mv, mi)]. *)
Definition arg_min_step (item_list : list Z) (st : option (Z * Z)) (i : Z)
  : option (Z * Z) :=
  match st with
  | None => Some (item item_list i, i)
  | Some (mv, _) =>
      if item item_list i <? mv then Some (item item_list i, i) else st
  end.

Definition _arg_min (item_list : list Z) : option Z :=
  option_map snd
    (fold_left (arg_min_step item_list) (range (len item_list)) None).

(** With an empty list [_arg_min] returns [None] and [i - 1] raises. *)
Definition _arrange_cycle (cv : list Z) : result (list Z) :=
  match _arg_min cv with
  | None => Raise TypeError
  | Some i =>
      let n := len cv in
      let d := if item cv ((i - 1) mod n) <? item cv ((i + 1) mod n)
               then -1 else 1 in
      if (i =? 0) && (d =? 1) then Ok cv
      else Ok (map (fun j => item cv ((i + d * j) mod n)) (range n))
  end.

Record Cycle : Type := mkCycle { vlist : list Z }.

(** [Cycle(vlist)] *)
Definition Cycle_init (vl : list Z) : result Cycle :=
  let* l := _arrange_cycle vl in Ok (mkCycle l).

(** [Cycle.__eq__] *)
Definition Cycle_eqb (c1 c2 : Cycle) : bool :=
  if list_eq_dec Z.eq_dec (vlist c1) (vlist c2) then true else false.

(** Sets of cycles: [s.add(c)] and [c in s]. *)
Definition set_mem (c : Cycle) (s : list Cycle) : bool :=
  existsb (Cycle_eqb c) s.

Definition set_add (c : Cycle) (s : list Cycle) : list Cycle :=
  if set_mem c s then s else s ++ [c].

Definition bytes_from_cycle (order : byteorder) (cyc : Cycle) : result bytes :=
  let* r := bytes_from_int order (len (vlist cyc)) 4 in
  foldM (fun res v => let* b := bytes_from_int order v 2 in Ok (res ++ b))
        (vlist cyc) r.

Definition cycle_from_bytes (order : byteorder) (bb : bytes) (offset : Z)
  : result (Cycle * Z) :=
  let '(n, _) := int_from_bytes order bb offset 4 in
  let cv := map (fun i => fst (int_from_bytes order bb (offset + 4 + 2 * i) 2))
                (range n) in
  let* c := Cycle_init cv in
  Ok (c, 2 * n + 4).

Definition bytes_from_cycle_list (order : byteorder) (cyc_list : list Cycle)
  : result bytes :=
  let* parts := mapM (bytes_from_cycle order) cyc_list in
  Ok (concat parts).

(** The [while offset < len(bb)] loop; every round moves [offset]
    forward, [fuel] bounds the number of rounds. *)
Fixpoint cycle_list_loop (order : byteorder) (fuel : nat) (bb : bytes)
  (offset : Z) (acc : list Cycle) : result (list Cycle) :=
  if offset <? len bb then
    match fuel with
    | O => Hang
    | S fuel' =>
        let* '(cyc, cyc_len) := cycle_from_bytes order bb offset in
        cycle_list_loop order fuel' bb (offset + cyc_len) (acc ++ [cyc])
    end
  else Ok acc.

Definition cycle_list_from_bytes (order : byteorder) (bb : bytes)
  : result (list Cycle) :=
  cycle_list_loop order (length bb) bb 0 [].

Record BXGraphCyc : Type := mkBXGraphCyc {
  graph : BXGraph;
  cycles : list Cycle
}.

(** [BXGraphCyc(history, size, badj, cycles)] runs the constructor of
    [BXGraph] again. *)
Definition BXGraphCyc_init (h : History) (sz : Z) (b : bytes) (cs : list Cycle)
  : result BXGraphCyc :=
  let* g := BXGraph_init h sz b in Ok (mkBXGraphCyc g cs).

Definition from_bxgraph (bx_graph : BXGraph) (cs : list Cycle) : result BXGraphCyc :=
  BXGraphCyc_init (history bx_graph) (size bx_graph) (badj bx_graph) cs.

(** *** Subdividing an edge *)

Definition is_pair (vp1 vp2 v1 v2 : Z) : bool :=
  ((vp1 =? v1) && (vp2 =? v2)) || ((vp1 =? v2) && (vp2 =? v1)).

Definition _divide_pos (vl : list Z) (v1 v2 : Z) : Z :=
  let n := len vl in
  match find (fun i => is_pair (item vl i) (item vl ((i + 1) mod n)) v1 v2)
             (range n) with
  | Some i => i + 1
  | None => -1
  end.

(** One round of the loop of [apply_subdivide_edge]. *)
Definition subdivide_step (v1 v2 w : Z) (res : list Cycle) (cycle : Cycle)
  : result (list Cycle) :=
  let p := _divide_pos (vlist cycle) v1 v2 in
  if p <? 0 then Ok (set_add cycle res)
  else if p =? len (vlist cycle) then
    let* c := Cycle_init (vlist cycle ++ [w]) in
    Ok (set_add c res)
  else
    let vl := vlist cycle in
    let* c := Cycle_init (slice_to vl p ++ [w] ++ slice_from vl p) in
    Ok (set_add c res).

Definition apply_subdivide_edge (cs : list Cycle) (v1 v2 w : Z)
  : result (list Cycle) :=
  foldM (subdivide_step v1 v2 w) cs [].

(** *** Adding an edge *)

(** [l.index(v)] *)
Fixpoint index_from (l : list Z) (v : Z) (k : Z) : result Z :=
  match l with
  | [] => Raise (ValueError "is not in list")
  | x :: rest => if x =? v then Ok k else index_from rest v (k + 1)
  end.

Definition index (l : list Z) (v : Z) : result Z := index_from l v 0.

Definition _splices (vl : list Z) (v1 v2 : Z) : result (list Z * list Z) :=
  let* i1 := index vl v1 in
  let* i2 := index vl v2 in
  let n := len vl in
  let '(vl1, vl2, _) :=
    fold_left (fun '(vl1, vl2, flag) i =>
                 let p := (i + i1) mod n in
                 let vl1 := if negb flag then vl1 ++ [item vl p] else vl1 in
                 let flag := if p =? i2 then true else flag in
                 let vl2 := if flag then vl2 ++ [item vl p] else vl2 in
                 (vl1, vl2, flag))
              (range n) ([], [], false) in
  Ok (vl1, vl2 ++ [v1]).

Definition _follow_triangle (vl : list Z) (i v : Z) : list Z :=
  fold_left (fun newlist j =>
               let newlist := newlist ++ [item vl j] in
               if j =? i then newlist ++ [v] else newlist)
            (range (len vl)) [].

(** One of the four tests in the loop of [apply_add_edge]:
    [if vlist[i] == x and conn(vlist[q], y):
       result.add(Cycle(_follow_triangle(vlist, pos, y)))];
    [conn] is called only when the first test holds. *)
Definition corner (conn : Z -> Z -> result bool) (vl : list Z)
  (i x q y pos : Z) (res : list Cycle) : result (list Cycle) :=
  if item vl i =? x then
    let* c := conn (item vl q) y in
    if c then
      let* cyc := Cycle_init (_follow_triangle vl pos y) in
      Ok (set_add cyc res)
    else Ok res
  else Ok res.

(** One round of the loop of [apply_add_edge]. *)
Definition add_edge_step (v1 v2 : Z) (conn : Z -> Z -> result bool)
  (res : list Cycle) (cycle : Cycle) : result (list Cycle) :=
  let res := set_add cycle res in
  let vl := vlist cycle in
  let n := len vl in
  let vc := count (fun v => (v =? v1) || (v =? v2)) vl in
  if vc =? 2 then
    let* '(vl1, vl2) := _splices vl v1 v2 in
    let* c1 := Cycle_init vl1 in
    let res := set_add c1 res in
    let* c2 := Cycle_init vl2 in
    Ok (set_add c2 res)
  else if vc =? 1 then
    foldM (fun res i =>
             let* res := corner conn vl i v1 ((i - 1) mod n) v2
                                ((i - 1) mod n) res in
             let* res := corner conn vl i v1 ((i + 1) mod n) v2 i res in
             let* res := corner conn vl i v2 ((i - 1) mod n) v1
                                ((i - 1) mod n) res in
             corner conn vl i v2 ((i + 1) mod n) v1 i res)
          (range n) res
  else Ok res.

Definition apply_add_edge (cs : list Cycle) (v1 v2 : Z)
  (conn : Z -> Z -> result bool) : result (list Cycle) :=
  foldM (add_edge_step v1 v2 conn) cs [].

(** *** Moving an edge *)

(** [s.replace(xy, new)] for a two-character [xy]: occurrences are
    taken from the left and do not overlap. *)
Fixpoint replace2 (x y : Z) (new : str) (s : str) : str :=
  match s with
  | c1 :: ((c2 :: rest) as tl) =>
      if (c1 =? x) && (c2 =? y) then new ++ replace2 x y new rest
      else c1 :: replace2 x y new tl
  | _ => s
  end.

Definition star : Z := 42.

(** The state of the loop of [get_pattern]: [(s, last_known, pa, pb, pc)]. *)
Definition pattern_step (a b c : Z) (st : str * bool * Z * Z * Z) (v : Z)
  : str * bool * Z * Z * Z :=
  let '(s, last_known, pa, pb, pc) := st in
  if v =? a then (s ++ str_of "a", true, len s, pb, pc)
  else if v =? b then (s ++ str_of "b", true, pa, len s, pc)
  else if v =? c then (s ++ str_of "c", true, pa, pb, len s)
  else ((if last_known then s ++ str_of "*" else s), false, pa, pb, pc).

Definition get_pattern (vl : list Z) (a b c : Z) : str :=
  let '(s, _, pa, pb, pc) :=
    fold_left (pattern_step a b c) vl ([], true, -1, -1, -1) in
  let s := if pa >=? 0 then slice_from s pa ++ slice_to s pa
           else if pb >=? 0 then slice_from s pb ++ slice_to s pb
           else if pc >=? 0 then slice_from s pc ++ slice_to s pc
           else s in
  replace2 star star (str_of "*") s.

(** The state of the loop of [get_index]: [(ai, bi, ci)] and whether the
    loop was left by [break]. *)
Definition index_step (vl : list Z) (a b c : Z) (st : Z * Z * Z * bool) (i : Z)
  : Z * Z * Z * bool :=
  let '(ai, bi, ci, stop) := st in
  if stop then st
  else
    let '(ai, bi, ci) :=
      if item vl i =? a then (i, bi, ci)
      else if item vl i =? b then (ai, i, ci)
      else if item vl i =? c then (ai, bi, i)
      else (ai, bi, ci) in
    (ai, bi, ci, (ai >=? 0) && (bi >=? 0) && (ci >=? 0)).

Definition get_index (vl : list Z) (a b c : Z) : Z * Z * Z :=
  let '(ai, bi, ci, _) :=
    fold_left (index_step vl a b c) (range (len vl)) (-1, -1, -1, false) in
  (ai, bi, ci).

(** The loop that three branches of [apply_move_edge] repeat: walk the
    cycle once from [start], the first list up to [c], the second from
    [c] on.  The state is [(newlist1, newlist2, flag)]. *)
Definition split_step (vl : list Z) (start c : Z) (st : list Z * list Z * bool)
  (i : Z) : list Z * list Z * bool :=
  let '(newlist1, newlist2, flag) := st in
  let j := (i + start) mod len vl in
  let newlist1 := if negb flag then newlist1 ++ [item vl j] else newlist1 in
  let flag := if item vl j =? c then true else flag in
  let newlist2 := if flag then newlist2 ++ [item vl j] else newlist2 in
  (newlist1, newlist2, flag).

Definition split_at (vl : list Z) (start c : Z) : list Z * list Z :=
  let '(newlist1, newlist2, _) :=
    fold_left (split_step vl start c) (range (len vl)) ([], [], false) in
  (newlist1, newlist2).

Definition rewrite_patterns : list str :=
  map str_of ["a*b"; "a*c*"; "a*c*b"; "a*cb"; "ab*"; "ab*c*"; "abc*"]%string.

Definition passthrough_patterns : list str :=
  map str_of ["*"; "a*"; "b*"; "c*"; "a*b*"; "a*b*c*"; "a*bc*"; "a*c*b*";
              "a*cb*"; "b*c"; "b*c*"; "bc*"]%string.

Definition impossible_patterns : list str :=
  map str_of ["a*bc"; "a*c"; "ab*c"; "ac*"; "ac*b"; "ac*b*"; "acb*"]%string.

Definition patt_in (patt : str) (l : list str) : bool :=
  existsb (str_eqb patt) l.

Definition patt_is (patt : str) (s : string) : bool := str_eqb patt (str_of s).

(** [cyc = Cycle(newlist); result.add(cyc); new_cycles.add(cyc)] *)
Definition add_new (res new_cycles : list Cycle) (newlist : list Z)
  : result (list Cycle * list Cycle) :=
  let* cyc := Cycle_init newlist in
  Ok (set_add cyc res, set_add cyc new_cycles).

(** The two cycles that the split of the cycle at [c] gives, added to
    both sets. *)
Definition add_split (res new_cycles : list Cycle) (vl : list Z) (start c : Z)
  : result (list Cycle * list Cycle) :=
  let '(newlist1, newlist2) := split_at vl start c in
  let* cyc1 := Cycle_init newlist1 in
  let* cyc2 := Cycle_init newlist2 in
  Ok (set_add cyc2 (set_add cyc1 res), set_add cyc2 (set_add cyc1 new_cycles)).

(** The branch of [apply_move_edge] taken for one cycle; the state is
    [(result, new_cycles)]. *)
Definition move_one (a b c : Z) (st : list Cycle * list Cycle) (cycle : Cycle)
  : result (list Cycle * list Cycle) :=
  let '(res, new_cycles) := st in
  let vl := vlist cycle in
  let '(ai, bi, ci) := get_index vl a b c in
  let patt := get_pattern vl a b c in
  if patt_is patt "a*b" then
    add_new res new_cycles (slice_to vl (bi + 1) ++ [c] ++ slice_from vl (bi + 1))
  else if patt_is patt "a*c*" then
    add_split (set_add cycle res) new_cycles vl ai c
  else if patt_is patt "a*c*b" then add_split res new_cycles vl ai c
  else if patt_is patt "a*cb" then
    add_new res new_cycles (slice_to vl bi ++ slice_from vl (bi + 1))
  else if patt_is patt "ab*" then
    add_new res new_cycles (slice_to vl (ai + 1) ++ [c] ++ slice_from vl (ai + 1))
  else if patt_is patt "ab*c*" then add_split res new_cycles vl bi c
  else if patt_is patt "abc*" then
    add_new res new_cycles (slice_to vl bi ++ slice_from vl (bi + 1))
  else if patt_in patt passthrough_patterns then Ok (set_add cycle res, new_cycles)
  else if patt_in patt impossible_patterns then
    Raise (ValueError "Impossible pattern encountered in cycle")
  else Raise (ValueError "Unexpected pattern encountered in cycle").

(** [while j != stop: newlist.append(vlist[j]); j = (j + inc) % n] *)
Fixpoint walk (fuel : nat) (vl : list Z) (n inc j stop : Z) (newlist : list Z)
  : result (list Z) :=
  if j =? stop then Ok newlist
  else
    match fuel with
    | O => Hang
    | S fuel' =>
        walk fuel' vl n inc ((j + inc) mod n) stop (newlist ++ [item vl j])
    end.

Definition mem (x : Z) (l : list Z) : bool := existsb (Z.eqb x) l.

(** [set(l1) & set(l2) == {x}] *)
Definition meet_only_at (l1 l2 : list Z) (x : Z) : bool :=
  mem x l1 && mem x l2 && forallb (fun y => negb (mem y l2) || (y =? x)) l1.

(** The body of the two nested loops over pairs of cycles. *)
Definition stitch_pair (a b c : Z) (cyc1 cyc2 : Cycle) (res : list Cycle)
  : result (list Cycle) :=
  if negb (meet_only_at (vlist cyc1) (vlist cyc2) b) then Ok res
  else
    let n1 := len (vlist cyc1) in
    let '(ai1, bi1, ci1) := get_index (vlist cyc1) a b c in
    let patt1 := get_pattern (vlist cyc1) a b c in
    if negb (patt_in patt1 (map str_of ["ab*"; "a*b"]%string)) then Ok res
    else
      let n2 := len (vlist cyc2) in
      let '(ai2, bi2, ci2) := get_index (vlist cyc2) a b c in
      let patt2 := get_pattern (vlist cyc2) a b c in
      if negb (patt_in patt2 (map str_of ["b*c"; "bc*"]%string)) then Ok res
      else
        let j := ai1 + 0 in
        let inc := if item (vlist cyc1) ((j + 1) mod n1) =? b then -1 else 1 in
        let* newlist := walk (length (vlist cyc1)) (vlist cyc1) n1 inc j bi1 [] in
        let j := bi2 + 0 in
        let inc := if item (vlist cyc2) ((j + 1) mod n2) =? c then -1 else 1 in
        let* newlist := walk (length (vlist cyc2)) (vlist cyc2) n2 inc j ci2 newlist in
        let newlist := newlist ++ [c] in
        let* cyc := Cycle_init newlist in
        Ok (set_add cyc res).

(** The two nested loops over the pairs of input cycles. *)
Definition stitch_all (cs : list Cycle) (a b c : Z) (res : list Cycle)
  : result (list Cycle) :=
  foldM (fun res cyc1 =>
           foldM (fun res cyc2 => stitch_pair a b c cyc1 cyc2 res) cs res)
        cs res.

(** One round of the loop over the cycles.  The stitching loops stand
    inside that loop in the source, so they run after each cycle is
    rewritten. *)
Definition move_step (cs : list Cycle) (a b c : Z)
  (st : list Cycle * list Cycle) (cycle : Cycle)
  : result (list Cycle * list Cycle) :=
  let* '(res, new_cycles) := move_one a b c st cycle in
  let* res := stitch_all cs a b c res in
  Ok (res, new_cycles).

Definition apply_move_edge (cs : list Cycle) (a b c : Z) : result (list Cycle) :=
  let* '(res, _) := foldM (move_step cs a b c) cs ([], []) in
  Ok res.

(** *** Chording paths *)

Definition edge : Type := (Z * Z)%type.

Definition edge_lies_along_cycle (cycle : Cycle) (vp : edge) : bool :=
  let '(v1, v2) := vp in
  let vl := vlist cycle in
  let n := len vl in
  existsb (fun i => is_pair (item vl i) (item vl ((i + 1) mod n)) v1 v2) (range n).

Definition edge_lies_along_path (path : list Z) (vp : edge) : bool :=
  let '(v1, v2) := vp in
  existsb (fun i => is_pair (item path i) (item path (i + 1)) v1 v2)
          (range (len path - 1)).

(** An igraph graph is kept as the adjacency matrix it was built from. *)
Definition igraph : Type := matrix.

Definition gen_igraph (bg : BXGraph) : result igraph :=
  adj_from_bytes (badj bg) (size bg).

Definition edge_eqb (e f : edge) : bool :=
  (fst e =? fst f) && (snd e =? snd f).

Definition edge_mem (e : edge) (es : list edge) : bool := existsb (edge_eqb e) es.

Definition is_chording_path_es (cycle : Cycle) (path : list Z)
  (pvs : list Z) (pes : list edge) : bool :=
  let vl := vlist cycle in
  let ncv := count (fun v => mem v pvs) vl in
  if negb (ncv =? 2) then false
  else
    let n := len vl in
    if existsb (fun i => edge_mem (item vl i, item vl ((i + 1) mod n)) pes) (range n)
    then false
    else
      let cvs := vl in
      existsb (fun pe => mem (fst pe) cvs && mem (snd pe) cvs) pes.

Section Oracle.

(** [g.get_all_simple_paths(v1, [v2])] of igraph, an external library. *)
Variable get_all_simple_paths : igraph -> Z -> Z -> list (list Z).

Definition any_chording_paths (bgc : BXGraphCyc) (g : igraph)
  (pairs : list edge) (ignore_edges : list edge) : bool :=
  existsb (fun '(v1, v2) =>
    let paths := get_all_simple_paths g v1 v2 in
    existsb (fun path =>
      if existsb (edge_lies_along_path path) ignore_edges then false
      else
        let pes :=
          map (fun i => (item path i, item path (i + 1))) (range (len path - 1))
          ++ map (fun i => (item path (i + 1), item path i)) (range (len path - 1)) in
        let pvs := path in
        existsb (fun cycle =>
          if existsb (edge_lies_along_cycle cycle) ignore_edges then false
          else is_chording_path_es cycle path pvs pes)
          (cycles bgc))
      paths)
    pairs.

End Oracle.

End cycles.

Import cycles.

(** ** generators.pyx: the extension and coextension rules *)

Module generators.

(** A generator function, run to its end: the children it yields, in
    order, and how it ends ([Ok] when it returns, [Raise e] when [e]
    escapes from it after the children yielded so far). *)
Definition gen (A : Type) : Type := (list BXGraphCyc * result A)%type.

Definition gret {A : Type} (a : A) : gen A := ([], Ok a).

Definition lift {A : Type} (r : result A) : gen A := ([], r).

Definition yield (g : BXGraphCyc) : gen unit := ([g], Ok tt).

Definition gbind {A B : Type} (m : gen A) (k : A -> gen B) : gen B :=
  match m with
  | (ys, Ok a) => let '(zs, r) := k a in (ys ++ zs, r)
  | (ys, Raise e) => (ys, Raise e)
  | (ys, Hang) => (ys, Hang)
  end.

Declare Scope gen_scope.
Delimit Scope gen_scope with gen.

Notation "'do' x '<-' m ';' k" := (gbind m (fun x => k))
  (at level 10, x name, m at level 100, k at level 200) : gen_scope.
Notation "'do' ' p '<-' m ';' k" := (gbind m (fun x => match x with p => k end))
  (at level 10, p pattern, m at level 100, k at level 200) : gen_scope.

Open Scope gen_scope.

(** [for x in xs: body(x)] inside a generator *)
Fixpoint gfor {A : Type} (xs : list A) (body : A -> gen unit) : gen unit :=
  match xs with
  | [] => gret tt
  | x :: rest => do _ <- body x ; gfor rest body
  end.

Definition Transformation_of (name : string) (ops : list Operation) : Transformation :=
  mkTransformation (str_of name) ops.

Definition e1 (bgc : BXGraphCyc) : gen unit :=
  let n := size (graph bgc) in
  gfor (range2 1 n) (fun i =>
    gfor (range i) (fun j =>
      do c <- lift (conn (graph bgc) i j) ;
      if negb c then
        do op <- lift (AddEdge i j) ;
        let tx := Transformation_of "e1" [op] in
        do bg <- lift (apply_transformation (graph bgc) tx) ;
        do cs <- lift (apply_add_edge (cycles bgc) i j (conn (graph bgc))) ;
        do child <- lift (from_bxgraph bg cs) ;
        yield child
      else gret tt)).

Definition _prev_e (bg : BXGraph) : result (option (Z * Z)) :=
  let* last_xform := getitem (elements (history bg)) (-1) in
  if startswith (alg last_xform) (str_of "e") then
    let* op := getitem (ops last_xform) 0 in
    let* i := op_i op in
    let* op := getitem (ops last_xform) 0 in
    let* j := op_j op in
    Ok (Some (i, j))
  else Ok None.

(** One of the two edge additions in the loop of [e2]. *)
Definition e2_try (bgc : BXGraphCyc) (last i : Z) : gen unit :=
  if negb (i =? last) then
    do c <- lift (conn (graph bgc) last i) ;
    if negb c then
      do op <- lift (AddEdge last i) ;
      let tx := Transformation_of "e2" [op] in
      do bg <- lift (apply_transformation (graph bgc) tx) ;
      do cs <- lift (apply_add_edge (cycles bgc) last i (conn (graph bgc))) ;
      do child <- lift (from_bxgraph bg cs) ;
      yield child
    else gret tt
  else gret tt.

Definition e2 (bgc : BXGraphCyc) : gen unit :=
  do last <- lift (_prev_e (graph bgc)) ;
  match last with
  | None => lift (Raise (ValueError "Graph's last transformation must be e?"))
  | Some (last_i, last_j) =>
      let n := size (graph bgc) in
      gfor (range n) (fun i =>
        do _ <- e2_try bgc last_i i ;
        e2_try bgc last_j i)
  end.

Definition _get_typeb_edge (bg : BXGraph) : result (option (Z * Z)) :=
  let els := elements (history bg) in
  if len els >? 0 then
    let* last := getitem els (-1) in
    if startswith (alg last) (str_of "e") then
      let* last := getitem els (-1) in
      let* op := getitem (ops last) 0 in
      let* i := op_i op in
      let* last := getitem els (-1) in
      let* op := getitem (ops last) 0 in
      let* j := op_j op in
      Ok (Some (i, j))
    else Ok None
  else Ok None.

Definition not_in (x : Z) (l : list Z) : bool := negb (mem x l).

Section Oracle.

Variable get_all_simple_paths : igraph -> Z -> Z -> list (list Z).

Let chording := any_chording_paths get_all_simple_paths.

(** Subdivide [(a, b)] by the new vertex [n], then move [(c, b)] to
    [(c, n)]: the edit that [c1] and [c3] share. *)
Definition coextend (bgc : BXGraphCyc) (name : string) (tx_ops : result (list Operation))
  (s1 s2 m1 m2 n : Z) : gen unit :=
  do ops <- lift tx_ops ;
  let tx := Transformation_of name ops in
  do bg <- lift (apply_transformation (graph bgc) tx) ;
  do cs <- lift (apply_subdivide_edge (cycles bgc) s1 s2 n) ;
  do cs <- lift (apply_move_edge cs m1 m2 n) ;
  do child <- lift (from_bxgraph bg cs) ;
  yield child.

(** [[AddVertex(), DelEdge(d1, d2), AddEdge(a1, n), AddEdge(a2, n),
      DelEdge(d3, d4), AddEdge(a3, n)]] *)
Definition six_ops (d1 d2 a1 a2 d3 d4 a3 n : Z) : result (list Operation) :=
  let* e1 := AddEdge a1 n in
  let* e2 := AddEdge a2 n in
  let* e3 := AddEdge a3 n in
  Ok [AddVertex; DelEdge d1 d2; e1; e2; DelEdge d3 d4; e3].

(** One of the two loops of [c1], for the edge taken as [(a, b)]. *)
Definition c1_pass (bgc : BXGraphCyc) (g : igraph) (a b n : Z) : gen unit :=
  gfor (range n) (fun c =>
    if negb (c =? a) && negb (c =? b) then
      do k <- lift (conn (graph bgc) b c) ;
      if k && negb (chording bgc g [(a, c); (a, b)] [(a, b); (b, c)]) then
        coextend bgc "c1" (six_ops a b a b b c c n) a b c b n
      else gret tt
    else gret tt).

Definition c1 (bgc : BXGraphCyc) : gen unit :=
  do e <- lift (_get_typeb_edge (graph bgc)) ;
  match e with
  | None => lift (Raise (ValueError "Algorithm c4 requires an edge added by an e algorithm"))
  | Some (a, b) =>
      do g <- lift (gen_igraph (graph bgc)) ;
      let n := size (graph bgc) in
      do _ <- c1_pass bgc g a b n ;
      c1_pass bgc g b a n
  end.

Definition _find_c1_vertices (bgc : BXGraphCyc)
  : result (option (Z * Z * Z * Z)) :=
  let* last_tx := getitem (elements (history (graph bgc))) (-1) in
  if negb (str_eqb (alg last_tx) (str_of "c1")) then Ok None
  else
    let* o1 := getitem (ops last_tx) 1 in
    let* a := op_i o1 in
    let* o1 := getitem (ops last_tx) 1 in
    let* b := op_j o1 in
    let* o4 := getitem (ops last_tx) 4 in
    let* c := op_j o4 in
    let* o2 := getitem (ops last_tx) 2 in
    let* x := op_j o2 in
    Ok (Some (a, b, c, x)).

Definition c2 (bgc : BXGraphCyc) : gen unit :=
  do c1_vertices <- lift (_find_c1_vertices bgc) ;
  match c1_vertices with
  | Some (a, b, c, x) =>
      do g <- lift (gen_igraph (graph bgc)) ;
      let n := size (graph bgc) in
      gfor (range n) (fun d =>
        if not_in d [a; b; c; x] then
          do k <- lift (conn (graph bgc) a d) ;
          if k && negb (chording bgc g [(a, b); (a, c); (b, d); (c, d)]
                                       [(b, x); (c, x); (a, x); (a, d)]) then
            do _ <- coextend bgc "c2" (six_ops a d a d x a x n) a d x a n ;
            gfor (range n) (fun f =>
              if not_in f [a; b; c; d; x] then
                do k <- lift (conn (graph bgc) a f) ;
                if k && negb (chording bgc g [(f, a); (f, d)]
                                [(f, a); (a, d); (a, x); (x, b); (x, c)]) then
                  coextend bgc "c2"
                    (let* e1 := AddEdge f n in
                     let* e2 := AddEdge a n in
                     let* e3 := AddEdge d n in
                     Ok [AddVertex; DelEdge a f; DelEdge a d; e1; e2; e3])
                    a d f a n
                else gret tt
              else gret tt)
          else gret tt
        else gret tt)
  | None => gret tt
  end.

Definition _find_c3_vertices (bgc : BXGraphCyc) : result (option (Z * Z * Z)) :=
  let els := elements (history (graph bgc)) in
  let* last_tx_1 := getitem els (-1) in
  let* last_tx_2 := getitem els (-2) in
  if negb (startswith (alg last_tx_1) (str_of "e")
           && startswith (alg last_tx_2) (str_of "e")) then Ok None
  else
    let* o := getitem (ops last_tx_1) 0 in
    let* v1 := op_i o in
    let* o := getitem (ops last_tx_1) 0 in
    let* v2 := op_j o in
    let* o := getitem (ops last_tx_2) 0 in
    let* v3 := op_i o in
    let* o := getitem (ops last_tx_2) 0 in
    let* v4 := op_j o in
    if v1 =? v4 then Ok (Some (v2, v1, v3))
    else if v1 =? v3 then Ok (Some (v2, v1, v4))
    else if v2 =? v3 then Ok (Some (v1, v2, v4))
    else if v2 =? v4 then Ok (Some (v1, v2, v3))
    else Ok None.

Definition c3 (bgc : BXGraphCyc) : gen unit :=
  do c3v <- lift (_find_c3_vertices bgc) ;
  match c3v with
  | Some (a, b, c) =>
      let n := size (graph bgc) in
      do g <- lift (gen_igraph (graph bgc)) ;
      if negb (chording bgc g [(a, b); (b, c); (a, c)] [(a, b); (b, c)]) then
        coextend bgc "c3" (six_ops a b a b c b c n) a b c b n
      else gret tt
  | None => gret tt
  end.

End Oracle.

End generators.

Import generators.

(** ** lean_collection.pyx and generate.pyx: one graph per certificate *)

Module lean_collection.

(** The two kinds of output that [open_graph_output_file] hands to the
    writer: a gzip file opened for appending, or the [Dummy] object of
    generate.pyx, whose [write] does nothing. *)
Inductive handle : Type :=
| GzipFile (name : string)
| Dummy.

(** What has been written to the files, in order: the file and the
    text. *)
Definition disk : Type := list (string * string).

Definition newline : string := String (ascii_of_nat 10) EmptyString.

(** [fp.write(s)] *)
Definition write (fp : handle) (s : string) (d : disk) : disk :=
  match fp with
  | GzipFile name => d ++ [(name, s)]
  | Dummy => d
  end.

(** A call that may also fail an [assert]. *)
Inductive outcome (A : Type) : Type :=
| Returns (a : A)
| Throws (e : exn)
| AssertionError
| Diverges.

Arguments Returns {A} a.
Arguments Throws {A} e.
Arguments AssertionError {A}.
Arguments Diverges {A}.

Definition of_result {A : Type} (r : result A) : outcome A :=
  match r with
  | Ok a => Returns a
  | Raise e => Throws e
  | Hang => Diverges
  end.

Section Writer.

(** The graphs, the certificates with their equality, and
    [json.dumps(g.to_bytes_list())]. *)
Variables G cert : Type.
Variable cert_eqb : cert -> cert -> bool.
Variable dumps : G -> result string.

(** [_certs] is a Python set: a list without duplicates here. *)
Record GraphFileWriter : Type := mkGraphFileWriter {
  _certs : list cert;
  _fp : option handle
}.

Definition GraphFileWriter_init : GraphFileWriter := mkGraphFileWriter [] None.

Definition set_file (w : GraphFileWriter) (f : option handle) : GraphFileWriter :=
  mkGraphFileWriter (_certs w) f.

Definition add_graph (w : GraphFileWriter) (d : disk) (g : G) (c : cert)
  : outcome (Z * GraphFileWriter * disk) :=
  match _fp w with
  | None => AssertionError
  | Some fp =>
      if negb (existsb (cert_eqb c) (_certs w)) then
        match of_result (dumps g) with
        | Returns s =>
            let d := write fp (s ++ newline)%string d in
            Returns (1, mkGraphFileWriter (_certs w ++ [c]) (_fp w), d)
        | Throws e => Throws e
        | AssertionError => AssertionError
        | Diverges => Diverges
        end
      else Returns (0, w, d)
  end.

(** [len(writer)] *)
Definition writer_len (w : GraphFileWriter) : Z := len (_certs w).

(** [cert = gen_cert(ge); nadded += dest.add_graph(ge, cert)] for the
    children a rule has yielded, in order. *)
Variable gen_cert : G -> result cert.

Fixpoint add_children (children : list G) (nadded : Z) (w : GraphFileWriter)
  (d : disk) : outcome (Z * GraphFileWriter * disk) :=
  match children with
  | [] => Returns (nadded, w, d)
  | ge :: rest =>
      match of_result (gen_cert ge) with
      | Returns c =>
          match add_graph w d ge c with
          | Returns (k, w, d) => add_children rest (nadded + k) w d
          | Throws e => Throws e
          | AssertionError => AssertionError
          | Diverges => Diverges
          end
      | Throws e => Throws e
      | AssertionError => AssertionError
      | Diverges => Diverges
      end
  end.

(** [generate_graphs(source, inst, dest)]: [source] is the list of the
    graphs read, [alg] the rule of the instruction, run on each graph to
    its end: its children are added as they are yielded, then the error
    it ended with, if any, goes up.  The counter [ng] and the log
    messages have no part in the result. *)
Variable alg : G -> list G * result unit.

Fixpoint generate_graphs_from (source : list G) (nadded : Z) (w : GraphFileWriter)
  (d : disk) : outcome (Z * GraphFileWriter * disk) :=
  match source with
  | [] => Returns (nadded, w, d)
  | g :: rest =>
      let '(children, ending) := alg g in
      match add_children children nadded w d with
      | Returns (nadded, w, d) =>
          match of_result ending with
          | Returns _ => generate_graphs_from rest nadded w d
          | Throws e => Throws e
          | AssertionError => AssertionError
          | Diverges => Diverges
          end
      | Throws e => Throws e
      | AssertionError => AssertionError
      | Diverges => Diverges
      end
  end.

Definition generate_graphs (source : list G) (w : GraphFileWriter) (d : disk)
  : outcome (Z * GraphFileWriter * disk) :=
  generate_graphs_from source 0 w d.

End Writer.

Arguments mkGraphFileWriter {cert}.
Arguments _certs {cert}.
Arguments _fp {cert}.
Arguments GraphFileWriter_init {cert}.
Arguments set_file {cert}.
Arguments writer_len {cert}.
Arguments add_graph {G cert}.
Arguments add_children {G cert}.
Arguments generate_graphs_from {G cert}.
Arguments generate_graphs {G cert}.

End lean_collection.

Import lean_collection.
(** ** nauty_cert.pyx: the certificate of a graph *)

Module nauty_cert.

Section Nauty.

(** pynauty, an external library: its graphs, [pynauty.Graph(n)],
    [g.connect_vertex(v, nbrs)], which changes [g], and
    [pynauty.certificate(g)]. *)
Variables pgraph cert : Type.
Variable Graph : Z -> result pgraph.
Variable connect_vertex : pgraph -> Z -> list Z -> result pgraph.
Variable certificate : pgraph -> result cert.

(** [[j for j in range(i + 1, bg.size) if bg.conn(i, j)]] *)
Definition nbrs_of (bg : BXGraph) (i : Z) : result (list Z) :=
  foldM (fun nbrs j =>
           let* c := conn bg i j in
           Ok (if c then nbrs ++ [j] else nbrs))
        (range2 (i + 1) (size bg)) [].

Definition gen_cert (bg : BXGraph) : result cert :=
  let* g := Graph (size bg) in
  let* g :=
    foldM (fun g i =>
             let* nbrs := nbrs_of bg i in
             if len nbrs >? 0 then connect_vertex g i nbrs else Ok g)
          (range (size bg - 1)) g in
  certificate g.

End Nauty.

End nauty_cert.

Import nauty_cert.
(** ** bx_graph.pyx and cycles.pyx: graphs as the lists kept in files *)

Module graph_lists.

(** [bytes.hex()]: two lower-case digits for each byte. *)
Definition hexdigit (d : Z) : Z := if d <? 10 then 48 + d else 87 + d.

Definition hex (b : bytes) : str :=
  flat_map (fun x => [hexdigit (x / 16); hexdigit (x mod 16)]) b.

(** [bytes.fromhex(s)]: two digits for each byte, of either case; ASCII
    white space is passed over between bytes, and anything else raises
    [ValueError]. *)
Definition hexval (c : Z) : option Z :=
  if (48 <=? c) && (c <=? 57) then Some (c - 48)
  else if (97 <=? c) && (c <=? 102) then Some (c - 87)
  else if (65 <=? c) && (c <=? 70) then Some (c - 55)
  else None.

Definition ascii_space (c : Z) : bool := ((9 <=? c) && (c <=? 13)) || (c =? 32).

Fixpoint fromhex (s : str) : result bytes :=
  match s with
  | [] => Ok []
  | c :: rest =>
      if ascii_space c then fromhex rest
      else
        match hexval c, rest with
        | Some top, c2 :: rest' =>
            match hexval c2 with
            | Some bot =>
                let* bs := fromhex rest' in Ok ((16 * top + bot) :: bs)
            | None => Raise (ValueError "non-hexadecimal number found in fromhex() arg")
            end
        | _, _ => Raise (ValueError "non-hexadecimal number found in fromhex() arg")
        end
  end.

Definition fromhex_value (v : value) : result bytes :=
  match v with
  | VStr s => fromhex s
  | _ => Raise TypeError
  end.

Section Lists.

(** [sys.byteorder], and Python's [int] on a string. *)
Variable order : byteorder.
Variable int_of_str : str -> result Z.

(** [int(x)] *)
Definition py_int (v : value) : result Z :=
  match v with
  | VInt i => Ok i
  | VStr s => int_of_str s
  | VList _ => Raise TypeError
  end.

(** [BXGraph.to_list] *)
Definition BXGraph_to_list (g : BXGraph) : list value :=
  [VList (History_to_list (history g)); VInt (size g); VStr (hex (badj g))].

(** [BXGraph.to_bytes_list] *)
Definition BXGraph_to_bytes_list (g : BXGraph) : result (list value) :=
  let* hb := History_to_bytes order (history g) in
  Ok [VStr (hex hb); VInt (size g); VStr (hex (badj g))].

(** [BXGraphCyc.to_bytes_list] *)
Definition BXGraphCyc_to_bytes_list (bgc : BXGraphCyc) : result (list value) :=
  let* l := BXGraph_to_bytes_list (graph bgc) in
  let* cb := bytes_from_cycle_list order (cycles bgc) in
  Ok (l ++ [VStr (hex cb)]).

Definition graph_from_list (g_list : list value) : result BXGraph :=
  if negb (len g_list =? 3) then
    Raise (ValueError "BXGraph list representation must be of size 3")
  else
    let* x0 := getitem g_list 0 in
    let* h_list := as_list x0 in
    let* history := history_from_list h_list in
    let* x1 := getitem g_list 1 in
    let* size := py_int x1 in
    let* x2 := getitem g_list 2 in
    let* badj := fromhex_value x2 in
    BXGraph_init history size badj.

Definition graph_elements_from_bytes_list (gb_list : list value)
  : result (History * Z * bytes) :=
  let* x0 := getitem gb_list 0 in
  let* hbytes := fromhex_value x0 in
  let* history := history_from_bytes order hbytes in
  let* x1 := getitem gb_list 1 in
  let* size := py_int x1 in
  let* x2 := getitem gb_list 2 in
  let* badj := fromhex_value x2 in
  Ok (history, size, badj).

Definition graph_from_bytes_list (gb_list : list value) : result BXGraph :=
  if negb (len gb_list =? 3) then
    Raise (ValueError "BXGraph list representation must be of size 3")
  else
    let* '(history, size, badj) := graph_elements_from_bytes_list gb_list in
    BXGraph_init history size badj.

Definition graph_cyc_from_bytes_list (gbc_list : list value) : result BXGraphCyc :=
  if negb (len gbc_list =? 4) then
    Raise (ValueError "BXGraphCyc list representation must be of size 4")
  else
    let* '(history, size, badj) := graph_elements_from_bytes_list gbc_list in
    let* x3 := getitem gbc_list 3 in
    let* cb := fromhex_value x3 in
    let* cycles := cycle_list_from_bytes order cb in
    BXGraphCyc_init history size badj cycles.

End Lists.

End graph_lists.

Import graph_lists.
(** * Vocabulary of the specification *)

(** ** Graphs and their history *)

(** The matrix the [k]-th operation of [t] is applied to: the enlarged
    matrix of [g] after the operations before it. *)
Definition state_before (g : BXGraph) (t : Transformation) (k : nat)
  : result matrix :=
  let* adj := ext_adj_from_bytes (badj g) (size g) (count_vertex_ops t) in
  foldM apply_op (firstn k (ops t)) adj.

(** The entries of an adjacency matrix are 0 or 1. *)
Definition bits (adj : matrix) : Prop :=
  Forall (Forall (fun v => v = 0 \/ v = 1)) adj.

(** The graphs the system produces from a root: the seed made by
    [graph_from_root], every result of [apply_transformation] on one of
    them, and its copy made by [BXGraphCyc.from_bxgraph], which the
    rules yield. *)
Inductive produced (r : str) (adj : matrix) : BXGraph -> Prop :=
| produced_root g :
    graph_from_root r adj = Ok g -> produced r adj g
| produced_step g t g' :
    produced r adj g -> apply_transformation g t = Ok g' -> produced r adj g'
| produced_copy g cs c :
    produced r adj g -> from_bxgraph g cs = Ok c -> produced r adj (graph c).

(** A child made from [parent] by one transformation. *)
Definition child_of (parent child : BXGraphCyc) : Prop :=
  exists t bg cs,
    apply_transformation (graph parent) t = Ok bg /\ from_bxgraph bg cs = Ok child.

(** Replaying a history: seed the root graph from its adjacency table
    and apply the recorded transformations in order. *)
Definition replay (adj : matrix) (h : History) : result BXGraph :=
  let* g0 := graph_from_root (root h) adj in
  foldM apply_transformation (elements h) g0.

(** ** The codec *)

(** What the history codec can carry: tags of two ASCII characters,
    counts and vertex ids on two bytes, and operations as their
    constructors build them. *)
Definition u16 (v : Z) : Prop := 0 <= v < 65536.

Definition ascii_tag (s : str) : Prop :=
  exists c1 c2, s = [c1; c2] /\ 0 <= c1 < 128 /\ 0 <= c2 < 128.

Definition op_ok (op : Operation) : Prop :=
  match op with
  | OpAddVertex => True
  | OpAddEdge i j => u16 i /\ u16 j /\ i <> j
  | OpDelEdge i j => u16 i /\ u16 j
  end.

Definition tx_ok (t : Transformation) : Prop :=
  ascii_tag (alg t) /\ len (ops t) < 65536 /\ Forall op_ok (ops t).

Definition hist_ok (h : History) : Prop :=
  ascii_tag (root h) /\ len (elements h) < 65536 /\ Forall tx_ok (elements h).

(** A Cycle value is canonical when it is its own normal form, as every
    value built by [Cycle(...)] is. *)
Definition canonical (c : Cycle) : Prop := Cycle_init (vlist c) = Ok c.

Definition cycle_ok (c : Cycle) : Prop :=
  canonical c /\ len (vlist c) < 4294967296 /\ Forall u16 (vlist c).

(** The bytes of the codec, written as plain functions. *)
Definition digits (order : byteorder) (sz : nat) (v : Z) : bytes :=
  match order with
  | little => le_digits sz v
  | big => rev (le_digits sz v)
  end.

Definition enc_op (order : byteorder) (op : Operation) : bytes :=
  match op with
  | OpAddVertex => [118; 32]
  | OpAddEdge i j => [101; 32] ++ digits order 2 i ++ digits order 2 j
  | OpDelEdge i j => [100; 32] ++ digits order 2 i ++ digits order 2 j
  end.

Definition enc_tx (order : byteorder) (t : Transformation) : bytes :=
  alg t ++ digits order 2 (len (ops t)) ++ concat (map (enc_op order) (ops t)).

Definition enc_hist (order : byteorder) (h : History) : bytes :=
  root h ++ digits order 2 (len (elements h))
         ++ concat (map (enc_tx order) (elements h)).

Definition enc_cycle (order : byteorder) (c : Cycle) : bytes :=
  digits order 4 (len (vlist c)) ++ concat (map (digits order 2) (vlist c)).

(** The round trips as the specification words them, for every history
    and for every list of canonical cycles. *)
Definition history_roundtrip_claim : Prop :=
  forall (order : byteorder) (h : History),
  exists b, History_to_bytes order h = Ok b /\ history_from_bytes order b = Ok h.

Definition cycles_roundtrip_claim : Prop :=
  forall (order : byteorder) (cs : list Cycle),
    Forall canonical cs ->
    exists b out,
      bytes_from_cycle_list order cs = Ok b /\
      cycle_list_from_bytes order b = Ok out /\
      (forall c, In c out <-> In c cs).

(** ** Cycles *)

(** [l[k:] + l[:k]]: the sequence read from position [k] on. *)
Definition rotate (k : nat) (l : list Z) : list Z := skipn k l ++ firstn k l.

(** Two sequences describe the same cyclic sequence when one is a
    rotation of the other or of its reversal. *)
Definition same_cyclic (l1 l2 : list Z) : Prop :=
  exists k, (k < length l1)%nat /\ (l2 = rotate k l1 \/ l2 = rotate k (rev l1)).

(** [x, y] is the pair [v1, v2] in one of its two orientations. *)
Definition is_edge (x y v1 v2 : Z) : Prop :=
  (x = v1 /\ y = v2) \/ (x = v2 /\ y = v1).

(** [v1] and [v2] are cyclic neighbours in the sequence: next to each
    other inside it, or its last and first elements. *)
Definition has_edge (vl : list Z) (v1 v2 : Z) : Prop :=
  (exists pre x y post, vl = pre ++ x :: y :: post /\ is_edge x y v1 v2) \/
  (vl <> [] /\ is_edge (last vl 0) (hd 0 vl) v1 v2).

(** What subdividing the edge [(v1, v2)] by [w] makes of one cycle: the
    cycle itself when it does not hold the edge, else the cycle with
    [w] put between the two neighbours. *)
Inductive subdivided (v1 v2 w : Z) (c : Cycle) : Cycle -> Prop :=
| sub_keep :
    ~ has_edge (vlist c) v1 v2 -> subdivided v1 v2 w c c
| sub_inner pre x y post c' :
    vlist c = pre ++ x :: y :: post -> is_edge x y v1 v2 ->
    Cycle_init (pre ++ x :: w :: y :: post) = Ok c' ->
    subdivided v1 v2 w c c'
| sub_wrap c' :
    vlist c <> [] -> is_edge (last (vlist c) 0) (hd 0 (vlist c)) v1 v2 ->
    Cycle_init (vlist c ++ [w]) = Ok c' ->
    subdivided v1 v2 w c c'.

(** The cycles that [apply_move_edge] neither rewrites nor passes
    through, and the two errors it raises on them. *)
Definition unlisted (a b c : Z) (cyc : Cycle) : bool :=
  negb (patt_in (get_pattern (vlist cyc) a b c)
                (rewrite_patterns ++ passthrough_patterns)).

Definition pattern_error (e : exn) : Prop :=
  e = ValueError "Impossible pattern encountered in cycle" \/
  e = ValueError "Unexpected pattern encountered in cycle".

(** ** Chording paths *)

(** A reference enumeration of the simple paths of a graph given by its
    adjacency matrix, standing for igraph's [get_all_simple_paths]:
    depth first, neighbours in increasing order. *)
Fixpoint paths_from (fuel : nat) (adj : matrix) (target : Z) (trail : list Z) (v : Z)
  : list (list Z) :=
  if v =? target then [rev (v :: trail)]
  else
    match fuel with
    | O => []
    | S fuel' =>
        flat_map (fun w =>
                    if (item (nth (Z.to_nat v) adj []) w =? 1)
                       && negb (mem w (v :: trail))
                    then paths_from fuel' adj target (v :: trail) w
                    else [])
                 (range (len adj))
    end.

Definition all_simple_paths (g : igraph) (v1 v2 : Z) : list (list Z) :=
  if v1 =? v2 then [] else paths_from (length g) g v2 [] v1.

(** [x, y] are consecutive on the path, in that order. *)
Definition path_edge (path : list Z) (x y : Z) : Prop :=
  exists l1 l2, path = l1 ++ x :: y :: l2.

(** The path goes over the edge [e], in one direction or the other. *)
Definition path_traverses (path : list Z) (e : edge) : Prop :=
  exists x y, path_edge path x y /\ is_edge x y (fst e) (snd e).

(** The definition of the specification: no edge of the path lies along
    the cycle and one of them joins two vertices of the cycle. *)
Definition chording_path (cyc : Cycle) (path : list Z) : Prop :=
  (forall x y, path_edge path x y -> ~ has_edge (vlist cyc) x y) /\
  (exists x y, path_edge path x y /\ In x (vlist cyc) /\ In y (vlist cyc)).

(** The test the code makes first: exactly two positions of the cycle
    hold a vertex of the path. *)
Definition meets_twice (cyc : Cycle) (path : list Z) : Prop :=
  count (fun v => mem v path) (vlist cyc) = 2.

(** There are a pair, a path of the oracle for it that goes over no
    ignored edge, and a cycle holding no ignored edge, for which [P]
    holds. *)
Definition some_path_and_cycle (oracle : igraph -> Z -> Z -> list (list Z))
  (bgc : BXGraphCyc) (g : igraph) (pairs ignore_edges : list edge)
  (P : Cycle -> list Z -> Prop) : Prop :=
  exists v1 v2 path cyc,
    In (v1, v2) pairs /\ In path (oracle g v1 v2) /\
    (forall e, In e ignore_edges -> ~ path_traverses path e) /\
    In cyc (cycles bgc) /\
    (forall e, In e ignore_edges -> ~ has_edge (vlist cyc) (fst e) (snd e)) /\
    P cyc path.

(** ** Rules *)

(** [alg.startswith("e")]: the transformation was made by an e-rule. *)
Definition is_e_rule (t : Transformation) : bool :=
  startswith (alg t) (str_of "e").

(** ** Notions used in the proofs *)

(** Every graph comes out of the constructor, which sets [nedge] from
    the other fields. *)
Definition constructed (g : BXGraph) : Prop :=
  BXGraph_init (history g) (size g) (badj g) = Ok g.

(** The index Python reads for [i] in a list of length [m]. *)
Definition norm (m i : Z) : Z := if i <? 0 then i + m else i.

(** The entry of row [a] and column [b], for indices in range. *)
Definition cell (adj : matrix) (a b : Z) : Z :=
  nth (Z.to_nat b) (nth (Z.to_nat a) adj []) 0.

(** [m] rows of length [m]. *)
Definition square (m : Z) (adj : matrix) : Prop :=
  len adj = m /\ Forall (fun row => len row = m) adj.

Definition symmetric (m : Z) (adj : matrix) : Prop :=
  forall a b, 0 <= a < m -> 0 <= b < m -> cell adj a b = cell adj b a.

(** The pairs the loops of [adj_from_bytes] have gone through when they
    reach row [i] and column [j]. *)
Definition covered (i j a b : Z) : Prop :=
  a <> b /\ (Z.max a b < i \/ (Z.max a b = i /\ Z.min a b < j)).

Definition filled (ba : bytes) (n m i j : Z) (adj : matrix) : Prop :=
  square m adj /\
  forall a b, 0 <= a < m -> 0 <= b < m ->
    (covered i j a b ->
     exists c, _are_conn ba n a b = Ok c /\ cell adj a b = if c then 1 else 0) /\
    (~ covered i j a b -> cell adj a b = 0).

(** A rotation or a reflection reads the sequence along [s * j + t],
    with [s] one of 1 and -1. *)
Definition reads (l1 l2 : list Z) (s t : Z) : Prop :=
  length l2 = length l1 /\
  forall j, 0 <= j < len l1 -> item l2 j = item l1 ((s * j + t) mod len l1).

(** [i] is the first position of the least element among the first [m]. *)
Definition least_at (l : list Z) (m i : Z) : Prop :=
  0 <= i < m /\
  (forall j, 0 <= j < m -> item l i <= item l j) /\
  (forall j, 0 <= j < i -> item l i < item l j).

(** The direction [d] chosen by [_arrange_cycle]. *)
Definition direction (l : list Z) (i : Z) : Z :=
  if item l ((i - 1) mod len l) <? item l ((i + 1) mod len l) then -1 else 1.

Definition arranged (l : list Z) (i : Z) : list Z :=
  map (fun j => item l ((i + direction l i * j) mod len l)) (range (len l)).

(** What a symbol of the signature says about the cycle. *)
Definition symbol_sound (vl : list Z) (a b c x : Z) : Prop :=
  (x = 97 /\ In a vl) \/ (x = 98 /\ In b vl /\ b <> a)
  \/ (x = 99 /\ In c vl /\ c <> a /\ c <> b) \/ x = 42.

(** The edges of the path as the code collects them, in both directions. *)
Definition path_edges (path : list Z) : list edge :=
  map (fun i => (item path i, item path (i + 1))) (range (len path - 1))
  ++ map (fun i => (item path (i + 1), item path i)) (range (len path - 1)).

(** ** Notions used for the packed adjacency table *)

(** The offset of row [i] in the packed lower triangle. *)
Definition tri (i : Z) : Z := Z.shiftr (i * (i - 1)) 1.

(** Bit [m] of a byte, as [_are_conn] tests it. *)
Definition bit (byte m : Z) : bool := negb (Z.land byte (item FLAGS m) =? 0).

(** The pairs the loops of [bytes_from_adj] have packed when they reach
    row [i] and column [j], in the state [(ba, bi, k)]. *)
Definition packed (adj : matrix) (i j : Z) (st : list Z * Z * Z) : Prop :=
  let '(ba, bi, k) := st in
  len ba = (tri i + j) / 8 /\ k = (tri i + j) mod 8 /\ 0 <= bi < 2 ^ k /\
  Forall (fun x => 0 <= x < 256) ba /\
  forall a b, 0 <= b < a -> a < i \/ (a = i /\ b < j) ->
    bit (item (ba ++ [bi]) ((tri a + b) / 8)) ((tri a + b) mod 8)
    = (cell adj a b =? 1).

(** The number of pairs [j < i < n] that [f] holds of, counted in the
    order of the loops of [_nedge]. *)
Definition count_lower (f : Z -> Z -> bool) (n : Z) : Z :=
  fold_left (fun acc i =>
               fold_left (fun acc j => if f i j then acc + 1 else acc) (range i) acc)
            (range2 1 n) 0.

(** The entry that stands for the pair [i], [j] in the lower triangle. *)
Definition edge_of (adj : matrix) (i j : Z) : bool :=
  cell adj (Z.max i j) (Z.min i j) =? 1.

(** What an operation does to the adjacency relation. *)
Definition edit (f : Z -> Z -> bool) (op : Operation) : Z -> Z -> bool :=
  match op with
  | OpAddVertex => f
  | OpAddEdge i j => fun a b => if is_pair a b i j then true else f a b
  | OpDelEdge i j => fun a b => if is_pair a b i j then false else f a b
  end.

(** The adjacency relation of a graph, false outside its vertices. *)
Definition adjacent (g : BXGraph) (a b : Z) : bool :=
  match conn g a b with
  | Ok c => c
  | _ => false
  end.

(** Operations that name their vertices from 0 up, not from the end of
    the table as Python's negative indices would. *)
Definition op_nonneg (op : Operation) : Prop :=
  match op with
  | OpAddEdge i j | OpDelEdge i j => 0 <= i /\ 0 <= j
  | OpAddVertex => True
  end.

Definition op_proper (op : Operation) : Prop :=
  match op with
  | OpAddEdge i j | OpDelEdge i j => 0 <= i /\ 0 <= j /\ i <> j
  | OpAddVertex => True
  end.

Definition is_add (op : Operation) : bool :=
  match op with OpAddEdge _ _ => true | _ => false end.

Definition is_del (op : Operation) : bool :=
  match op with OpDelEdge _ _ => true | _ => false end.

(** The table [adj] holds the relation [f] off the diagonal. *)
Definition holds (m : Z) (adj : matrix) (f : Z -> Z -> bool) : Prop :=
  forall a b, 0 <= a < m -> 0 <= b < m -> a <> b -> (cell adj a b =? 1) = f a b.

Definition row_count (f : Z -> Z -> bool) (i y : Z) : Z := count (f i) (range y).

(** The operations can be carried out one after the other on a relation
    over the vertices [0 .. m-1]: an edge is added where there is none
    and deleted where there is one. *)
Fixpoint applicable (m : Z) (f : Z -> Z -> bool) (ops : list Operation) : Prop :=
  match ops with
  | [] => True
  | op :: rest =>
      match op with
      | OpAddVertex => True
      | OpAddEdge i j => i < m /\ j < m /\ f i j = false
      | OpDelEdge i j => i < m /\ j < m /\ f i j = true
      end /\ applicable m (edit f op) rest
  end.

(** The cycles of a graph with cycles name its vertices, none twice. *)
Definition cycles_ok (bgc : BXGraphCyc) : Prop :=
  forall c, In c (cycles bgc) ->
    NoDup (vlist c) /\ forall v, In v (vlist c) -> 0 <= v < size (graph bgc).

(** What [e1] makes of the pair [i], [j]: the parent with that edge
    added under the name [e1], its cycles kept among the new ones. *)
Definition e1_child (bgc : BXGraphCyc) (i j : Z) (child : BXGraphCyc) : Prop :=
  let g := graph bgc in
  let g' := graph child in
  constructed g' /\ size g' = size g /\ nedge g' = nedge g + 1 /\
  history g' = mkHistory (root (history g))
                 (elements (history g) ++
                  [mkTransformation (str_of "e1") [OpAddEdge i j]]) /\
  (forall a b, 0 <= a < size g -> 0 <= b < size g -> a <> b ->
     conn g' a b = Ok (if is_pair a b i j then true else adjacent g a b)) /\
  incl (cycles bgc) (cycles child).


(** What a run of the writer has done between two of its states: [k]
    certificates added behind the old ones, none twice, exactly those of
    [S] that were not there, and as many lines written to the file that
    was set, if it is a real one. *)
Definition admitted {cert : Type} (S : cert -> Prop)
  (w w' : GraphFileWriter cert) (d d' : disk) (k : Z) : Prop :=
  _fp w' = _fp w /\
  (exists added, _certs w' = _certs w ++ added /\ k = len added /\ NoDup added /\
     forall c, In c added <-> ~ In c (_certs w) /\ S c) /\
  match _fp w with
  | Some (GzipFile name) =>
      exists texts, d' = d ++ map (pair name) texts /\ len texts = k
  | _ => d' = d
  end.

(** An edge addition from a vertex to itself, which [AddEdge] refuses. *)
Definition is_loop (op : Operation) : bool :=
  match op with
  | OpAddEdge i j => i =? j
  | _ => false
  end.

Definition has_loop (h : History) : bool :=
  existsb (fun t => existsb is_loop (ops t)) (elements h).

(** A value of a [bytes] object. *)
Definition byte (x : Z) : Prop := 0 <= x < 256.

(** A table with nothing on its diagonal. *)
Definition diag_clear (m : Z) (adj : matrix) : Prop :=
  forall a, 0 <= a < m -> cell adj a a = 0.

(** A history whose edge operations name their vertices from 0 up. *)
Definition hist_nonneg (h : History) : Prop :=
  Forall (fun t => Forall op_nonneg (ops t)) (elements h).

(** What the coextension rules make of a parent: a graph with one more
    vertex and one more edge, reached by one transformation under the
    name of the rule. *)
Definition coext_child (name : string) (bgc child : BXGraphCyc) : Prop :=
  let g := graph bgc in
  let g' := graph child in
  constructed g' /\ size g' = size g + 1 /\ nedge g' = nedge g + 1 /\
  exists tx_ops,
    apply_transformation g (Transformation_of name tx_ops) = Ok g' /\
    history g' = mkHistory (root (history g))
                   (elements (history g) ++ [Transformation_of name tx_ops]).

(** What [e2] makes of the end [l] of the last edge and the vertex [i]:
    the parent with that edge added under the name [e2], its cycles
    kept among the new ones. *)
Definition e2_child (bgc : BXGraphCyc) (l i : Z) (child : BXGraphCyc) : Prop :=
  let g := graph bgc in
  let g' := graph child in
  constructed g' /\ size g' = size g /\ nedge g' = nedge g + 1 /\
  history g' = mkHistory (root (history g))
                 (elements (history g) ++
                  [mkTransformation (str_of "e2") [OpAddEdge l i]]) /\
  (forall a b, 0 <= a < size g -> 0 <= b < size g -> a <> b ->
     conn g' a b = Ok (if is_pair a b l i then true else adjacent g a b)) /\
  incl (cycles bgc) (cycles child).

(** A vertex other than [l] that is not connected to [l]. *)
Definition free (g : BXGraph) (l i : Z) : bool :=
  negb (i =? l) && negb (adjacent g l i).

(** The signatures under which [apply_move_edge] keeps the cycle it
    looks at: those it passes through, and [a*c*], which it keeps
    beside the two cycles it splits it into. *)
Definition kept_patterns : list str := str_of "a*c*" :: passthrough_patterns.

(** A set of cycles that has only been added to. *)
Definition grows (s s' : list Cycle) : Prop :=
  incl s s' /\ (NoDup s -> NoDup s').

(** The bit that stands for the pair [j < i] in the bytes [b]. *)
Definition stored (b : bytes) (i j : Z) : bool :=
  bit (item b ((tri i + j) / 8)) ((tri i + j) mod 8).
(** * Properties *)

(** ** Loops and indexing *)

Section Loops.

Context {A S : Type}.
Variable body : S -> A -> result S.

Lemma foldM_app (xs ys : list A) (st : S) :
  foldM body (xs ++ ys) st = let* st' := foldM body xs st in foldM body ys st'.
Proof.
  revert st; induction xs as [|x xs IH]; intros st; simpl; [reflexivity|].
  destruct (body st x); simpl; auto.
Qed.

Lemma foldM_ok_each (xs : list A) (st st' : S) (x : A) :
  foldM body xs st = Ok st' -> In x xs ->
  exists s1 s2, body s1 x = Ok s2.
Proof.
  revert st; induction xs as [|y xs IH]; intros st H Hin; [contradiction|].
  simpl in H. destruct (body st y) as [s|e|] eqn:E; simpl in H; try discriminate.
  destruct Hin as [->|Hin]; [eauto | eapply IH; eauto].
Qed.

(** An invariant kept by every successful round holds at the end. *)
Lemma foldM_invariant (P : S -> Prop) (xs : list A) (st st' : S) :
  (forall s x s', In x xs -> P s -> body s x = Ok s' -> P s') ->
  P st -> foldM body xs st = Ok st' -> P st'.
Proof.
  revert st; induction xs as [|y xs IH]; intros st Hstep HP H; simpl in H.
  - now inversion H; subst.
  - destruct (body st y) as [s|e|] eqn:E; simpl in H; try discriminate.
    apply (IH s); [ | | exact H].
    + intros s0 x s0' Hx; apply Hstep; now right.
    + apply (Hstep st y s); auto; now left.
Qed.

End Loops.

Lemma fold_left_prefix {A S : Type} (f : S -> A -> S) (P : list A -> S -> Prop)
  (l : list A) (init : S) :
  P [] init ->
  (forall done x st, P done st -> P (done ++ [x]) (f st x)) ->
  P l (fold_left f l init).
Proof.
  intros H0 Hstep. induction l as [|x l IH] using rev_ind; [exact H0|].
  rewrite fold_left_app. simpl. now apply Hstep.
Qed.

Lemma foldM_always_ok {A S : Type} (body : S -> A -> result S) (xs : list A) (st : S) :
  (forall s x, exists s', body s x = Ok s') -> exists st', foldM body xs st = Ok st'.
Proof.
  intros H. revert st. induction xs as [|x xs IH]; intros st; simpl; [eauto|].
  destruct (H st x) as [s' ->]. simpl. apply IH.
Qed.

Lemma in_range2 (a b i : Z) : In i (range2 a b) <-> a <= i < b.
Proof.
  unfold range2. rewrite in_map_iff. split.
  - intros (k & <- & Hk). apply in_seq in Hk. lia.
  - intros H. exists (Z.to_nat (i - a)). split; [lia|]. apply in_seq. lia.
Qed.

Lemma in_range (n i : Z) : In i (range n) <-> 0 <= i < n.
Proof. apply in_range2. Qed.

Lemma range_length (n : Z) : length (range n) = Z.to_nat n.
Proof. unfold range, range2. now rewrite length_map, length_seq, Z.sub_0_r. Qed.

Lemma range2_succ (a b : Z) : a <= b -> range2 a (b + 1) = range2 a b ++ [b].
Proof.
  intros H. unfold range2.
  replace (Z.to_nat (b + 1 - a)) with (S (Z.to_nat (b - a))) by lia.
  rewrite seq_S, map_app. simpl. do 3 f_equal. lia.
Qed.

Lemma foldM_range2_steps {St : Type} (body : St -> Z -> result St)
  (P : Z -> St -> Prop) (a : Z) (k : nat) (st st' : St) :
  P a st ->
  (forall x s s', a <= x < a + Z.of_nat k -> P x s -> body s x = Ok s' -> P (x + 1) s') ->
  foldM body (range2 a (a + Z.of_nat k)) st = Ok st' -> P (a + Z.of_nat k) st'.
Proof.
  intros H0. revert st'. induction k as [|k IH]; intros st' Hstep H.
  - unfold range2 in H. replace (Z.to_nat (a + Z.of_nat 0 - a)) with 0%nat in H by lia.
    simpl in H. inversion H; subst. now replace (a + Z.of_nat 0) with a by lia.
  - replace (a + Z.of_nat (S k)) with (a + Z.of_nat k + 1) in * by lia.
    rewrite range2_succ in H by lia. rewrite foldM_app in H.
    destruct (foldM body (range2 a (a + Z.of_nat k)) st) as [s|e|] eqn:E;
      simpl in H; try discriminate.
    destruct (body s (a + Z.of_nat k)) as [s2|e|] eqn:E2; simpl in H; try discriminate.
    inversion H; subst s2.
    apply (Hstep (a + Z.of_nat k) s st'); [lia| |exact E2].
    apply IH; [|reflexivity].
    intros x s0 s1 Hx. apply Hstep. lia.
Qed.

(** A loop over [range(a, b)] with an invariant on the next value of the
    counter. *)
Lemma foldM_range2 {St : Type} (body : St -> Z -> result St) (P : Z -> St -> Prop)
  (a b : Z) (st st' : St) :
  P a st ->
  (forall x s s', a <= x < b -> P x s -> body s x = Ok s' -> P (x + 1) s') ->
  foldM body (range2 a b) st = Ok st' -> P (Z.max a b) st'.
Proof.
  intros H0 Hstep.
  destruct (Z_le_gt_dec a b) as [Hab|Hab].
  - rewrite Z.max_r by exact Hab.
    replace b with (a + Z.of_nat (Z.to_nat (b - a))) in * by lia.
    now apply foldM_range2_steps.
  - rewrite Z.max_l by lia. unfold range2.
    replace (Z.to_nat (b - a)) with 0%nat by lia. simpl. intros H. now inversion H; subst.
Qed.

Lemma count_acc {A : Type} (p : A -> bool) (xs : list A) (a : Z) :
  fold_left (fun acc x => acc + (if p x then 1 else 0)) xs a = a + count p xs.
Proof.
  unfold count. revert a. induction xs as [|x xs IH]; intros a; simpl; [lia|].
  rewrite IH, (IH (if p x then 1 else 0)). lia.
Qed.

Lemma count_cons {A : Type} (p : A -> bool) (x : A) (xs : list A) :
  count p (x :: xs) = (if p x then 1 else 0) + count p xs.
Proof. unfold count at 1. simpl. now rewrite count_acc. Qed.

Lemma count_pos {A : Type} (p : A -> bool) (xs : list A) :
  0 <= count p xs /\ (1 <= count p xs -> exists x, In x xs /\ p x = true).
Proof.
  induction xs as [|x xs [IH1 IH2]]; [split; [reflexivity|cbv; intros H; now elim H]|].
  rewrite count_cons. destruct (p x) eqn:E.
  - split; [lia|]. intros _. exists x. split; [now left|exact E].
  - split; [lia|]. intros H. destruct IH2 as (y & Hy & Hp); [lia|].
    exists y. split; [now right|exact Hp].
Qed.

(** ** The adjacency query *)

Lemma are_conn_sym (b : bytes) (n i j : Z) : _are_conn b n i j = _are_conn b n j i.
Proof.
  unfold _are_conn.
  destruct (i <? 0) eqn:E1, (i >=? n) eqn:E2, (j <? 0) eqn:E3, (j >=? n) eqn:E4;
    simpl; try reflexivity.
  destruct (Z.eqb_spec i j) as [->|Hne].
  - now rewrite Z.eqb_refl.
  - destruct (Z.eqb_spec j i); [congruence|].
    destruct (i >? j) eqn:G1, (j >? i) eqn:G2; try reflexivity; lia.
Qed.

Lemma are_conn_range (b : bytes) (n i j : Z) :
  ~ (0 <= i < n /\ 0 <= j < n) -> _are_conn b n i j = Raise IndexError.
Proof.
  intros H. unfold _are_conn.
  destruct (i <? 0) eqn:E1, (i >=? n) eqn:E2, (j <? 0) eqn:E3, (j >=? n) eqn:E4;
    simpl; try reflexivity; lia.
Qed.

Lemma are_conn_diag (b : bytes) (n i : Z) :
  0 <= i < n -> _are_conn b n i i = Ok false.
Proof.
  intros H. unfold _are_conn.
  replace (i <? 0) with false by lia. replace (i >=? n) with false by lia.
  simpl. now rewrite Z.eqb_refl.
Qed.

(** The constructor counts the edges by asking [conn] for every pair
    below the diagonal, so it returns only when all of them answer. *)
Lemma nedge_ok_lower (n : Z) (b : bytes) (k : Z) :
  _nedge n b = Ok k ->
  forall i j, 0 <= j < i -> i < n -> exists v, _are_conn b n i j = Ok v.
Proof.
  unfold _nedge. intros H i j Hj Hi.
  destruct (foldM_ok_each _ _ _ _ i H) as (s1 & s2 & Hrow).
  { apply in_range2; lia. }
  destruct (foldM_ok_each _ _ _ _ j Hrow) as (t1 & t2 & Hcell).
  { apply in_range; lia. }
  destruct (_are_conn b n i j) as [v|e|]; simpl in Hcell; try discriminate.
  now exists v.
Qed.

(** C10: on every constructed graph of size n the adjacency query
    answers for all 0 <= i, j < n, with [False] on the diagonal and the
    same answer for (i, j) and (j, i); with i or j outside 0..n-1 it
    raises IndexError. *)
Theorem conn_total_symmetric_guarded (h : History) (n : Z) (b : bytes) (g : BXGraph) :
  BXGraph_init h n b = Ok g ->
  size g = n /\
  (forall i j, 0 <= i < n -> 0 <= j < n ->
     exists v, conn g i j = Ok v /\ conn g j i = Ok v /\ (i = j -> v = false)) /\
  (forall i j, ~ (0 <= i < n /\ 0 <= j < n) -> conn g i j = Raise IndexError).
Proof.
  unfold BXGraph_init. intros H.
  destruct (_nedge n b) as [k|e|] eqn:E; simpl in H; try discriminate.
  inversion H; subst g; clear H. unfold conn; simpl.
  split; [reflexivity|]. split.
  - intros i j Hi Hj.
    destruct (Z.lt_trichotomy i j) as [Hlt|[->|Hgt]].
    + destruct (nedge_ok_lower _ _ _ E j i) as [v Hv]; try lia.
      exists v. rewrite (are_conn_sym b n i j), Hv. repeat split; auto. lia.
    + exists false. rewrite are_conn_diag by lia. auto.
    + destruct (nedge_ok_lower _ _ _ E i j) as [v Hv]; try lia.
      exists v. rewrite (are_conn_sym b n j i), Hv. repeat split; auto. lia.
  - intros i j Hout. now apply are_conn_range.
Qed.

Lemma conn_total_symmetric_guarded_witness :
  exists g, BXGraph_init (mkHistory (str_of "pr") []) 3 [7] = Ok g /\
    size g = 3 /\
    (forall i j, 0 <= i < 3 -> 0 <= j < 3 ->
       exists v, conn g i j = Ok v /\ conn g j i = Ok v /\ (i = j -> v = false)) /\
    (forall i j, ~ (0 <= i < 3 /\ 0 <= j < 3) -> conn g i j = Raise IndexError).
Proof.
  eexists. split; [reflexivity|].
  apply (conn_total_symmetric_guarded (mkHistory (str_of "pr") []) 3 [7]).
  reflexivity.
Defined.
(** ** Applying a transformation *)

Lemma getitem_In {A : Type} (l : list A) (i : Z) (x : A) :
  getitem l i = Ok x -> In x l.
Proof.
  unfold getitem. destruct (_ && _); [|discriminate].
  destruct (nth_error l _) eqn:E; [|discriminate].
  intros H; inversion H; subst. eapply nth_error_In; eauto.
Qed.

Lemma getitem_cases {A : Type} (l : list A) (i : Z) :
  (exists x, getitem l i = Ok x) \/ getitem l i = Raise IndexError.
Proof.
  unfold getitem. destruct (_ && _); [|now right].
  destruct (nth_error l _); [left; eauto | now right].
Qed.

Lemma get2_cases (adj : matrix) (i j : Z) :
  (exists v, get2 adj i j = Ok v) \/ get2 adj i j = Raise IndexError.
Proof.
  unfold get2. destruct (getitem_cases adj i) as [[row ->]| ->]; simpl; [|now right].
  apply getitem_cases.
Qed.

Lemma replace_nth_Forall {A : Type} (P : A -> Prop) (k : nat) (v : A) (l : list A) :
  P v -> Forall P l -> Forall P (replace_nth k v l).
Proof.
  intros Hv H. revert k. induction H as [|x l Hx Hl IH]; intros k; simpl.
  - destruct k; constructor.
  - destruct k; constructor; auto.
Qed.

Lemma setitem_Forall {A : Type} (P : A -> Prop) (l l' : list A) (i : Z) (v : A) :
  P v -> Forall P l -> setitem l i v = Ok l' -> Forall P l'.
Proof.
  unfold setitem. intros Hv Hl. destruct (_ && _); [|discriminate].
  intros H; inversion H; subst. now apply replace_nth_Forall.
Qed.

Lemma set2_bits (adj adj' : matrix) (i j v : Z) :
  v = 0 \/ v = 1 -> bits adj -> set2 adj i j v = Ok adj' -> bits adj'.
Proof.
  unfold set2, bits. intros Hv Hadj H.
  destruct (getitem adj i) as [row|e|] eqn:E; simpl in H; try discriminate.
  destruct (setitem row j v) as [row'|e|] eqn:E'; simpl in H; try discriminate.
  eapply setitem_Forall; [ | exact Hadj | exact H].
  eapply setitem_Forall; [exact Hv | | exact E'].
  apply getitem_In in E. rewrite Forall_forall in Hadj. auto.
Qed.

Lemma get2_bits (adj : matrix) (i j v : Z) :
  bits adj -> get2 adj i j = Ok v -> v = 0 \/ v = 1.
Proof.
  unfold get2, bits. intros Hadj H.
  destruct (getitem adj i) as [row|e|] eqn:E; simpl in H; try discriminate.
  apply getitem_In in E, H. rewrite Forall_forall in Hadj.
  specialize (Hadj _ E). rewrite Forall_forall in Hadj. auto.
Qed.

Lemma zeros_bits (m : Z) : bits (zeros m).
Proof.
  unfold zeros, bits. apply Forall_forall. intros row Hrow.
  apply in_map_iff in Hrow as (_ & <- & _).
  apply Forall_forall. intros v Hv. apply in_map_iff in Hv as (_ & <- & _). auto.
Qed.

Lemma fill_from_bytes_bits (ba : bytes) (n : Z) (adj adj' : matrix) :
  bits adj -> fill_from_bytes ba n adj = Ok adj' -> bits adj'.
Proof.
  unfold fill_from_bytes. intros Hadj H.
  refine (foldM_invariant _ bits _ _ _ _ Hadj H).
  intros s i s' _ Hs Hrow.
  refine (foldM_invariant _ bits _ _ _ _ Hs Hrow).
  intros r j r' _ Hr Hcell.
  destruct (_are_conn ba n i j) as [[|]|e|]; simpl in Hcell; try discriminate.
  - destruct (set2 r i j 1) as [r1|e|] eqn:E1; simpl in Hcell; try discriminate.
    eapply set2_bits; [ | | exact Hcell]; auto. eapply set2_bits; [ | | exact E1]; auto.
  - now inversion Hcell; subst.
Qed.

Lemma apply_op_bits (adj adj' : matrix) (op : Operation) :
  bits adj -> apply_op adj op = Ok adj' -> bits adj'.
Proof.
  intros Hadj H. destruct op as [|i j|i j]; simpl in H.
  - now inversion H; subst.
  - destruct (get2 adj i j) as [a|e|]; simpl in H; try discriminate.
    destruct (a =? 1); try discriminate.
    destruct (set2 adj i j 1) as [r1|e|] eqn:E1; simpl in H; try discriminate.
    eapply set2_bits; [ | | exact H]; auto. eapply set2_bits; [ | | exact E1]; auto.
  - destruct (get2 adj i j) as [a|e|]; simpl in H; try discriminate.
    destruct (a =? 0); try discriminate.
    destruct (set2 adj i j 0) as [r1|e|] eqn:E1; simpl in H; try discriminate.
    eapply set2_bits; [ | | exact H]; auto. eapply set2_bits; [ | | exact E1]; auto.
Qed.

Lemma state_before_bits (g : BXGraph) (t : Transformation) (k : nat) (adj : matrix) :
  state_before g t k = Ok adj -> bits adj.
Proof.
  unfold state_before, ext_adj_from_bytes. intros H.
  destruct (fill_from_bytes _ _ _) as [adj0|e|] eqn:E; simpl in H; try discriminate.
  refine (foldM_invariant _ bits _ _ _ _ _ H).
  - intros s op s' _. apply apply_op_bits.
  - eapply fill_from_bytes_bits; [apply zeros_bits | exact E].
Qed.

(** *** The matrix is square and symmetric *)

Lemma getitem_norm {A : Type} (l : list A) (i : Z) (d : A) :
  (0 <= norm (len l) i < len l ->
   getitem l i = Ok (nth (Z.to_nat (norm (len l) i)) l d)) /\
  (~ 0 <= norm (len l) i < len l -> getitem l i = Raise IndexError).
Proof.
  unfold getitem. fold (norm (len l) i). split; intros H.
  - replace ((0 <=? norm (len l) i) && (norm (len l) i <? len l)) with true
      by (symmetry; apply andb_true_iff; split; [apply Z.leb_le|apply Z.ltb_lt]; lia).
    destruct (nth_error l _) as [x|] eqn:E.
    + now rewrite (nth_error_nth _ _ d E).
    + apply nth_error_None in E. unfold len in *. lia.
  - replace ((0 <=? norm (len l) i) && (norm (len l) i <? len l)) with false; [reflexivity|].
    symmetry. apply andb_false_iff.
    destruct (Z.leb_spec 0 (norm (len l) i)); [right|now left]. apply Z.ltb_ge. lia.
Qed.

Lemma setitem_norm {A : Type} (l : list A) (i : Z) (v : A) :
  (0 <= norm (len l) i < len l ->
   setitem l i v = Ok (replace_nth (Z.to_nat (norm (len l) i)) v l)) /\
  (~ 0 <= norm (len l) i < len l -> setitem l i v = Raise IndexError).
Proof.
  unfold setitem. fold (norm (len l) i). split; intros H.
  - replace ((0 <=? norm (len l) i) && (norm (len l) i <? len l)) with true; [reflexivity|].
    symmetry; apply andb_true_iff; split; [apply Z.leb_le|apply Z.ltb_lt]; lia.
  - replace ((0 <=? norm (len l) i) && (norm (len l) i <? len l)) with false; [reflexivity|].
    symmetry. apply andb_false_iff.
    destruct (Z.leb_spec 0 (norm (len l) i)); [right|now left]. apply Z.ltb_ge. lia.
Qed.

Lemma replace_nth_length {A : Type} (k : nat) (v : A) (l : list A) :
  length (replace_nth k v l) = length l.
Proof.
  revert k. induction l as [|x l IH]; intros k; [now destruct k|].
  destruct k; simpl; [reflexivity|]. now rewrite IH.
Qed.

Lemma replace_nth_nth {A : Type} (k k' : nat) (v d : A) (l : list A) :
  (k < length l)%nat ->
  nth k' (replace_nth k v l) d = if Nat.eqb k' k then v else nth k' l d.
Proof.
  revert k k'. induction l as [|x l IH]; intros k k' H; [simpl in H; lia|].
  destruct k, k'; simpl; try reflexivity.
  apply IH. simpl in H. lia.
Qed.

Lemma square_row (m : Z) (adj : matrix) (a : Z) :
  square m adj -> 0 <= a < m -> len (nth (Z.to_nat a) adj []) = m.
Proof.
  intros [Hl Hr] Ha. rewrite Forall_forall in Hr. apply Hr, nth_In.
  unfold len in Hl. lia.
Qed.

Lemma get2_square (m : Z) (adj : matrix) (i j : Z) :
  square m adj ->
  (0 <= norm m i < m -> 0 <= norm m j < m ->
   get2 adj i j = Ok (cell adj (norm m i) (norm m j))) /\
  (~ (0 <= norm m i < m /\ 0 <= norm m j < m) -> get2 adj i j = Raise IndexError).
Proof.
  intros Hsq. pose proof Hsq as [Hl _]. unfold get2.
  destruct (getitem_norm adj i []) as [Hok Hno]. rewrite Hl in Hok, Hno. split.
  - intros Hi Hj. rewrite (Hok Hi). cbn [bind].
    pose proof (square_row m adj _ Hsq Hi) as Hrow.
    destruct (getitem_norm (nth (Z.to_nat (norm m i)) adj []) j 0) as [Hok' _].
    rewrite Hrow in Hok'. now rewrite (Hok' Hj).
  - intros H.
    assert (Hd : 0 <= norm m i < m \/ ~ 0 <= norm m i < m) by lia.
    destruct Hd as [Hi|Hi]; [|now rewrite (Hno Hi)].
    rewrite (Hok Hi). cbn [bind].
    pose proof (square_row m adj _ Hsq Hi) as Hrow.
    destruct (getitem_norm (nth (Z.to_nat (norm m i)) adj []) j 0) as [_ Hno'].
    rewrite Hrow in Hno'. apply Hno'. tauto.
Qed.

Lemma set2_square (m : Z) (adj : matrix) (i j v : Z) :
  square m adj ->
  (0 <= norm m i < m -> 0 <= norm m j < m ->
   exists adj', set2 adj i j v = Ok adj' /\ square m adj' /\
     forall a b, 0 <= a < m -> 0 <= b < m ->
       cell adj' a b =
       if (a =? norm m i) && (b =? norm m j) then v else cell adj a b) /\
  (~ (0 <= norm m i < m /\ 0 <= norm m j < m) -> set2 adj i j v = Raise IndexError).
Proof.
  intros Hsq. pose proof Hsq as [Hl Hrows]. unfold set2.
  destruct (getitem_norm adj i []) as [Hok Hno]. rewrite Hl in Hok, Hno. split.
  - intros Hi Hj. rewrite (Hok Hi). cbn [bind].
    pose proof (square_row m adj _ Hsq Hi) as Hrow.
    set (row := nth (Z.to_nat (norm m i)) adj []) in *.
    destruct (setitem_norm row j v) as [Hs _]. rewrite Hrow in Hs.
    rewrite (Hs Hj). cbn [bind].
    destruct (setitem_norm adj i (replace_nth (Z.to_nat (norm m j)) v row)) as [Hs' _].
    rewrite Hl in Hs'. rewrite (Hs' Hi).
    eexists. split; [reflexivity|]. split.
    + split; [unfold len; rewrite replace_nth_length; exact Hl|].
      apply replace_nth_Forall; [|exact Hrows].
      unfold len. rewrite replace_nth_length. exact Hrow.
    + intros a b Ha Hb. unfold cell.
      rewrite (replace_nth_nth _ _ _ []) by (unfold len in Hl; lia).
      destruct (Nat.eqb_spec (Z.to_nat a) (Z.to_nat (norm m i))) as [E|E].
      * replace (a =? norm m i) with true by (symmetry; apply Z.eqb_eq; lia).
        rewrite (replace_nth_nth _ _ _ 0) by (unfold len in Hrow; lia).
        destruct (Nat.eqb_spec (Z.to_nat b) (Z.to_nat (norm m j))) as [E'|E'].
        -- replace (b =? norm m j) with true by (symmetry; apply Z.eqb_eq; lia).
           reflexivity.
        -- replace (b =? norm m j) with false by (symmetry; apply Z.eqb_neq; lia).
           simpl. subst row. now rewrite <- E.
      * replace (a =? norm m i) with false by (symmetry; apply Z.eqb_neq; lia).
        reflexivity.
  - intros H.
    assert (Hd : 0 <= norm m i < m \/ ~ 0 <= norm m i < m) by lia.
    destruct Hd as [Hi|Hi]; [|now rewrite (Hno Hi)].
    rewrite (Hok Hi). cbn [bind].
    pose proof (square_row m adj _ Hsq Hi) as Hrow.
    destruct (setitem_norm (nth (Z.to_nat (norm m i)) adj []) j v) as [_ Hs].
    rewrite Hrow in Hs. rewrite Hs by tauto. reflexivity.
Qed.

(** What [adj[i][j] = v; adj[j][i] = v] does. *)
Lemma set2_both (m : Z) (adj adj1 adj2 : matrix) (i j v : Z) :
  square m adj -> set2 adj i j v = Ok adj1 -> set2 adj1 j i v = Ok adj2 ->
  square m adj2 /\ 0 <= norm m i < m /\ 0 <= norm m j < m /\
  forall a b, 0 <= a < m -> 0 <= b < m ->
    cell adj2 a b =
    if ((a =? norm m i) && (b =? norm m j)) || ((a =? norm m j) && (b =? norm m i))
    then v else cell adj a b.
Proof.
  intros Hsq H1 H2.
  destruct (set2_square m adj i j v Hsq) as [Hok Hno].
  assert (Hv : 0 <= norm m i < m /\ 0 <= norm m j < m).
  { assert (Hd : (0 <= norm m i < m /\ 0 <= norm m j < m) \/
                 ~ (0 <= norm m i < m /\ 0 <= norm m j < m)) by lia.
    destruct Hd as [Hd|Hd]; [exact Hd|]. rewrite (Hno Hd) in H1. discriminate. }
  destruct Hv as [Hi Hj].
  destruct (Hok Hi Hj) as (a1 & E1 & Hsq1 & C1). rewrite H1 in E1. inversion E1; subst a1.
  destruct (set2_square m adj1 j i v Hsq1) as [Hok2 _].
  destruct (Hok2 Hj Hi) as (a2 & E2 & Hsq2 & C2). rewrite H2 in E2. inversion E2; subst a2.
  split; [exact Hsq2|]. split; [exact Hi|]. split; [exact Hj|].
  intros a b Ha Hb. rewrite (C2 a b Ha Hb), (C1 a b Ha Hb).
  destruct ((a =? norm m j) && (b =? norm m i)), ((a =? norm m i) && (b =? norm m j));
    reflexivity.
Qed.

Lemma set2_both_symmetric (m : Z) (adj adj1 adj2 : matrix) (i j v : Z) :
  square m adj -> symmetric m adj ->
  set2 adj i j v = Ok adj1 -> set2 adj1 j i v = Ok adj2 ->
  square m adj2 /\ symmetric m adj2.
Proof.
  intros Hsq Hsym H1 H2.
  destruct (set2_both m adj adj1 adj2 i j v Hsq H1 H2) as (Hsq2 & _ & _ & C).
  split; [exact Hsq2|]. intros a b Ha Hb.
  rewrite (C a b Ha Hb), (C b a Hb Ha), (Hsym a b Ha Hb).
  destruct (a =? norm m i), (b =? norm m j), (a =? norm m j), (b =? norm m i); reflexivity.
Qed.

Lemma zeros_square (m : Z) :
  square (Z.max 0 m) (zeros m) /\ forall a b, cell (zeros m) a b = 0.
Proof.
  unfold zeros. split; [split|].
  - unfold len. rewrite length_map, range_length. lia.
  - apply Forall_forall. intros row H. apply in_map_iff in H as (_ & <- & _).
    unfold len. rewrite length_map, range_length. lia.
  - intros a b. unfold cell.
    assert (Hrow : forall (l : list Z) k, nth k (map (fun _ => 0) l) 0 = 0).
    { induction l as [|x l IH]; intros [|k]; simpl; auto. }
    generalize (Z.to_nat a) as k. generalize (range m) at 2 as rows.
    induction rows as [|x rows IH]; intros [|k]; simpl; auto; now destruct (Z.to_nat b).
Qed.

Lemma fill_cell (ba : bytes) (n m i j : Z) (adj adj' : matrix) :
  0 <= j < i -> filled ba n m i j adj ->
  (let* c := _are_conn ba n i j in
   if c then let* adj := set2 adj i j 1 in set2 adj j i 1 else Ok adj) = Ok adj' ->
  filled ba n m i (j + 1) adj'.
Proof.
  intros Hj [Hsq Hc] H.
  destruct (_are_conn ba n i j) as [[|]|e|] eqn:E; cbn [bind] in H; try discriminate.
  - destruct (set2 adj i j 1) as [adj1|e|] eqn:E1; cbn [bind] in H; try discriminate.
    destruct (set2_both m adj adj1 adj' i j 1 Hsq E1 H) as (Hsq' & Hi & Hj' & C).
    assert (Ni : norm m i = i) by (unfold norm; destruct (Z.ltb_spec i 0); lia).
    assert (Nj : norm m j = j) by (unfold norm; destruct (Z.ltb_spec j 0); lia).
    rewrite Ni, Nj in *.
    split; [exact Hsq'|]. intros a b Ha Hb. rewrite (C a b Ha Hb).
    destruct (Hc a b Ha Hb) as [Hcov Hnot].
    destruct (Z.eqb_spec a i) as [Ai|Ai], (Z.eqb_spec b j) as [Bj|Bj],
             (Z.eqb_spec a j) as [Aj|Aj], (Z.eqb_spec b i) as [Bi|Bi]; cbn [andb orb];
      try lia.
    all: try (split; [intros _; exists true; split;
                      [subst; first [exact E | now rewrite are_conn_sym] | reflexivity]
                     | intros N; exfalso; apply N; unfold covered; lia]).
    all: split; [intros Hv; apply Hcov; unfold covered in *; lia
                | intros Hv; apply Hnot; unfold covered in *; lia].
  - inversion H; subst adj'. split; [exact Hsq|]. intros a b Ha Hb.
    destruct (Hc a b Ha Hb) as [Hcov Hnot].
    assert (Hd : (a = i /\ b = j) \/ (a = j /\ b = i) \/
                 ~ ((a = i /\ b = j) \/ (a = j /\ b = i))) by lia.
    destruct Hd as [[-> ->]|[[-> ->]|Hd]].
    + split; [|intros N; exfalso; apply N; unfold covered; lia].
      intros _. exists false. split; [exact E|]. apply Hnot. unfold covered. lia.
    + split; [|intros N; exfalso; apply N; unfold covered; lia].
      intros _. exists false. split; [now rewrite are_conn_sym|].
      apply Hnot. unfold covered. lia.
    + split; [intros Hv; apply Hcov; unfold covered in *; lia
             | intros Hv; apply Hnot; unfold covered in *; lia].
Qed.

Lemma fill_from_bytes_cells (ba : bytes) (n m : Z) (adj : matrix) :
  fill_from_bytes ba n (zeros m) = Ok adj ->
  square (Z.max 0 m) adj /\
  forall a b, 0 <= a < Z.max 0 m -> 0 <= b < Z.max 0 m ->
    (a <> b /\ a < n /\ b < n ->
     exists c, _are_conn ba n a b = Ok c /\ cell adj a b = if c then 1 else 0) /\
    (~ (a <> b /\ a < n /\ b < n) -> cell adj a b = 0).
Proof.
  intros H. unfold fill_from_bytes in H.
  apply (foldM_range2 _ (fun i adj => filled ba n (Z.max 0 m) i 0 adj)) in H.
  - destruct H as [Hsq Hc]. split; [exact Hsq|]. intros a b Ha Hb.
    destruct (Hc a b Ha Hb) as [Hcov Hnot]. split.
    + intros Hv. apply Hcov. unfold covered. lia.
    + intros Hv. apply Hnot. unfold covered. lia.
  - destruct (zeros_square m) as [Hsq Hz]. split; [exact Hsq|].
    intros a b Ha Hb. split; [unfold covered; lia | intros _; apply Hz].
  - intros i s s' Hi Hs Hrow.
    apply (foldM_range2 _ (fun j adj => filled ba n (Z.max 0 m) i j adj)) in Hrow.
    + destruct Hrow as [Hsq Hc]. split; [exact Hsq|]. intros a b Ha Hb.
      destruct (Hc a b Ha Hb) as [Hcov Hnot]. split.
      * intros Hv. apply Hcov. unfold covered in *. lia.
      * intros Hv. apply Hnot. unfold covered in *. lia.
    + exact Hs.
    + intros j r r' Hj Hr Hcell. eapply fill_cell; [|exact Hr|exact Hcell]. lia.
Qed.

Lemma apply_op_symmetric (m : Z) (adj adj' : matrix) (op : Operation) :
  square m adj -> symmetric m adj -> apply_op adj op = Ok adj' ->
  square m adj' /\ symmetric m adj'.
Proof.
  intros Hsq Hsym H. destruct op as [|i j|i j]; simpl in H.
  - now inversion H; subst.
  - destruct (get2 adj i j) as [a|e|]; simpl in H; try discriminate.
    destruct (a =? 1); try discriminate.
    destruct (set2 adj i j 1) as [r1|e|] eqn:E1; simpl in H; try discriminate.
    eapply set2_both_symmetric; eauto.
  - destruct (get2 adj i j) as [a|e|]; simpl in H; try discriminate.
    destruct (a =? 0); try discriminate.
    destruct (set2 adj i j 0) as [r1|e|] eqn:E1; simpl in H; try discriminate.
    eapply set2_both_symmetric; eauto.
Qed.

Lemma state_before_symmetric (g : BXGraph) (t : Transformation) (k : nat)
  (adj : matrix) :
  state_before g t k = Ok adj ->
  let m := Z.max 0 (size g + count_vertex_ops t) in
  square m adj /\ symmetric m adj.
Proof.
  intros H m. unfold state_before, ext_adj_from_bytes in H.
  destruct (fill_from_bytes _ _ _) as [adj0|e|] eqn:E; simpl in H; try discriminate.
  refine (foldM_invariant _ (fun a => square m a /\ symmetric m a) _ _ _ _ _ H).
  - intros s op s' _ [Hs1 Hs2]. now apply apply_op_symmetric.
  - destruct (fill_from_bytes_cells _ _ _ _ E) as [Hsq Hc]. split; [exact Hsq|].
    intros a b Ha Hb.
    destruct (Hc a b Ha Hb) as [H1 H2], (Hc b a Hb Ha) as [H3 H4].
    assert (Hd : (a <> b /\ a < size g /\ b < size g) \/
                 ~ (a <> b /\ a < size g /\ b < size g)) by lia.
    destruct Hd as [Hd|Hd].
    + destruct (H1 Hd) as (c & Ec & ->). destruct H3 as (c' & Ec' & ->); [lia|].
      rewrite are_conn_sym, Ec in Ec'. now inversion Ec'.
    + rewrite (H2 Hd), H4; [reflexivity|lia].
Qed.

(** In every matrix the loop goes through, [adj[i][j]] and [adj[j][i]]
    are the same, with Python's negative indices too. *)
Lemma state_before_get2_sym (g : BXGraph) (t : Transformation) (k : nat)
  (adj : matrix) (i j : Z) :
  state_before g t k = Ok adj -> get2 adj i j = get2 adj j i.
Proof.
  intros H. destruct (state_before_symmetric g t k adj H) as [Hsq Hsym].
  set (m := Z.max 0 (size g + count_vertex_ops t)) in *.
  destruct (get2_square m adj i j Hsq) as [Hok Hno].
  destruct (get2_square m adj j i Hsq) as [Hok' Hno'].
  assert (Hd : (0 <= norm m i < m /\ 0 <= norm m j < m) \/
               ~ (0 <= norm m i < m /\ 0 <= norm m j < m)) by lia.
  destruct Hd as [[Hi Hj]|Hd].
  - rewrite (Hok Hi Hj), (Hok' Hj Hi). f_equal. now apply Hsym.
  - rewrite (Hno Hd), Hno'; [reflexivity|tauto].
Qed.

(** The matrix the first operation meets holds the edges of the graph. *)
Lemma state_before_first (g : BXGraph) (t : Transformation) (adj : matrix) (i j : Z) :
  state_before g t 0 = Ok adj ->
  0 <= i < size g -> 0 <= j < size g -> i <> j ->
  exists c, conn g i j = Ok c /\ get2 adj i j = Ok (if c then 1 else 0).
Proof.
  unfold state_before, ext_adj_from_bytes. intros H Hi Hj Hne.
  destruct (fill_from_bytes _ _ _) as [adj0|e|] eqn:E; simpl in H; try discriminate.
  inversion H; subst adj0.
  destruct (fill_from_bytes_cells _ _ _ _ E) as [Hsq Hc].
  pose proof (proj1 (count_pos (fun tx => str_eqb (code tx) (str_of "v")) (ops t))) as Hn.
  fold (count_vertex_ops t) in Hn.
  set (m := Z.max 0 (size g + count_vertex_ops t)) in *.
  assert (Hi' : 0 <= i < m) by lia. assert (Hj' : 0 <= j < m) by lia.
  destruct (proj1 (Hc i j Hi' Hj')) as (c & Ec & Ecell); [lia|].
  exists c. split; [exact Ec|].
  destruct (get2_square m adj i j Hsq) as [Hok _].
  assert (Ni : norm m i = i) by (unfold norm; destruct (Z.ltb_spec i 0); lia).
  assert (Nj : norm m j = j) by (unfold norm; destruct (Z.ltb_spec j 0); lia).
  rewrite Hok, Ni, Nj, Ecell by lia. reflexivity.
Qed.

(** *** The first impossible edit stops the call *)

(** The loop over the operations stops at the first one that raises. *)
Lemma apply_transformation_raises (g : BXGraph) (t : Transformation) (k : nat)
  (op : Operation) (adj : matrix) (e : exn) :
  nth_error (ops t) k = Some op ->
  state_before g t k = Ok adj ->
  apply_op adj op = Raise e ->
  apply_transformation g t = Raise e.
Proof.
  intros Hk Hst Hop. unfold state_before in Hst. unfold apply_transformation.
  fold (count_vertex_ops t).
  destruct (ext_adj_from_bytes _ _ _) as [adj0|e0|]; simpl in *; try discriminate.
  apply nth_error_split in Hk as (pre & post & Hops & Hlen).
  rewrite Hops in *. rewrite <- Hlen in Hst.
  rewrite firstn_app, firstn_all, Nat.sub_diag in Hst. simpl in Hst.
  rewrite app_nil_r in Hst.
  rewrite foldM_app, Hst. simpl. now rewrite Hop.
Qed.

(** C8: an AddEdge applied where the pair is connected and a DelEdge
    applied where it is not make apply_transformation raise ValueError;
    the matrix holds only 0 and 1, so a pair in range is one or the
    other, and a pair out of range raises IndexError.  Connected is read
    in the matrix at the time of the operation: it is symmetric, and
    before the first operation it holds the edges of the graph. *)
Theorem apply_transformation_rejects_impossible_edits
  (g : BXGraph) (t : Transformation) (k : nat) (i j : Z) (adj : matrix) :
  state_before g t k = Ok adj ->
  (nth_error (ops t) k = Some (OpAddEdge i j) -> get2 adj i j = Ok 1 ->
   apply_transformation g t =
   Raise (ValueError "Attempt to add edge which is already present.")) /\
  (nth_error (ops t) k = Some (OpDelEdge i j) -> get2 adj i j = Ok 0 ->
   apply_transformation g t =
   Raise (ValueError "Attempt to delete edge which is not present.")) /\
  (get2 adj i j = Ok 1 \/ get2 adj i j = Ok 0 \/ get2 adj i j = Raise IndexError) /\
  ((nth_error (ops t) k = Some (OpAddEdge i j) \/
    nth_error (ops t) k = Some (OpDelEdge i j)) ->
   get2 adj i j = Raise IndexError ->
   apply_transformation g t = Raise IndexError) /\
  get2 adj i j = get2 adj j i /\
  (k = 0%nat -> 0 <= i < size g -> 0 <= j < size g -> i <> j ->
   exists c, conn g i j = Ok c /\ get2 adj i j = Ok (if c then 1 else 0)).
Proof.
  intros Hst. split; [|split; [|split; [|split; [|split]]]].
  - intros Hk Hc. eapply apply_transformation_raises; eauto.
    simpl. now rewrite Hc.
  - intros Hk Hc. eapply apply_transformation_raises; eauto.
    simpl. now rewrite Hc.
  - destruct (get2_cases adj i j) as [[v E]|E]; [|auto].
    destruct (get2_bits adj i j v (state_before_bits _ _ _ _ Hst) E) as [->| ->]; auto.
  - intros [Hk|Hk] Hc; eapply apply_transformation_raises; eauto; simpl; now rewrite Hc.
  - eapply state_before_get2_sym; eauto.
  - intros -> Hi Hj Hne. eapply state_before_first; eauto.
Qed.

Lemma apply_transformation_rejects_impossible_edits_witness :
  let g := mkBXGraph (mkHistory (str_of "pr") []) 4 [7] 3 in
  apply_transformation g (mkTransformation (str_of "e1") [OpAddEdge 1 0]) =
    Raise (ValueError "Attempt to add edge which is already present.") /\
  apply_transformation g (mkTransformation (str_of "c1") [OpAddVertex; OpDelEdge 3 0]) =
    Raise (ValueError "Attempt to delete edge which is not present.").
Proof.
  split.
  - apply (proj1 (apply_transformation_rejects_impossible_edits
                    (mkBXGraph (mkHistory (str_of "pr") []) 4 [7] 3)
                    (mkTransformation (str_of "e1") [OpAddEdge 1 0]) 0 1 0
                    [[0; 1; 1; 0]; [1; 0; 1; 0]; [1; 1; 0; 0]; [0; 0; 0; 0]]
                    eq_refl)); reflexivity.
  - apply (proj1 (proj2 (apply_transformation_rejects_impossible_edits
                    (mkBXGraph (mkHistory (str_of "pr") []) 4 [7] 3)
                    (mkTransformation (str_of "c1") [OpAddVertex; OpDelEdge 3 0]) 1 3 0
                    [[0; 1; 1; 0; 0]; [1; 0; 1; 0; 0]; [1; 1; 0; 0; 0];
                     [0; 0; 0; 0; 0]; [0; 0; 0; 0; 0]]
                    eq_refl))); reflexivity.
Defined.
(** ** History as provenance *)

Lemma BXGraph_init_fields (h : History) (n : Z) (b : bytes) (g : BXGraph) :
  BXGraph_init h n b = Ok g ->
  history g = h /\ size g = n /\ badj g = b /\ _nedge n b = Ok (nedge g).
Proof.
  unfold BXGraph_init. destruct (_nedge n b) as [k|e|]; simpl; try discriminate.
  intros H; inversion H; subst; simpl; auto.
Qed.

Lemma BXGraph_init_constructed (h : History) (n : Z) (b : bytes) (g : BXGraph) :
  BXGraph_init h n b = Ok g -> constructed g.
Proof.
  intros H. destruct (BXGraph_init_fields _ _ _ _ H) as (Hh & Hn & Hb & _).
  unfold constructed. now rewrite Hh, Hn, Hb.
Qed.

Lemma apply_transformation_constructed (g g' : BXGraph) (t : Transformation) :
  apply_transformation g t = Ok g' ->
  constructed g' /\
  history g' = mkHistory (root (history g)) (elements (history g) ++ [t]).
Proof.
  unfold apply_transformation. intros H.
  destruct (ext_adj_from_bytes _ _ _) as [a0|e|]; simpl in H; try discriminate.
  destruct (foldM apply_op _ _) as [a1|e|]; simpl in H; try discriminate.
  destruct (bytes_from_adj a1) as [b|e|]; simpl in H; try discriminate.
  split; [eapply BXGraph_init_constructed; eauto|].
  now apply BXGraph_init_fields in H.
Qed.

Lemma from_bxgraph_same (g : BXGraph) (cs : list Cycle) (c : BXGraphCyc) :
  constructed g -> from_bxgraph g cs = Ok c -> graph c = g /\ cycles c = cs.
Proof.
  unfold constructed, from_bxgraph, BXGraphCyc_init. intros -> H. simpl in H.
  now inversion H.
Qed.

Lemma graph_from_root_constructed (r : str) (adj : matrix) (g : BXGraph) :
  graph_from_root r adj = Ok g -> constructed g /\ history g = mkHistory r [].
Proof.
  unfold graph_from_root. intros H.
  destruct (bytes_from_adj adj) as [b|e|]; simpl in H; try discriminate.
  split; [eapply BXGraph_init_constructed; eauto|].
  now apply BXGraph_init_fields in H.
Qed.

Lemma produced_constructed (r : str) (adj : matrix) (g : BXGraph) :
  produced r adj g -> constructed g.
Proof.
  induction 1 as [g H|g t g' _ _ H|g cs c _ IH H].
  - now apply graph_from_root_constructed in H.
  - now apply apply_transformation_constructed in H.
  - now destruct (from_bxgraph_same _ _ _ IH H) as [-> _].
Qed.

(** *** The rules extend a graph through [apply_transformation] only *)

Lemma in_gbind {A B : Type} (m : gen A) (k : A -> gen B) (y : BXGraphCyc) :
  In y (fst (gbind m k)) ->
  In y (fst m) \/ exists a, snd m = Ok a /\ In y (fst (k a)).
Proof.
  destruct m as [ys [a|e|]]; simpl; auto.
  destruct (k a) as [zs r] eqn:E. simpl. rewrite in_app_iff.
  intros [H|H]; [now left|]. right. exists a. rewrite E. auto.
Qed.

Lemma in_gfor {A : Type} (xs : list A) (body : A -> gen unit) (y : BXGraphCyc) :
  In y (fst (gfor xs body)) -> exists x, In x xs /\ In y (fst (body x)).
Proof.
  induction xs as [|x xs IH]; simpl; [contradiction|].
  intros H. apply in_gbind in H as [H|(_ & _ & H)].
  - exists x. auto.
  - destruct (IH H) as (x' & Hx' & Hy). exists x'. auto.
Qed.

Ltac chase H :=
  repeat first
    [ apply in_gbind in H;
      let a := fresh "a" in let Ha := fresh "Ha" in
      destruct H as [H|(a & Ha & H)]; [solve [inversion H] | simpl in Ha]
    | apply in_gfor in H;
      let x := fresh "x" in let Hx := fresh "Hx" in
      destruct H as (x & Hx & H)
    | match type of H with
      | In _ (fst (if ?c then _ else _)) => destruct c
      | In _ (fst (match ?o with Some _ => _ | None => _ end)) => destruct o
      | In _ (fst (let '(_, _) := ?p in _)) => destruct p
      | In _ (fst (gret _)) => solve [inversion H]
      | In _ (fst (lift _)) => solve [inversion H]
      end ].

Lemma yield_child_of (parent child y : BXGraphCyc) (t : Transformation)
  (bg : BXGraph) (cs : list Cycle) :
  apply_transformation (graph parent) t = Ok bg ->
  from_bxgraph bg cs = Ok child ->
  In y (fst (yield child)) -> child_of parent y.
Proof. intros Ht Hc [<-|[]]. exists t, bg, cs. auto. Qed.

Lemma e1_children (parent y : BXGraphCyc) :
  In y (fst (e1 parent)) -> child_of parent y.
Proof.
  unfold e1. intros H. chase H.
  eapply yield_child_of; eauto.
Qed.

Lemma e2_try_children (parent y : BXGraphCyc) (last i : Z) :
  In y (fst (e2_try parent last i)) -> child_of parent y.
Proof.
  unfold e2_try. intros H. chase H.
  eapply yield_child_of; eauto.
Qed.

Lemma e2_children (parent y : BXGraphCyc) :
  In y (fst (e2 parent)) -> child_of parent y.
Proof.
  unfold e2. intros H. chase H.
  all: apply in_gbind in H as [H|(_ & _ & H)]; eapply e2_try_children; eauto.
Qed.

Section RuleChildren.

Variable oracle : igraph -> Z -> Z -> list (list Z).

Lemma coextend_children (parent y : BXGraphCyc) (name : string)
  (tx_ops : result (list Operation)) (s1 s2 m1 m2 n : Z) :
  In y (fst (coextend parent name tx_ops s1 s2 m1 m2 n)) -> child_of parent y.
Proof.
  unfold coextend. intros H. chase H.
  eapply yield_child_of; eauto.
Qed.

Lemma c1_pass_children (parent y : BXGraphCyc) (g : igraph) (a b n : Z) :
  In y (fst (c1_pass oracle parent g a b n)) -> child_of parent y.
Proof.
  unfold c1_pass. intros H. chase H.
  all: first [eapply yield_child_of; solve [eauto] | eapply coextend_children; solve [eauto]].
Qed.

Lemma c1_children (parent y : BXGraphCyc) :
  In y (fst (c1 oracle parent)) -> child_of parent y.
Proof.
  unfold c1. intros H. chase H.
  all: apply in_gbind in H as [H|(_ & _ & H)]; eapply c1_pass_children; eauto.
Qed.

Lemma c2_children (parent y : BXGraphCyc) :
  In y (fst (c2 oracle parent)) -> child_of parent y.
Proof.
  unfold c2. intros H. chase H.
  all: try (apply in_gbind in H as [H|(_ & _ & H)]; [eapply coextend_children; solve [eauto]|]).
  all: chase H.
  all: first [eapply yield_child_of; solve [eauto] | eapply coextend_children; solve [eauto]].
Qed.

Lemma c3_children (parent y : BXGraphCyc) :
  In y (fst (c3 oracle parent)) -> child_of parent y.
Proof.
  unfold c3. intros H. chase H.
  all: first [eapply yield_child_of; solve [eauto] | eapply coextend_children; solve [eauto]].
Qed.

End RuleChildren.

(** Every child that a rule yields on a produced parent is produced. *)
Lemma child_of_produced (r : str) (adj : matrix) (parent child : BXGraphCyc) :
  produced r adj (graph parent) -> child_of parent child ->
  produced r adj (graph child).
Proof.
  intros Hp (t & bg & cs & Ht & Hc).
  eapply produced_copy; [|exact Hc]. eapply produced_step; eauto.
Qed.

Lemma rules_yield_produced (oracle : igraph -> Z -> Z -> list (list Z))
  (r : str) (adj : matrix) (parent child : BXGraphCyc) :
  produced r adj (graph parent) ->
  In child (fst (e1 parent) ++ fst (e2 parent) ++ fst (c1 oracle parent)
            ++ fst (c2 oracle parent) ++ fst (c3 oracle parent)) ->
  produced r adj (graph child).
Proof.
  intros Hp H. apply (child_of_produced r adj parent child Hp).
  rewrite !in_app_iff in H. destruct H as [H|[H|[H|[H|H]]]].
  - now apply e1_children.
  - now apply e2_children.
  - now apply (c1_children oracle).
  - now apply (c2_children oracle).
  - now apply (c3_children oracle).
Qed.

(** C1: replaying the recorded history of a produced graph from the
    adjacency table of its root gives back the graph: the same size and
    the same adjacency bits (and the same history).  The produced graphs
    are the root, what apply_transformation returns on a produced graph
    and the copy BXGraphCyc.from_bxgraph makes; by [rules_yield_produced]
    every child the five rules yield is one of them. *)
Theorem replay_reproduces_graph (r : str) (adj : matrix) (g : BXGraph) :
  produced r adj g ->
  exists g', replay adj (history g) = Ok g' /\
             size g' = size g /\ badj g' = badj g /\ g' = g.
Proof.
  intros Hp. exists g. enough (replay adj (history g) = Ok g) by auto.
  induction Hp as [g H|g t g' Hp IH H|g cs c Hp IH H].
  - unfold replay. destruct (graph_from_root_constructed _ _ _ H) as [_ ->].
    simpl. now rewrite H.
  - unfold replay in *. destruct (apply_transformation_constructed _ _ _ H) as [_ ->].
    simpl. destruct (graph_from_root _ _) as [g0|e|]; simpl in *; try discriminate.
    rewrite foldM_app, IH. simpl. now rewrite H.
  - destruct (from_bxgraph_same _ _ _ (produced_constructed _ _ _ Hp) H) as [E _].
    rewrite E. exact IH.
Qed.

Lemma replay_reproduces_graph_witness :
  let adj := [[0; 1; 1; 0]; [1; 0; 1; 0]; [1; 1; 0; 0]; [0; 0; 0; 0]] in
  let t1 := mkTransformation (str_of "e1") [OpAddEdge 3 0] in
  let t2 := mkTransformation (str_of "c1")
              [OpAddVertex; OpDelEdge 3 0; OpAddEdge 3 4; OpAddEdge 0 4;
               OpDelEdge 0 1; OpAddEdge 1 4] in
  let h := mkHistory (str_of "pr") [t1; t2] in
  let g := mkBXGraph h 5 [198; 2] 5 in
  exists g', replay adj (history g) = Ok g' /\
             size g' = size g /\ badj g' = badj g /\ g' = g.
Proof.
  intros adj t1 t2 h g.
  apply (replay_reproduces_graph (str_of "pr") adj g).
  apply (produced_step _ _ (mkBXGraph (mkHistory (str_of "pr") [t1]) 4 [15] 4) t2);
    [|reflexivity].
  apply (produced_step _ _ (mkBXGraph (mkHistory (str_of "pr") []) 4 [7] 3) t1);
    [|reflexivity].
  apply produced_root. reflexivity.
Defined.
(** ** Sets of cycles *)

Lemma Cycle_eqb_eq (c1 c2 : Cycle) : Cycle_eqb c1 c2 = true <-> c1 = c2.
Proof.
  unfold Cycle_eqb. destruct c1 as [l1], c2 as [l2]; simpl.
  destruct (list_eq_dec Z.eq_dec l1 l2); split; congruence.
Qed.

Lemma set_mem_In (c : Cycle) (s : list Cycle) : set_mem c s = true <-> In c s.
Proof.
  unfold set_mem. rewrite existsb_exists. split.
  - intros (x & Hx & E). apply Cycle_eqb_eq in E. now subst.
  - intros H. exists c. split; [exact H | now apply Cycle_eqb_eq].
Qed.

Lemma set_add_In (c x : Cycle) (s : list Cycle) :
  In x (set_add c s) <-> x = c \/ In x s.
Proof.
  unfold set_add. destruct (set_mem c s) eqn:E.
  - apply set_mem_In in E. split; [auto | intros [->|H]; auto].
  - rewrite in_app_iff. simpl. split; intros H.
    + destruct H as [H|[H|[]]]; auto.
    + destruct H as [->|H]; auto.
Qed.

Lemma set_add_incl (c : Cycle) (s : list Cycle) : incl s (set_add c s).
Proof. intros x Hx. apply set_add_In. now right. Qed.

Lemma set_add_NoDup (c : Cycle) (s : list Cycle) : NoDup s -> NoDup (set_add c s).
Proof.
  intros H. unfold set_add. destruct (set_mem c s) eqn:E; [exact H|].
  apply NoDup_app; [exact H | repeat constructor; intros [] | ].
  intros x Hx [<-|[]]. apply set_mem_In in Hx. congruence.
Qed.

(** ** Lists indexed by integers *)

Lemma len_nonneg {A : Type} (l : list A) : 0 <= len l.
Proof. unfold len. lia. Qed.

Lemma range_succ (m : nat) :
  range (Z.of_nat (S m)) = range (Z.of_nat m) ++ [Z.of_nat m].
Proof.
  unfold range, range2. rewrite !Z.sub_0_r, !Nat2Z.id.
  rewrite seq_S, map_app. reflexivity.
Qed.

Lemma range_len {A : Type} (l : list A) : range (len l) = map Z.of_nat (seq 0 (length l)).
Proof. unfold range, range2, len. now rewrite Z.sub_0_r, Nat2Z.id. Qed.

Lemma item_map_range (f : Z -> Z) (n j : Z) :
  0 <= j < n -> item (map f (range n)) j = f j.
Proof.
  intros H. unfold item, range, range2. rewrite map_map, Z.sub_0_r.
  rewrite (nth_indep _ 0 (f (0 + Z.of_nat 0))) by (rewrite length_map, length_seq; lia).
  rewrite (map_nth (fun k => f (0 + Z.of_nat k))).
  rewrite seq_nth by lia. f_equal. lia.
Qed.

Lemma map_range_length (f : Z -> Z) (n : Z) :
  length (map f (range n)) = Z.to_nat n.
Proof. now rewrite length_map, range_length. Qed.

Lemma list_ext_item (l1 l2 : list Z) :
  length l1 = length l2 ->
  (forall j, 0 <= j < len l1 -> item l1 j = item l2 j) ->
  l1 = l2.
Proof.
  intros Hlen H. apply (nth_ext _ _ 0 0 Hlen). intros k Hk.
  specialize (H (Z.of_nat k)). unfold item, len in H.
  rewrite Nat2Z.id in H. apply H. lia.
Qed.

Lemma map_item_range (l : list Z) : map (item l) (range (len l)) = l.
Proof.
  apply list_ext_item.
  - rewrite map_range_length. unfold len. lia.
  - intros j Hj. unfold len in Hj. rewrite map_range_length in Hj.
    rewrite item_map_range; [reflexivity|]. unfold len. lia.
Qed.

Lemma item_In (l : list Z) (j : Z) : 0 <= j < len l -> In (item l j) l.
Proof. intros H. unfold item. apply nth_In. unfold len in H. lia. Qed.

Lemma In_item (l : list Z) (x : Z) : In x l -> exists j, 0 <= j < len l /\ item l j = x.
Proof.
  intros H. destruct (In_nth _ _ 0 H) as (k & Hk & E).
  exists (Z.of_nat k). unfold item, len. rewrite Nat2Z.id. split; [lia | exact E].
Qed.

Lemma NoDup_item (l : list Z) (i j : Z) :
  NoDup l -> 0 <= i < len l -> 0 <= j < len l -> item l i = item l j -> i = j.
Proof.
  intros Hnd Hi Hj E. unfold item, len in *.
  pose proof (proj1 (NoDup_nth l 0) Hnd (Z.to_nat i) (Z.to_nat j)) as H.
  assert (Z.to_nat i = Z.to_nat j) by (apply H; auto; lia). lia.
Qed.

(** ** Rotations and reflections of a sequence *)

Lemma item_rotate (l : list Z) (k : nat) (j : Z) :
  (k <= length l)%nat -> 0 <= j < len l ->
  item (rotate k l) j = item l ((j + Z.of_nat k) mod len l).
Proof.
  intros Hk Hj. unfold rotate, item, len in *.
  destruct (Z_lt_ge_dec (j + Z.of_nat k) (Z.of_nat (length l))) as [Hlt|Hge].
  - rewrite Z.mod_small by lia.
    rewrite app_nth1 by (rewrite length_skipn; lia).
    rewrite nth_skipn. f_equal. lia.
  - replace ((j + Z.of_nat k) mod Z.of_nat (length l))
      with (j + Z.of_nat k - Z.of_nat (length l)).
    2:{ apply Z.mod_unique with 1; lia. }
    rewrite app_nth2 by (rewrite length_skipn; lia).
    rewrite length_skipn, nth_firstn.
    replace (_ <? _)%nat with true by (symmetry; apply Nat.ltb_lt; lia).
    f_equal. lia.
Qed.

Lemma item_rev (l : list Z) (j : Z) :
  0 <= j < len l -> item (rev l) j = item l (len l - 1 - j).
Proof.
  intros Hj. unfold item, len in *.
  rewrite rev_nth by lia. f_equal. lia.
Qed.

Lemma rotate_length (l : list Z) (k : nat) : length (rotate k l) = length l.
Proof.
  unfold rotate. rewrite length_app, length_skipn, length_firstn. lia.
Qed.

Lemma same_cyclic_reads (l1 l2 : list Z) :
  same_cyclic l1 l2 -> exists s t, (s = 1 \/ s = -1) /\ reads l1 l2 s t.
Proof.
  intros (k & Hk & [->| ->]).
  - exists 1, (Z.of_nat k). split; [auto|]. split; [apply rotate_length|].
    intros j Hj. rewrite item_rotate by (auto; lia). f_equal. f_equal. lia.
  - exists (-1), (len l1 - 1 - Z.of_nat k). split; [auto|]. split.
    + now rewrite rotate_length, length_rev.
    + intros j Hj.
      assert (Hn : 0 < len l1) by lia.
      assert (E : len (rev l1) = len l1) by (unfold len; now rewrite length_rev).
      pose proof (Z.mod_pos_bound (j + Z.of_nat k) (len l1) Hn) as Hb.
      rewrite item_rotate.
      * rewrite E, item_rev by exact Hb.
        f_equal.
        apply Z.mod_unique with (- ((j + Z.of_nat k) / len l1)); [lia|].
        pose proof (Z.div_mod (j + Z.of_nat k) (len l1)). lia.
      * rewrite length_rev. lia.
      * rewrite E. exact Hj.
Qed.

(** ** The canonical form of a cycle *)

Lemma arg_min_prefix (l : list Z) (m : nat) :
  match fold_left (arg_min_step l) (range (Z.of_nat m)) None with
  | None => m = 0%nat
  | Some (mv, i) => mv = item l i /\ least_at l (Z.of_nat m) i
  end.
Proof.
  induction m as [|m IH].
  - reflexivity.
  - rewrite range_succ, fold_left_app. simpl.
    destruct (fold_left _ _ _) as [[mv i]|].
    + destruct IH as (-> & Hi & Hle & Hlt). simpl.
      destruct (Z.ltb_spec (item l (Z.of_nat m)) (item l i)) as [Hnew|Hold].
      * split; [reflexivity|]. repeat split; try lia.
        -- intros j Hj. destruct (Z.eq_dec j (Z.of_nat m)) as [->|Hne]; [lia|].
           specialize (Hle j). lia.
        -- intros j Hj. specialize (Hle j). lia.
      * split; [reflexivity|]. repeat split; try lia.
        -- intros j Hj. destruct (Z.eq_dec j (Z.of_nat m)) as [->|Hne]; [lia|].
           apply Hle. lia.
        -- exact Hlt.
    + subst m. simpl. split; [reflexivity|]. repeat split; try lia.
      intros j Hj. replace j with 0 by lia. reflexivity.
Qed.

Lemma arg_min_spec (l : list Z) :
  match _arg_min l with
  | None => l = []
  | Some i => least_at l (len l) i
  end.
Proof.
  unfold _arg_min.
  pose proof (arg_min_prefix l (length l)) as H. fold (len l) in H.
  destruct (fold_left _ _ _) as [[mv i]|]; simpl.
  - apply H.
  - now apply length_zero_iff_nil.
Qed.

Lemma arrange_formula (l : list Z) (i : Z) :
  _arg_min l = Some i -> _arrange_cycle l = Ok (arranged l i).
Proof.
  intros H. unfold _arrange_cycle. rewrite H. fold (direction l i).
  destruct ((i =? 0) && (direction l i =? 1)) eqn:E; [|reflexivity].
  apply andb_prop in E as [E1 E2]. apply Z.eqb_eq in E1, E2.
  f_equal. unfold arranged. rewrite E2, E1.
  apply list_ext_item.
  - rewrite map_range_length. unfold len. lia.
  - intros j Hj. rewrite item_map_range by exact Hj.
    f_equal. rewrite Z.mod_small; lia.
Qed.

Lemma arrange_ok (l : list Z) :
  l <> [] -> exists i, _arg_min l = Some i /\ least_at l (len l) i /\
                       _arrange_cycle l = Ok (arranged l i).
Proof.
  intros Hne. pose proof (arg_min_spec l) as H.
  destruct (_arg_min l) as [i|] eqn:E; [|contradiction].
  exists i. repeat split; try apply H. now apply arrange_formula.
Qed.

Lemma mod_affine (n s x t : Z) : (s * (x mod n) + t) mod n = (s * x + t) mod n.
Proof.
  rewrite <- Zplus_mod_idemp_l, Zmult_mod_idemp_r.
  now rewrite Zplus_mod_idemp_l.
Qed.

Lemma neighbours_differ (l : list Z) (i : Z) :
  NoDup l -> 3 <= len l ->
  item l ((i - 1) mod len l) <> item l ((i + 1) mod len l).
Proof.
  intros Hnd Hn E.
  apply NoDup_item in E; auto; try (apply Z.mod_pos_bound; lia).
  assert (H : ((i + 1) - (i - 1)) mod len l = 0).
  { rewrite Zminus_mod, E, Z.sub_diag. apply Zmod_0_l. }
  replace (i + 1 - (i - 1)) with 2 in H by lia.
  rewrite Z.mod_small in H; lia.
Qed.

(** What [_arrange_cycle] returns does not depend on where the sequence
    starts nor on its orientation. *)
Lemma arrange_reads (l1 l2 : list Z) (s t : Z) :
  NoDup l1 -> 3 <= len l1 -> s = 1 \/ s = -1 -> reads l1 l2 s t ->
  l1 <> [] /\ l2 <> [] /\ _arrange_cycle l2 = _arrange_cycle l1.
Proof.
  intros Hnd Hn Hs [Hlen Hrd].
  assert (Hn2 : len l2 = len l1) by (unfold len; now rewrite Hlen).
  assert (Hne1 : l1 <> []) by (intros ->; unfold len in Hn; simpl in Hn; lia).
  assert (Hne2 : l2 <> []) by (intros ->; unfold len in *; simpl in *; lia).
  split; [exact Hne1|]. split; [exact Hne2|].
  destruct (arrange_ok l1 Hne1) as (i1 & _ & (Hi1 & Hle1 & _) & ->).
  destruct (arrange_ok l2 Hne2) as (i2 & _ & (Hi2 & Hle2 & _) & ->).
  rewrite Hn2 in Hi2, Hle2. f_equal.
  set (n := len l1) in *.
  assert (Hpos : 0 < n) by lia.
  assert (Hss : s * s = 1) by (destruct Hs; subst; reflexivity).
  (* the least element sits at matching positions *)
  assert (Hk : (s * i2 + t) mod n = i1).
  { apply (NoDup_item l1); auto; try (apply Z.mod_pos_bound; lia).
    apply Z.le_antisymm.
    - rewrite <- Hrd by lia.
      pose proof (Hle2 ((s * (i1 - t)) mod n)
                       (Z.mod_pos_bound _ _ Hpos)) as H.
      rewrite (Hrd ((s * (i1 - t)) mod n)) in H by (apply Z.mod_pos_bound; lia).
      rewrite mod_affine in H.
      replace (s * (s * (i1 - t)) + t) with ((s * s) * (i1 - t) + t) in H by ring.
      rewrite Hss, Z.mul_1_l in H.
      replace (i1 - t + t) with i1 in H by ring.
      rewrite Z.mod_small in H by lia.
      exact H.
    - apply Hle1. apply Z.mod_pos_bound; lia. }
  (* the neighbours of the least element are the same two *)
  assert (Hnb : forall e, item l2 ((i2 + e) mod n) = item l1 ((i1 + s * e) mod n)).
  { intros e. rewrite Hrd by (apply Z.mod_pos_bound; lia).
    rewrite mod_affine. rewrite <- Hk, Zplus_mod_idemp_l.
    f_equal. f_equal. ring. }
  assert (Hd : s * direction l2 i2 = direction l1 i1).
  { unfold direction. rewrite Hn2. fold n.
    replace (i2 - 1) with (i2 + -1) by ring.
    rewrite !Hnb.
    pose proof (neighbours_differ l1 i1 Hnd Hn) as Hne. fold n in Hne.
    destruct Hs; subst s.
    - replace (i1 + 1 * -1) with (i1 - 1) by ring.
      replace (i1 + 1 * 1) with (i1 + 1) by ring.
      destruct (_ <? _); reflexivity.
    - replace (i1 + -1 * -1) with (i1 + 1) by ring.
      replace (i1 + -1 * 1) with (i1 - 1) by ring.
      destruct (Z.ltb_spec (item l1 ((i1 + 1) mod n)) (item l1 ((i1 - 1) mod n)));
        destruct (Z.ltb_spec (item l1 ((i1 - 1) mod n)) (item l1 ((i1 + 1) mod n)));
        try reflexivity; lia. }
  unfold arranged. rewrite Hn2. fold n.
  apply map_ext_in. intros j Hj. apply in_range in Hj.
  rewrite Hrd by (apply Z.mod_pos_bound; lia).
  rewrite mod_affine. rewrite <- Hd, <- Hk, Zplus_mod_idemp_l.
  f_equal. f_equal. ring.
Qed.

Lemma arranged_length (l : list Z) (i : Z) : length (arranged l i) = length l.
Proof. unfold arranged. rewrite map_range_length. unfold len. lia. Qed.

Lemma item_arranged (l : list Z) (i j : Z) :
  0 <= j < len l ->
  item (arranged l i) j = item l ((i + direction l i * j) mod len l).
Proof. intros H. unfold arranged. now rewrite item_map_range. Qed.

Lemma direction_cases (l : list Z) (i : Z) : direction l i = 1 \/ direction l i = -1.
Proof. unfold direction. destruct (_ <? _); auto. Qed.

(** The arranged sequence is the input read from the least element on,
    forwards or backwards. *)
Lemma arranged_same_cyclic (l : list Z) (i : Z) :
  0 <= i < len l -> same_cyclic l (arranged l i).
Proof.
  intros Hi. assert (Hpos : 0 < len l) by lia.
  destruct (direction_cases l i) as [Hd|Hd].
  - exists (Z.to_nat i). split; [unfold len in Hi; lia|]. left.
    apply list_ext_item.
    + now rewrite arranged_length, rotate_length.
    + intros j Hj. unfold len in Hj. rewrite arranged_length in Hj. fold (len l) in Hj.
      rewrite item_arranged, item_rotate, Hd; auto; [|unfold len in Hi; lia].
      f_equal. f_equal. lia.
  - exists (Z.to_nat (len l - 1 - i)). split; [unfold len in *; lia|]. right.
    assert (E : len (rev l) = len l) by (unfold len; now rewrite length_rev).
    apply list_ext_item.
    + now rewrite arranged_length, rotate_length, length_rev.
    + intros j Hj. unfold len in Hj. rewrite arranged_length in Hj. fold (len l) in Hj.
      pose proof (Z.mod_pos_bound (j + Z.of_nat (Z.to_nat (len l - 1 - i))) (len l) Hpos) as Hb.
      rewrite item_arranged, item_rotate, Hd, E; auto.
      2:{ rewrite length_rev. unfold len in *. lia. }
      2:{ now rewrite E. }
      rewrite item_rev by exact Hb. f_equal.
      symmetry.
      apply Z.mod_unique with
        (- ((j + Z.of_nat (Z.to_nat (len l - 1 - i))) / len l)); [lia|].
      pose proof (Z.div_mod (j + Z.of_nat (Z.to_nat (len l - 1 - i))) (len l)). lia.
Qed.

(** C9: two sequences of at least three distinct vertices that are
    rotations or reflections of one another give equal Cycle values; the
    normal form is a rotation or reflection of the input with the least
    vertex in front and, of its two neighbours, the smaller one second;
    and Cycle equality is equality of the normal forms. *)
Theorem cycle_canonical_form (seq1 seq2 : list Z) :
  NoDup seq1 -> (3 <= length seq1)%nat -> same_cyclic seq1 seq2 ->
  exists c1 c2,
    Cycle_init seq1 = Ok c1 /\ Cycle_init seq2 = Ok c2 /\
    Cycle_eqb c1 c2 = true /\
    same_cyclic seq1 (vlist c1) /\
    (forall x, In x seq1 -> item (vlist c1) 0 <= x) /\
    item (vlist c1) 1 < item (vlist c1) (len seq1 - 1) /\
    (forall c c', Cycle_eqb c c' = true <-> vlist c = vlist c').
Proof.
  intros Hnd Hlen Hsame.
  assert (Hn : 3 <= len seq1) by (unfold len; lia).
  destruct (same_cyclic_reads _ _ Hsame) as (s & t & Hs & Hrd).
  destruct (arrange_reads _ _ s t Hnd Hn Hs Hrd) as (Hne1 & _ & E).
  destruct (arrange_ok seq1 Hne1) as (i & _ & (Hi & Hle & _) & Harr).
  exists (mkCycle (arranged seq1 i)), (mkCycle (arranged seq1 i)).
  unfold Cycle_init. rewrite E, Harr. simpl.
  split; [reflexivity|]. split; [reflexivity|].
  split; [now apply Cycle_eqb_eq|].
  split; [now apply arranged_same_cyclic|].
  split; [|split].
  - intros x Hx. rewrite item_arranged by lia.
    rewrite Z.mul_0_r, Z.add_0_r, Z.mod_small by lia.
    apply In_item in Hx as (j & Hj & <-). now apply Hle.
  - rewrite !item_arranged by lia.
    pose proof (neighbours_differ seq1 i Hnd Hn) as Hne.
    assert (Hlast : (i + direction seq1 i * (len seq1 - 1)) mod len seq1
                    = (i - direction seq1 i) mod len seq1).
    { replace (i + direction seq1 i * (len seq1 - 1))
        with (i - direction seq1 i + direction seq1 i * len seq1) by ring.
      apply Z_mod_plus_full. }
    rewrite Hlast, Z.mul_1_r. unfold direction in *.
    destruct (Z.ltb_spec (item seq1 ((i - 1) mod len seq1))
                         (item seq1 ((i + 1) mod len seq1))) as [H|H].
    + replace (i + -1) with (i - 1) by ring.
      replace (i - -1) with (i + 1) by ring. exact H.
    + lia.
  - intros c c'. rewrite Cycle_eqb_eq. destruct c, c'; simpl. split; congruence.
Qed.

Lemma cycle_canonical_form_witness :
  exists c1 c2,
    Cycle_init [4; 1; 7; 2] = Ok c1 /\ Cycle_init [7; 1; 4; 2] = Ok c2 /\
    Cycle_eqb c1 c2 = true /\
    same_cyclic [4; 1; 7; 2] (vlist c1) /\
    (forall x, In x [4; 1; 7; 2] -> item (vlist c1) 0 <= x) /\
    item (vlist c1) 1 < item (vlist c1) (len [4; 1; 7; 2] - 1) /\
    (forall c c', Cycle_eqb c c' = true <-> vlist c = vlist c').
Proof.
  apply (cycle_canonical_form [4; 1; 7; 2] [7; 1; 4; 2]).
  - repeat constructor; simpl; intuition discriminate.
  - simpl. lia.
  - exists 1%nat. split; [simpl; lia|]. right. reflexivity.
Defined.
(** ** Subdividing an edge *)

Lemma is_pair_spec (x y v1 v2 : Z) : is_pair x y v1 v2 = true <-> is_edge x y v1 v2.
Proof. unfold is_pair, is_edge. lia. Qed.

Lemma list_split_nth (l : list Z) (k : nat) :
  (k < length l)%nat -> l = firstn k l ++ nth k l 0 :: skipn (S k) l.
Proof.
  revert k. induction l as [|a l IH]; intros k Hk; simpl in Hk; [lia|].
  destruct k; simpl; [reflexivity|]. f_equal. apply IH. lia.
Qed.

Lemma list_split_nth2 (l : list Z) (k : nat) :
  (S k < length l)%nat ->
  l = firstn k l ++ nth k l 0 :: nth (S k) l 0 :: skipn (S (S k)) l.
Proof.
  revert k. induction l as [|a l IH]; intros k Hk; simpl in Hk; [lia|].
  destruct k.
  - destruct l; simpl in *; [lia | reflexivity].
  - simpl. f_equal. apply IH. lia.
Qed.

Lemma insert_at (l : list Z) (k : nat) (w : Z) :
  (S k < length l)%nat ->
  firstn (S k) l ++ [w] ++ skipn (S k) l =
  firstn k l ++ nth k l 0 :: w :: nth (S k) l 0 :: skipn (S (S k)) l.
Proof.
  revert k. induction l as [|a l IH]; intros k Hk; simpl in Hk; [lia|].
  destruct k.
  - destruct l; simpl in *; [lia | reflexivity].
  - change (a :: firstn (S k) l ++ [w] ++ skipn (S k) l =
            a :: firstn k l ++ nth k l 0 :: w :: nth (S k) l 0 :: skipn (S (S k)) l).
    f_equal. apply IH. lia.
Qed.

Lemma item_app_mid (pre post : list Z) (x : Z) :
  item (pre ++ x :: post) (len pre) = x.
Proof. unfold item, len. rewrite Nat2Z.id. now rewrite nth_middle. Qed.

Lemma item_last (l : list Z) : l <> [] -> item l (len l - 1) = last l 0.
Proof.
  intros H. destruct (exists_last H) as (l' & a & ->).
  rewrite last_last. unfold item, len. rewrite length_app. simpl.
  replace (Z.to_nat _) with (length l') by lia. now rewrite nth_middle.
Qed.

Lemma item_hd (l : list Z) : item l 0 = hd 0 l.
Proof. now destruct l. Qed.

(** [has_edge] is the test that [_divide_pos] runs along the cycle. *)
Lemma has_edge_pos (vl : list Z) (v1 v2 : Z) :
  has_edge vl v1 v2 <->
  exists i, 0 <= i < len vl /\
            is_pair (item vl i) (item vl ((i + 1) mod len vl)) v1 v2 = true.
Proof.
  split.
  - intros [(pre & x & y & post & -> & He)|[Hne He]].
    + exists (len pre).
      assert (Hl : len (pre ++ x :: y :: post) = len pre + 2 + len post).
      { unfold len. rewrite length_app. simpl. lia. }
      pose proof (len_nonneg pre). pose proof (len_nonneg post).
      split; [lia|]. rewrite Z.mod_small by lia.
      rewrite item_app_mid.
      replace (pre ++ x :: y :: post) with ((pre ++ [x]) ++ y :: post)
        by (now rewrite <- app_assoc).
      replace (len pre + 1) with (len (pre ++ [x]))
        by (unfold len; rewrite length_app; simpl; lia).
      rewrite item_app_mid. now apply is_pair_spec.
    + assert (0 < len vl) by (destruct vl; [congruence | unfold len; simpl; lia]).
      exists (len vl - 1). split; [lia|].
      replace (len vl - 1 + 1) with (len vl) by lia.
      rewrite Z_mod_same_full, item_last, item_hd by exact Hne.
      now apply is_pair_spec.
  - intros (i & Hi & Hp). apply is_pair_spec in Hp.
    destruct (Z.eq_dec (i + 1) (len vl)) as [E|E].
    + right. assert (Hne : vl <> []) by (intros ->; unfold len in Hi; simpl in Hi; lia).
      split; [exact Hne|].
      rewrite E, Z_mod_same_full in Hp.
      replace i with (len vl - 1) in Hp by lia.
      now rewrite item_last, item_hd in Hp.
    + left. rewrite Z.mod_small in Hp by lia.
      exists (firstn (Z.to_nat i) vl), (item vl i), (item vl (i + 1)),
             (skipn (S (S (Z.to_nat i))) vl).
      split; [|exact Hp]. unfold item, len in *.
      replace (Z.to_nat (i + 1)) with (S (Z.to_nat i)) by lia.
      apply list_split_nth2. lia.
Qed.

Lemma divide_pos_cases (vl : list Z) (v1 v2 : Z) :
  (_divide_pos vl v1 v2 = -1 /\ ~ has_edge vl v1 v2) \/
  (exists i, _divide_pos vl v1 v2 = i + 1 /\ 0 <= i < len vl /\
             is_pair (item vl i) (item vl ((i + 1) mod len vl)) v1 v2 = true).
Proof.
  unfold _divide_pos.
  destruct (find _ _) as [i|] eqn:E.
  - right. apply find_some in E as [Hin Hp]. apply in_range in Hin. eauto.
  - left. split; [reflexivity|]. rewrite has_edge_pos.
    intros (i & Hi & Hp).
    pose proof (find_none _ _ E i) as H. rewrite in_range in H.
    rewrite H in Hp by exact Hi. discriminate.
Qed.

Lemma clamp_mid {A : Type} (l : list A) (p : Z) :
  0 <= p <= len l -> clamp l p = Z.to_nat p.
Proof.
  intros H. unfold clamp. replace (p <? 0) with false by lia. f_equal. lia.
Qed.

Lemma Cycle_init_ok (l : list Z) :
  l <> [] -> exists i, 0 <= i < len l /\ Cycle_init l = Ok (mkCycle (arranged l i)).
Proof.
  intros H. destruct (arrange_ok l H) as (i & _ & (Hi & _) & E).
  exists i. split; [exact Hi|]. unfold Cycle_init. now rewrite E.
Qed.

Lemma Cycle_init_nonempty (l : list Z) : l <> [] -> exists c, Cycle_init l = Ok c.
Proof. intros H. destruct (Cycle_init_ok l H) as (i & _ & E). eauto. Qed.

Lemma subdivide_round (v1 v2 w : Z) (res : list Cycle) (cycle : Cycle) :
  exists c',
    subdivide_step v1 v2 w res cycle = Ok (set_add c' res) /\
    subdivided v1 v2 w cycle c'.
Proof.
  unfold subdivide_step. cbv zeta.
  destruct (divide_pos_cases (vlist cycle) v1 v2) as [[-> Hno]|(i & -> & Hi & Hp)].
  - exists cycle. split; [reflexivity | now apply sub_keep].
  - replace (i + 1 <? 0) with false by lia.
    destruct (Z.eqb_spec (i + 1) (len (vlist cycle))) as [E|E].
    + destruct (Cycle_init_ok (vlist cycle ++ [w])) as (k & _ & Hc);
        [now destruct (vlist cycle)|].
      eexists. rewrite Hc. simpl. split; [reflexivity|].
      assert (Hne : vlist cycle <> [])
        by (intros E0; rewrite E0 in Hi; unfold len in Hi; simpl in Hi; lia).
      apply sub_wrap; [exact Hne | | exact Hc].
      apply is_pair_spec. rewrite E, Z_mod_same_full in Hp.
      replace i with (len (vlist cycle) - 1) in Hp by lia.
      now rewrite item_last, item_hd in Hp.
    + unfold slice_to, slice_from. rewrite clamp_mid by lia.
      rewrite Z.mod_small in Hp by lia.
      set (vl := vlist cycle) in *.
      assert (Hvl : vl = firstn (Z.to_nat i) vl ++ item vl i :: item vl (i + 1)
                         :: skipn (S (S (Z.to_nat i))) vl).
      { unfold item, len in *.
        replace (Z.to_nat (i + 1)) with (S (Z.to_nat i)) by lia.
        apply list_split_nth2. lia. }
      assert (Hnew : firstn (Z.to_nat (i + 1)) vl ++ [w] ++ skipn (Z.to_nat (i + 1)) vl
                     = firstn (Z.to_nat i) vl ++ item vl i :: w :: item vl (i + 1)
                         :: skipn (S (S (Z.to_nat i))) vl).
      { unfold item, len in *.
        replace (Z.to_nat (i + 1)) with (S (Z.to_nat i)) by lia.
        apply insert_at. lia. }
      rewrite Hnew.
      destruct (Cycle_init_ok (firstn (Z.to_nat i) vl ++ item vl i :: w
                                 :: item vl (i + 1) :: skipn (S (S (Z.to_nat i))) vl))
        as (k & _ & Hc); [now destruct (firstn _ _)|].
      eexists. rewrite Hc. simpl. split; [reflexivity|].
      eapply sub_inner; [exact Hvl | now apply is_pair_spec | exact Hc].
Qed.

Lemma rotate_In (l : list Z) (k : nat) (x : Z) : In x (rotate k l) <-> In x l.
Proof.
  unfold rotate. rewrite in_app_iff.
  pose proof (in_app_iff (firstn k l) (skipn k l) x) as H.
  rewrite firstn_skipn in H. tauto.
Qed.

(** The normal form holds the vertices of the sequence it is made of. *)
Lemma Cycle_init_In (l : list Z) (c : Cycle) (x : Z) :
  Cycle_init l = Ok c -> (In x (vlist c) <-> In x l).
Proof.
  intros H. destruct l as [|a l]; [discriminate|].
  destruct (Cycle_init_ok (a :: l)) as (i & Hi & E); [discriminate|].
  rewrite E in H. inversion H; subst c; cbn [vlist].
  destruct (arranged_same_cyclic (a :: l) i Hi) as (k & _ & [-> | ->]).
  - apply rotate_In.
  - rewrite rotate_In. symmetry. apply in_rev.
Qed.

Lemma subdivide_loop (v1 v2 w : Z) (cs acc : list Cycle) :
  exists out,
    foldM (subdivide_step v1 v2 w)
          cs acc = Ok out /\
    incl acc out /\
    (forall c, In c cs -> exists c', In c' out /\ subdivided v1 v2 w c c') /\
    (forall c', In c' out -> In c' acc \/ exists c, In c cs /\ subdivided v1 v2 w c c').
Proof.
  revert acc. induction cs as [|c cs IH]; intros acc.
  - exists acc. simpl. repeat split; auto using incl_refl. intros c [].
  - destruct (subdivide_round v1 v2 w acc c) as (c1 & E & Hsub).
    destruct (IH (set_add c1 acc)) as (out & Hout & Hincl & Hall & Honly).
    exists out. simpl. rewrite E. simpl. repeat split.
    + exact Hout.
    + intros x Hx. apply Hincl, set_add_In. now right.
    + intros x [<-|Hx]; [|now apply Hall].
      exists c1. split; [|exact Hsub]. apply Hincl, set_add_In. now left.
    + intros x Hx. destruct (Honly x Hx) as [H|(c0 & Hc0 & H)].
      * apply set_add_In in H as [->|H]; [|now left].
        right. exists c. split; [now left | exact Hsub].
      * right. exists c0. split; [now right | exact H].
Qed.

Lemma subdivided_holds_w (v1 v2 w : Z) (c c' : Cycle) :
  subdivided v1 v2 w c c' ->
  (c' = c /\ ~ has_edge (vlist c) v1 v2) \/ In w (vlist c').
Proof.
  intros [Hno|pre x y post c1 _ _ Hc|c1 _ _ Hc].
  - now left.
  - right. apply (Cycle_init_In _ _ w Hc). rewrite in_app_iff. simpl. auto.
  - right. apply (Cycle_init_In _ _ w Hc). rewrite in_app_iff. simpl. auto.
Qed.

(** C4: apply_subdivide_edge returns, for every input cycle, the cycle
    itself when v1 and v2 are not cyclic neighbours in it and else the
    cycle with w put between them, and nothing more; with w on no input
    cycle, no cycle that held the edge is left.  The triangle {0,1,2}
    with the edge (0,1) subdivided by 3 becomes the one cycle
    {0,3,1,2} of length 4. *)
Theorem apply_subdivide_edge_spec :
  (forall (cs : list Cycle) (v1 v2 w : Z),
   exists out,
     apply_subdivide_edge cs v1 v2 w = Ok out /\
     (forall c, In c cs -> exists c', In c' out /\ subdivided v1 v2 w c c') /\
     (forall c, In c cs -> ~ has_edge (vlist c) v1 v2 -> In c out) /\
     (forall c', In c' out -> exists c, In c cs /\ subdivided v1 v2 w c c') /\
     ((forall c, In c cs -> ~ In w (vlist c)) ->
      forall c, In c cs -> has_edge (vlist c) v1 v2 -> ~ In c out)) /\
  (exists tri quad,
     Cycle_init [0; 1; 2] = Ok tri /\ Cycle_init [0; 3; 1; 2] = Ok quad /\
     apply_subdivide_edge [tri] 0 1 3 = Ok [quad] /\
     length (vlist quad) = 4%nat /\ ~ In tri [quad]).
Proof.
  split.
  - intros cs v1 v2 w.
    destruct (subdivide_loop v1 v2 w cs []) as (out & Hout & _ & Hall & Honly).
    exists out. split; [exact Hout|]. split; [exact Hall|]. split; [|split].
    + intros c Hc Hno. destruct (Hall c Hc) as (c' & Hin & Hsub).
      destruct Hsub as [_|pre x y post c1 Hvl He _|c1 Hne He _].
      * exact Hin.
      * exfalso. apply Hno. left. eauto 6.
      * exfalso. apply Hno. right. auto.
    + intros c' Hc'. destruct (Honly c' Hc') as [[]|H]. exact H.
    + intros Hfresh c Hc He Hin.
      destruct (Honly c Hin) as [[]|(c0 & Hc0 & Hsub)].
      destruct (subdivided_holds_w _ _ _ _ _ Hsub) as [[-> Hno]|Hw].
      * now apply Hno.
      * now apply (Hfresh c Hc).
  - exists (mkCycle [0; 1; 2]), (mkCycle [0; 2; 1; 3]).
    repeat split; try reflexivity.
    simpl. intros [H|[]]. discriminate.
Qed.

Lemma apply_subdivide_edge_spec_witness :
  exists out,
    apply_subdivide_edge [mkCycle [0; 1; 2]; mkCycle [1; 2; 4]] 0 1 3 = Ok out /\
    In (mkCycle [1; 2; 4]) out /\ ~ In (mkCycle [0; 1; 2]) out.
Proof.
  destruct (proj1 apply_subdivide_edge_spec
                  [mkCycle [0; 1; 2]; mkCycle [1; 2; 4]] 0 1 3)
    as (out & Hout & _ & Hkeep & _ & Hgone).
  exists out. split; [exact Hout|]. split.
  - apply Hkeep; [simpl; auto|].
    rewrite has_edge_pos. intros (i & Hi & Hp).
    change (len (vlist (mkCycle [1; 2; 4]))) with 3 in *.
    assert (i = 0 \/ i = 1 \/ i = 2) as [->|[->| ->]] by lia; discriminate.
  - apply Hgone.
    + simpl. intros c [<-|[<-|[]]]; simpl; lia.
    + simpl; auto.
    + left. exists [], 0, 1, [2]. split; [reflexivity | left; auto].
Defined.
(** ** Adding an edge *)

Lemma corner_incl (conn : Z -> Z -> result bool) (vl : list Z)
  (i x q y pos : Z) (res res' : list Cycle) :
  corner conn vl i x q y pos res = Ok res' -> incl res res'.
Proof.
  unfold corner. intros H.
  destruct (item vl i =? x); [|inversion H; subst; apply incl_refl].
  destruct (conn _ _) as [[|]|e|]; simpl in H; try discriminate;
    [|inversion H; subst; apply incl_refl].
  destruct (Cycle_init _) as [cyc|e|]; simpl in H; try discriminate.
  inversion H; subst. apply set_add_incl.
Qed.

(** One round of the loop of [apply_add_edge] keeps what was collected
    and adds the cycle it looks at. *)
Lemma add_edge_step_incl (v1 v2 : Z) (conn : Z -> Z -> result bool)
  (res res' : list Cycle) (cycle : Cycle) :
  add_edge_step v1 v2 conn res cycle = Ok res' ->
  incl (set_add cycle res) res'.
Proof.
  unfold add_edge_step. cbv zeta. intros H.
  destruct (_ =? 2).
  - destruct (_splices _ _ _) as [[vl1 vl2]|e|]; simpl in H; try discriminate.
    destruct (Cycle_init vl1) as [c1|e|]; simpl in H; try discriminate.
    destruct (Cycle_init vl2) as [c2|e|]; simpl in H; try discriminate.
    inversion H; subst.
    eapply incl_tran; [apply set_add_incl|]. apply set_add_incl.
  - destruct (_ =? 1); [|inversion H; subst; apply incl_refl].
    refine (foldM_invariant _ (incl (set_add cycle res)) _ _ _ _ (incl_refl _) H).
    intros s i s' _ Hs Hround.
    destruct (corner _ _ _ _ _ _ _ s) as [s1|e|] eqn:E1; simpl in Hround; try discriminate.
    destruct (corner _ _ _ _ _ _ _ s1) as [s2|e|] eqn:E2; simpl in Hround; try discriminate.
    destruct (corner _ _ _ _ _ _ _ s2) as [s3|e|] eqn:E3; simpl in Hround; try discriminate.
    apply corner_incl in E1, E2, E3, Hround.
    repeat (eapply incl_tran; [eassumption|]). apply incl_refl.
Qed.

Lemma apply_add_edge_keeps (cs : list Cycle) (v1 v2 : Z)
  (conn : Z -> Z -> result bool) (acc out : list Cycle) :
  foldM (add_edge_step v1 v2 conn) cs acc = Ok out ->
  incl acc out /\ incl cs out.
Proof.
  revert acc. induction cs as [|c cs IH]; intros acc H.
  - simpl in H. inversion H; subst. split; [apply incl_refl | intros x []].
  - simpl in H.
    destruct (add_edge_step v1 v2 conn acc c) as [s|e|] eqn:E; simpl in H;
      try discriminate.
    apply add_edge_step_incl in E. destruct (IH _ H) as [H1 H2].
    split.
    + intros x Hx. apply H1, E, set_add_In. now right.
    + intros x [<-|Hx]; [|now apply H2]. apply H1, E, set_add_In. now left.
Qed.

(** *** The call returns *)

Lemma count_or {A : Type} (p q : A -> bool) (xs : list A) :
  count (fun v => p v || q v) xs <= count p xs + count q xs.
Proof.
  induction xs as [|x xs IH]; [reflexivity|].
  rewrite !count_cons. cbv beta. destruct (p x), (q x); cbn [orb]; lia.
Qed.

Lemma count_eq_NoDup (a : Z) (xs : list Z) :
  NoDup xs -> count (fun v => v =? a) xs <= 1.
Proof.
  induction 1 as [|x xs Hx Hnd IH]; [cbv; discriminate|].
  rewrite count_cons. destruct (Z.eqb_spec x a) as [->|Hne]; [|lia].
  destruct (count_pos (fun v => v =? a) xs) as [H0 H1].
  destruct (Z_le_gt_dec 1 (count (fun v => v =? a) xs)) as [Hc|Hc]; [|lia].
  destruct (H1 Hc) as (y & Hy & E). apply Z.eqb_eq in E. subst y. contradiction.
Qed.

Lemma count_two (vl : list Z) (v1 v2 : Z) :
  NoDup vl -> count (fun v => (v =? v1) || (v =? v2)) vl = 2 ->
  In v1 vl /\ In v2 vl.
Proof.
  intros Hnd H.
  pose proof (count_or (fun v => v =? v1) (fun v => v =? v2) vl) as Hor.
  cbv beta in Hor. rewrite H in Hor.
  pose proof (count_eq_NoDup v1 vl Hnd) as H1.
  pose proof (count_eq_NoDup v2 vl Hnd) as H2.
  split.
  - destruct (count_pos (fun v => v =? v1) vl) as [_ Hp].
    destruct Hp as (y & Hy & E); [lia|]. apply Z.eqb_eq in E. now subst y.
  - destruct (count_pos (fun v => v =? v2) vl) as [_ Hp].
    destruct Hp as (y & Hy & E); [lia|]. apply Z.eqb_eq in E. now subst y.
Qed.

Lemma index_from_In (l : list Z) (v k : Z) :
  In v l -> exists i, index_from l v k = Ok i.
Proof.
  revert k. induction l as [|x l IH]; intros k H; [contradiction|].
  simpl. destruct (Z.eqb_spec x v) as [E|E]; [eauto|].
  destruct H as [H|H]; [contradiction|]. now apply IH.
Qed.

Lemma range_pos (n : Z) : 0 < n -> exists rest, range n = 0 :: rest.
Proof.
  intros H. unfold range, range2.
  destruct (Z.to_nat (n - 0)) as [|m] eqn:E; [lia|].
  simpl. eauto.
Qed.

Lemma splices_returns (vl : list Z) (v1 v2 : Z) :
  In v1 vl -> In v2 vl ->
  exists vl1 vl2, _splices vl v1 v2 = Ok (vl1, vl2) /\ vl1 <> [] /\ vl2 <> [].
Proof.
  intros H1 H2. unfold _splices, index.
  destruct (index_from_In vl v1 0 H1) as [i1 ->].
  destruct (index_from_In vl v2 0 H2) as [i2 ->]. cbn [bind].
  assert (Hn : 0 < len vl) by (destruct vl; [contradiction|unfold len; simpl; lia]).
  destruct (range_pos _ Hn) as [rest ->]. cbn [fold_left].
  match goal with |- context [fold_left ?f rest ?init] =>
    assert (Hinv : fst (fst (fold_left f rest init)) <> []) end.
  { apply (fold_left_prefix _ (fun _ st => fst (fst st) <> [])).
    - simpl. discriminate.
    - intros done x [[a b] fl] Hst. simpl in *.
      destruct (negb fl); [now destruct a|exact Hst]. }
  match goal with |- context [fold_left ?f rest ?init] =>
    destruct (fold_left f rest init) as [[a b] fl] end.
  simpl in Hinv. exists a, (b ++ [v1]). repeat split; [exact Hinv|now destruct b].
Qed.

Lemma follow_triangle_nonempty (vl : list Z) (i v : Z) :
  vl <> [] -> _follow_triangle vl i v <> [].
Proof.
  intros H. unfold _follow_triangle.
  assert (Hn : 0 < len vl) by (destruct vl; [contradiction|unfold len; simpl; lia]).
  destruct (range_pos _ Hn) as [rest ->]. cbn [fold_left].
  apply (fold_left_prefix _ (fun _ st => st <> [])).
  - destruct (0 =? i); simpl; discriminate.
  - intros done x st Hst. destruct (x =? i); destruct st; simpl; discriminate.
Qed.

Lemma corner_returns (conn : Z -> Z -> result bool) (vl : list Z)
  (i x q y pos : Z) (res : list Cycle) :
  (forall a b, exists c, conn a b = Ok c) -> vl <> [] ->
  exists res', corner conn vl i x q y pos res = Ok res'.
Proof.
  intros Hc Hvl. unfold corner. destruct (item vl i =? x); [|eauto].
  destruct (Hc (item vl q) y) as [[|] ->]; cbn [bind]; [|eauto].
  destruct (Cycle_init_nonempty _ (follow_triangle_nonempty vl pos y Hvl)) as [c ->].
  cbn [bind]. eauto.
Qed.

Lemma add_edge_step_returns (v1 v2 : Z) (conn : Z -> Z -> result bool)
  (res : list Cycle) (cycle : Cycle) :
  (forall a b, exists c, conn a b = Ok c) -> NoDup (vlist cycle) ->
  exists res', add_edge_step v1 v2 conn res cycle = Ok res'.
Proof.
  intros Hc Hnd. unfold add_edge_step. cbv zeta.
  destruct (Z.eqb_spec (count (fun v => (v =? v1) || (v =? v2)) (vlist cycle)) 2) as [E2|E2].
  - destruct (count_two _ _ _ Hnd E2) as [H1 H2].
    destruct (splices_returns _ _ _ H1 H2) as (vl1 & vl2 & -> & N1 & N2). cbn [bind].
    destruct (Cycle_init_nonempty _ N1) as [c1 ->]. cbn [bind].
    destruct (Cycle_init_nonempty _ N2) as [c2 ->]. cbn [bind]. eauto.
  - destruct (Z.eqb_spec (count (fun v => (v =? v1) || (v =? v2)) (vlist cycle)) 1) as [E1|E1];
      [|eauto].
    assert (Hvl : vlist cycle <> []) by (intros E; rewrite E in E1; discriminate).
    apply foldM_always_ok. intros s i.
    destruct (corner_returns conn (vlist cycle) i v1 ((i - 1) mod len (vlist cycle)) v2
                ((i - 1) mod len (vlist cycle)) s Hc Hvl) as [r1 ->]. cbn [bind].
    destruct (corner_returns conn (vlist cycle) i v1 ((i + 1) mod len (vlist cycle)) v2
                i r1 Hc Hvl) as [r2 ->]. cbn [bind].
    destruct (corner_returns conn (vlist cycle) i v2 ((i - 1) mod len (vlist cycle)) v1
                ((i - 1) mod len (vlist cycle)) r2 Hc Hvl) as [r3 ->]. cbn [bind].
    apply corner_returns; assumption.
Qed.

Lemma apply_add_edge_returns (cs : list Cycle) (v1 v2 : Z)
  (conn : Z -> Z -> result bool) :
  (forall a b, exists c, conn a b = Ok c) ->
  (forall c, In c cs -> NoDup (vlist c)) ->
  exists out, apply_add_edge cs v1 v2 conn = Ok out.
Proof.
  intros Hc Hnd. unfold apply_add_edge. generalize (@nil Cycle) as res.
  induction cs as [|c cs IH]; intros res; simpl; [eauto|].
  destruct (add_edge_step_returns v1 v2 conn res c Hc) as [r ->];
    [apply Hnd; now left|].
  cbn [bind]. apply IH. intros c' H. apply Hnd. now right.
Qed.

(** C3: every input cycle is in the output of apply_add_edge, and the
    call returns when no cycle repeats a vertex and the adjacency query
    answers; on the single 4-cycle 0-1-2-3-0 with v1 = 0 and v2 = 2 the
    output is the 4-cycle and the triangles {0,1,2} and {0,2,3}, three
    cycles. *)
Theorem apply_add_edge_retains_and_splits :
  (forall (cs : list Cycle) (v1 v2 : Z) (conn : Z -> Z -> result bool),
     (forall a b, exists c, conn a b = Ok c) ->
     (forall c, In c cs -> NoDup (vlist c)) ->
     exists out, apply_add_edge cs v1 v2 conn = Ok out) /\
  (forall (cs : list Cycle) (v1 v2 : Z) (conn : Z -> Z -> result bool)
          (out : list Cycle),
     apply_add_edge cs v1 v2 conn = Ok out ->
     forall c, In c cs -> In c out) /\
  (forall (conn : Z -> Z -> result bool),
   exists square t1 t2 out,
     Cycle_init [0; 1; 2; 3] = Ok square /\
     Cycle_init [0; 1; 2] = Ok t1 /\
     Cycle_init [0; 2; 3] = Ok t2 /\
     apply_add_edge [square] 0 2 conn = Ok out /\
     length out = 3%nat /\
     (forall c, In c out <-> c = square \/ c = t1 \/ c = t2)).
Proof.
  split; [|split].
  - intros cs v1 v2 conn Hc Hnd. now apply apply_add_edge_returns.
  - intros cs v1 v2 conn out H c Hc.
    unfold apply_add_edge in H. apply apply_add_edge_keeps in H. now apply H.
  - intros conn.
    exists (mkCycle [0; 1; 2; 3]), (mkCycle [0; 1; 2]), (mkCycle [0; 2; 3]).
    exists [mkCycle [0; 1; 2; 3]; mkCycle [0; 1; 2]; mkCycle [0; 2; 3]].
    repeat split; try reflexivity; simpl; intuition congruence.
Qed.

Lemma apply_add_edge_retains_and_splits_witness :
  In (mkCycle [0; 1; 2; 3])
     [mkCycle [0; 1; 2; 3]; mkCycle [0; 1; 2]; mkCycle [0; 2; 3]].
Proof.
  apply (proj1 (proj2 apply_add_edge_retains_and_splits)
               [mkCycle [0; 1; 2; 3]] 0 2 (fun _ _ => Ok false)).
  - reflexivity.
  - left; reflexivity.
Defined.
Lemma mod_affine_r (n s x t : Z) : (t + s * (x mod n)) mod n = (t + s * x) mod n.
Proof. rewrite !(Z.add_comm t). apply mod_affine. Qed.

(** ** Integers on a fixed number of bytes *)

Lemma le_digits_length (sz : nat) (v : Z) : length (le_digits sz v) = sz.
Proof. revert v; induction sz; intros v; simpl; auto. Qed.

Lemma digits_length (order : byteorder) (sz : nat) (v : Z) :
  length (digits order sz v) = sz.
Proof.
  destruct order; simpl; [|rewrite length_rev]; apply le_digits_length.
Qed.

Lemma le_value_digits (sz : nat) (v : Z) :
  0 <= v < 256 ^ Z.of_nat sz -> le_value (le_digits sz v) = v.
Proof.
  revert v; induction sz as [|sz IH]; intros v Hv.
  - simpl in *. lia.
  - cbn [le_digits le_value]. rewrite IH.
    + pose proof (Z.div_mod v 256). lia.
    + rewrite Nat2Z.inj_succ, Z.pow_succ_r in Hv by lia.
      split; [apply Z.div_pos; lia | apply Z.div_lt_upper_bound; lia].
Qed.

Lemma from_bytes_digits (order : byteorder) (sz : nat) (v : Z) :
  0 <= v < 256 ^ Z.of_nat sz -> from_bytes order (digits order sz v) = v.
Proof.
  intros Hv. destruct order; simpl; [|rewrite rev_involutive];
    now apply le_value_digits.
Qed.

Lemma bytes_from_int_digits (order : byteorder) (sz : nat) (v : Z) :
  0 <= v < 256 ^ Z.of_nat sz -> bytes_from_int order v sz = Ok (digits order sz v).
Proof.
  intros Hv. unfold bytes_from_int, to_bytes.
  replace ((0 <=? v) && (v <? 256 ^ Z.of_nat sz)) with true by lia.
  now destruct order.
Qed.

Lemma len_app {A : Type} (l1 l2 : list A) : len (l1 ++ l2) = len l1 + len l2.
Proof. unfold len. rewrite length_app. lia. Qed.

(** A slice that covers exactly one part of a byte string. *)
Lemma slice_part {A : Type} (pre x suf : list A) :
  slice (pre ++ x ++ suf) (len pre) (len pre + len x) = x.
Proof.
  unfold slice.
  assert (H1 : clamp (pre ++ x ++ suf) (len pre) = length pre).
  { rewrite clamp_mid; [unfold len; lia|].
    rewrite !len_app. pose proof (len_nonneg pre).
    pose proof (len_nonneg x). pose proof (len_nonneg suf). lia. }
  assert (H2 : clamp (pre ++ x ++ suf) (len pre + len x) = (length pre + length x)%nat).
  { rewrite clamp_mid; [unfold len; lia|].
    rewrite !len_app. pose proof (len_nonneg pre).
    pose proof (len_nonneg x). pose proof (len_nonneg suf). lia. }
  rewrite H1, H2. replace (length pre + length x - length pre)%nat with (length x) by lia.
  rewrite skipn_app, skipn_all, Nat.sub_diag. simpl.
  rewrite firstn_app, firstn_all, Nat.sub_diag. simpl. apply app_nil_r.
Qed.

Lemma int_from_bytes_part (order : byteorder) (sz : nat) (v : Z) (pre suf : bytes) :
  0 <= v < 256 ^ Z.of_nat sz ->
  int_from_bytes order (pre ++ digits order sz v ++ suf) (len pre) sz
  = (v, len pre + Z.of_nat sz).
Proof.
  intros Hv. unfold int_from_bytes. f_equal.
  pose proof (slice_part pre (digits order sz v) suf) as H.
  unfold len at 3 in H. rewrite digits_length in H. rewrite H.
  now apply from_bytes_digits.
Qed.

(** ** Tags of two ASCII characters *)

Lemma tag_bytes_ascii (s : str) : ascii_tag s -> tag_bytes (VStr s) = Ok s.
Proof.
  intros (c1 & c2 & -> & H1 & H2). simpl. unfold slice. simpl.
  unfold encode_point.
  replace ((c1 <? 0) || (1114111 <? c1)) with false by lia.
  replace (c1 <? 128) with true by lia.
  replace ((c2 <? 0) || (1114111 <? c2)) with false by lia.
  replace (c2 <? 128) with true by lia. reflexivity.
Qed.

Lemma decode_ascii (s : str) : ascii_tag s -> decode_utf8 s = Ok s.
Proof.
  intros (c1 & c2 & -> & H1 & H2). simpl.
  replace ((0 <=? c1) && (c1 <? 128)) with true by lia.
  replace ((0 <=? c2) && (c2 <? 128)) with true by lia. reflexivity.
Qed.

Lemma ascii_tag_len (s : str) : ascii_tag s -> len s = 2.
Proof. now intros (c1 & c2 & -> & _). Qed.

(** ** Encoding a history *)

Lemma u16_pow (v : Z) : u16 v -> 0 <= v < 256 ^ Z.of_nat 2.
Proof. unfold u16. change (256 ^ Z.of_nat 2) with 65536. auto. Qed.

Lemma bytes_from_op_list_enc (order : byteorder) (op : Operation) :
  op_ok op -> bytes_from_op_list order (op_to_list op) = Ok (enc_op order op).
Proof.
  destruct op as [|i j|i j]; simpl.
  - reflexivity.
  - intros (Hi & Hj & _). unfold bytes_from_op_list. simpl.
    rewrite !bytes_from_int_digits by now apply u16_pow. reflexivity.
  - intros (Hi & Hj). unfold bytes_from_op_list. simpl.
    rewrite !bytes_from_int_digits by now apply u16_pow. reflexivity.
Qed.

Lemma encode_ops_loop (order : byteorder) (ops : list Operation) (acc : bytes) :
  Forall op_ok ops ->
  foldM (fun res op =>
           let* op_list := as_list op in
           let* b := bytes_from_op_list order op_list in
           Ok (res ++ b))
        (map (fun op => VList (op_to_list op)) ops) acc
  = Ok (acc ++ concat (map (enc_op order) ops)).
Proof.
  intros H. revert acc. induction H as [|op ops Hop _ IH]; intros acc; simpl.
  - now rewrite app_nil_r.
  - rewrite bytes_from_op_list_enc by exact Hop. simpl.
    rewrite IH. now rewrite <- app_assoc.
Qed.

Lemma slice_from_tail {A : Type} (x : A) (l : list A) : slice_from (x :: l) 1 = l.
Proof.
  unfold slice_from. rewrite clamp_mid; [reflexivity|].
  unfold len. simpl length. lia.
Qed.

Lemma bytes_from_tx_enc (order : byteorder) (t : Transformation) :
  tx_ok t -> bytes_from_tx order (Transformation_to_list t) = Ok (enc_tx order t).
Proof.
  intros (Htag & Hlen & Hops). unfold bytes_from_tx, Transformation_to_list.
  change (getitem (VStr (alg t) :: ?l) 0) with (@Ok value (VStr (alg t))).
  cbn [bind]. rewrite tag_bytes_ascii by exact Htag. cbn [bind].
  assert (E : len (VStr (alg t) :: map (fun op => VList (op_to_list op)) (ops t)) - 1
              = len (ops t)).
  { unfold len. simpl length. rewrite length_map. lia. }
  rewrite E, bytes_from_int_digits.
  2:{ change (256 ^ Z.of_nat 2) with 65536. pose proof (len_nonneg (ops t)). lia. }
  cbn [bind]. rewrite slice_from_tail, encode_ops_loop by exact Hops.
  unfold enc_tx. now rewrite <- app_assoc.
Qed.

Lemma encode_txs_loop (order : byteorder) (txs : list Transformation) (acc : bytes) :
  Forall tx_ok txs ->
  foldM (fun res tx =>
           let* tx_list := as_list tx in
           let* b := bytes_from_tx order tx_list in
           Ok (res ++ b))
        (map (fun x => VList (Transformation_to_list x)) txs) acc
  = Ok (acc ++ concat (map (enc_tx order) txs)).
Proof.
  intros H. revert acc. induction H as [|t txs Ht _ IH]; intros acc; simpl.
  - now rewrite app_nil_r.
  - rewrite bytes_from_tx_enc by exact Ht. simpl.
    rewrite IH. now rewrite <- app_assoc.
Qed.

Lemma History_to_bytes_enc (order : byteorder) (h : History) :
  hist_ok h -> History_to_bytes order h = Ok (enc_hist order h).
Proof.
  intros (Htag & Hlen & Htxs).
  unfold History_to_bytes, bytes_from_hist, History_to_list.
  change (getitem (VStr (root h) :: ?l) 0) with (@Ok value (VStr (root h))).
  cbn [bind]. rewrite tag_bytes_ascii by exact Htag. cbn [bind].
  assert (E : len (VStr (root h) :: map (fun x => VList (Transformation_to_list x))
                                        (elements h)) - 1
              = len (elements h)).
  { unfold len. simpl length. rewrite length_map. lia. }
  rewrite E, bytes_from_int_digits.
  2:{ change (256 ^ Z.of_nat 2) with 65536. pose proof (len_nonneg (elements h)). lia. }
  cbn [bind]. rewrite slice_from_tail, encode_txs_loop by exact Htxs.
  unfold enc_hist. now rewrite <- app_assoc.
Qed.

(** ** Decoding a history *)

Lemma read_pair (order : byteorder) (pre tag suf : bytes) (i j : Z) :
  length tag = 2%nat -> u16 i -> u16 j ->
  let b := pre ++ (tag ++ digits order 2 i ++ digits order 2 j) ++ suf in
  slice b (len pre) (len pre + 2) = tag /\
  int_from_bytes order b (len pre + 2) 2 = (i, len pre + 2 + 2) /\
  int_from_bytes order b (len pre + 2 + 2) 2 = (j, len pre + 2 + 2 + 2).
Proof.
  intros Ht Hi Hj b. subst b. split; [|split].
  - rewrite <- (app_assoc tag).
    replace (len pre + 2) with (len pre + len tag) by (unfold len; lia).
    apply slice_part.
  - replace (pre ++ (tag ++ digits order 2 i ++ digits order 2 j) ++ suf)
      with ((pre ++ tag) ++ digits order 2 i ++ (digits order 2 j ++ suf))
      by (now rewrite <- !app_assoc).
    replace (len pre + 2) with (len (pre ++ tag)) by (rewrite len_app; unfold len; lia).
    rewrite int_from_bytes_part by now apply u16_pow. reflexivity.
  - replace (pre ++ (tag ++ digits order 2 i ++ digits order 2 j) ++ suf)
      with (((pre ++ tag) ++ digits order 2 i) ++ digits order 2 j ++ suf)
      by (now rewrite <- !app_assoc).
    replace (len pre + 2 + 2) with (len ((pre ++ tag) ++ digits order 2 i)).
    2:{ rewrite !len_app. unfold len at 2 3. rewrite digits_length. lia. }
    rewrite int_from_bytes_part by now apply u16_pow. reflexivity.
Qed.

Lemma op_list_from_bytes_enc (order : byteorder) (op : Operation) (pre suf : bytes) :
  op_ok op ->
  op_list_from_bytes order (pre ++ enc_op order op ++ suf) (len pre)
  = Ok (op_to_list op, len pre + len (enc_op order op)).
Proof.
  intros Hop. unfold op_list_from_bytes.
  destruct op as [|i j|i j]; unfold enc_op, op_to_list.
  - change (len pre + 2) with (len pre + len [118; 32]).
    rewrite slice_part. reflexivity.
  - destruct Hop as (Hi & Hj & _).
    destruct (read_pair order pre [101; 32] suf i j eq_refl Hi Hj) as (E0 & E1 & E2).
    rewrite E0.
    change (decode_utf8 [101; 32]) with (@Ok str [101; 32]). cbn [bind].
    change (strip [101; 32]) with (str_of "e").
    change (str_eqb (str_of "e") (str_of "v")) with false.
    change (str_eqb (str_of "e") (str_of "e")) with true.
    cbn [orb]. cbv iota. rewrite E1, E2.
    f_equal. f_equal. rewrite !len_app. unfold len at 3 4 5.
    rewrite !digits_length. simpl. lia.
  - destruct Hop as (Hi & Hj).
    destruct (read_pair order pre [100; 32] suf i j eq_refl Hi Hj) as (E0 & E1 & E2).
    rewrite E0.
    change (decode_utf8 [100; 32]) with (@Ok str [100; 32]). cbn [bind].
    change (strip [100; 32]) with (str_of "d").
    change (str_eqb (str_of "d") (str_of "v")) with false.
    change (str_eqb (str_of "d") (str_of "e")) with false.
    change (str_eqb (str_of "d") (str_of "d")) with true.
    cbn [orb]. cbv iota. rewrite E1, E2.
    f_equal. f_equal. rewrite !len_app. unfold len at 3 4 5.
    rewrite !digits_length. simpl. lia.
Qed.

Lemma decode_ops_loop (order : byteorder) (ops : list Operation) :
  Forall op_ok ops ->
  forall (idx : list Z) (b pre suf : bytes) (acc : list value),
    length idx = length ops ->
    b = pre ++ concat (map (enc_op order) ops) ++ suf ->
    foldM (fun '(ops, jx) _ =>
             let* '(op, jx) := op_list_from_bytes order b jx in
             Ok (ops ++ [VList op], jx))
          idx (acc, len pre)
    = Ok (acc ++ map (fun op => VList (op_to_list op)) ops,
          len pre + len (concat (map (enc_op order) ops))).
Proof.
  induction 1 as [|op ops Hop _ IH]; intros idx b pre suf acc Hlen Hb.
  - destruct idx; [|discriminate]. simpl. rewrite app_nil_r.
    f_equal. f_equal. unfold len. simpl. lia.
  - destruct idx as [|k idx]; [discriminate|]. cbn [foldM map concat].
    assert (Hb1 : b = pre ++ enc_op order op
                      ++ (concat (map (enc_op order) ops) ++ suf)).
    { rewrite Hb. cbn [map concat]. now rewrite <- !app_assoc. }
    rewrite Hb1 at 1. rewrite op_list_from_bytes_enc by exact Hop. cbn [bind].
    rewrite <- len_app.
    rewrite (IH idx b (pre ++ enc_op order op) suf (acc ++ [VList (op_to_list op)])).
    + f_equal. f_equal; [now rewrite <- app_assoc | rewrite !len_app; lia].
    + simpl in Hlen. lia.
    + rewrite Hb1. now rewrite <- !app_assoc.
Qed.

Lemma tx_from_bytes_enc (order : byteorder) (t : Transformation) (pre suf : bytes) :
  tx_ok t ->
  tx_from_bytes order (pre ++ enc_tx order t ++ suf) (len pre)
  = Ok (Transformation_to_list t, len pre + len (enc_tx order t)).
Proof.
  intros (Htag & Hlen & Hops). unfold tx_from_bytes, enc_tx.
  set (body := concat (map (enc_op order) (ops t))).
  set (b := pre ++ (alg t ++ digits order 2 (len (ops t)) ++ body) ++ suf).
  assert (E0 : slice b (len pre) (len pre + 2) = alg t).
  { unfold b. rewrite <- (app_assoc (alg t)).
    rewrite <- (ascii_tag_len _ Htag). apply slice_part. }
  rewrite E0, decode_ascii by exact Htag. cbn [bind].
  assert (E1 : int_from_bytes order b (len pre + 2) 2 = (len (ops t), len pre + 2 + 2)).
  { unfold b.
    replace (pre ++ (alg t ++ digits order 2 (len (ops t)) ++ body) ++ suf)
      with ((pre ++ alg t) ++ digits order 2 (len (ops t)) ++ (body ++ suf))
      by (now rewrite <- !app_assoc).
    replace (len pre + 2) with (len (pre ++ alg t))
      by (rewrite len_app; now rewrite (ascii_tag_len _ Htag)).
    rewrite int_from_bytes_part; [reflexivity|].
    change (256 ^ Z.of_nat 2) with 65536. pose proof (len_nonneg (ops t)). lia. }
  rewrite E1.
  replace (len pre + 2 + 2) with (len ((pre ++ alg t) ++ digits order 2 (len (ops t)))).
  2:{ rewrite !len_app, (ascii_tag_len _ Htag).
      assert (len (digits order 2 (len (ops t))) = 2)
        by (unfold len at 1; now rewrite digits_length).
      lia. }
  rewrite (decode_ops_loop order (ops t) Hops _ b _ suf []).
  - cbn [bind]. unfold Transformation_to_list. f_equal. f_equal.
    subst body. rewrite !len_app. lia.
  - rewrite range_length. unfold len. lia.
  - unfold b, body. now rewrite <- !app_assoc.
Qed.

Lemma decode_txs_loop (order : byteorder) (txs : list Transformation) :
  Forall tx_ok txs ->
  forall (idx : list Z) (b pre suf : bytes) (acc : list value),
    length idx = length txs ->
    b = pre ++ concat (map (enc_tx order) txs) ++ suf ->
    foldM (fun '(h_list, jx) _ =>
             let* '(tx, jx) := tx_from_bytes order b jx in
             Ok (h_list ++ [VList tx], jx))
          idx (acc, len pre)
    = Ok (acc ++ map (fun x => VList (Transformation_to_list x)) txs,
          len pre + len (concat (map (enc_tx order) txs))).
Proof.
  induction 1 as [|t txs Ht _ IH]; intros idx b pre suf acc Hlen Hb.
  - destruct idx; [|discriminate]. simpl. rewrite app_nil_r.
    f_equal. f_equal. unfold len. simpl. lia.
  - destruct idx as [|k idx]; [discriminate|]. cbn [foldM map concat].
    assert (Hb1 : b = pre ++ enc_tx order t
                      ++ (concat (map (enc_tx order) txs) ++ suf)).
    { rewrite Hb. cbn [map concat]. now rewrite <- !app_assoc. }
    rewrite Hb1 at 1. rewrite tx_from_bytes_enc by exact Ht. cbn [bind].
    rewrite <- len_app.
    rewrite (IH idx b (pre ++ enc_tx order t) suf
                (acc ++ [VList (Transformation_to_list t)])).
    + f_equal. f_equal; [now rewrite <- app_assoc | rewrite !len_app; lia].
    + simpl in Hlen. lia.
    + rewrite Hb1. now rewrite <- !app_assoc.
Qed.

Lemma hist_from_bytes_enc (order : byteorder) (h : History) :
  hist_ok h -> hist_from_bytes order (enc_hist order h) = Ok (History_to_list h).
Proof.
  intros (Htag & Hlen & Htxs). unfold hist_from_bytes, enc_hist.
  set (body := concat (map (enc_tx order) (elements h))).
  set (b := root h ++ digits order 2 (len (elements h)) ++ body).
  assert (E0 : slice b 0 2 = root h).
  { pose proof (slice_part [] (root h) (digits order 2 (len (elements h)) ++ body)) as H.
    rewrite (ascii_tag_len _ Htag) in H. exact H. }
  rewrite E0, decode_ascii by exact Htag. cbn [bind].
  assert (E1 : int_from_bytes order b 2 2 = (len (elements h), 2 + 2)).
  { pose proof (int_from_bytes_part order 2 (len (elements h)) (root h) body) as H.
    rewrite (ascii_tag_len _ Htag) in H. apply H.
    change (256 ^ Z.of_nat 2) with 65536. pose proof (len_nonneg (elements h)). lia. }
  rewrite E1.
  replace (2 + 2) with (len (root h ++ digits order 2 (len (elements h)))).
  2:{ rewrite len_app, (ascii_tag_len _ Htag).
      assert (len (digits order 2 (len (elements h))) = 2)
        by (unfold len at 1; now rewrite digits_length).
      lia. }
  rewrite (decode_txs_loop order (elements h) Htxs _ b _ [] [VStr (root h)]).
  - reflexivity.
  - rewrite range_length. unfold len. lia.
  - unfold b, body. now rewrite <- !app_assoc, app_nil_r.
Qed.

(** ** From the nested lists back to the records *)

Lemma op_from_list_to_list (op : Operation) :
  op_ok op -> op_from_list (op_to_list op) = Ok op.
Proof.
  destruct op as [|i j|i j]; simpl; intros H; try reflexivity.
  unfold op_from_list. simpl. unfold AddEdge.
  destruct H as (_ & _ & H). destruct (Z.eqb_spec i j); [contradiction | reflexivity].
Qed.

Lemma ops_from_list_to_list (ops : list Operation) :
  Forall op_ok ops ->
  mapM (fun x => let* l := as_list x in op_from_list l)
       (map (fun op => VList (op_to_list op)) ops) = Ok ops.
Proof.
  induction 1 as [|op ops Hop _ IH]; simpl; [reflexivity|].
  now rewrite op_from_list_to_list, IH.
Qed.

Lemma transformation_from_list_to_list (t : Transformation) :
  Forall op_ok (ops t) -> transformation_from_list (Transformation_to_list t) = Ok t.
Proof.
  intros H. unfold transformation_from_list, Transformation_to_list.
  destruct (Z.ltb_spec (len (VStr (alg t) :: map (fun op => VList (op_to_list op)) (ops t))) 1)
    as [Hl|_]; [unfold len in Hl; simpl length in Hl; lia|].
  rewrite ops_from_list_to_list by exact H. now destruct t.
Qed.

Lemma history_from_list_to_list (h : History) :
  Forall tx_ok (elements h) -> history_from_list (History_to_list h) = Ok h.
Proof.
  intros H. unfold history_from_list, History_to_list.
  destruct (Z.ltb_spec (len (VStr (root h) :: map (fun x => VList (Transformation_to_list x))
                                                  (elements h))) 1)
    as [Hl|_]; [unfold len in Hl; simpl length in Hl; lia|].
  assert (E : mapM (fun x => let* l := as_list x in transformation_from_list l)
                   (map (fun x => VList (Transformation_to_list x)) (elements h))
              = Ok (elements h)).
  { induction H as [|t txs (_ & _ & Ht) _ IH]; simpl; [reflexivity|].
    now rewrite transformation_from_list_to_list, IH. }
  rewrite E. now destruct h.
Qed.

Lemma history_roundtrip (order : byteorder) (h : History) :
  hist_ok h ->
  exists b, History_to_bytes order h = Ok b /\ history_from_bytes order b = Ok h.
Proof.
  intros H. exists (enc_hist order h). split; [now apply History_to_bytes_enc|].
  unfold history_from_bytes. rewrite hist_from_bytes_enc by exact H. cbn [bind].
  apply history_from_list_to_list, H.
Qed.

(** ** The codec of cycle lists *)

Lemma encode_vertices_loop (order : byteorder) (vl : list Z) (acc : bytes) :
  Forall u16 vl ->
  foldM (fun res v => let* b := bytes_from_int order v 2 in Ok (res ++ b)) vl acc
  = Ok (acc ++ concat (map (digits order 2) vl)).
Proof.
  intros H. revert acc. induction H as [|v vl Hv _ IH]; intros acc; simpl.
  - now rewrite app_nil_r.
  - rewrite bytes_from_int_digits by now apply u16_pow. simpl.
    rewrite IH. now rewrite <- app_assoc.
Qed.

Lemma bytes_from_cycle_enc (order : byteorder) (c : Cycle) :
  cycle_ok c -> bytes_from_cycle order c = Ok (enc_cycle order c).
Proof.
  intros (_ & Hlen & Hvl). unfold bytes_from_cycle.
  rewrite bytes_from_int_digits.
  2:{ change (256 ^ Z.of_nat 4) with 4294967296.
      pose proof (len_nonneg (vlist c)). lia. }
  cbn [bind]. now rewrite encode_vertices_loop.
Qed.

Lemma bytes_from_cycle_list_enc (order : byteorder) (cs : list Cycle) :
  Forall cycle_ok cs ->
  bytes_from_cycle_list order cs = Ok (concat (map (enc_cycle order) cs)).
Proof.
  intros H. unfold bytes_from_cycle_list.
  assert (E : mapM (bytes_from_cycle order) cs = Ok (map (enc_cycle order) cs)).
  { induction H as [|c cs Hc _ IH]; simpl; [reflexivity|].
    now rewrite bytes_from_cycle_enc, IH. }
  now rewrite E.
Qed.

Lemma len_vertices (order : byteorder) (vl : list Z) :
  len (concat (map (digits order 2) vl)) = 2 * len vl.
Proof.
  induction vl as [|v vl IH]; [reflexivity|].
  cbn [map concat]. rewrite len_app, IH. unfold len at 1.
  rewrite digits_length. unfold len. simpl length. lia.
Qed.

Lemma len_enc_cycle (order : byteorder) (c : Cycle) :
  len (enc_cycle order c) = 2 * len (vlist c) + 4.
Proof.
  unfold enc_cycle. rewrite len_app, len_vertices. unfold len at 1.
  rewrite digits_length. lia.
Qed.

(** Reading the [i]-th vertex of an encoded cycle. *)
Lemma read_vertex (order : byteorder) (vl : list Z) (pre suf : bytes) (i : Z) :
  Forall u16 vl -> 0 <= i < len vl ->
  fst (int_from_bytes order (pre ++ concat (map (digits order 2) vl) ++ suf)
                      (len pre + 2 * i) 2)
  = item vl i.
Proof.
  intros Hvl Hi.
  assert (Hk : (Z.to_nat i < length vl)%nat) by (unfold len in Hi; lia).
  pose proof (list_split_nth vl (Z.to_nat i) Hk) as Hsplit. fold (item vl i) in Hsplit.
  set (front := firstn (Z.to_nat i) vl) in *.
  set (back := skipn (S (Z.to_nat i)) vl) in *.
  assert (Hfront : len (concat (map (digits order 2) front)) = 2 * i).
  { rewrite len_vertices. unfold front, len. rewrite length_firstn. lia. }
  rewrite Hsplit at 1. rewrite map_app, concat_app. cbn [map concat].
  replace (pre ++ (concat (map (digits order 2) front)
                   ++ digits order 2 (item vl i)
                   ++ concat (map (digits order 2) back)) ++ suf)
    with ((pre ++ concat (map (digits order 2) front))
          ++ digits order 2 (item vl i)
          ++ (concat (map (digits order 2) back) ++ suf))
    by (now rewrite <- !app_assoc).
  replace (len pre + 2 * i)
    with (len (pre ++ concat (map (digits order 2) front)))
    by (rewrite len_app; lia).
  rewrite int_from_bytes_part; [reflexivity|].
  apply u16_pow. rewrite Forall_forall in Hvl. apply Hvl. now apply item_In.
Qed.

Lemma cycle_from_bytes_enc (order : byteorder) (c : Cycle) (pre suf : bytes) :
  cycle_ok c ->
  cycle_from_bytes order (pre ++ enc_cycle order c ++ suf) (len pre)
  = Ok (c, 2 * len (vlist c) + 4).
Proof.
  intros (Hcan & Hlen & Hvl). unfold cycle_from_bytes, enc_cycle.
  rewrite <- (app_assoc (digits order 4 _)).
  rewrite int_from_bytes_part.
  2:{ change (256 ^ Z.of_nat 4) with 4294967296.
      pose proof (len_nonneg (vlist c)). lia. }
  assert (E : map (fun i =>
                     fst (int_from_bytes order
                            (pre ++ digits order 4 (len (vlist c))
                                 ++ concat (map (digits order 2) (vlist c)) ++ suf)
                            (len pre + 4 + 2 * i) 2))
                  (range (len (vlist c)))
              = vlist c).
  { transitivity (map (item (vlist c)) (range (len (vlist c))));
      [|apply map_item_range].
    apply map_ext_in. intros i Hi. apply in_range in Hi.
    replace (pre ++ digits order 4 (len (vlist c))
                 ++ concat (map (digits order 2) (vlist c)) ++ suf)
      with ((pre ++ digits order 4 (len (vlist c)))
            ++ concat (map (digits order 2) (vlist c)) ++ suf)
      by (now rewrite <- !app_assoc).
    replace (len pre + 4) with (len (pre ++ digits order 4 (len (vlist c)))).
    2:{ rewrite len_app. unfold len at 2. rewrite digits_length. lia. }
    now apply read_vertex. }
  rewrite E. unfold canonical in Hcan. rewrite Hcan. reflexivity.
Qed.

Lemma cycle_list_loop_enc (order : byteorder) (cs : list Cycle) :
  Forall cycle_ok cs ->
  forall (fuel : nat) (bb pre : bytes) (acc : list Cycle),
    (length cs <= fuel)%nat ->
    bb = pre ++ concat (map (enc_cycle order) cs) ->
    cycle_list_loop order fuel bb (len pre) acc = Ok (acc ++ cs).
Proof.
  induction 1 as [|c cs Hc _ IH]; intros fuel bb pre acc Hfuel Hbb.
  - simpl in Hbb. rewrite app_nil_r in Hbb. subst bb.
    destruct fuel; simpl; rewrite Z.ltb_irrefl, app_nil_r; reflexivity.
  - destruct fuel as [|fuel]; [simpl in Hfuel; lia|].
    cbn [map concat] in Hbb. cbn [cycle_list_loop].
    assert (Hlt : (len pre <? len bb) = true).
    { rewrite Hbb, !len_app, len_enc_cycle.
      pose proof (len_nonneg (vlist c)).
      pose proof (len_nonneg (concat (map (enc_cycle order) cs))). lia. }
    rewrite Hlt. rewrite Hbb at 1.
    rewrite cycle_from_bytes_enc by exact Hc. cbn [bind].
    rewrite <- len_enc_cycle with (order := order), <- len_app.
    rewrite (IH fuel bb (pre ++ enc_cycle order c) (acc ++ [c])).
    + now rewrite <- app_assoc.
    + simpl in Hfuel. lia.
    + rewrite Hbb. now rewrite <- app_assoc.
Qed.

Lemma length_enc_cycles (order : byteorder) (cs : list Cycle) :
  (length cs <= length (concat (map (enc_cycle order) cs)))%nat.
Proof.
  induction cs as [|c cs IH]; [simpl; lia|].
  cbn [map concat]. rewrite length_app.
  pose proof (len_enc_cycle order c) as H. pose proof (len_nonneg (vlist c)).
  unfold len in *. simpl. lia.
Qed.

Lemma cycles_roundtrip (order : byteorder) (cs : list Cycle) :
  Forall cycle_ok cs ->
  exists b, bytes_from_cycle_list order cs = Ok b /\
            cycle_list_from_bytes order b = Ok cs.
Proof.
  intros H. exists (concat (map (enc_cycle order) cs)).
  split; [now apply bytes_from_cycle_list_enc|].
  unfold cycle_list_from_bytes.
  apply (cycle_list_loop_enc order cs H _ _ [] []).
  - apply length_enc_cycles.
  - reflexivity.
Qed.

(** Every value that [Cycle(...)] builds is canonical: arranging an
    arranged sequence gives it back. *)
Lemma Cycle_init_canonical (l : list Z) (c : Cycle) :
  Cycle_init l = Ok c -> canonical c.
Proof.
  intros H. destruct l as [|a l]; [discriminate|].
  destruct (arrange_ok (a :: l)) as (i & _ & (Hi & Hle & _) & E); [discriminate|].
  unfold Cycle_init in H. rewrite E in H. inversion H; subst c; clear H.
  unfold canonical, Cycle_init. cbn [vlist].
  set (l0 := a :: l) in *. set (n := len l0) in *.
  assert (Hn : 0 < n) by lia.
  assert (Hlen : len (arranged l0 i) = n)
    by (unfold len; now rewrite arranged_length).
  assert (Hne : arranged l0 i <> []).
  { intros E0. rewrite E0 in Hlen. unfold len in Hlen. simpl in Hlen. lia. }
  pose proof (arg_min_spec (arranged l0 i)) as Hmin.
  destruct (_arg_min (arranged l0 i)) as [k|] eqn:Ek; [|contradiction].
  destruct Hmin as (Hk & _ & Hfirst). rewrite Hlen in Hk.
  assert (Hhead : item (arranged l0 i) 0 = item l0 i).
  { rewrite item_arranged by lia. fold n.
    rewrite Z.mul_0_r, Z.add_0_r, Z.mod_small by lia. reflexivity. }
  assert (k = 0).
  { destruct (Z.eq_dec k 0) as [|Hk0]; [assumption|].
    specialize (Hfirst 0 ltac:(lia)). rewrite Hhead in Hfirst.
    rewrite item_arranged in Hfirst by (fold n; lia). fold n in Hfirst.
    specialize (Hle ((i + direction l0 i * k) mod n) (Z.mod_pos_bound _ _ Hn)). lia. }
  subst k. unfold _arrange_cycle. rewrite Ek, Hlen.
  replace (item (arranged l0 i) ((0 - 1) mod n)
           <? item (arranged l0 i) ((0 + 1) mod n)) with false; [reflexivity|].
  symmetry. apply Z.ltb_ge.
  rewrite !item_arranged by (fold n; apply Z.mod_pos_bound; lia). fold n.
  rewrite !mod_affine_r.
  replace (i + direction l0 i * (0 - 1)) with (i - direction l0 i) by ring.
  replace (i + direction l0 i * (0 + 1)) with (i + direction l0 i) by ring.
  unfold direction. fold n.
  destruct (Z.ltb_spec (item l0 ((i - 1) mod n)) (item l0 ((i + 1) mod n))) as [Hd|Hd].
  - replace (i - -1) with (i + 1) by ring. replace (i + -1) with (i - 1) by ring. lia.
  - exact Hd.
Qed.

(** C2, as stated, fails: a root tag that is not two characters long
    comes back padded (or cut) to two, and a vertex id above 65535
    cannot be written at all. *)
Lemma codec_roundtrip_counterexample :
  (History_to_bytes little (mkHistory (str_of "p") []) = Ok [112; 32; 0; 0] /\
   history_from_bytes little [112; 32; 0; 0] = Ok (mkHistory (str_of "p ") []) /\
   ~ history_roundtrip_claim) /\
  (canonical (mkCycle [0; 1; 70000]) /\
   bytes_from_cycle_list little [mkCycle [0; 1; 70000]] = Raise OverflowError /\
   ~ cycles_roundtrip_claim).
Proof.
  split; split; try reflexivity; split; try reflexivity.
  - intros H. destruct (H little (mkHistory (str_of "p") [])) as (b & Hb & Hd).
    vm_compute in Hb. inversion Hb; subst b. vm_compute in Hd. discriminate.
  - intros H.
    destruct (H little [mkCycle [0; 1; 70000]]) as (b & out & Hb & _).
    + repeat constructor.
    + vm_compute in Hb. discriminate.
Qed.

(** C2, amended: within what the codec can carry (tags of two ASCII
    characters, counts and vertex ids below 65536, cycles shorter than
    2^32), decoding the bytes of a history gives the history back, and
    decoding the bytes of a list of canonical cycles gives the list
    back, cycle for cycle. *)
Theorem codec_roundtrip_in_contract (order : byteorder) :
  (forall h, hist_ok h ->
     exists b, History_to_bytes order h = Ok b /\
               history_from_bytes order b = Ok h) /\
  (forall cs, Forall cycle_ok cs ->
     exists b out, bytes_from_cycle_list order cs = Ok b /\
                   cycle_list_from_bytes order b = Ok out /\
                   out = cs /\ (forall c, In c out <-> In c cs)).
Proof.
  split.
  - intros h Hh. now apply history_roundtrip.
  - intros cs Hcs. destruct (cycles_roundtrip order cs Hcs) as (b & Hb & Hd).
    exists b, cs. repeat split; auto.
Qed.

Lemma codec_roundtrip_in_contract_witness :
  let h := mkHistory (str_of "pr")
             [mkTransformation (str_of "e1") [OpAddEdge 3 0];
              mkTransformation (str_of "c1")
                [OpAddVertex; OpDelEdge 3 0; OpAddEdge 3 4; OpAddEdge 0 4;
                 OpDelEdge 0 1; OpAddEdge 1 4]] in
  let cs := [mkCycle [0; 1; 2]; mkCycle [0; 2; 1; 3]] in
  (exists b, History_to_bytes big h = Ok b /\ history_from_bytes big b = Ok h) /\
  (exists b out, bytes_from_cycle_list big cs = Ok b /\
                 cycle_list_from_bytes big b = Ok out /\
                 out = cs /\ (forall c, In c out <-> In c cs)).
Proof.
  intros h cs. split.
  - apply (proj1 (codec_roundtrip_in_contract big) h).
    unfold hist_ok, tx_ok, op_ok, ascii_tag, u16. simpl.
    repeat (split || constructor || (eexists; eexists; split; [reflexivity|]));
      try (unfold len; simpl; lia); try discriminate.
  - apply (proj2 (codec_roundtrip_in_contract big) cs).
    unfold cs. repeat constructor; unfold u16, len; simpl; lia.
Defined.
Lemma mod_affine_r0 (n s x t : Z) : (s * (t - x mod n)) mod n = (s * (t - x)) mod n.
Proof.
  rewrite <- (Zmult_mod_idemp_r (t - x mod n)), Zminus_mod_idemp_r.
  now rewrite Zmult_mod_idemp_r.
Qed.

(** ** Moving an edge *)

(** The walk along a cycle reaches any position of the cycle within one
    turn. *)
Lemma walk_stops (vl : list Z) (n inc stop : Z) :
  0 < n -> inc = 1 \/ inc = -1 -> 0 <= stop < n ->
  forall (fuel : nat) (j : Z) (acc : list Z),
    0 <= j < n -> ((stop - j) * inc) mod n <= Z.of_nat fuel ->
    exists out, walk fuel vl n inc j stop acc = Ok out.
Proof.
  intros Hn Hinc Hstop. induction fuel as [|fuel IH]; intros j acc Hj Hd.
  - assert (E : ((stop - j) * inc) mod n = 0)
      by (pose proof (Z.mod_pos_bound ((stop - j) * inc) n Hn); lia).
    apply Zmod_divides in E as [q Hq]; [|lia].
    assert (Hq0 : -1 < q < 1) by (destruct Hinc; subst inc; nia).
    assert (j = stop) by (destruct Hinc; subst inc; nia).
    subst j. simpl. rewrite Z.eqb_refl. eauto.
  - cbn [walk]. destruct (Z.eqb_spec j stop) as [|Hne]; [eauto|].
    apply IH; [apply Z.mod_pos_bound; lia|].
    rewrite Z.mul_comm, mod_affine_r0, Z.mul_comm.
    replace ((stop - (j + inc)) * inc) with ((stop - j) * inc - inc * inc) by ring.
    replace (inc * inc) with 1 by (destruct Hinc; subst inc; reflexivity).
    pose proof (Z.mod_pos_bound ((stop - j) * inc) n Hn) as Hb.
    assert (Hnz : ((stop - j) * inc) mod n <> 0).
    { intros E. apply Zmod_divides in E as [q Hq]; [|lia].
      assert (Hq0 : -1 < q < 1) by (destruct Hinc; subst inc; nia).
      destruct Hinc; subst inc; nia. }
    replace (((stop - j) * inc - 1) mod n) with (((stop - j) * inc) mod n - 1); [lia|].
    apply Z.mod_unique with (((stop - j) * inc) / n); [lia|].
    pose proof (Z.div_mod ((stop - j) * inc) n). lia.
Qed.

Lemma symbol_sound_mono (done : list Z) (v a b c x : Z) :
  symbol_sound done a b c x -> symbol_sound (done ++ [v]) a b c x.
Proof.
  unfold symbol_sound. rewrite !in_app_iff. tauto.
Qed.

Lemma pattern_loop_sound (vl : list Z) (a b c : Z) :
  let '(s, _, _, _, _) := fold_left (pattern_step a b c) vl ([], true, -1, -1, -1) in
  forall x, In x s -> symbol_sound vl a b c x.
Proof.
  apply (fold_left_prefix (pattern_step a b c)
           (fun done st => let '(s, _, _, _, _) := st in
                           forall x, In x s -> symbol_sound done a b c x)).
  - intros x [].
  - intros done v [[[[s lk] pa] pb] pc] IH. unfold pattern_step.
    assert (Hold : forall x, In x s -> symbol_sound (done ++ [v]) a b c x)
      by (intros x Hx; apply symbol_sound_mono; auto).
    destruct (Z.eqb_spec v a) as [->|Ha]; [|destruct (Z.eqb_spec v b) as [->|Hb];
      [|destruct (Z.eqb_spec v c) as [->|Hc]]].
    + intros x Hx. apply in_app_iff in Hx as [Hx|[<-|[]]]; [auto|].
      left. split; [reflexivity|]. apply in_app_iff. right. now left.
    + intros x Hx. apply in_app_iff in Hx as [Hx|[<-|[]]]; [auto|].
      right; left. split; [reflexivity|]. split; [|exact Ha].
      apply in_app_iff. right. now left.
    + intros x Hx. apply in_app_iff in Hx as [Hx|[<-|[]]]; [auto|].
      right; right; left. split; [reflexivity|]. split; [|split; assumption].
      apply in_app_iff. right. now left.
    + destruct lk; [|exact Hold].
      intros x Hx. apply in_app_iff in Hx as [Hx|[<-|[]]]; [auto|].
      right; right; right. reflexivity.
Qed.

Lemma replace2_In (x : Z) (s : str) :
  In x (replace2 star star (str_of "*") s) -> In x s.
Proof.
  assert (H : forall (n : nat) (s : str), (length s <= n)%nat ->
              In x (replace2 star star (str_of "*") s) -> In x s).
  { clear s. induction n as [|n IH]; intros s Hn.
    - destruct s; [auto | simpl in Hn; lia].
    - destruct s as [|c1 [|c2 rest]]; simpl; auto.
      simpl in Hn. destruct ((c1 =? star) && (c2 =? star)) eqn:E.
      + apply andb_prop in E as [E1 E2]. apply Z.eqb_eq in E1, E2. subst.
        intros [<-|H]; [now left|]. right; right. apply IH; [lia | exact H].
      + intros [<-|H]; [now left|]. right.
        apply (IH (c2 :: rest)); [simpl; lia | exact H]. }
  now apply (H (length s)).
Qed.

Lemma rotation_In {A : Type} (x : A) (s : list A) (p : Z) :
  In x (slice_from s p ++ slice_to s p) -> In x s.
Proof.
  unfold slice_from, slice_to. rewrite in_app_iff.
  pose proof (in_app_iff (firstn (clamp s p) s) (skipn (clamp s p) s) x) as H.
  rewrite firstn_skipn in H. tauto.
Qed.

Lemma pattern_sound (vl : list Z) (a b c x : Z) :
  In x (get_pattern vl a b c) -> symbol_sound vl a b c x.
Proof.
  unfold get_pattern. pose proof (pattern_loop_sound vl a b c) as H.
  destruct (fold_left _ _ _) as [[[[s lk] pa] pb] pc].
  intros Hx. apply replace2_In in Hx. apply H.
  destruct (pa >=? 0); [now apply rotation_In in Hx|].
  destruct (pb >=? 0); [now apply rotation_In in Hx|].
  destruct (pc >=? 0); [now apply rotation_In in Hx|]. exact Hx.
Qed.

Lemma index_loop (vl : list Z) (a b c : Z) (m : nat) :
  (m <= length vl)%nat ->
  let '(ai, bi, ci, stop) :=
    fold_left (index_step vl a b c) (range (Z.of_nat m)) (-1, -1, -1, false) in
  (ai = -1 \/ (0 <= ai < Z.of_nat m /\ item vl ai = a)) /\
  (bi = -1 \/ (0 <= bi < Z.of_nat m /\ item vl bi = b)) /\
  (ci = -1 \/ (0 <= ci < Z.of_nat m /\ item vl ci = c)) /\
  (stop = true -> 0 <= ai /\ 0 <= bi /\ 0 <= ci) /\
  (stop = false ->
   forall j, 0 <= j < Z.of_nat m ->
     (item vl j = a -> 0 <= ai) /\
     (item vl j = b -> b <> a -> 0 <= bi) /\
     (item vl j = c -> c <> a -> c <> b -> 0 <= ci)).
Proof.
  induction m as [|m IH]; intros Hm.
  - simpl. repeat split; auto; try lia; intros; lia.
  - rewrite range_succ, fold_left_app. simpl.
    specialize (IH ltac:(lia)).
    destruct (fold_left _ _ _) as [[[ai bi] ci] stop].
    destruct IH as (Ha & Hb & Hc & Hstop & Hall).
    unfold index_step. destruct stop.
    + specialize (Hstop eq_refl). repeat split; try lia; try discriminate.
    + specialize (Hall eq_refl).
      destruct (Z.eqb_spec (item vl (Z.of_nat m)) a) as [Ea|Ea];
        [|destruct (Z.eqb_spec (item vl (Z.of_nat m)) b) as [Eb|Eb];
          [|destruct (Z.eqb_spec (item vl (Z.of_nat m)) c) as [Ec|Ec]]].
      all: repeat split; try lia; intros.
      all: try match goal with
               | Hs : _ && _ = true |- _ =>
                   apply andb_prop in Hs as [Hs Hs3];
                   apply andb_prop in Hs as [Hs1 Hs2]; lia
               end.
      all: match goal with
           | Hj : 0 <= ?j < _ |- _ =>
               destruct (Z.eq_dec j (Z.of_nat m)) as [->|Hne];
               [try lia; congruence
               |destruct (Hall j ltac:(lia)) as (G1 & G2 & G3); auto]
           end.
Qed.

Lemma get_index_found (vl : list Z) (a b c : Z) :
  let '(ai, bi, ci) := get_index vl a b c in
  (In a vl -> 0 <= ai < len vl /\ item vl ai = a) /\
  (In b vl -> b <> a -> 0 <= bi < len vl /\ item vl bi = b) /\
  (In c vl -> c <> a -> c <> b -> 0 <= ci < len vl /\ item vl ci = c).
Proof.
  unfold get_index. pose proof (index_loop vl a b c (length vl) (le_n _)) as H.
  fold (len vl) in H.
  destruct (fold_left _ _ _) as [[[ai bi] ci] stop].
  destruct H as (Ha & Hb & Hc & Hstop & Hall).
  repeat split; intros.
  all: match goal with
       | Hin : In _ _ |- _ => apply In_item in Hin as (j & Hj & Ej)
       end.
  all: destruct stop;
    [specialize (Hstop eq_refl)
    |destruct (Hall eq_refl j Hj) as (G1 & G2 & G3);
     try specialize (G1 Ej); try specialize (G2 Ej ltac:(assumption));
     try specialize (G3 Ej ltac:(assumption) ltac:(assumption))];
    lia.
Qed.

Lemma split_at_nonempty (vl : list Z) (start c : Z) :
  In c vl ->
  let '(newlist1, newlist2) := split_at vl start c in
  newlist1 <> [] /\ newlist2 <> [].
Proof.
  intros Hc. unfold split_at.
  assert (Hn : 0 < len vl) by (destruct vl; [contradiction | unfold len; simpl; lia]).
  pose proof (fold_left_prefix (split_step vl start c)
    (fun done st => let '(l1, l2, flag) := st in
       (done <> [] -> l1 <> []) /\ (done = [] -> flag = false) /\
       (flag = true -> l2 <> []) /\
       (forall i, In i done -> item vl ((i + start) mod len vl) = c -> flag = true))
    (range (len vl)) ([], [], false)) as H.
  destruct (fold_left _ _ _) as [[l1 l2] flag].
  destruct H as (H1 & _ & H2 & H3).
  - repeat split; try congruence. intros i [].
  - intros done i [[m1 m2] fl] (G1 & G0 & G2 & G3). unfold split_step.
    repeat split.
    + intros _. destruct done as [|d done].
      * rewrite (G0 eq_refl). simpl. now destruct m1.
      * assert (m1 <> []) by (apply G1; discriminate).
        destruct (negb fl); [now destruct m1 | assumption].
    + intros E. now destruct done.
    + intros E. rewrite E. now destruct m2.
    + intros k Hk Ek. apply in_app_iff in Hk as [Hk|[<-|[]]].
      * rewrite (G3 k Hk Ek). now destruct (_ =? _).
      * rewrite Ek, Z.eqb_refl. reflexivity.
  - split.
    + apply H1. intros E. pose proof (range_length (len vl)) as L.
      rewrite E in L. simpl in L. lia.
    + apply H2. apply In_item in Hc as (k & Hk & Ek).
      apply (H3 ((k - start) mod len vl)).
      * apply in_range. apply Z.mod_pos_bound. lia.
      * rewrite Zplus_mod_idemp_l.
        replace (k - start + start) with k by ring.
        now rewrite Z.mod_small.
Qed.

Lemma drop_one_nonempty (vl : list Z) (ai bi : Z) :
  0 <= ai < len vl -> 0 <= bi < len vl -> ai <> bi ->
  slice_to vl bi ++ slice_from vl (bi + 1) <> [].
Proof.
  intros Ha Hb Hne E. apply (f_equal (@length Z)) in E.
  unfold slice_to, slice_from in E.
  rewrite length_app, length_firstn, length_skipn, !clamp_mid in E by lia.
  unfold len in *. simpl in E. lia.
Qed.

Lemma patt_in_app (patt : str) (l1 l2 : list str) :
  patt_in patt (l1 ++ l2) = patt_in patt l1 || patt_in patt l2.
Proof. apply existsb_app. Qed.

Lemma str_eqb_eq (s t : str) : str_eqb s t = true <-> s = t.
Proof. unfold str_eqb. destruct (list_eq_dec Z.eq_dec s t); split; congruence. Qed.

(** A cycle whose signature is listed is rewritten or passed through. *)
Lemma move_one_handled (a b c : Z) (st : list Cycle * list Cycle) (cycle : Cycle) :
  patt_in (get_pattern (vlist cycle) a b c)
          (rewrite_patterns ++ passthrough_patterns) = true ->
  exists st', move_one a b c st cycle = Ok st'.
Proof.
  intros H. destruct st as [res new_cycles]. unfold move_one. cbv zeta.
  pose proof (get_index_found (vlist cycle) a b c) as Hidx.
  pose proof (pattern_sound (vlist cycle) a b c) as Hsound.
  pose proof (split_at_nonempty (vlist cycle)) as Hsplit.
  destruct (get_index (vlist cycle) a b c) as [[ai bi] ci].
  destruct Hidx as (Ia & Ib & Ic).
  set (patt := get_pattern (vlist cycle) a b c) in *.
  assert (Hone : forall l, l <> [] -> exists st', add_new res new_cycles l = Ok st').
  { intros l Hl. unfold add_new.
    destruct (Cycle_init_nonempty l Hl) as [cyc ->]. simpl. eauto. }
  assert (Htwo : forall r start, In c (vlist cycle) ->
            exists st', add_split r new_cycles (vlist cycle) start c = Ok st').
  { intros r start Hc. specialize (Hsplit start c Hc). unfold add_split.
    destruct (split_at (vlist cycle) start c) as [l1 l2]. destruct Hsplit as [N1 N2].
    destruct (Cycle_init_nonempty l1 N1) as [c1 ->].
    destruct (Cycle_init_nonempty l2 N2) as [c2 ->]. simpl. eauto. }
  assert (Hsym : forall s, patt_is patt s = true ->
            forall x, In x (str_of s) -> symbol_sound (vlist cycle) a b c x).
  { intros s Hs x Hx. apply str_eqb_eq in Hs. apply Hsound. now rewrite Hs. }
  assert (Hdrop : forall s, patt_is patt s = true ->
            In 97 (str_of s) -> In 98 (str_of s) ->
            slice_to (vlist cycle) bi ++ slice_from (vlist cycle) (bi + 1) <> []).
  { intros s Hs Ha Hb.
    destruct (Hsym s Hs 97 Ha) as [[_ Ka]|[[? _]|[[? _]|?]]]; try discriminate.
    destruct (Hsym s Hs 98 Hb) as [[? _]|[[_ [Kb Kne]]|[[? _]|?]]]; try discriminate.
    destruct (Ia Ka) as [Ra Ea]. destruct (Ib Kb Kne) as [Rb Eb].
    apply (drop_one_nonempty _ ai bi); auto. congruence. }
  assert (Hc99 : forall s, patt_is patt s = true -> In 99 (str_of s) ->
                 In c (vlist cycle)).
  { intros s Hs Hc.
    destruct (Hsym s Hs 99 Hc) as [[? _]|[[? _]|[[_ [K _]]|?]]];
      try discriminate; assumption. }
  destruct (patt_is patt "a*b") eqn:P1.
  { apply Hone. intros E. apply app_eq_nil in E as [_ E]. discriminate. }
  destruct (patt_is patt "a*c*") eqn:P2.
  { apply Htwo. apply (Hc99 _ P2). simpl; auto. }
  destruct (patt_is patt "a*c*b") eqn:P3.
  { apply Htwo. apply (Hc99 _ P3). simpl; auto. }
  destruct (patt_is patt "a*cb") eqn:P4.
  { apply Hone. apply (Hdrop _ P4); simpl; auto. }
  destruct (patt_is patt "ab*") eqn:P5.
  { apply Hone. intros E. apply app_eq_nil in E as [_ E]. discriminate. }
  destruct (patt_is patt "ab*c*") eqn:P6.
  { apply Htwo. apply (Hc99 _ P6). simpl; auto. }
  destruct (patt_is patt "abc*") eqn:P7.
  { apply Hone. apply (Hdrop _ P7); simpl; auto. }
  rewrite patt_in_app in H. apply orb_prop in H as [H|H].
  - exfalso. unfold patt_in, rewrite_patterns, patt_is in *. simpl in H.
    rewrite P1, P2, P3, P4, P5, P6, P7 in H. discriminate.
  - rewrite H. eauto.
Qed.

(** A cycle whose signature is not listed makes the loop raise. *)
Lemma move_one_unhandled (a b c : Z) (st : list Cycle * list Cycle) (cycle : Cycle) :
  patt_in (get_pattern (vlist cycle) a b c)
          (rewrite_patterns ++ passthrough_patterns) = false ->
  move_one a b c st cycle =
    Raise (ValueError (if patt_in (get_pattern (vlist cycle) a b c) impossible_patterns
                       then "Impossible pattern encountered in cycle"
                       else "Unexpected pattern encountered in cycle")).
Proof.
  intros H. destruct st as [res new_cycles]. unfold move_one. cbv zeta.
  destruct (get_index (vlist cycle) a b c) as [[ai bi] ci].
  set (patt := get_pattern (vlist cycle) a b c) in *.
  rewrite patt_in_app in H. apply orb_false_elim in H as [H1 H2].
  unfold patt_in, rewrite_patterns in H1. simpl in H1.
  repeat (apply orb_false_elim in H1 as [?E H1]).
  unfold patt_is. rewrite E, E0, E1, E2, E3, E4, E5, H2.
  now destruct (patt_in patt impossible_patterns).
Qed.

Lemma patt_in_symbols (patt : str) (l : list string) (x : Z) :
  patt_in patt (map str_of l) = true ->
  (forall s, In s l -> In x (str_of s)) -> In x patt.
Proof.
  unfold patt_in. rewrite existsb_exists. intros (p & Hp & E) H.
  apply str_eqb_eq in E. subst p. apply in_map_iff in Hp as (s & <- & Hs). auto.
Qed.

(** Stitching two cycles always ends: both walks stay on their cycle
    and stop within one turn. *)
Lemma stitch_pair_ok (a b c : Z) (cyc1 cyc2 : Cycle) (res : list Cycle) :
  exists res', stitch_pair a b c cyc1 cyc2 res = Ok res'.
Proof.
  unfold stitch_pair.
  destruct (negb (meet_only_at _ _ _)); [eauto|].
  pose proof (get_index_found (vlist cyc1) a b c) as Hidx1.
  pose proof (pattern_sound (vlist cyc1) a b c) as Hs1.
  destruct (get_index (vlist cyc1) a b c) as [[ai1 bi1] ci1].
  destruct (patt_in (get_pattern (vlist cyc1) a b c) _) eqn:P1; [|simpl; eauto]. cbn [negb].
  pose proof (get_index_found (vlist cyc2) a b c) as Hidx2.
  pose proof (pattern_sound (vlist cyc2) a b c) as Hs2.
  destruct (get_index (vlist cyc2) a b c) as [[ai2 bi2] ci2].
  destruct (patt_in (get_pattern (vlist cyc2) a b c) _) eqn:P2; [|simpl; eauto]. cbn [negb].
  assert (Ha1 : In 97 (get_pattern (vlist cyc1) a b c)).
  { apply (patt_in_symbols _ _ 97 P1). intros s [<-|[<-|[]]]; cbv; intuition congruence. }
  assert (Hb1 : In 98 (get_pattern (vlist cyc1) a b c)).
  { apply (patt_in_symbols _ _ 98 P1). intros s [<-|[<-|[]]]; cbv; intuition congruence. }
  assert (Hb2 : In 98 (get_pattern (vlist cyc2) a b c)).
  { apply (patt_in_symbols _ _ 98 P2). intros s [<-|[<-|[]]]; cbv; intuition congruence. }
  assert (Hc2 : In 99 (get_pattern (vlist cyc2) a b c)).
  { apply (patt_in_symbols _ _ 99 P2). intros s [<-|[<-|[]]]; cbv; intuition congruence. }
  destruct (Hs1 _ Ha1) as [[_ Ka1]|[[? _]|[[? _]|?]]]; try discriminate.
  destruct (Hs1 _ Hb1) as [[? _]|[[_ [Kb1 Kab]]|[[? _]|?]]]; try discriminate.
  destruct (Hs2 _ Hb2) as [[? _]|[[_ [Kb2 _]]|[[? _]|?]]]; try discriminate.
  destruct (Hs2 _ Hc2) as [[? _]|[[? _]|[[_ [Kc2 [Kca Kcb]]]|?]]]; try discriminate.
  destruct Hidx1 as (I1a & I1b & _). destruct Hidx2 as (_ & I2b & I2c).
  destruct (I1a Ka1) as [Ra1 _]. destruct (I1b Kb1 Kab) as [Rb1 _].
  destruct (I2b Kb2 Kab) as [Rb2 _]. destruct (I2c Kc2 Kca Kcb) as [Rc2 _].
  set (inc1 := if item (vlist cyc1) ((ai1 + 0 + 1) mod len (vlist cyc1)) =? b
               then -1 else 1).
  set (inc2 := if item (vlist cyc2) ((bi2 + 0 + 1) mod len (vlist cyc2)) =? c
               then -1 else 1).
  assert (Hinc1 : inc1 = 1 \/ inc1 = -1) by (unfold inc1; destruct (Z.eqb _ b); auto).
  assert (Hinc2 : inc2 = 1 \/ inc2 = -1) by (unfold inc2; destruct (Z.eqb _ c); auto).
  destruct (walk_stops (vlist cyc1) (len (vlist cyc1)) inc1 bi1
              ltac:(lia) Hinc1 Rb1 (length (vlist cyc1)) (ai1 + 0) [])
    as [out1 E1]; [lia| |].
  { pose proof (Z.mod_pos_bound ((bi1 - (ai1 + 0)) * inc1) (len (vlist cyc1))
                  ltac:(lia)) as Hb. unfold len in *. lia. }
  rewrite E1. cbn [bind].
  destruct (walk_stops (vlist cyc2) (len (vlist cyc2)) inc2 ci2
              ltac:(lia) Hinc2 Rc2 (length (vlist cyc2)) (bi2 + 0) out1)
    as [out2 E2]; [lia| |].
  { pose proof (Z.mod_pos_bound ((ci2 - (bi2 + 0)) * inc2) (len (vlist cyc2))
                  ltac:(lia)) as Hb. unfold len in *. lia. }
  rewrite E2. cbn [bind].
  destruct (Cycle_init_nonempty (out2 ++ [c])) as [cyc ->]; [now destruct out2|].
  simpl. eauto.
Qed.

Lemma stitch_all_ok (cs : list Cycle) (a b c : Z) (res : list Cycle) :
  exists res', stitch_all cs a b c res = Ok res'.
Proof.
  unfold stitch_all. apply foldM_always_ok. intros s cyc1.
  apply foldM_always_ok. intros s' cyc2. apply stitch_pair_ok.
Qed.

Lemma move_loop_raises (cs : list Cycle) (a b c : Z) (l : list Cycle) :
  forall st, (exists cyc, In cyc l /\ unlisted a b c cyc = true) ->
  exists e, pattern_error e /\ foldM (move_step cs a b c) l st = Raise e.
Proof.
  induction l as [|x l IH]; intros st (cyc & Hin & Hbad); [contradiction|].
  cbn [foldM]. unfold move_step at 1.
  destruct (unlisted a b c x) eqn:Hx; unfold unlisted in Hx.
  - apply negb_true_iff in Hx. rewrite (move_one_unhandled a b c st x Hx). cbn [bind].
    eexists. split; [|reflexivity]. unfold pattern_error.
    destruct (patt_in _ impossible_patterns); auto.
  - apply negb_false_iff in Hx.
    destruct (move_one_handled a b c st x Hx) as [[res new_cycles] ->]. cbn [bind].
    destruct (stitch_all_ok cs a b c res) as [res' ->]. cbn [bind].
    apply IH. exists cyc. split; [|exact Hbad].
    destruct Hin as [<-|Hin]; [|exact Hin].
    unfold unlisted in Hbad. rewrite Hx in Hbad. discriminate.
Qed.

(** C5: a cycle whose signature is neither rewritten nor passed through
    makes apply_move_edge raise ValueError, whichever cycles stand
    before it; the seven impossible signatures are among those, and
    when such a cycle comes first the error is the impossible-pattern
    one. *)
Theorem apply_move_edge_rejects_unlisted :
  (forall (cs : list Cycle) (a b c : Z) (cyc : Cycle),
     In cyc cs ->
     patt_in (get_pattern (vlist cyc) a b c)
             (rewrite_patterns ++ passthrough_patterns) = false ->
     exists e, pattern_error e /\ apply_move_edge cs a b c = Raise e) /\
  (forall p, In p impossible_patterns ->
     patt_in p (rewrite_patterns ++ passthrough_patterns) = false) /\
  (forall (cs : list Cycle) (a b c : Z) (cyc : Cycle),
     patt_in (get_pattern (vlist cyc) a b c) impossible_patterns = true ->
     apply_move_edge (cyc :: cs) a b c =
     Raise (ValueError "Impossible pattern encountered in cycle")).
Proof.
  split; [|split].
  - intros cs a b c cyc Hin Hbad.
    destruct (move_loop_raises cs a b c cs ([], [])) as (e & He & E).
    { exists cyc. split; [exact Hin|]. unfold unlisted. now rewrite Hbad. }
    exists e. split; [exact He|]. unfold apply_move_edge. now rewrite E.
  - intros p Hp. unfold impossible_patterns in Hp. simpl in Hp.
    repeat (destruct Hp as [<-|Hp]; [reflexivity|]). contradiction.
  - intros cs a b c cyc Himp.
    assert (Hbad : patt_in (get_pattern (vlist cyc) a b c)
                           (rewrite_patterns ++ passthrough_patterns) = false).
    { unfold patt_in in Himp. apply existsb_exists in Himp as (p & Hp & E).
      apply str_eqb_eq in E. rewrite E.
      unfold impossible_patterns in Hp. simpl in Hp.
      repeat (destruct Hp as [<-|Hp]; [reflexivity|]). contradiction. }
    unfold apply_move_edge. cbn [foldM]. unfold move_step at 1.
    rewrite (move_one_unhandled a b c _ cyc Hbad), Himp. reflexivity.
Qed.

Lemma apply_move_edge_rejects_unlisted_witness :
  exists e, pattern_error e /\
    apply_move_edge [mkCycle [3; 4; 6]; mkCycle [0; 5; 1]] 0 2 1 = Raise e.
Proof.
  apply (proj1 apply_move_edge_rejects_unlisted
               [mkCycle [3; 4; 6]; mkCycle [0; 5; 1]] 0 2 1 (mkCycle [0; 5; 1])).
  - simpl. auto.
  - reflexivity.
Defined.
(** ** Chording paths *)

Lemma mem_In (x : Z) (l : list Z) : mem x l = true <-> In x l.
Proof.
  unfold mem. rewrite existsb_exists. split.
  - intros (y & Hy & E). apply Z.eqb_eq in E. now subst.
  - intros H. exists x. split; [exact H | apply Z.eqb_refl].
Qed.

Lemma path_edge_pos (path : list Z) (x y : Z) :
  path_edge path x y <->
  exists i, 0 <= i < len path - 1 /\ item path i = x /\ item path (i + 1) = y.
Proof.
  split.
  - intros (l1 & l2 & ->). exists (len l1).
    split; [unfold len; rewrite length_app; simpl length; lia|].
    split; [apply item_app_mid|].
    replace (l1 ++ x :: y :: l2) with ((l1 ++ [x]) ++ y :: l2)
      by (now rewrite <- app_assoc).
    replace (len l1 + 1) with (len (l1 ++ [x])) by (rewrite len_app; reflexivity).
    apply item_app_mid.
  - intros (i & Hi & <- & <-).
    exists (firstn (Z.to_nat i) path), (skipn (S (S (Z.to_nat i))) path).
    unfold item, len in *.
    replace (Z.to_nat (i + 1)) with (S (Z.to_nat i)) by lia.
    apply list_split_nth2. lia.
Qed.

Lemma edge_lies_along_path_spec (path : list Z) (e : edge) :
  edge_lies_along_path path e = true <-> path_traverses path e.
Proof.
  destruct e as [v1 v2]. unfold edge_lies_along_path, path_traverses. simpl.
  rewrite existsb_exists. split.
  - intros (i & Hi & Hp). apply in_range in Hi. apply is_pair_spec in Hp.
    exists (item path i), (item path (i + 1)). split; [|exact Hp].
    apply path_edge_pos. eauto.
  - intros (x & y & Hxy & He). apply path_edge_pos in Hxy as (i & Hi & <- & <-).
    exists i. split; [now apply in_range | now apply is_pair_spec].
Qed.

Lemma edge_lies_along_cycle_spec (cyc : Cycle) (e : edge) :
  edge_lies_along_cycle cyc e = true <-> has_edge (vlist cyc) (fst e) (snd e).
Proof.
  destruct e as [v1 v2]. unfold edge_lies_along_cycle. simpl.
  rewrite existsb_exists, has_edge_pos. split.
  - intros (i & Hi & Hp). apply in_range in Hi. eauto.
  - intros (i & Hi & Hp). exists i. split; [now apply in_range | exact Hp].
Qed.

Lemma has_edge_sym (vl : list Z) (x y : Z) : has_edge vl x y -> has_edge vl y x.
Proof.
  unfold has_edge, is_edge.
  intros [(pre & a & b & post & E & H)|[Hne H]];
    [left; exists pre, a, b, post | right]; tauto.
Qed.

Lemma edge_mem_In (e : edge) (es : list edge) : edge_mem e es = true <-> In e es.
Proof.
  unfold edge_mem, edge_eqb. rewrite existsb_exists. split.
  - intros ([a b] & Hin & E). destruct e as [x y]. simpl in E.
    apply andb_prop in E as [E1 E2]. apply Z.eqb_eq in E1, E2. now subst.
  - intros H. exists e. split; [exact H|]. now rewrite !Z.eqb_refl.
Qed.

Lemma path_edges_In (path : list Z) (x y : Z) :
  In (x, y) (path_edges path) <-> path_edge path x y \/ path_edge path y x.
Proof.
  unfold path_edges. rewrite in_app_iff, !in_map_iff, !path_edge_pos.
  split.
  - intros [(i & E & Hi)|(i & E & Hi)]; apply in_range in Hi; inversion E; subst;
      [left | right]; eauto.
  - intros [(i & Hi & <- & <-)|(i & Hi & <- & <-)]; [left | right];
      exists i; (split; [reflexivity | now apply in_range]).
Qed.

Lemma is_chording_path_es_spec (cyc : Cycle) (path : list Z) :
  is_chording_path_es cyc path path (path_edges path) = true <->
  meets_twice cyc path /\ chording_path cyc path.
Proof.
  unfold is_chording_path_es, meets_twice, chording_path.
  set (vl := vlist cyc). set (n := len vl).
  destruct (Z.eqb_spec (count (fun v => mem v path) vl) 2) as [E2|E2]; cbn [negb].
  2:{ split; [discriminate | tauto]. }
  destruct (existsb _ (range n)) eqn:Ealong.
  - split; [discriminate|]. intros (_ & Hno & _). exfalso.
    apply existsb_exists in Ealong as (i & Hi & Hp). apply in_range in Hi.
    apply edge_mem_In, path_edges_In in Hp.
    assert (He : has_edge vl (item vl i) (item vl ((i + 1) mod n))).
    { apply has_edge_pos. exists i. split; [exact Hi|].
      apply is_pair_spec. left. auto. }
    destruct Hp as [Hp|Hp]; [now apply (Hno _ _ Hp)|].
    apply (Hno _ _ Hp). now apply has_edge_sym.
  - rewrite existsb_exists. split.
    + intros ([x y] & Hin & Hb). simpl in Hb.
      apply andb_prop in Hb as [Hx Hy]. apply mem_In in Hx, Hy.
      split; [exact E2|]. split.
      * intros u v Huv He. apply has_edge_pos in He as (i & Hi & Hp).
        apply is_pair_spec in Hp.
        assert (Hmem : edge_mem (item vl i, item vl ((i + 1) mod n))
                                (path_edges path) = true).
        { apply edge_mem_In, path_edges_In.
          fold n in Hp. destruct Hp as [[E1 E3]|[E1 E3]]; rewrite E1, E3; auto. }
        assert (Hex : existsb (fun i => edge_mem (item vl i, item vl ((i + 1) mod n))
                                          (path_edges path)) (range n) = true).
        { apply existsb_exists. exists i. split; [now apply in_range | exact Hmem]. }
        congruence.
      * apply path_edges_In in Hin as [Hin|Hin]; eauto.
    + intros (_ & _ & (x & y & Hxy & Hx & Hy)).
      exists (x, y). split.
      * apply path_edges_In. now left.
      * simpl. apply andb_true_intro. split; now apply mem_In.
Qed.

Lemma existsb_false_iff {A : Type} (f : A -> bool) (l : list A) :
  existsb f l = false <-> forall x, In x l -> f x = false.
Proof.
  split.
  - intros H x Hx. destruct (f x) eqn:E; [|reflexivity].
    assert (existsb f l = true) by (apply existsb_exists; eauto). congruence.
  - intros H. destruct (existsb f l) eqn:E; [|reflexivity].
    apply existsb_exists in E as (x & Hx & E). rewrite (H x Hx) in E. discriminate.
Qed.

Lemma not_ignored (f : edge -> bool) (P : edge -> Prop) (ignore_edges : list edge) :
  (forall e, f e = true <-> P e) ->
  (existsb f ignore_edges = false <-> forall e, In e ignore_edges -> ~ P e).
Proof.
  intros H. rewrite existsb_false_iff. split; intros G e He.
  - rewrite <- H, G by exact He. discriminate.
  - destruct (f e) eqn:E; [|reflexivity]. apply H in E. now apply G in E.
Qed.

(** C6, as stated, fails: on the 5-cycle 0-1-2-3-4 with the chords
    (0,2) and (2,4), the path 0-2-4 has no edge along the 5-cycle and
    its edges join vertices of it, yet for the pair (0,4) the code
    answers false, for the path meets the cycle in three vertices. *)
Lemma any_chording_paths_counterexample :
  let adj := [[0; 1; 1; 0; 1]; [1; 0; 1; 0; 0]; [1; 1; 0; 1; 1];
              [0; 0; 1; 0; 1]; [1; 0; 1; 1; 0]] in
  let bgc := mkBXGraphCyc
               (mkBXGraph (mkHistory (str_of "w5") []) 5 [103; 3] 7)
               [mkCycle [0; 1; 2]; mkCycle [2; 3; 4]; mkCycle [0; 2; 4];
                mkCycle [0; 1; 2; 4]; mkCycle [0; 2; 3; 4];
                mkCycle [0; 1; 2; 3; 4]] in
  graph_from_root (str_of "w5") adj = Ok (graph bgc) /\
  gen_igraph (graph bgc) = Ok adj /\
  all_simple_paths adj 0 4
    = [[0; 1; 2; 3; 4]; [0; 1; 2; 4]; [0; 2; 3; 4]; [0; 2; 4]; [0; 4]] /\
  any_chording_paths all_simple_paths bgc adj [(0, 4)] [] = false /\
  some_path_and_cycle all_simple_paths bgc adj [(0, 4)] [] chording_path.
Proof.
  intros adj bgc. repeat split; try reflexivity.
  exists 0, 4, [0; 2; 4], (mkCycle [0; 1; 2; 3; 4]).
  split; [now left|]. split; [vm_compute; auto 10|].
  split; [intros e []|]. split; [simpl; auto 10|]. split; [intros e []|].
  split.
  - intros x y Hxy He. apply path_edge_pos in Hxy as (i & Hi & <- & <-).
    apply has_edge_pos in He as (k & Hk & Hp).
    change (len [0; 2; 4]) with 3 in Hi.
    change (len (vlist (mkCycle [0; 1; 2; 3; 4]))) with 5 in *.
    assert (i = 0 \/ i = 1) as [-> | ->] by lia;
      (assert (k = 0 \/ k = 1 \/ k = 2 \/ k = 3 \/ k = 4)
         as [-> | [-> | [-> | [-> | ->]]]] by lia); discriminate.
  - exists 0, 2. split; [exists [], [4]; reflexivity | simpl; auto].
Qed.

(** C6, amended: any_chording_paths answers true exactly when there are
    a pair, a path of the oracle for it that goes over no ignored edge
    and a cycle holding no ignored edge such that the path meets the
    cycle in exactly two of its vertices, no edge of the path lies
    along the cycle and an edge of the path joins two vertices of the
    cycle. *)
Theorem any_chording_paths_spec
  (oracle : igraph -> Z -> Z -> list (list Z)) (bgc : BXGraphCyc) (g : igraph)
  (pairs ignore_edges : list edge) :
  any_chording_paths oracle bgc g pairs ignore_edges = true <->
  some_path_and_cycle oracle bgc g pairs ignore_edges
    (fun cyc path => meets_twice cyc path /\ chording_path cyc path).
Proof.
  unfold any_chording_paths, some_path_and_cycle.
  rewrite existsb_exists. split.
  - intros ([v1 v2] & Hpair & H). apply existsb_exists in H as (path & Hpath & H).
    destruct (existsb (edge_lies_along_path path) ignore_edges) eqn:Ep;
      [discriminate|].
    apply existsb_exists in H as (cyc & Hcyc & H).
    destruct (existsb (edge_lies_along_cycle cyc) ignore_edges) eqn:Ec;
      [discriminate|].
    exists v1, v2, path, cyc. repeat split; auto.
    + now apply (not_ignored _ _ _ (edge_lies_along_path_spec path)).
    + now apply (not_ignored _ _ _ (edge_lies_along_cycle_spec cyc)).
    + now apply (is_chording_path_es_spec cyc path).
    + now apply (is_chording_path_es_spec cyc path).
    + now apply (is_chording_path_es_spec cyc path).
  - intros (v1 & v2 & path & cyc & Hpair & Hpath & Hp & Hcyc & Hc & Hch).
    exists (v1, v2). split; [exact Hpair|].
    apply existsb_exists. exists path. split; [exact Hpath|].
    apply (not_ignored _ _ _ (edge_lies_along_path_spec path)) in Hp. rewrite Hp.
    apply existsb_exists. exists cyc. split; [exact Hcyc|].
    apply (not_ignored _ _ _ (edge_lies_along_cycle_spec cyc)) in Hc. rewrite Hc.
    now apply (is_chording_path_es_spec cyc path).
Qed.

Lemma any_chording_paths_spec_witness :
  let adj := [[0; 1; 1; 0; 1]; [1; 0; 1; 0; 0]; [1; 1; 0; 1; 1];
              [0; 0; 1; 0; 1]; [1; 0; 1; 1; 0]] in
  let bgc := mkBXGraphCyc
               (mkBXGraph (mkHistory (str_of "w5") []) 5 [103; 3] 7)
               [mkCycle [0; 1; 2; 3; 4]] in
  some_path_and_cycle all_simple_paths bgc adj [(0, 2)] []
    (fun cyc path => meets_twice cyc path /\ chording_path cyc path).
Proof.
  intros adj bgc.
  apply (proj1 (any_chording_paths_spec all_simple_paths bgc adj [(0, 2)] [])).
  reflexivity.
Defined.
(** ** Preconditions of the rules *)

Lemma getitem_last {A : Type} (pre : list A) (x : A) :
  getitem (pre ++ [x]) (-1) = Ok x.
Proof.
  unfold getitem. rewrite len_app. change (len [x]) with 1.
  pose proof (len_nonneg pre).
  replace (-1 <? 0) with true by lia.
  replace ((0 <=? -1 + (len pre + 1)) && (-1 + (len pre + 1) <? len pre + 1))
    with true by lia.
  replace (Z.to_nat (-1 + (len pre + 1))) with (length pre) by (unfold len; lia).
  now rewrite nth_error_app2, Nat.sub_diag by lia.
Qed.

Lemma getitem_before_last {A : Type} (pre : list A) (y x : A) :
  getitem (pre ++ [y; x]) (-2) = Ok y.
Proof.
  unfold getitem. rewrite len_app. change (len [y; x]) with 2.
  pose proof (len_nonneg pre).
  replace (-2 <? 0) with true by lia.
  replace ((0 <=? -2 + (len pre + 2)) && (-2 + (len pre + 2) <? len pre + 2))
    with true by lia.
  replace (Z.to_nat (-2 + (len pre + 2))) with (length pre) by (unfold len; lia).
  now rewrite nth_error_app2, Nat.sub_diag by lia.
Qed.

Lemma getitem_last_two {A : Type} (pre : list A) (y x : A) :
  getitem (pre ++ [y; x]) (-1) = Ok x.
Proof.
  replace (pre ++ [y; x]) with ((pre ++ [y]) ++ [x]) by (now rewrite <- app_assoc).
  apply getitem_last.
Qed.

Section Rules.

Variable oracle : igraph -> Z -> Z -> list (list Z).
Variable bgc : BXGraphCyc.

Lemma e2_needs_e_rule (pre : list Transformation) (t : Transformation) :
  elements (history (graph bgc)) = pre ++ [t] -> is_e_rule t = false ->
  e2 bgc = ([], Raise (ValueError "Graph's last transformation must be e?")).
Proof.
  intros E Ht. unfold e2, _prev_e. rewrite E, getitem_last. cbn [bind].
  unfold is_e_rule in Ht. rewrite Ht. reflexivity.
Qed.

Lemma c1_needs_e_rule (pre : list Transformation) (t : Transformation) :
  elements (history (graph bgc)) = pre ++ [t] -> is_e_rule t = false ->
  c1 oracle bgc =
  ([], Raise (ValueError "Algorithm c4 requires an edge added by an e algorithm")).
Proof.
  intros E Ht. unfold c1, _get_typeb_edge. rewrite E.
  destruct (len (pre ++ [t]) >? 0); [|reflexivity].
  rewrite getitem_last. cbn [bind].
  unfold is_e_rule in Ht. rewrite Ht. reflexivity.
Qed.

Lemma c2_skips_other_rules (pre : list Transformation) (t : Transformation) :
  elements (history (graph bgc)) = pre ++ [t] -> str_eqb (alg t) (str_of "c1") = false ->
  c2 oracle bgc = ([], Ok tt).
Proof.
  intros E Ht. unfold c2, _find_c1_vertices. rewrite E, getitem_last.
  cbn [bind]. rewrite Ht. reflexivity.
Qed.

Lemma c3_skips_other_rules (pre : list Transformation) (t2 t1 : Transformation) :
  elements (history (graph bgc)) = pre ++ [t2; t1] -> is_e_rule t1 && is_e_rule t2 = false ->
  c3 oracle bgc = ([], Ok tt).
Proof.
  intros E Ht. unfold c3, _find_c3_vertices.
  rewrite E, getitem_last_two, getitem_before_last. cbn [bind].
  unfold is_e_rule in Ht. rewrite Ht. reflexivity.
Qed.

Lemma c3_skips_apart_edges (pre : list Transformation) (t2 t1 : Transformation)
  (v1 v2 v3 v4 : Z) (ops1 ops2 : list Operation) :
  elements (history (graph bgc)) = pre ++ [t2; t1] -> is_e_rule t1 && is_e_rule t2 = true ->
  ops t1 = OpAddEdge v1 v2 :: ops1 -> ops t2 = OpAddEdge v3 v4 :: ops2 ->
  v1 <> v3 -> v1 <> v4 -> v2 <> v3 -> v2 <> v4 ->
  c3 oracle bgc = ([], Ok tt).
Proof.
  intros E Ht E1 E2 H13 H14 H23 H24. unfold c3, _find_c3_vertices.
  rewrite E, getitem_last_two, getitem_before_last. cbn [bind].
  unfold is_e_rule in Ht. rewrite Ht, E1, E2. simpl.
  destruct (Z.eqb_spec v1 v4); [contradiction|].
  destruct (Z.eqb_spec v1 v3); [contradiction|].
  destruct (Z.eqb_spec v2 v3); [contradiction|].
  destruct (Z.eqb_spec v2 v4); [contradiction|]. reflexivity.
Qed.

Lemma rules_on_short_history :
  (elements (history (graph bgc)) = [] ->
   e2 bgc = ([], Raise IndexError) /\
   c1 oracle bgc =
     ([], Raise (ValueError "Algorithm c4 requires an edge added by an e algorithm")) /\
   c2 oracle bgc = ([], Raise IndexError) /\
   c3 oracle bgc = ([], Raise IndexError)) /\
  (forall t, elements (history (graph bgc)) = [t] -> c3 oracle bgc = ([], Raise IndexError)).
Proof.
  split.
  - intros E. unfold e2, _prev_e, c1, _get_typeb_edge, c2, _find_c1_vertices,
      c3, _find_c3_vertices. rewrite E. repeat split; reflexivity.
  - intros t E. unfold c3, _find_c3_vertices. rewrite E. reflexivity.
Qed.

End Rules.

(** C7, as stated, fails for c2 and c3: on a parent whose last
    transformation is e1, c2 ends at once without a child and without
    an error, and so does c3 on a parent whose last two transformations
    are e1 and c1. *)
Lemma rule_precondition_counterexample :
  let t1 := mkTransformation (str_of "e1") [OpAddEdge 3 0] in
  let t2 := mkTransformation (str_of "c1")
              [OpAddVertex; OpDelEdge 3 0; OpAddEdge 3 4; OpAddEdge 0 4;
               OpDelEdge 0 1; OpAddEdge 1 4] in
  let g0 := mkBXGraph (mkHistory (str_of "pr") []) 4 [7] 3 in
  let g1 := mkBXGraph (mkHistory (str_of "pr") [t1]) 4 [15] 4 in
  let g2 := mkBXGraph (mkHistory (str_of "pr") [t1; t2]) 5 [198; 2] 5 in
  apply_transformation g0 t1 = Ok g1 /\
  apply_transformation g1 t2 = Ok g2 /\
  c2 all_simple_paths (mkBXGraphCyc g1 [mkCycle [0; 1; 2]]) = ([], Ok tt) /\
  c3 all_simple_paths (mkBXGraphCyc g2 [mkCycle [1; 2; 4]]) = ([], Ok tt).
Proof. repeat split; reflexivity. Qed.

(** C7, amended: e2 and c1 raise ValueError when the last
    transformation is not an e-rule (on an empty history e2 raises
    IndexError and c1 ValueError); c2 returns no child and no error when
    the last transformation is not c1, and c3 when the last two
    transformations are not both e-rules or their edges share no
    vertex; on a history too short to look at, c2 and c3 raise
    IndexError. *)
Theorem rule_precondition_outcomes
  (oracle : igraph -> Z -> Z -> list (list Z)) (bgc : BXGraphCyc) :
  (forall pre t,
     elements (history (graph bgc)) = pre ++ [t] -> is_e_rule t = false ->
     e2 bgc = ([], Raise (ValueError "Graph's last transformation must be e?")) /\
     c1 oracle bgc =
     ([], Raise (ValueError "Algorithm c4 requires an edge added by an e algorithm"))) /\
  (forall pre t,
     elements (history (graph bgc)) = pre ++ [t] ->
     str_eqb (alg t) (str_of "c1") = false ->
     c2 oracle bgc = ([], Ok tt)) /\
  (forall pre t2 t1,
     elements (history (graph bgc)) = pre ++ [t2; t1] ->
     is_e_rule t1 && is_e_rule t2 = false ->
     c3 oracle bgc = ([], Ok tt)) /\
  (forall pre t2 t1 v1 v2 v3 v4 ops1 ops2,
     elements (history (graph bgc)) = pre ++ [t2; t1] ->
     is_e_rule t1 && is_e_rule t2 = true ->
     ops t1 = OpAddEdge v1 v2 :: ops1 -> ops t2 = OpAddEdge v3 v4 :: ops2 ->
     v1 <> v3 -> v1 <> v4 -> v2 <> v3 -> v2 <> v4 ->
     c3 oracle bgc = ([], Ok tt)) /\
  (elements (history (graph bgc)) = [] ->
   e2 bgc = ([], Raise IndexError) /\
   c1 oracle bgc =
     ([], Raise (ValueError "Algorithm c4 requires an edge added by an e algorithm")) /\
   c2 oracle bgc = ([], Raise IndexError) /\
   c3 oracle bgc = ([], Raise IndexError)) /\
  (forall t, elements (history (graph bgc)) = [t] ->
             c3 oracle bgc = ([], Raise IndexError)).
Proof.
  split; [|split; [|split; [|split]]].
  - intros pre t E Ht. split;
      [eapply e2_needs_e_rule | eapply c1_needs_e_rule]; eauto.
  - intros pre t E Ht. eapply c2_skips_other_rules; eauto.
  - intros pre t2 t1 E Ht. eapply c3_skips_other_rules; eauto.
  - intros pre t2 t1 v1 v2 v3 v4 ops1 ops2 E Ht E1 E2 H13 H14 H23 H24.
    eapply c3_skips_apart_edges; eauto.
  - apply rules_on_short_history.
Qed.

Lemma rule_precondition_outcomes_witness :
  let t1 := mkTransformation (str_of "e1") [OpAddEdge 3 0] in
  let t2 := mkTransformation (str_of "c1")
              [OpAddVertex; OpDelEdge 3 0; OpAddEdge 3 4; OpAddEdge 0 4;
               OpDelEdge 0 1; OpAddEdge 1 4] in
  let g2 := mkBXGraph (mkHistory (str_of "pr") [t1; t2]) 5 [198; 2] 5 in
  let bgc := mkBXGraphCyc g2 [mkCycle [1; 2; 4]] in
  e2 bgc = ([], Raise (ValueError "Graph's last transformation must be e?")) /\
  c1 all_simple_paths bgc =
  ([], Raise (ValueError "Algorithm c4 requires an edge added by an e algorithm")).
Proof.
  intros t1 t2 g2 bgc.
  apply (proj1 (rule_precondition_outcomes all_simple_paths bgc) [t1] t2);
    reflexivity.
Defined.
(** * Further properties of the sources *)

(** ** The packed adjacency table *)

Lemma forallb_range (f : Z -> bool) (n : Z) :
  forallb f (range n) = true -> forall x, 0 <= x < n -> f x = true.
Proof.
  intros H x Hx. rewrite forallb_forall in H. apply H, in_range, Hx.
Qed.

Lemma tri_div (i : Z) : tri i = i * (i - 1) / 2.
Proof. unfold tri. now rewrite Z.shiftr_div_pow2 by lia. Qed.

Lemma tri_succ (i : Z) : tri (i + 1) = tri i + i.
Proof.
  rewrite !tri_div.
  replace ((i + 1) * (i + 1 - 1)) with (i * (i - 1) + i * 2) by lia.
  now rewrite Z.div_add by lia.
Qed.

Lemma tri_nonneg (i : Z) : 0 <= i -> 0 <= tri i.
Proof.
  intros H. rewrite tri_div. apply Z.div_pos; [|lia].
  destruct (Z.eq_dec i 0) as [->|Hne]; [lia|]. apply Z.mul_nonneg_nonneg; lia.
Qed.

Lemma tri_mono (a i : Z) : 0 <= a <= i -> tri a <= tri i.
Proof.
  intros H. rewrite !tri_div. apply Z.div_le_mono; [lia|].
  destruct (Z.eq_dec a 0) as [->|Hne].
  - destruct (Z.eq_dec i 0) as [->|Hi]; [lia|]. apply Z.mul_nonneg_nonneg; lia.
  - apply Z.mul_le_mono_nonneg; lia.
Qed.

Lemma tri_below (a b i j : Z) :
  0 <= b < a -> 0 <= j -> a < i \/ (a = i /\ b < j) -> tri a + b < tri i + j.
Proof.
  intros Hb Hj [H|[-> H]]; [|lia].
  pose proof (tri_succ a). pose proof (tri_mono (a + 1) i). lia.
Qed.

Lemma bit_flags :
  forall k bi m, 0 <= k < 8 -> 0 <= bi < 2 ^ k -> 0 <= m < 8 ->
    bit (bi + item BITS k) m = (m =? k) || bit bi m.
Proof.
  assert (H : forallb (fun k => forallb (fun bi =>
                negb (bi <? 2 ^ k) ||
                forallb (fun m => Bool.eqb (bit (bi + item BITS k) m)
                                           ((m =? k) || bit bi m))
                        (range 8))
              (range 128)) (range 8) = true) by (vm_compute; reflexivity).
  intros k bi m Hk Hbi Hm.
  pose proof (forallb_range _ _ H k Hk) as H1. cbv beta in H1.
  assert (Hb : 0 <= bi < 128).
  { split; [lia|]. apply Z.lt_le_trans with (2 ^ k); [lia|].
    change 128 with (2 ^ 7). apply Z.pow_le_mono_r; lia. }
  pose proof (forallb_range _ _ H1 bi Hb) as H2. cbv beta in H2.
  replace (bi <? 2 ^ k) with true in H2 by (symmetry; apply Z.ltb_lt; lia).
  cbn [negb orb] in H2. pose proof (forallb_range _ _ H2 m Hm) as H3. cbv beta in H3.
  now apply Bool.eqb_prop.
Qed.

Lemma bit_high :
  forall k bi m, 0 <= k <= 8 -> 0 <= bi < 2 ^ k -> k <= m < 8 -> bit bi m = false.
Proof.
  assert (H : forallb (fun k => forallb (fun bi =>
                negb (bi <? 2 ^ k) ||
                forallb (fun m => negb (k <=? m) || negb (bit bi m)) (range 8))
              (range 256)) (range 9) = true) by (vm_compute; reflexivity).
  intros k bi m Hk Hbi Hm.
  assert (Hk' : 0 <= k < 9) by lia.
  pose proof (forallb_range _ _ H k Hk') as H1. cbv beta in H1.
  assert (Hb : 0 <= bi < 256).
  { split; [lia|]. apply Z.lt_le_trans with (2 ^ k); [lia|].
    change 256 with (2 ^ 8). apply Z.pow_le_mono_r; lia. }
  pose proof (forallb_range _ _ H1 bi Hb) as H2. cbv beta in H2.
  replace (bi <? 2 ^ k) with true in H2 by (symmetry; apply Z.ltb_lt; lia).
  cbn [negb orb] in H2. assert (Hm' : 0 <= m < 8) by lia.
  pose proof (forallb_range _ _ H2 m Hm') as H3. cbv beta in H3.
  replace (k <=? m) with true in H3 by (symmetry; apply Z.leb_le; lia).
  cbn [negb orb] in H3. now apply negb_true_iff in H3.
Qed.

Lemma item_BITS (k : Z) : 0 <= k < 8 -> item BITS k = 2 ^ k.
Proof.
  intros H.
  assert (E : forallb (fun k => item BITS k =? 2 ^ k) (range 8) = true)
    by (vm_compute; reflexivity).
  apply Z.eqb_eq. exact (forallb_range _ _ E k H).
Qed.

Lemma foldM_range2_total {St : Type} (body : St -> Z -> result St)
  (P : Z -> St -> Prop) (a b : Z) (st : St) :
  P a st ->
  (forall x s, a <= x < b -> P x s -> exists s', body s x = Ok s' /\ P (x + 1) s') ->
  exists st', foldM body (range2 a b) st = Ok st' /\ P (Z.max a b) st'.
Proof.
  intros H0 Hstep.
  destruct (Z_le_gt_dec a b) as [Hab|Hab].
  - rewrite Z.max_r by exact Hab.
    replace b with (a + Z.of_nat (Z.to_nat (b - a))) in * by lia.
    induction (Z.to_nat (b - a)) as [|k IH].
    + exists st. unfold range2.
      replace (Z.to_nat (a + Z.of_nat 0 - a)) with 0%nat by lia.
      split; [reflexivity|]. now replace (a + Z.of_nat 0) with a by lia.
    + destruct IH as (s & E & Hs); [intros x s Hx; apply Hstep; lia | lia |].
      destruct (Hstep (a + Z.of_nat k) s) as (s' & E' & Hs'); [lia|exact Hs|].
      exists s'. replace (a + Z.of_nat (S k)) with (a + Z.of_nat k + 1) by lia.
      rewrite range2_succ by lia. rewrite foldM_app, E. simpl. rewrite E'.
      split; [reflexivity|exact Hs'].
  - exists st. rewrite Z.max_l by lia. unfold range2.
    replace (Z.to_nat (b - a)) with 0%nat by lia. split; [reflexivity|exact H0].
Qed.

Lemma item_app_l (l r : list Z) (q : Z) :
  0 <= q < len l -> item (l ++ r) q = item l q.
Proof. intros H. unfold item, len in *. apply app_nth1. lia. Qed.

Lemma norm_id (m i : Z) : 0 <= i -> norm m i = i.
Proof. intros H. unfold norm. destruct (Z.ltb_spec i 0); lia. Qed.

Lemma get2_cell (m : Z) (adj : matrix) (i j : Z) :
  square m adj -> 0 <= i < m -> 0 <= j < m -> get2 adj i j = Ok (cell adj i j).
Proof.
  intros Hsq Hi Hj. destruct (get2_square m adj i j Hsq) as [Hok _].
  rewrite Hok by (rewrite norm_id; lia). now rewrite !norm_id by lia.
Qed.

(** One round of the inner loop of [bytes_from_adj]. *)
Lemma pack_cell (m : Z) (adj : matrix) (i j : Z) (st : list Z * Z * Z) :
  square m adj -> 0 <= j < i -> i < m -> packed adj i j st ->
  exists st',
    (let '(ba, bi, k) := st in
     let* a := get2 adj i j in
     let bi := if a =? 1 then bi + item BITS k else bi in
     let k := k + 1 in
     if k =? 8 then Ok (ba ++ [bi], 0, 0) else Ok (ba, bi, k)) = Ok st' /\
    packed adj i (j + 1) st'.
Proof.
  intros Hsq Hj Hi. destruct st as [[ba bi] k]. intros (Hlen & Hk & Hbi & Hba & Hbits).
  rewrite (get2_cell m) by (auto; lia). cbn [bind].
  pose proof (tri_nonneg i ltac:(lia)) as Ht.
  set (P := tri i + j) in *.
  assert (Hk8 : 0 <= k < 8) by (subst k; apply Z.mod_pos_bound; lia).
  set (v := cell adj i j) in *.
  set (bi' := if v =? 1 then bi + item BITS k else bi).
  assert (Hbi' : 0 <= bi' < 2 ^ (k + 1)).
  { replace (k + 1) with (Z.succ k) by lia. rewrite Z.pow_succ_r by lia. subst bi'. destruct (v =? 1); [|lia].
    rewrite item_BITS by lia. lia. }
  assert (Hsame : forall q, 0 <= q < k -> bit bi' q = bit bi q).
  { intros q Hq. subst bi'. destruct (v =? 1); [|reflexivity].
    rewrite bit_flags by lia.
    now replace (q =? k) with false by (symmetry; apply Z.eqb_neq; lia). }
  assert (Hnew : bit bi' k = (v =? 1)).
  { subst bi'. destruct (v =? 1).
    - rewrite bit_flags by lia. now rewrite Z.eqb_refl.
    - apply (bit_high k); lia. }
  assert (HP : tri i + (j + 1) = P + 1) by (subst P; lia).
  assert (Hcov : forall a b, 0 <= b < a -> a < i \/ (a = i /\ b < j + 1) ->
             (a < i \/ (a = i /\ b < j)) \/ (a = i /\ b = j)) by (intros; lia).
  assert (Hread : forall a b, 0 <= b < a -> a < i \/ (a = i /\ b < j + 1) ->
            bit (item (ba ++ [bi']) ((tri a + b) / 8)) ((tri a + b) mod 8)
            = (cell adj a b =? 1)).
  { intros a b Hb Hc. destruct (Hcov a b Hb Hc) as [Hold|[-> ->]].
    - pose proof (tri_below a b i j Hb ltac:(lia) Hold) as Hlt. fold P in Hlt.
      pose proof (tri_nonneg a ltac:(lia)) as Hta.
      rewrite <- (Hbits a b Hb Hold).
      set (p := tri a + b) in *.
      assert (Hq : p / 8 < len ba \/ (p / 8 = len ba /\ p mod 8 < k))
        by (rewrite Hlen, Hk; Z.div_mod_to_equations; lia).
      destruct Hq as [Hq|[Hq Hr]].
      + rewrite !item_app_l; [reflexivity| |];
          (split; [apply Z.div_pos; lia|exact Hq]).
      + rewrite Hq, !item_app_mid. apply Hsame.
        split; [apply Z.mod_pos_bound; lia|exact Hr].
    - fold P. fold v. rewrite <- Hlen, item_app_mid, <- Hk. exact Hnew. }
  destruct (Z.eqb_spec (k + 1) 8) as [E8|E8].
  - eexists. split; [reflexivity|]. unfold packed. rewrite HP.
    split; [|split; [|split; [|split]]].
    + unfold len in *. rewrite length_app. simpl length.
      rewrite Nat2Z.inj_add, Hlen. simpl Z.of_nat.
      rewrite Hk in E8. Z.div_mod_to_equations. lia.
    + rewrite Hk in E8. Z.div_mod_to_equations. lia.
    + simpl. lia.
    + apply Forall_app. split; [exact Hba|]. constructor; [|constructor].
      rewrite E8 in Hbi'. change (2 ^ 8) with 256 in Hbi'. exact Hbi'.
    + intros a b Hb Hc. rewrite <- (Hread a b Hb Hc).
      destruct (Hcov a b Hb Hc) as [Hold|[-> ->]].
      * pose proof (tri_below a b i j Hb ltac:(lia) Hold) as Hlt. fold P in Hlt.
        pose proof (tri_nonneg a ltac:(lia)) as Hta.
        rewrite item_app_l; [reflexivity|].
        split; [apply Z.div_pos; lia|].
        unfold len. rewrite length_app. simpl length. fold (len ba).
        rewrite Nat2Z.inj_add. fold (len ba). rewrite Hlen.
        simpl Z.of_nat. Z.div_mod_to_equations. lia.
      * fold P. rewrite item_app_l; [reflexivity|].
        split; [apply Z.div_pos; lia|].
        unfold len. rewrite length_app. simpl length.
        rewrite Nat2Z.inj_add. fold (len ba). rewrite Hlen. simpl Z.of_nat. lia.
  - eexists. split; [reflexivity|]. unfold packed. rewrite HP.
    split; [|split; [|split; [|split]]].
    + rewrite Hlen. rewrite Hk in E8, Hk8. Z.div_mod_to_equations. lia.
    + rewrite Hk in E8, Hk8 |- *. Z.div_mod_to_equations. lia.
    + exact Hbi'.
    + exact Hba.
    + exact Hread.
Qed.

Lemma getitem_item (l : list Z) (q : Z) :
  0 <= q < len l -> getitem l q = Ok (item l q).
Proof.
  intros H. destruct (getitem_norm l q 0) as [Hok _].
  rewrite Hok by (rewrite norm_id; lia). now rewrite norm_id by lia.
Qed.

Lemma bytes_of_list_ok (ba : list Z) :
  Forall (fun x => 0 <= x < 256) ba -> bytes_of_list ba = Ok ba.
Proof.
  intros H. unfold bytes_of_list.
  replace (forallb _ ba) with true; [reflexivity|]. symmetry.
  apply forallb_forall. rewrite Forall_forall in H. intros x Hx.
  specialize (H x Hx). apply andb_true_iff. split; [apply Z.leb_le|apply Z.ltb_lt]; lia.
Qed.

(** [bytes_from_adj] packs the lower triangle row by row, eight entries
    to a byte, lowest bit first. *)
Lemma bytes_from_adj_packs (m : Z) (adj : matrix) :
  square m adj ->
  exists b, bytes_from_adj adj = Ok b /\ len b = (tri m + 7) / 8 /\
    Forall (fun x => 0 <= x < 256) b /\
    forall i j, 0 <= j < i -> i < m ->
      (tri i + j) / 8 < len b /\
      bit (item b ((tri i + j) / 8)) ((tri i + j) mod 8) = (cell adj i j =? 1).
Proof.
  intros Hsq. pose proof Hsq as [Hm _]. unfold bytes_from_adj. rewrite Hm.
  assert (Hm0 : 0 <= m) by (unfold len in Hm; lia).
  match goal with |- context [foldM ?body (range2 1 m) ?init] =>
    destruct (foldM_range2_total body (fun i st => packed adj i 0 st) 1 m init)
      as (st & E & Hst) end.
  - unfold packed. change (tri 1 + 0) with 0.
    split; [reflexivity|]. split; [reflexivity|]. split; [simpl; lia|].
    split; [constructor|]. intros a b Hb Hc. lia.
  - intros i s Hi Hs.
    cbv beta.
    match goal with |- context [foldM ?inner (range i) s] =>
      destruct (foldM_range2_total inner (fun j st => packed adj i j st) 0 i s Hs)
        as (s' & E' & Hs') end.
    + intros j r Hj Hr. destruct r as [[ba bi] k].
      apply (pack_cell m adj i j (ba, bi, k)); auto; lia.
    + exists s'. split; [exact E'|]. rewrite Z.max_r in Hs' by lia.
      destruct s' as [[ba bi] k]. unfold packed in *. rewrite tri_succ.
      replace (tri i + i + 0) with (tri i + i) by lia.
      destruct Hs' as (H1 & H2 & H3 & H4 & H5). repeat split; try assumption; try lia.
      intros a b Hb Hc. apply H5; [exact Hb|lia].
  - rewrite E. cbn [bind]. destruct st as [[ba bi] k].
    assert (Ht : tri (Z.max 1 m) = tri m).
    { destruct (Z.eq_dec m 0) as [->|Hne]; [reflexivity|]. now rewrite Z.max_r by lia. }
    unfold packed in Hst. rewrite Ht, Z.add_0_r in Hst.
    destruct Hst as (Hlen & Hk & Hbi & Hba & Hbits).
    pose proof (tri_nonneg m Hm0) as Htm.
    assert (Hk8 : 0 <= k < 8) by (subst k; apply Z.mod_pos_bound; lia).
    assert (Hread : forall i j, 0 <= j < i -> i < m ->
              tri i + j < tri m /\ 0 <= tri i + j /\
              bit (item (ba ++ [bi]) ((tri i + j) / 8)) ((tri i + j) mod 8)
              = (cell adj i j =? 1)).
    { intros i j Hj Hi. pose proof (tri_nonneg i ltac:(lia)).
      pose proof (tri_succ i). pose proof (tri_mono (i + 1) m ltac:(lia)).
      repeat split; try lia. apply Hbits; [exact Hj|].
      destruct (Z.eq_dec m 0); [lia|]. rewrite Z.max_r by lia. lia. }
    destruct (Z.gtb_spec k 0) as [Hpos|Hzero].
    + exists (ba ++ [bi]). split; [|split; [|split]].
      * apply bytes_of_list_ok, Forall_app. split; [exact Hba|].
        constructor; [|constructor]. split; [lia|].
        apply Z.lt_le_trans with (2 ^ k); [lia|].
        change 256 with (2 ^ 8). apply Z.pow_le_mono_r; lia.
      * unfold len in *. rewrite length_app. simpl length.
        rewrite Nat2Z.inj_add, Hlen. simpl Z.of_nat.
        rewrite Hk in Hpos. Z.div_mod_to_equations. lia.
      * apply Forall_app. split; [exact Hba|].
        constructor; [|constructor]. split; [lia|].
        apply Z.lt_le_trans with (2 ^ k); [lia|].
        change 256 with (2 ^ 8). apply Z.pow_le_mono_r; lia.
      * intros i j Hj Hi. destruct (Hread i j Hj Hi) as (Hlt & H0 & Hb).
        split; [|exact Hb].
        unfold len in *. rewrite length_app. simpl length.
        rewrite Nat2Z.inj_add, Hlen. simpl Z.of_nat.
        Z.div_mod_to_equations. lia.
    + assert (Hz : tri m mod 8 = 0) by lia.
      exists ba. split; [|split; [|split]].
      * now apply bytes_of_list_ok.
      * rewrite Hlen. Z.div_mod_to_equations. lia.
      * exact Hba.
      * intros i j Hj Hi. destruct (Hread i j Hj Hi) as (Hlt & H0 & Hb).
        assert (Hq : (tri i + j) / 8 < len ba)
          by (rewrite Hlen; Z.div_mod_to_equations; lia).
        split; [exact Hq|]. rewrite <- Hb. rewrite item_app_l; [reflexivity|].
        split; [apply Z.div_pos; lia|exact Hq].
Qed.

Lemma are_conn_bit (b : bytes) (n i j : Z) :
  0 <= j < i -> i < n -> (tri i + j) / 8 < len b ->
  _are_conn b n i j = Ok (bit (item b ((tri i + j) / 8)) ((tri i + j) mod 8)).
Proof.
  intros Hj Hi Hq. unfold _are_conn.
  replace (i <? 0) with false by lia. replace (i >=? n) with false by lia.
  replace (j <? 0) with false by lia. replace (j >=? n) with false by lia.
  cbn [orb]. replace (i =? j) with false by lia. replace (i >? j) with true by lia.
  fold (tri i). rewrite Z.shiftr_div_pow2 by lia. change (2 ^ 3) with 8.
  pose proof (tri_nonneg i ltac:(lia)).
  rewrite getitem_item by (split; [apply Z.div_pos; lia|exact Hq]).
  reflexivity.
Qed.

(** Reading back what [bytes_from_adj] wrote. *)
Lemma are_conn_bytes_from_adj (m : Z) (adj : matrix) (b : bytes) (i j : Z) :
  square m adj -> bytes_from_adj adj = Ok b ->
  0 <= i < m -> 0 <= j < m -> i <> j ->
  _are_conn b m i j = Ok (edge_of adj i j).
Proof.
  intros Hsq Hb Hi Hj Hne.
  destruct (bytes_from_adj_packs m adj Hsq) as (b' & E & _ & _ & Hread).
  rewrite Hb in E. inversion E; subst b'; clear E. unfold edge_of.
  destruct (Z_lt_ge_dec j i) as [Hlt|Hge].
  - destruct (Hread i j ltac:(lia) ltac:(lia)) as [Hq Hbit].
    rewrite are_conn_bit by lia. rewrite Hbit.
    now rewrite Z.max_l, Z.min_r by lia.
  - destruct (Hread j i ltac:(lia) ltac:(lia)) as [Hq Hbit].
    rewrite are_conn_sym, are_conn_bit by lia. rewrite Hbit.
    now rewrite Z.max_r, Z.min_l by lia.
Qed.

Lemma foldM_pure {A St : Type} (body : St -> A -> result St) (g : St -> A -> St)
  (xs : list A) (st : St) :
  (forall x s, In x xs -> body s x = Ok (g s x)) ->
  foldM body xs st = Ok (fold_left g xs st).
Proof.
  revert st. induction xs as [|x xs IH]; intros st H; [reflexivity|].
  simpl. rewrite H by now left. simpl. apply IH. intros y s Hy. apply H. now right.
Qed.

(** [_nedge] counts the pairs of the lower triangle that are connected. *)
Lemma nedge_count (b : bytes) (n : Z) (f : Z -> Z -> bool) :
  (forall i j, 0 <= j < i -> i < n -> _are_conn b n i j = Ok (f i j)) ->
  _nedge n b = Ok (count_lower f n).
Proof.
  intros H. unfold _nedge, count_lower. apply foldM_pure.
  intros i acc Hi. apply in_range2 in Hi. apply foldM_pure.
  intros j acc' Hj. apply in_range in Hj. now rewrite H by lia.
Qed.

Lemma fill_from_bytes_returns (ba : bytes) (n m : Z) :
  n <= Z.max 0 m ->
  (forall i j, 0 <= j < i -> i < n -> exists c, _are_conn ba n i j = Ok c) ->
  exists adj, fill_from_bytes ba n (zeros m) = Ok adj.
Proof.
  intros Hn Hconn. unfold fill_from_bytes.
  match goal with |- context [foldM ?body (range2 1 n) ?init] =>
    destruct (foldM_range2_total body
                (fun i adj => filled ba n (Z.max 0 m) i 0 adj) 1 n init)
      as (st & E & _) end.
  - destruct (zeros_square m) as [Hsq Hz]. split; [exact Hsq|].
    intros a b Ha Hb. split; [unfold covered; lia | intros _; apply Hz].
  - intros i s Hi Hs. cbv beta.
    match goal with |- context [foldM ?inner (range i) s] =>
      destruct (foldM_range2_total inner
                  (fun j adj => filled ba n (Z.max 0 m) i j adj) 0 i s Hs)
        as (s' & E' & Hs') end.
    + intros j r Hj Hr. cbv beta.
      destruct (Hconn i j ltac:(lia) ltac:(lia)) as [c Ec].
      assert (Hex : exists r',
                (let* c := _are_conn ba n i j in
                 if c then let* adj := set2 r i j 1 in set2 adj j i 1 else Ok r)
                = Ok r').
      { rewrite Ec. cbn [bind]. destruct c; [|eauto].
        destruct Hr as [Hsq _].
        destruct (set2_square (Z.max 0 m) r i j 1 Hsq) as [Hok _].
        destruct Hok as (r1 & E1 & Hsq1 & _); [rewrite norm_id; lia..|].
        rewrite E1. cbn [bind].
        destruct (set2_square (Z.max 0 m) r1 j i 1 Hsq1) as [Hok _].
        destruct Hok as (r2 & E2 & _); [rewrite norm_id; lia..|]. eauto. }
      destruct Hex as [r' Er']. exists r'. split; [exact Er'|].
      eapply fill_cell; [|exact Hr|exact Er']. lia.
    + exists s'. split; [exact E'|]. rewrite (Z.max_r 0 i) in Hs' by lia.
      destruct Hs' as [Hsq Hc]. split; [exact Hsq|]. intros a b Ha Hb.
      destruct (Hc a b Ha Hb) as [Hcov Hnot]. split.
      * intros Hv. apply Hcov. unfold covered in *. lia.
      * intros Hv. apply Hnot. unfold covered in *. lia.
  - eauto.
Qed.

Lemma matrix_ext (m : Z) (A B : matrix) :
  square m A -> square m B ->
  (forall a b, 0 <= a < m -> 0 <= b < m -> cell A a b = cell B a b) -> A = B.
Proof.
  intros [HA RA] [HB RB] H. unfold len in *.
  apply (nth_ext A B [] []); [lia|]. intros k Hk.
  rewrite Forall_forall in RA, RB.
  assert (La : len (nth k A []) = m) by (apply RA, nth_In; lia).
  assert (Lb : len (nth k B []) = m) by (apply RB, nth_In; lia).
  unfold len in *.
  apply (nth_ext _ _ 0 0); [lia|]. intros q Hq.
  specialize (H (Z.of_nat k) (Z.of_nat q) ltac:(lia) ltac:(lia)).
  unfold cell in H. now rewrite !Nat2Z.id in H.
Qed.

Lemma cell_bits (m : Z) (adj : matrix) (a b : Z) :
  square m adj -> bits adj -> 0 <= a < m -> 0 <= b < m ->
  cell adj a b = 0 \/ cell adj a b = 1.
Proof.
  intros Hsq Hb Ha Hb'. eapply get2_bits; [exact Hb|]. now apply (get2_cell m).
Qed.

Lemma BXGraph_init_returns (h : History) (n : Z) (b : bytes) (f : Z -> Z -> bool) :
  (forall i j, 0 <= j < i -> i < n -> _are_conn b n i j = Ok (f i j)) ->
  BXGraph_init h n b = Ok (mkBXGraph h n b (count_lower f n)).
Proof. intros H. unfold BXGraph_init. now rewrite (nedge_count b n f H). Qed.

(** X1: from a square table graph_from_root builds a graph of that size
    with the root name and an empty list of transformations; its bytes
    hold the lower triangle, eight entries to a byte, and conn(i, j)
    answers whether the entry below the diagonal for the pair is 1. *)
Theorem graph_from_root_stores_lower_triangle (r : str) (m : Z) (adj : matrix) :
  square m adj ->
  exists g, graph_from_root r adj = Ok g /\
    size g = m /\ history g = mkHistory r [] /\
    len (badj g) = (m * (m - 1) / 2 + 7) / 8 /\
    nedge g = count_lower (edge_of adj) m /\
    forall i j, 0 <= i < m -> 0 <= j < m -> i <> j ->
      conn g i j = Ok (cell adj (Z.max i j) (Z.min i j) =? 1).
Proof.
  intros Hsq. pose proof Hsq as [Hm _].
  destruct (bytes_from_adj_packs m adj Hsq) as (b & Eb & Hlen & _ & _).
  unfold graph_from_root. rewrite Eb, Hm. cbn [bind].
  rewrite (BXGraph_init_returns _ m b (edge_of adj)).
  - eexists. split; [reflexivity|]. cbn [size history badj nedge].
    split; [reflexivity|]. split; [reflexivity|].
    split; [now rewrite Hlen, tri_div|]. split; [reflexivity|].
    intros i j Hi Hj Hne. unfold conn. cbn [size badj].
    now apply (are_conn_bytes_from_adj m adj).
  - intros i j Hj Hi. apply (are_conn_bytes_from_adj m adj); auto; lia.
Qed.

Lemma graph_from_root_stores_lower_triangle_witness :
  exists g, graph_from_root (str_of "pr") [[0; 1; 1]; [1; 0; 0]; [1; 0; 0]] = Ok g /\
    size g = 3 /\ conn g 0 1 = Ok true /\ conn g 2 1 = Ok false.
Proof.
  destruct (graph_from_root_stores_lower_triangle (str_of "pr") 3
              [[0; 1; 1]; [1; 0; 0]; [1; 0; 0]]) as (g & E & Hs & _ & _ & _ & Hc).
  - split; [reflexivity|]. repeat constructor.
  - exists g. split; [exact E|]. split; [exact Hs|].
    split; [apply (Hc 0 1); lia | apply (Hc 2 1); lia].
Defined.

(** X2: a symmetric table of zeros and ones with a zero diagonal comes
    back unchanged from adj_from_bytes(bytes_from_adj(adj), len(adj)). *)
Theorem adj_bytes_roundtrip (m : Z) (adj : matrix) :
  square m adj -> symmetric m adj -> bits adj ->
  (forall a, 0 <= a < m -> cell adj a a = 0) ->
  exists b, bytes_from_adj adj = Ok b /\ adj_from_bytes b m = Ok adj.
Proof.
  intros Hsq Hsym Hbits Hdiag. pose proof Hsq as [Hm _].
  assert (Hm0 : 0 <= m) by (unfold len in Hm; lia).
  destruct (bytes_from_adj_packs m adj Hsq) as (b & Eb & _).
  exists b. split; [exact Eb|]. unfold adj_from_bytes.
  destruct (fill_from_bytes_returns b m m) as [adj' E]; [lia| |].
  { intros i j Hj Hi. exists (edge_of adj i j).
    apply (are_conn_bytes_from_adj m adj); auto; lia. }
  rewrite E. f_equal.
  destruct (fill_from_bytes_cells b m m adj' E) as [Hsq' Hc].
  rewrite Z.max_r in Hsq', Hc by lia.
  apply (matrix_ext m); [exact Hsq'|exact Hsq|].
  intros a c Ha Hc'. destruct (Hc a c Ha Hc') as [H1 H2].
  destruct (Z.eq_dec a c) as [->|Hne].
  - rewrite H2 by lia. now rewrite Hdiag.
  - destruct H1 as (v & Ev & ->); [lia|].
    rewrite (are_conn_bytes_from_adj m adj b a c Hsq Eb Ha Hc' Hne) in Ev.
    inversion Ev; subst v. unfold edge_of.
    assert (Hmm : cell adj (Z.max a c) (Z.min a c) = cell adj a c).
    { destruct (Z_lt_ge_dec a c).
      - rewrite Z.max_r, Z.min_l by lia. now apply Hsym.
      - now rewrite Z.max_l, Z.min_r by lia. }
    rewrite Hmm. destruct (cell_bits m adj a c Hsq Hbits Ha Hc') as [-> | ->]; reflexivity.
Qed.

Lemma adj_bytes_roundtrip_witness :
  exists b, bytes_from_adj [[0; 1; 1]; [1; 0; 0]; [1; 0; 0]] = Ok b /\
            adj_from_bytes b 3 = Ok [[0; 1; 1]; [1; 0; 0]; [1; 0; 0]].
Proof.
  apply (adj_bytes_roundtrip 3 [[0; 1; 1]; [1; 0; 0]; [1; 0; 0]]).
  - split; [reflexivity|]. repeat constructor.
  - intros a b Ha Hb.
    assert (Ea : a = 0 \/ a = 1 \/ a = 2) by lia.
    assert (Eb : b = 0 \/ b = 1 \/ b = 2) by lia.
    destruct Ea as [->|[->| ->]], Eb as [->|[->| ->]]; reflexivity.
  - unfold bits. repeat (apply Forall_cons || apply Forall_nil); auto.
  - intros a Ha. assert (Ea : a = 0 \/ a = 1 \/ a = 2) by lia.
    destruct Ea as [->|[->| ->]]; reflexivity.
Defined.

(** X3: for a graph that came out of the constructor, gen_igraph's
    table is square of the graph's size, symmetric, made of zeros and
    ones, zero on the diagonal, and holds 1 exactly where conn answers
    true. *)
Theorem gen_igraph_table_matches_conn (g : BXGraph) :
  constructed g ->
  exists adj, gen_igraph g = Ok adj /\
    square (Z.max 0 (size g)) adj /\ symmetric (Z.max 0 (size g)) adj /\ bits adj /\
    forall a b, 0 <= a < size g -> 0 <= b < size g ->
      exists c, conn g a b = Ok c /\ cell adj a b = (if c then 1 else 0).
Proof.
  intros Hg. destruct (BXGraph_init_fields _ _ _ _ Hg) as (_ & _ & _ & Hn).
  unfold gen_igraph, adj_from_bytes.
  destruct (fill_from_bytes_returns (badj g) (size g) (size g)) as [adj E]; [lia| |].
  { intros i j Hj Hi. eapply nedge_ok_lower; eauto. }
  exists adj. split; [exact E|].
  destruct (fill_from_bytes_cells _ _ _ _ E) as [Hsq Hc].
  assert (Hcell : forall a b, 0 <= a < size g -> 0 <= b < size g ->
            exists c, conn g a b = Ok c /\ cell adj a b = (if c then 1 else 0)).
  { intros a b Ha Hb. destruct (Hc a b ltac:(lia) ltac:(lia)) as [H1 H2].
    destruct (Z.eq_dec a b) as [->|Hne].
    - exists false. split; [now apply are_conn_diag|]. apply H2. lia.
    - destruct H1 as (c & Ec & Ecell); [lia|]. now exists c. }
  split; [exact Hsq|]. split; [|split; [|exact Hcell]].
  - intros a b Ha Hb.
    destruct (Hcell a b ltac:(lia) ltac:(lia)) as (c & Ec & ->).
    destruct (Hcell b a ltac:(lia) ltac:(lia)) as (c' & Ec' & ->).
    unfold conn in *. rewrite are_conn_sym, Ec in Ec'. now inversion Ec'.
  - eapply fill_from_bytes_bits; [apply zeros_bits|exact E].
Qed.

Lemma gen_igraph_table_matches_conn_witness :
  exists adj, gen_igraph (mkBXGraph (mkHistory (str_of "pr") []) 3 [3] 2) = Ok adj /\
              cell adj 1 0 = 1 /\ cell adj 2 1 = 0.
Proof.
  destruct (gen_igraph_table_matches_conn
              (mkBXGraph (mkHistory (str_of "pr") []) 3 [3] 2) eq_refl)
    as (adj & E & _ & _ & _ & Hc).
  exists adj. split; [exact E|].
  destruct (Hc 1 0 ltac:(simpl; lia) ltac:(simpl; lia)) as (c & Ec & ->).
  destruct (Hc 2 1 ltac:(simpl; lia) ltac:(simpl; lia)) as (c' & Ec' & ->).
  vm_compute in Ec, Ec'. inversion Ec; inversion Ec'. now subst.
Defined.

(** ** Transformations on the adjacency relation *)

Lemma is_pair_sym (a b i j : Z) : is_pair a b i j = is_pair b a i j.
Proof.
  unfold is_pair.
  destruct (a =? i), (b =? j), (a =? j), (b =? i); reflexivity.
Qed.

Lemma edit_sym (f : Z -> Z -> bool) (op : Operation) :
  (forall a b, f a b = f b a) -> forall a b, edit f op a b = edit f op b a.
Proof.
  intros H a b. destruct op as [|i j|i j]; simpl; auto;
    rewrite is_pair_sym; destruct (is_pair b a i j); auto.
Qed.

Lemma edits_sym (ops : list Operation) (f : Z -> Z -> bool) :
  (forall a b, f a b = f b a) ->
  forall a b, fold_left edit ops f a b = fold_left edit ops f b a.
Proof.
  revert f. induction ops as [|op ops IH]; intros f H; [exact H|].
  simpl. apply IH. now apply edit_sym.
Qed.

Lemma adjacent_sym (g : BXGraph) (a b : Z) : adjacent g a b = adjacent g b a.
Proof. unfold adjacent, conn. now rewrite are_conn_sym. Qed.

Lemma set2_both_holds (m : Z) (adj adj1 adj2 : matrix) (i j v : Z)
  (f : Z -> Z -> bool) :
  square m adj -> holds m adj f -> 0 <= i -> 0 <= j ->
  set2 adj i j v = Ok adj1 -> set2 adj1 j i v = Ok adj2 ->
  square m adj2 /\ 0 <= i < m /\ 0 <= j < m /\
  holds m adj2 (fun a b => if is_pair a b i j then v =? 1 else f a b).
Proof.
  intros Hsq Hf Hi Hj E1 E2.
  destruct (set2_both m adj adj1 adj2 i j v Hsq E1 E2) as (Hsq2 & Hi' & Hj' & C).
  rewrite norm_id in Hi', Hj', C by lia. rewrite (norm_id m j) in C by lia.
  split; [exact Hsq2|]. split; [exact Hi'|]. split; [exact Hj'|].
  intros a b Ha Hb Hne. rewrite (C a b Ha Hb). unfold is_pair.
  destruct (((a =? i) && (b =? j)) || ((a =? j) && (b =? i))); [reflexivity|].
  now apply Hf.
Qed.

(** One operation on the table is the same operation on the relation. *)
Lemma apply_op_holds (m : Z) (adj adj' : matrix) (op : Operation)
  (f : Z -> Z -> bool) :
  square m adj -> holds m adj f -> op_nonneg op -> apply_op adj op = Ok adj' ->
  square m adj' /\ holds m adj' (edit f op).
Proof.
  intros Hsq Hf Hop H. destruct op as [|i j|i j]; simpl in H, Hop.
  - inversion H; subst. now split.
  - destruct (get2 adj i j) as [a|e|]; simpl in H; try discriminate.
    destruct (a =? 1); try discriminate.
    destruct (set2 adj i j 1) as [r1|e|] eqn:E1; simpl in H; try discriminate.
    destruct (set2_both_holds m adj r1 adj' i j 1 f Hsq Hf) as (S2 & _ & _ & Hh);
      try tauto.
  - destruct (get2 adj i j) as [a|e|]; simpl in H; try discriminate.
    destruct (a =? 0); try discriminate.
    destruct (set2 adj i j 0) as [r1|e|] eqn:E1; simpl in H; try discriminate.
    destruct (set2_both_holds m adj r1 adj' i j 0 f Hsq Hf) as (S2 & _ & _ & Hh);
      try tauto.
Qed.

Lemma apply_ops_holds (m : Z) (ops : list Operation) (adj adj' : matrix)
  (f : Z -> Z -> bool) :
  square m adj -> holds m adj f -> Forall op_nonneg ops ->
  foldM apply_op ops adj = Ok adj' ->
  square m adj' /\ holds m adj' (fold_left edit ops f).
Proof.
  revert adj f. induction ops as [|op ops IH]; intros adj f Hsq Hf Hops H.
  - simpl in H. inversion H; subst. now split.
  - simpl in H. destruct (apply_op adj op) as [adj1|e|] eqn:E; simpl in H; try discriminate.
    inversion Hops as [|? ? Hop Hrest]; subst.
    destruct (apply_op_holds m adj adj1 op f Hsq Hf Hop E) as [Hsq1 Hf1].
    simpl. now apply (IH adj1).
Qed.

(** The enlarged table that [apply_transformation] starts from holds the
    edges of the graph; the new vertices have none. *)
Lemma ext_adj_holds (g : BXGraph) (n_ext : Z) (adj : matrix) :
  0 <= n_ext -> ext_adj_from_bytes (badj g) (size g) n_ext = Ok adj ->
  square (Z.max 0 (size g + n_ext)) adj /\
  holds (Z.max 0 (size g + n_ext)) adj (adjacent g).
Proof.
  intros Hn E. unfold ext_adj_from_bytes in E.
  destruct (fill_from_bytes_cells _ _ _ _ E) as [Hsq Hc].
  split; [exact Hsq|]. intros a b Ha Hb Hne.
  destruct (Hc a b Ha Hb) as [H1 H2]. unfold adjacent, conn.
  assert (Hd : (a < size g /\ b < size g) \/ ~ (a < size g /\ b < size g)) by lia.
  destruct Hd as [Hd|Hd].
  - destruct H1 as (c & -> & ->); [lia|]. now destruct c.
  - rewrite H2 by lia. rewrite are_conn_range by lia. reflexivity.
Qed.

Lemma count_vertex_ops_nonneg (t : Transformation) : 0 <= count_vertex_ops t.
Proof. unfold count_vertex_ops. apply count_pos. Qed.

Lemma apply_transformation_conn
  (g g' : BXGraph) (t : Transformation) :
  apply_transformation g t = Ok g' -> Forall op_nonneg (ops t) ->
  size g' = size g + count_vertex_ops t /\
  history g' = mkHistory (root (history g)) (elements (history g) ++ [t]) /\
  forall a b, 0 <= a < size g' -> 0 <= b < size g' -> a <> b ->
    conn g' a b = Ok (fold_left edit (ops t) (adjacent g) a b).
Proof.
  intros H Hops. unfold apply_transformation in H. fold (count_vertex_ops t) in H.
  pose proof (count_vertex_ops_nonneg t) as Hn.
  set (n_ext := count_vertex_ops t) in *.
  destruct (ext_adj_from_bytes _ _ _) as [adj0|e|] eqn:E0; simpl in H; try discriminate.
  destruct (foldM apply_op _ adj0) as [adj|e|] eqn:E1; simpl in H; try discriminate.
  destruct (bytes_from_adj adj) as [b|e|] eqn:E2; simpl in H; try discriminate.
  destruct (BXGraph_init_fields _ _ _ _ H) as (Hh & Hs & Hb & _).
  split; [exact Hs|]. split; [exact Hh|].
  intros a c Ha Hc Hne.
  destruct (ext_adj_holds g n_ext adj0 Hn E0) as [Hsq0 Hf0].
  destruct (apply_ops_holds _ _ _ _ _ Hsq0 Hf0 Hops E1) as [Hsq Hf].
  rewrite Z.max_r in Hsq, Hf by lia. rewrite <- Hs in Hsq, Hf.
  unfold conn. rewrite Hb.
  rewrite (are_conn_bytes_from_adj (size g') adj b a c Hsq E2 Ha Hc Hne).
  f_equal. unfold edge_of.
  destruct (Z_lt_ge_dec a c).
  - rewrite Z.max_r, Z.min_l by lia. rewrite (Hf c a) by lia.
    apply edits_sym. apply adjacent_sym.
  - rewrite Z.max_l, Z.min_r by lia. apply Hf; lia.
Qed.

(** X4: what apply_transformation returns: the size grows by the number
    of vertex operations, the transformation is appended to the history,
    and conn on the child is the parent's adjacency after the edge
    operations in order; vertices added have the edges the operations
    give them and no other. *)
Theorem apply_transformation_edits_adjacency
  (g g' : BXGraph) (t : Transformation) :
  apply_transformation g t = Ok g' -> Forall op_nonneg (ops t) ->
  size g' = size g + count_vertex_ops t /\
  history g' = mkHistory (root (history g)) (elements (history g) ++ [t]) /\
  forall a b, 0 <= a < size g' -> 0 <= b < size g' -> a <> b ->
    conn g' a b = Ok (fold_left edit (ops t) (adjacent g) a b).
Proof. apply apply_transformation_conn. Qed.

Lemma apply_transformation_edits_adjacency_witness :
  let g := mkBXGraph (mkHistory (str_of "pr") []) 3 [3] 2 in
  let t := mkTransformation (str_of "c1")
             [OpAddVertex; OpDelEdge 1 0; OpAddEdge 1 3; OpAddEdge 0 3] in
  exists g', apply_transformation g t = Ok g' /\ size g' = 4 /\
             conn g' 1 0 = Ok false /\ conn g' 3 1 = Ok true /\ conn g' 2 0 = Ok true.
Proof.
  intros g t. destruct (apply_transformation g t) as [g'|e|] eqn:E;
    [|vm_compute in E; discriminate..].
  destruct (apply_transformation_edits_adjacency g g' t E) as (Hs & _ & Hc).
  - repeat constructor; simpl; lia.
  - exists g'. split; [reflexivity|]. split; [exact Hs|].
    change (size g + count_vertex_ops t) with 4 in Hs. rewrite Hs in Hc.
    split; [|split]; [rewrite (Hc 1 0) by lia | rewrite (Hc 3 1) by lia
                     | rewrite (Hc 2 0) by lia]; reflexivity.
Defined.

Lemma count_app {A : Type} (p : A -> bool) (xs ys : list A) :
  count p (xs ++ ys) = count p xs + count p ys.
Proof.
  unfold count at 1. rewrite fold_left_app. fold (count p xs). now rewrite count_acc.
Qed.

Lemma row_count_succ (f : Z -> Z -> bool) (i y : Z) :
  0 <= y -> row_count f i (y + 1) = row_count f i y + Z.b2z (f i y).
Proof.
  intros H. unfold row_count, range. rewrite range2_succ by lia.
  rewrite count_app.
  replace (count (f i) [y]) with (Z.b2z (f i y)); [reflexivity|].
  unfold count. simpl. now destruct (f i y).
Qed.

Lemma row_fold (f : Z -> Z -> bool) (i : Z) (l : list Z) (acc : Z) :
  fold_left (fun acc j => if f i j then acc + 1 else acc) l acc = acc + count (f i) l.
Proof.
  revert acc. induction l as [|x l IH]; intros acc.
  - unfold count. simpl. lia.
  - simpl. rewrite IH, count_cons. destruct (f i x); lia.
Qed.

Lemma count_lower_succ (f : Z -> Z -> bool) (n : Z) :
  1 <= n -> count_lower f (n + 1) = count_lower f n + row_count f n n.
Proof.
  intros H. unfold count_lower. rewrite range2_succ by lia.
  rewrite fold_left_app. simpl. now rewrite row_fold.
Qed.

Lemma count_lower_small (f : Z -> Z -> bool) (n : Z) : n <= 1 -> count_lower f n = 0.
Proof.
  intros H. unfold count_lower, range2.
  now replace (Z.to_nat (n - 1)) with 0%nat by lia.
Qed.

(** Changing a relation at one pair below the diagonal changes the count
    by that pair alone. *)
Lemma row_count_change (f g : Z -> Z -> bool) (p q x : Z) (k : nat) :
  (forall a b, 0 <= b < a -> ~ (a = p /\ b = q) -> g a b = f a b) ->
  Z.of_nat k <= x ->
  row_count g x (Z.of_nat k) - row_count f x (Z.of_nat k) =
  if (x =? p) && (0 <=? q) && (q <? Z.of_nat k) then Z.b2z (g p q) - Z.b2z (f p q) else 0.
Proof.
  intros H. induction k as [|k IH]; intros Hk.
  - unfold row_count, range, range2. simpl.
    destruct (Z.leb_spec 0 q), (Z.ltb_spec q 0); rewrite ?andb_false_r; try reflexivity; lia.
  - replace (Z.of_nat (S k)) with (Z.of_nat k + 1) in * by lia.
    rewrite !row_count_succ by lia. specialize (IH ltac:(lia)).
    destruct (Z.eqb_spec x p) as [->|Hx]; cbn [andb] in *.
    + destruct (Z.leb_spec 0 q) as [Hq|Hq]; cbn [andb] in *.
      * destruct (Z.ltb_spec q (Z.of_nat k)) as [Hlt|Hge].
        -- replace (q <? Z.of_nat k + 1) with true by lia.
           rewrite (H p (Z.of_nat k)) by lia. lia.
        -- destruct (Z.eq_dec q (Z.of_nat k)) as [->|Hne].
           ++ replace (Z.of_nat k <? Z.of_nat k + 1) with true by lia. lia.
           ++ replace (q <? Z.of_nat k + 1) with false by lia.
              rewrite (H p (Z.of_nat k)) by lia. lia.
      * rewrite (H p (Z.of_nat k)) by lia. lia.
    + rewrite (H x (Z.of_nat k)) by lia. lia.
Qed.

Lemma count_lower_change (f g : Z -> Z -> bool) (p q : Z) (k : nat) :
  0 <= q < p ->
  (forall a b, 0 <= b < a -> ~ (a = p /\ b = q) -> g a b = f a b) ->
  count_lower g (Z.of_nat k) - count_lower f (Z.of_nat k) =
  if p <? Z.of_nat k then Z.b2z (g p q) - Z.b2z (f p q) else 0.
Proof.
  intros Hq H. induction k as [|k IH].
  - rewrite !count_lower_small by lia. destruct (Z.ltb_spec p (Z.of_nat 0)); [lia|reflexivity].
  - destruct k as [|k].
    + rewrite !count_lower_small by lia.
      destruct (Z.ltb_spec p (Z.of_nat 1)); [lia|reflexivity].
    + replace (Z.of_nat (S (S k))) with (Z.of_nat (S k) + 1) by lia.
      rewrite !count_lower_succ by lia.
      pose proof (row_count_change f g p q (Z.of_nat (S k)) (S k) H ltac:(lia)) as Hr.
      set (n := Z.of_nat (S k)) in *.
      destruct (Z.ltb_spec p n) as [Hlt|Hge];
        destruct (Z.ltb_spec p (n + 1)) as [Hlt1|Hge1]; try lia;
        destruct (Z.eqb_spec n p) as [Hp|Hp]; try lia;
        destruct (Z.leb_spec 0 q); try lia;
        destruct (Z.ltb_spec q n); try lia; cbn [andb] in Hr; lia.
Qed.

Lemma count_lower_ext (f g : Z -> Z -> bool) (n : Z) :
  (forall a b, 0 <= b < a -> a < n -> g a b = f a b) ->
  count_lower g n = count_lower f n.
Proof.
  intros H. unfold count_lower.
  assert (Hgen : forall l acc, (forall i, In i l -> 1 <= i < n) ->
    fold_left (fun acc i =>
      fold_left (fun acc j => if g i j then acc + 1 else acc) (range i) acc) l acc =
    fold_left (fun acc i =>
      fold_left (fun acc j => if f i j then acc + 1 else acc) (range i) acc) l acc).
  { induction l as [|i l IH]; intros acc Hl; [reflexivity|]. simpl.
    rewrite IH by (intros; apply Hl; now right). f_equal.
    rewrite !row_fold. f_equal.
    assert (Hi : 1 <= i < n) by (apply Hl; now left).
    assert (Hrow : forall r, (forall j, In j r -> 0 <= j < i) ->
              count (g i) r = count (f i) r).
    { induction r as [|j r IHr]; intros Hr; [reflexivity|].
      rewrite !count_cons, IHr by (intros; apply Hr; now right).
      rewrite H; [reflexivity| |lia]. apply Hr. now left. }
    apply Hrow. intros j Hj. now apply in_range. }
  apply Hgen. intros i Hi. now apply in_range2.
Qed.

(** The pairs above [n] count for nothing when the relation is empty
    there. *)
Lemma count_lower_extend (f : Z -> Z -> bool) (n : Z) (k : nat) :
  0 <= n -> (forall a b, n <= a -> f a b = false) ->
  count_lower f (n + Z.of_nat k) = count_lower f n.
Proof.
  intros Hn H. induction k as [|k IH]; [f_equal; lia|].
  replace (n + Z.of_nat (S k)) with (n + Z.of_nat k + 1) by lia.
  destruct (Z_le_gt_dec (n + Z.of_nat k) 0) as [Hz|Hz].
  - rewrite !count_lower_small by lia. reflexivity.
  - rewrite count_lower_succ by lia. rewrite IH.
    assert (Hrow : forall l, count (f (n + Z.of_nat k)) l = 0).
    { induction l as [|x l IHl]; [reflexivity|].
      rewrite count_cons, IHl, H by lia. reflexivity. }
    unfold row_count. rewrite Hrow. lia.
Qed.

Lemma edit_pair_elsewhere (i j a b : Z) :
  0 <= b < a -> ~ (a = Z.max i j /\ b = Z.min i j) -> is_pair a b i j = false.
Proof.
  intros Hb Hn. unfold is_pair.
  destruct (Z.eqb_spec a i), (Z.eqb_spec b j), (Z.eqb_spec a j), (Z.eqb_spec b i);
    cbn; try reflexivity; exfalso; apply Hn; lia.
Qed.

Lemma edit_pair_there (i j : Z) : i <> j -> is_pair (Z.max i j) (Z.min i j) i j = true.
Proof.
  intros Hne. unfold is_pair.
  destruct (Z.eqb_spec (Z.max i j) i), (Z.eqb_spec (Z.min i j) j),
           (Z.eqb_spec (Z.max i j) j), (Z.eqb_spec (Z.min i j) i);
    cbn; try reflexivity; lia.
Qed.

(** Setting the pair [i], [j] of a symmetric relation to [v] moves the
    count of its pairs by the difference at that pair. *)
Lemma count_lower_set (f : Z -> Z -> bool) (i j m : Z) (v : bool) :
  (forall a b, f a b = f b a) -> 0 <= i < m -> 0 <= j < m -> i <> j ->
  count_lower (fun a b => if is_pair a b i j then v else f a b) m =
  count_lower f m + Z.b2z v - Z.b2z (f i j).
Proof.
  intros Hsym Hi Hj Hne.
  pose proof (count_lower_change f (fun a b => if is_pair a b i j then v else f a b)
                (Z.max i j) (Z.min i j) (Z.to_nat m) ltac:(lia)) as H.
  rewrite Z2Nat.id in H by lia.
  destruct (Z.ltb_spec (Z.max i j) m) as [_|Hge]; [|lia].
  cbv beta in H. rewrite edit_pair_there in H by exact Hne.
  assert (E : f (Z.max i j) (Z.min i j) = f i j).
  { destruct (Z_lt_ge_dec i j).
    - rewrite Z.max_r, Z.min_l by lia. apply Hsym.
    - now rewrite Z.max_l, Z.min_r by lia. }
  rewrite E in H.
  assert (Hd : count_lower (fun a b => if is_pair a b i j then v else f a b) m
               - count_lower f m = Z.b2z v - Z.b2z (f i j)).
  { apply H. intros a b Hb Hn. now rewrite edit_pair_elsewhere. }
  lia.
Qed.

Lemma apply_op_counts (m c : Z) (adj adj' : matrix) (op : Operation)
  (f : Z -> Z -> bool) :
  square m adj -> holds m adj f -> bits adj -> (forall a b, f a b = f b a) ->
  count_lower f m = c -> op_proper op -> apply_op adj op = Ok adj' ->
  count_lower (edit f op) m = c + Z.b2z (is_add op) - Z.b2z (is_del op).
Proof.
  intros Hsq Hf Hbits Hsym Hc Hop H. destruct op as [|i j|i j]; simpl in H, Hop |- *.
  - lia.
  - destruct (get2 adj i j) as [a|e|] eqn:Eg; simpl in H; try discriminate.
    destruct (Z.eqb_spec a 1) as [|Ha]; try discriminate.
    destruct (set2 adj i j 1) as [r1|e|] eqn:E1; simpl in H; try discriminate.
    destruct (set2_both_holds m adj r1 adj' i j 1 f Hsq Hf) as (_ & Hi & Hj & _);
      try tauto.
    rewrite (get2_cell m) in Eg by assumption. inversion Eg; subst a.
    rewrite count_lower_set by tauto.
    rewrite <- (Hf i j) by tauto.
    replace (cell adj i j =? 1) with false by (symmetry; now apply Z.eqb_neq).
    simpl. lia.
  - destruct (get2 adj i j) as [a|e|] eqn:Eg; simpl in H; try discriminate.
    destruct (Z.eqb_spec a 0) as [|Ha]; try discriminate.
    destruct (set2 adj i j 0) as [r1|e|] eqn:E1; simpl in H; try discriminate.
    destruct (set2_both_holds m adj r1 adj' i j 0 f Hsq Hf) as (_ & Hi & Hj & _);
      try tauto.
    rewrite (get2_cell m) in Eg by assumption. inversion Eg; subst a.
    rewrite count_lower_set by tauto.
    rewrite <- (Hf i j) by tauto.
    destruct (cell_bits m adj i j Hsq Hbits Hi Hj) as [E|E]; [contradiction|].
    rewrite E. simpl. lia.
Qed.

Lemma op_proper_nonneg (op : Operation) : op_proper op -> op_nonneg op.
Proof. destruct op; simpl; tauto. Qed.

Lemma apply_ops_counts (m : Z) (ops : list Operation) (adj adj' : matrix)
  (f : Z -> Z -> bool) :
  square m adj -> holds m adj f -> bits adj -> (forall a b, f a b = f b a) ->
  Forall op_proper ops -> foldM apply_op ops adj = Ok adj' ->
  count_lower (fold_left edit ops f) m =
  count_lower f m + count is_add ops - count is_del ops.
Proof.
  revert adj f. induction ops as [|op ops IH]; intros adj f Hsq Hf Hb Hsym Hops H.
  - simpl. unfold count. simpl. lia.
  - simpl in H. destruct (apply_op adj op) as [adj1|e|] eqn:E; simpl in H; try discriminate.
    inversion Hops as [|? ? Hop Hrest]; subst.
    destruct (apply_op_holds m adj adj1 op f Hsq Hf (op_proper_nonneg _ Hop) E)
      as [Hsq1 Hf1].
    simpl. rewrite (IH adj1 (edit f op)); auto.
    + rewrite (apply_op_counts m _ adj adj1 op f Hsq Hf Hb Hsym eq_refl Hop E).
      rewrite !count_cons. destruct (is_add op), (is_del op); cbn [Z.b2z]; lia.
    + eapply apply_op_bits; eauto.
    + now apply edit_sym.
Qed.

Lemma constructed_nedge (g : BXGraph) :
  constructed g -> nedge g = count_lower (adjacent g) (size g).
Proof.
  intros Hg. destruct (BXGraph_init_fields _ _ _ _ Hg) as (_ & _ & _ & Hn).
  rewrite (nedge_count (badj g) (size g) (adjacent g)) in Hn; [now inversion Hn|].
  intros i j Hj Hi. destruct (nedge_ok_lower _ _ _ Hn i j Hj Hi) as [v Ev].
  unfold adjacent, conn. now rewrite Ev.
Qed.

Lemma apply_transformation_nedge (g g' : BXGraph) (t : Transformation) :
  constructed g -> 0 <= size g ->
  apply_transformation g t = Ok g' -> Forall op_proper (ops t) ->
  nedge g' = nedge g + count is_add (ops t) - count is_del (ops t).
Proof.
  intros Hg Hsz H Hops.
  assert (Hnn : Forall op_nonneg (ops t))
    by (eapply Forall_impl; [apply op_proper_nonneg|exact Hops]).
  pose proof (apply_transformation_conn g g' t H Hnn) as (Hs & _ & Hconn).
  unfold apply_transformation in H. fold (count_vertex_ops t) in H.
  pose proof (count_vertex_ops_nonneg t) as Hn.
  set (n_ext := count_vertex_ops t) in *.
  destruct (ext_adj_from_bytes _ _ _) as [adj0|e|] eqn:E0; simpl in H; try discriminate.
  destruct (foldM apply_op _ adj0) as [adj|e|] eqn:E1; simpl in H; try discriminate.
  destruct (bytes_from_adj adj) as [b|e|] eqn:E2; simpl in H; try discriminate.
  destruct (BXGraph_init_fields _ _ _ _ H) as (_ & _ & Hb & Hne).
  destruct (ext_adj_holds g n_ext adj0 Hn E0) as [Hsq0 Hf0].
  rewrite Z.max_r in Hsq0, Hf0 by lia.
  rewrite (nedge_count b (size g + n_ext) (fold_left edit (ops t) (adjacent g))) in Hne.
  - injection Hne as Hv. rewrite <- Hv.
    rewrite (apply_ops_counts _ _ adj0 adj (adjacent g) Hsq0 Hf0); auto.
    + rewrite (constructed_nedge g Hg).
      replace n_ext with (Z.of_nat (Z.to_nat n_ext)) by lia.
      rewrite count_lower_extend; [reflexivity|exact Hsz|].
      intros a c Ha. unfold adjacent, conn. rewrite are_conn_range by lia. reflexivity.
    + unfold ext_adj_from_bytes in E0.
      eapply fill_from_bytes_bits; [apply zeros_bits|exact E0].
    + apply adjacent_sym.
  - intros i j Hj Hi.
    specialize (Hconn i j ltac:(lia) ltac:(lia) ltac:(lia)).
    unfold conn in Hconn. rewrite Hb, Hs in Hconn. exact Hconn.
Qed.

(** X5: a transformation that succeeds moves the number of edges by the
    edges it adds less the edges it deletes. *)
Theorem apply_transformation_counts_edges (g g' : BXGraph) (t : Transformation) :
  constructed g -> 0 <= size g ->
  apply_transformation g t = Ok g' -> Forall op_proper (ops t) ->
  nedge g' = nedge g + count is_add (ops t) - count is_del (ops t).
Proof. apply apply_transformation_nedge. Qed.

Lemma apply_transformation_counts_edges_witness :
  let g := mkBXGraph (mkHistory (str_of "pr") []) 3 [3] 2 in
  let t := mkTransformation (str_of "c1")
             [OpAddVertex; OpDelEdge 1 0; OpAddEdge 1 3; OpAddEdge 0 3] in
  exists g', apply_transformation g t = Ok g' /\ nedge g' = 3.
Proof.
  intros g t. destruct (apply_transformation g t) as [g'|e|] eqn:E;
    [|vm_compute in E; discriminate..].
  exists g'. split; [reflexivity|].
  rewrite (apply_transformation_counts_edges g g' t); [reflexivity|reflexivity| |exact E|].
  - simpl. lia.
  - repeat constructor; simpl; lia.
Defined.

(** ** When a transformation succeeds *)

Lemma set2_both_returns (m : Z) (adj : matrix) (i j v : Z) :
  square m adj -> 0 <= i < m -> 0 <= j < m ->
  exists adj1 adj2, set2 adj i j v = Ok adj1 /\ set2 adj1 j i v = Ok adj2.
Proof.
  intros Hsq Hi Hj.
  destruct (set2_square m adj i j v Hsq) as [Hok _].
  destruct Hok as (r1 & E1 & Hsq1 & _); [rewrite norm_id; lia..|].
  destruct (set2_square m r1 j i v Hsq1) as [Hok _].
  destruct Hok as (r2 & E2 & _); [rewrite norm_id; lia..|]. eauto.
Qed.

Lemma apply_op_returns (m : Z) (adj : matrix) (op : Operation) (f : Z -> Z -> bool)
  (rest : list Operation) :
  square m adj -> holds m adj f -> op_proper op -> applicable m f (op :: rest) ->
  exists adj', apply_op adj op = Ok adj'.
Proof.
  intros Hsq Hf Hop [Ha _]. destruct op as [|i j|i j]; simpl in *.
  - eauto.
  - destruct Hop as (Hi & Hj & Hne), Ha as (Hi' & Hj' & Hv).
    rewrite (get2_cell m) by (auto; lia). cbn [bind].
    rewrite (Hf i j) by lia. rewrite Hv.
    destruct (set2_both_returns m adj i j 1 Hsq) as (r1 & r2 & E1 & E2); try lia.
    cbn. rewrite E1. cbn [bind]. eauto.
  - destruct Hop as (Hi & Hj & Hne), Ha as (Hi' & Hj' & Hv).
    rewrite (get2_cell m) by (auto; lia). cbn [bind].
    assert (E : cell adj i j = 1) by (apply Z.eqb_eq; rewrite (Hf i j) by lia; exact Hv).
    rewrite E. cbn.
    destruct (set2_both_returns m adj i j 0 Hsq) as (r1 & r2 & E1 & E2); try lia.
    rewrite E1. cbn [bind]. eauto.
Qed.

Lemma apply_ops_returns (m : Z) (ops : list Operation) (adj : matrix)
  (f : Z -> Z -> bool) :
  square m adj -> holds m adj f -> Forall op_proper ops -> applicable m f ops ->
  exists adj', foldM apply_op ops adj = Ok adj'.
Proof.
  revert adj f. induction ops as [|op ops IH]; intros adj f Hsq Hf Hops Ha.
  - simpl. eauto.
  - inversion Hops as [|? ? Hop Hrest]; subst.
    destruct (apply_op_returns m adj op f ops Hsq Hf Hop Ha) as [adj1 E].
    simpl. rewrite E. cbn [bind].
    destruct (apply_op_holds m adj adj1 op f Hsq Hf (op_proper_nonneg _ Hop) E)
      as [Hsq1 Hf1].
    apply (IH adj1 (edit f op)); auto. apply Ha.
Qed.

Lemma constructed_conn (g : BXGraph) (i j : Z) :
  constructed g -> 0 <= i < size g -> 0 <= j < size g ->
  conn g i j = Ok (adjacent g i j).
Proof.
  intros Hg Hi Hj. destruct (BXGraph_init_fields _ _ _ _ Hg) as (_ & _ & _ & Hn).
  unfold adjacent, conn.
  destruct (Z.eq_dec i j) as [->|Hne]; [now rewrite are_conn_diag|].
  destruct (Z_lt_ge_dec j i).
  - destruct (nedge_ok_lower _ _ _ Hn i j ltac:(lia) ltac:(lia)) as [v ->]. reflexivity.
  - destruct (nedge_ok_lower _ _ _ Hn j i ltac:(lia) ltac:(lia)) as [v Ev].
    rewrite are_conn_sym, Ev. reflexivity.
Qed.

Lemma apply_transformation_ok (g : BXGraph) (t : Transformation) :
  constructed g -> 0 <= size g -> Forall op_proper (ops t) ->
  applicable (size g + count_vertex_ops t) (adjacent g) (ops t) ->
  exists g', apply_transformation g t = Ok g' /\ constructed g'.
Proof.
  intros Hg Hsz Hops Ha. unfold apply_transformation. fold (count_vertex_ops t).
  pose proof (count_vertex_ops_nonneg t) as Hn.
  set (n_ext := count_vertex_ops t) in *.
  destruct (BXGraph_init_fields _ _ _ _ Hg) as (_ & _ & _ & Hne).
  unfold ext_adj_from_bytes.
  destruct (fill_from_bytes_returns (badj g) (size g) (size g + n_ext)) as [adj0 E0];
    [lia| |].
  { intros i j Hj Hi. eapply nedge_ok_lower; eauto. }
  rewrite E0. cbn [bind].
  destruct (ext_adj_holds g n_ext adj0 Hn E0) as [Hsq0 Hf0].
  rewrite Z.max_r in Hsq0, Hf0 by lia.
  destruct (apply_ops_returns _ _ adj0 _ Hsq0 Hf0 Hops Ha) as [adj E1].
  rewrite E1. cbn [bind].
  destruct (apply_ops_holds _ _ _ _ _ Hsq0 Hf0
              (Forall_impl _ op_proper_nonneg Hops) E1) as [Hsq _].
  destruct (bytes_from_adj_packs _ adj Hsq) as (b & E2 & _).
  rewrite E2. cbn [bind].
  rewrite (BXGraph_init_returns _ _ b (edge_of adj)).
  - eexists. split; [reflexivity|]. unfold constructed. cbn [history size badj].
    apply BXGraph_init_returns.
    intros i j Hj Hi. apply (are_conn_bytes_from_adj _ adj); auto; lia.
  - intros i j Hj Hi. apply (are_conn_bytes_from_adj _ adj); auto; lia.
Qed.

(** X6: apply_transformation returns a graph whenever the operations
    can be carried out in order: every edge added is between two
    different vertices that are not connected at that point, every edge
    deleted is there. *)
Theorem apply_transformation_returns (g : BXGraph) (t : Transformation) :
  constructed g -> 0 <= size g -> Forall op_proper (ops t) ->
  applicable (size g + count_vertex_ops t) (adjacent g) (ops t) ->
  exists g', apply_transformation g t = Ok g' /\ constructed g'.
Proof. apply apply_transformation_ok. Qed.

Lemma apply_transformation_returns_witness :
  exists g', apply_transformation (mkBXGraph (mkHistory (str_of "pr") []) 3 [3] 2)
               (mkTransformation (str_of "e1") [OpAddEdge 2 1]) = Ok g' /\
             constructed g'.
Proof.
  apply (apply_transformation_returns
           (mkBXGraph (mkHistory (str_of "pr") []) 3 [3] 2)
           (mkTransformation (str_of "e1") [OpAddEdge 2 1])).
  - reflexivity.
  - simpl. lia.
  - repeat constructor; simpl; lia.
  - simpl. repeat split; lia.
Defined.

(** ** The extension rule e1 *)

Section AddEdgeOn.

Variable dom : Z -> Prop.
Variable conn : Z -> Z -> result bool.
Hypothesis conn_on : forall a b, dom a -> dom b -> exists c, conn a b = Ok c.

Lemma corner_returns_on (vl : list Z) (i x q y pos : Z) (res : list Cycle) :
  vl <> [] -> dom (item vl q) -> dom y ->
  exists res', corner conn vl i x q y pos res = Ok res'.
Proof.
  intros Hvl Hq Hy. unfold corner. destruct (item vl i =? x); [|eauto].
  destruct (conn_on (item vl q) y Hq Hy) as [[|] ->]; cbn [bind]; [|eauto].
  destruct (Cycle_init_nonempty _ (follow_triangle_nonempty vl pos y Hvl)) as [c ->].
  cbn [bind]. eauto.
Qed.

Lemma add_edge_step_returns_on (v1 v2 : Z) (res : list Cycle) (cycle : Cycle) :
  dom v1 -> dom v2 -> NoDup (vlist cycle) -> (forall v, In v (vlist cycle) -> dom v) ->
  exists res', add_edge_step v1 v2 conn res cycle = Ok res'.
Proof.
  intros D1 D2 Hnd Hdom. unfold add_edge_step. cbv zeta.
  destruct (Z.eqb_spec (count (fun v => (v =? v1) || (v =? v2)) (vlist cycle)) 2) as [E2|E2].
  - destruct (count_two _ _ _ Hnd E2) as [H1 H2].
    destruct (splices_returns _ _ _ H1 H2) as (vl1 & vl2 & -> & N1 & N2). cbn [bind].
    destruct (Cycle_init_nonempty _ N1) as [c1 ->]. cbn [bind].
    destruct (Cycle_init_nonempty _ N2) as [c2 ->]. cbn [bind]. eauto.
  - destruct (Z.eqb_spec (count (fun v => (v =? v1) || (v =? v2)) (vlist cycle)) 1) as [E1|E1];
      [|eauto].
    assert (Hvl : vlist cycle <> []) by (intros E; rewrite E in E1; discriminate).
    assert (Hn : 0 < len (vlist cycle))
      by (destruct (vlist cycle); [contradiction|unfold len; simpl; lia]).
    assert (Hat : forall q, dom (item (vlist cycle) (q mod len (vlist cycle)))).
    { intros q. apply Hdom, item_In, Z.mod_pos_bound, Hn. }
    apply foldM_always_ok. intros s i.
    destruct (corner_returns_on (vlist cycle) i v1 ((i - 1) mod len (vlist cycle)) v2
                ((i - 1) mod len (vlist cycle)) s Hvl (Hat _) D2) as [r1 ->]. cbn [bind].
    destruct (corner_returns_on (vlist cycle) i v1 ((i + 1) mod len (vlist cycle)) v2
                i r1 Hvl (Hat _) D2) as [r2 ->]. cbn [bind].
    destruct (corner_returns_on (vlist cycle) i v2 ((i - 1) mod len (vlist cycle)) v1
                ((i - 1) mod len (vlist cycle)) r2 Hvl (Hat _) D1) as [r3 ->]. cbn [bind].
    apply corner_returns_on; auto.
Qed.

Lemma apply_add_edge_returns_on (cs : list Cycle) (v1 v2 : Z) :
  dom v1 -> dom v2 ->
  (forall c, In c cs -> NoDup (vlist c) /\ forall v, In v (vlist c) -> dom v) ->
  exists out, apply_add_edge cs v1 v2 conn = Ok out /\ incl cs out.
Proof.
  intros D1 D2 Hcs.
  assert (H : exists out, apply_add_edge cs v1 v2 conn = Ok out).
  { unfold apply_add_edge. generalize (@nil Cycle) as res.
    induction cs as [|c cs IH]; intros res; simpl; [eauto|].
    destruct (add_edge_step_returns_on v1 v2 res c D1 D2) as [r ->];
      [apply Hcs; now left..|].
    cbn [bind]. apply IH. intros c' H. apply Hcs. now right. }
  destruct H as [out E]. exists out. split; [exact E|].
  unfold apply_add_edge in E. now apply apply_add_edge_keeps in E.
Qed.

End AddEdgeOn.

Lemma gfor_app {A : Type} (xs ys : list A) (body : A -> gen unit) (l : list BXGraphCyc) :
  gfor xs body = (l, Ok tt) ->
  gfor (xs ++ ys) body = (l ++ fst (gfor ys body), snd (gfor ys body)).
Proof.
  revert l. induction xs as [|x xs IH]; intros l H.
  - simpl in H. inversion H; subst. simpl. now destruct (gfor ys body).
  - simpl in *. destruct (body x) as [l1 r1]. destruct r1 as [[]|e|]; simpl in *.
    + destruct (gfor xs body) as [l2 r2] eqn:E2.
      injection H as Hl Hr. subst l r2.
      rewrite (IH l2 eq_refl). simpl. now rewrite app_assoc.
    + discriminate.
    + discriminate.
Qed.

(** A loop of a generator over [range(a, b)] whose rounds all return. *)
Lemma gfor_range2 (body : Z -> gen unit) (P : Z -> list BXGraphCyc -> Prop) (a b : Z) :
  P a [] ->
  (forall x l, a <= x < b -> P x l ->
     exists l', body x = (l', Ok tt) /\ P (x + 1) (l ++ l')) ->
  exists l, gfor (range2 a b) body = (l, Ok tt) /\ P (Z.max a b) l.
Proof.
  intros H0 Hstep.
  destruct (Z_le_gt_dec a b) as [Hab|Hab].
  - rewrite Z.max_r by exact Hab.
    replace b with (a + Z.of_nat (Z.to_nat (b - a))) in * by lia.
    induction (Z.to_nat (b - a)) as [|k IH].
    + exists []. unfold range2.
      replace (Z.to_nat (a + Z.of_nat 0 - a)) with 0%nat by lia.
      split; [reflexivity|]. now replace (a + Z.of_nat 0) with a by lia.
    + destruct IH as (l & E & Hl); [intros x l Hx; apply Hstep; lia | lia |].
      destruct (Hstep (a + Z.of_nat k) l) as (l' & E' & Hl'); [lia|exact Hl|].
      exists (l ++ l'). replace (a + Z.of_nat (S k)) with (a + Z.of_nat k + 1) by lia.
      rewrite range2_succ by lia. rewrite (gfor_app _ _ _ _ E). simpl. rewrite E'.
      simpl. rewrite app_nil_r. split; [reflexivity|exact Hl'].
  - exists []. rewrite Z.max_l by lia. unfold range2.
    replace (Z.to_nat (b - a)) with 0%nat by lia. split; [reflexivity|exact H0].
Qed.

Lemma from_bxgraph_constructed (g : BXGraph) (cs : list Cycle) :
  constructed g -> from_bxgraph g cs = Ok (mkBXGraphCyc g cs).
Proof.
  intros H. unfold from_bxgraph, BXGraphCyc_init. unfold constructed in H. now rewrite H.
Qed.

(** What the body of the loops of [e1] does with one pair. *)
Lemma e1_pair (bgc : BXGraphCyc) (i j : Z) :
  constructed (graph bgc) -> cycles_ok bgc ->
  0 <= j < i -> i < size (graph bgc) ->
  exists l,
    (do c <- lift (conn (graph bgc) i j) ;
     if negb c then
       do op <- lift (AddEdge i j) ;
       let tx := Transformation_of "e1" [op] in
       do bg <- lift (apply_transformation (graph bgc) tx) ;
       do cs <- lift (apply_add_edge (cycles bgc) i j (conn (graph bgc))) ;
       do child <- lift (from_bxgraph bg cs) ;
       yield child
     else gret tt) = (l, Ok tt) /\
    if adjacent (graph bgc) i j then l = []
    else exists child, l = [child] /\ e1_child bgc i j child.
Proof.
  intros Hg Hcs Hj Hi. set (g := graph bgc) in *.
  rewrite (constructed_conn g i j Hg) by lia.
  unfold lift at 1. cbn [gbind gret].
  destruct (adjacent g i j) eqn:Eadj; cbn [negb].
  - exists []. split; reflexivity.
  - unfold AddEdge. replace (i =? j) with false by lia.
    unfold lift at 1. cbn [gbind]. cbv zeta.
    set (tx := Transformation_of "e1" [OpAddEdge i j]).
    assert (Hnv : count_vertex_ops tx = 0) by reflexivity.
    destruct (apply_transformation_ok g tx Hg ltac:(lia)) as (bg & Ebg & Hbg).
    { repeat constructor; simpl; lia. }
    { rewrite Hnv. simpl. repeat split; try lia. exact Eadj. }
    rewrite Ebg. unfold lift at 1. cbn [gbind].
    destruct (apply_add_edge_returns_on (fun v => 0 <= v < size g) (conn g)
                (fun a b Ha Hb => ex_intro _ _ (constructed_conn g a b Hg Ha Hb))
                (cycles bgc) i j ltac:(cbv beta; lia) ltac:(cbv beta; lia) Hcs)
      as (cs & Ecs & Hincl).
    rewrite Ecs. unfold lift at 1. cbn [gbind].
    rewrite (from_bxgraph_constructed bg cs Hbg). unfold lift, yield. cbn [gbind app].
    eexists. split; [reflexivity|]. eexists. split; [reflexivity|].
    assert (Hnn : Forall op_nonneg (ops tx)) by (repeat constructor; simpl; lia).
    assert (Hpp : Forall op_proper (ops tx)) by (repeat constructor; simpl; lia).
    destruct (apply_transformation_conn g bg tx Ebg Hnn) as (Hs & Hh & Hc).
    rewrite Hnv, Z.add_0_r in Hs.
    unfold e1_child. cbn [graph cycles]. fold g.
    split; [exact Hbg|]. split; [exact Hs|]. split; [|split; [exact Hh|split]].
    + rewrite (apply_transformation_nedge g bg tx Hg ltac:(lia) Ebg Hpp).
      change (count is_add (ops tx)) with 1. change (count is_del (ops tx)) with 0. lia.
    + intros a b Ha Hb Hne. rewrite Hc by lia. reflexivity.
    + exact Hincl.
Qed.

Lemma row_count_zero (f : Z -> Z -> bool) (i : Z) : row_count f i 0 = 0.
Proof. reflexivity. Qed.

Lemma e1_children_all (bgc : BXGraphCyc) :
  let g := graph bgc in
  constructed g -> 0 <= size g -> cycles_ok bgc ->
  exists children, e1 bgc = (children, Ok tt) /\
    Z.of_nat (length children) = tri (size g) - count_lower (adjacent g) (size g) /\
    (forall child, In child children ->
       exists i j, 0 <= j < i /\ i < size g /\ adjacent g i j = false /\
                   e1_child bgc i j child) /\
    (forall i j, 0 <= j < i -> i < size g -> adjacent g i j = false ->
       exists child, In child children /\ e1_child bgc i j child).
Proof.
  intros g Hg Hsz Hcs. unfold e1. fold g.
  set (S := fun i (l : list BXGraphCyc) =>
    Z.of_nat (length l) = tri i - count_lower (adjacent g) i /\
    (forall child, In child l ->
       exists a b, 0 <= b < a /\ a < i /\ a < size g /\ adjacent g a b = false /\
                   e1_child bgc a b child) /\
    (forall a b, 0 <= b < a -> a < i -> a < size g -> adjacent g a b = false ->
       exists child, In child l /\ e1_child bgc a b child)).
  match goal with |- context [gfor (range2 1 (size g)) ?body] =>
    destruct (gfor_range2 body S 1 (size g)) as (l & E & Hl) end.
  - unfold S. split; [|split].
    + rewrite count_lower_small by lia. reflexivity.
    + intros child [].
    + intros a b Hb Ha. lia.
  - intros i l Hi (Hlen & Hall & Hex). cbv beta.
    set (R := fun j (r : list BXGraphCyc) =>
      Z.of_nat (length r) = j - row_count (adjacent g) i j /\
      (forall child, In child r ->
         exists b, 0 <= b < j /\ adjacent g i b = false /\ e1_child bgc i b child) /\
      (forall b, 0 <= b < j -> adjacent g i b = false ->
         exists child, In child r /\ e1_child bgc i b child)).
    match goal with |- context [gfor (range i) ?inner] =>
      destruct (gfor_range2 inner R 0 i) as (r & Er & Hr) end.
    + unfold R. rewrite row_count_zero. split; [reflexivity|].
      split; [intros child []|intros b Hb; lia].
    + intros j r Hj (Rlen & Rall & Rex). cbv beta.
      destruct (e1_pair bgc i j Hg Hcs Hj (proj2 Hi)) as (l' & El' & Hl').
      fold g in El', Hl'. exists l'. split; [exact El'|].
      unfold R. rewrite row_count_succ by lia. rewrite length_app, Nat2Z.inj_add.
      destruct (adjacent g i j) eqn:Eadj.
      * subst l'. rewrite app_nil_r. cbn [length Z.of_nat Z.b2z]. split; [lia|]. split.
        -- intros child Hc. destruct (Rall child Hc) as (b & Hb & H1 & H2).
           exists b. split; [lia|]. split; assumption.
        -- intros b Hb Hadj. apply Rex; [|exact Hadj].
           destruct (Z.eq_dec b j) as [->|]; [congruence|lia].
      * destruct Hl' as (child & -> & Hchild). cbn [length Z.of_nat Z.b2z].
        split; [lia|]. split.
        -- intros c Hc. apply in_app_iff in Hc as [Hc|[<-|[]]].
           ++ destruct (Rall c Hc) as (b & Hb & H1 & H2).
              exists b. split; [lia|]. split; assumption.
           ++ exists j. split; [lia|]. split; assumption.
        -- intros b Hb Hadj. destruct (Z.eq_dec b j) as [->|Hne].
           ++ exists child. split; [apply in_app_iff; right; now left|exact Hchild].
           ++ destruct (Rex b ltac:(lia) Hadj) as (c & Hc & H2).
              exists c. split; [apply in_app_iff; now left|exact H2].
    + exists r. split; [exact Er|]. rewrite Z.max_r in Hr by lia.
      destruct Hr as (Rlen & Rall & Rex). unfold S.
      rewrite length_app, Nat2Z.inj_add, tri_succ, count_lower_succ by lia.
      split; [lia|]. split.
      * intros c Hc. apply in_app_iff in Hc as [Hc|Hc].
        -- destruct (Hall c Hc) as (a & b & Hb & Ha & Ha' & H1 & H2).
           exists a, b. split; [lia|]. split; [lia|]. split; [lia|]. split; assumption.
        -- destruct (Rall c Hc) as (b & Hb & H1 & H2).
           exists i, b. split; [lia|]. split; [lia|]. split; [lia|]. split; assumption.
      * intros a b Hb Ha Ha' Hadj. destruct (Z.eq_dec a i) as [->|Hne].
        -- destruct (Rex b ltac:(lia) Hadj) as (c & Hc & H2).
           exists c. split; [apply in_app_iff; now right|exact H2].
        -- destruct (Hex a b Hb ltac:(lia) Ha' Hadj) as (c & Hc & H2).
           exists c. split; [apply in_app_iff; now left|exact H2].
  - exists l. split; [exact E|]. destruct Hl as (Hlen & Hall & Hex).
    assert (Ht : tri (Z.max 1 (size g)) = tri (size g)).
    { destruct (Z.eq_dec (size g) 0) as [->|Hne]; [reflexivity|]. now rewrite Z.max_r by lia. }
    assert (Hcl : count_lower (adjacent g) (Z.max 1 (size g))
                  = count_lower (adjacent g) (size g)).
    { destruct (Z.eq_dec (size g) 0) as [->|Hne]; [reflexivity|]. now rewrite Z.max_r by lia. }
    rewrite Ht, Hcl in Hlen. split; [exact Hlen|]. split.
    + intros c Hc. destruct (Hall c Hc) as (a & b & Hb & _ & Ha' & H1 & H2).
      exists a, b. split; [lia|]. split; [lia|]. split; assumption.
    + intros a b Hb Ha Hadj. apply Hex; auto. lia.
Qed.

(** X7: on a graph from the constructor whose cycles name its vertices,
    none twice, e1 runs to its end without an error and yields one child
    for every pair of vertices that is not connected, and no other: the
    child has that edge and one edge more than the parent, the same
    size, the parent's history with the e1 step appended, and the
    parent's cycles among its own. *)
Theorem e1_yields_a_child_per_missing_edge (bgc : BXGraphCyc) :
  constructed (graph bgc) -> 0 <= size (graph bgc) -> cycles_ok bgc ->
  exists children, e1 bgc = (children, Ok tt) /\
    Z.of_nat (length children) =
      size (graph bgc) * (size (graph bgc) - 1) / 2 - nedge (graph bgc) /\
    (forall child, In child children ->
       exists i j, 0 <= j < i /\ i < size (graph bgc) /\
                   conn (graph bgc) i j = Ok false /\ e1_child bgc i j child) /\
    (forall i j, 0 <= j < i -> i < size (graph bgc) ->
       conn (graph bgc) i j = Ok false ->
       exists child, In child children /\ e1_child bgc i j child).
Proof.
  intros Hg Hsz Hcs.
  destruct (e1_children_all bgc Hg Hsz Hcs) as (l & E & Hlen & Hall & Hex).
  exists l. split; [exact E|]. split; [|split].
  - now rewrite Hlen, tri_div, (constructed_nedge _ Hg).
  - intros c Hc. destruct (Hall c Hc) as (i & j & Hj & Hi & Hadj & H).
    exists i, j. split; [lia|]. split; [lia|]. split; [|exact H].
    rewrite constructed_conn by (auto; lia). now rewrite Hadj.
  - intros i j Hj Hi Hconn. apply Hex; auto.
    rewrite constructed_conn in Hconn by (auto; lia). now inversion Hconn.
Qed.

Lemma e1_yields_a_child_per_missing_edge_witness :
  let tri3 := mkCycle [0; 1; 2] in
  let bgc := mkBXGraphCyc (mkBXGraph (mkHistory (str_of "pr") []) 4 [7] 3) [tri3] in
  exists children, e1 bgc = (children, Ok tt) /\ length children = 3%nat.
Proof.
  intros tri3 bgc.
  destruct (e1_yields_a_child_per_missing_edge bgc) as (l & E & Hlen & _).
  - reflexivity.
  - simpl. lia.
  - intros c [<-|[]]. split.
    + repeat constructor; simpl; intuition lia.
    + simpl. intros v Hv. intuition lia.
  - exists l. split; [exact E|]. change (size (graph bgc)) with 4 in Hlen.
    change (nedge (graph bgc)) with 3 in Hlen. change (4 * (4 - 1) / 2 - 3) with 3 in Hlen.
    lia.
Defined.


(** ** generate.pyx and lean_collection.pyx: the writer admits each certificate once *)

Section WriterFacts.

Variables G cert : Type.
Variable cert_eqb : cert -> cert -> bool.
Hypothesis cert_eqb_eq : forall a b, cert_eqb a b = true <-> a = b.
Variable dumps : G -> result string.
Variable gen_cert : G -> result cert.
Variable alg : G -> list G * result unit.

Lemma cert_mem (c : cert) (l : list cert) : existsb (cert_eqb c) l = true <-> In c l.
Proof.
  rewrite existsb_exists. split.
  - intros (x & Hx & E). apply cert_eqb_eq in E. now subst.
  - intros H. exists c. split; [exact H|]. now apply cert_eqb_eq.
Qed.

Lemma admitted_refl (S : cert -> Prop) (w : GraphFileWriter cert) (d : disk) :
  (forall c, S c -> In c (_certs w)) -> admitted S w w d d 0.
Proof.
  intros H. split; [reflexivity|]. split.
  - exists []. split; [now rewrite app_nil_r|]. split; [reflexivity|].
    split; [constructor|]. intros c. split; [intros []|].
    intros [Hn Hs]. exfalso. apply Hn, H, Hs.
  - destruct (_fp w) as [[name|]|]; try reflexivity.
    exists []. now rewrite app_nil_r.
Qed.

Lemma admitted_trans (S1 S2 : cert -> Prop) (w1 w2 w3 : GraphFileWriter cert)
  (d1 d2 d3 : disk) (k1 k2 : Z) :
  admitted S1 w1 w2 d1 d2 k1 -> admitted S2 w2 w3 d2 d3 k2 ->
  admitted (fun c => S1 c \/ S2 c) w1 w3 d1 d3 (k1 + k2).
Proof.
  intros (F1 & (a1 & C1 & K1 & N1 & I1) & D1) (F2 & (a2 & C2 & K2 & N2 & I2) & D2).
  split; [congruence|]. split.
  - exists (a1 ++ a2). rewrite C2, C1, app_assoc. split; [reflexivity|].
    split; [unfold len in *; rewrite length_app; lia|]. split.
    + apply NoDup_app; auto.
      intros c H1 H2. apply I2 in H2 as [Hn _]. apply Hn. rewrite C1.
      apply in_app_iff. now right.
    + intros c. rewrite in_app_iff, I1, I2, C1, in_app_iff. split.
      * intros [[Hn Hs]|[Hn Hs]]; [tauto|]. split; [tauto|now right].
      * intros [Hn [Hs|Hs]]; [tauto|].
        destruct (in_dec (fun a b => match Bool.bool_dec (cert_eqb a b) true with
                                     | left E => left (proj1 (cert_eqb_eq a b) E)
                                     | right E => right (fun H => E (proj2 (cert_eqb_eq a b) H))
                                     end) c a1) as [Hin|Hout].
        -- left. now apply I1.
        -- right. tauto.
  - rewrite F1 in D2. destruct (_fp w1) as [[name|]|]; try congruence.
    destruct D1 as (t1 & -> & L1), D2 as (t2 & -> & L2).
    exists (t1 ++ t2). rewrite map_app, app_assoc. split; [reflexivity|].
    unfold len in *. rewrite length_app. lia.
Qed.

Lemma admitted_weaken (S S' : cert -> Prop) (w w' : GraphFileWriter cert)
  (d d' : disk) (k : Z) :
  (forall c, S c <-> S' c) -> admitted S w w' d d' k -> admitted S' w w' d d' k.
Proof.
  intros H (F & (a & C & K & N & I) & D). split; [exact F|]. split; [|exact D].
  exists a. split; [exact C|]. split; [exact K|]. split; [exact N|].
  intros c. rewrite I, H. tauto.
Qed.

(** One call of [add_graph]. *)
Lemma add_graph_admitted (w w' : GraphFileWriter cert) (d d' : disk) (g : G)
  (c : cert) (k : Z) :
  add_graph cert_eqb dumps w d g c = Returns (k, w', d') ->
  admitted (fun x => x = c) w w' d d' k.
Proof.
  unfold add_graph. destruct (_fp w) as [fp|] eqn:Efp; [|discriminate].
  destruct (existsb (cert_eqb c) (_certs w)) eqn:Em; cbn [negb].
  - intros H. inversion H; subst. apply admitted_refl.
    intros x ->. now apply cert_mem.
  - destruct (dumps g) as [s|e|]; simpl; try discriminate.
    intros H. inversion H; subst; clear H. split; [cbn; now rewrite Efp|].
    assert (Hout : ~ In c (_certs w)).
    { intros Hin. apply cert_mem in Hin. congruence. }
    split.
    + exists [c]. cbn [_certs]. split; [reflexivity|]. split; [reflexivity|].
      split; [constructor; [intros []|constructor]|].
      intros x. split.
      * intros [<-|[]]. split; [exact Hout|reflexivity].
      * intros [_ ->]. now left.
    + rewrite Efp. destruct fp as [name|]; [|reflexivity].
      exists [(s ++ newline)%string]. split; reflexivity.
Qed.

Lemma add_children_admitted (children : list G) (n n' : Z)
  (w w' : GraphFileWriter cert) (d d' : disk) :
  add_children cert_eqb dumps gen_cert children n w d = Returns (n', w', d') ->
  admitted (fun c => exists ge, In ge children /\ gen_cert ge = Ok c) w w' d d' (n' - n).
Proof.
  revert n w d. induction children as [|ge rest IH]; intros n w d H.
  - simpl in H. inversion H; subst. replace (n' - n') with 0 by lia.
    apply admitted_refl. intros c (x & [] & _).
  - simpl in H. destruct (gen_cert ge) as [c|e|] eqn:Ec; simpl in H; try discriminate.
    destruct (add_graph cert_eqb dumps w d ge c) as [[[k w1] d1]|e| |] eqn:Ea;
      try discriminate.
    apply add_graph_admitted in Ea. apply IH in H.
    replace (n' - n) with (k + (n' - (n + k))) by lia.
    eapply admitted_weaken; [|exact (admitted_trans _ _ _ _ _ _ _ _ _ _ Ea H)].
    intros x. split.
    + intros [->|(y & Hy & E)]; [exists ge; split; [now left|exact Ec]|].
      exists y. split; [now right|exact E].
    + intros (y & [<-|Hy] & E); [left; congruence|]. right. now exists y.
Qed.

Lemma generate_graphs_admitted (source : list G) (n n' : Z)
  (w w' : GraphFileWriter cert) (d d' : disk) :
  generate_graphs_from cert_eqb dumps gen_cert alg source n w d = Returns (n', w', d') ->
  admitted (fun c => exists g ge, In g source /\ In ge (fst (alg g)) /\ gen_cert ge = Ok c)
           w w' d d' (n' - n).
Proof.
  revert n w d. induction source as [|g rest IH]; intros n w d H.
  - simpl in H. inversion H; subst. replace (n' - n') with 0 by lia.
    apply admitted_refl. intros c (x & y & [] & _).
  - simpl in H. destruct (alg g) as [children ending] eqn:Eg.
    destruct (add_children _ _ _ children n w d) as [[[n1 w1] d1]|e| |] eqn:Ea;
      try discriminate.
    destruct ending as [[]|e|]; simpl in H; try discriminate.
    apply add_children_admitted in Ea. apply IH in H.
    replace (n' - n) with ((n1 - n) + (n' - n1)) by lia.
    eapply admitted_weaken; [|exact (admitted_trans _ _ _ _ _ _ _ _ _ _ Ea H)].
    intros x. split.
    + intros [(y & Hy & E)|(g' & y & Hg' & Hy & E)].
      * exists g, y. rewrite Eg. split; [now left|]. now split.
      * exists g', y. split; [now right|]. now split.
    + intros (g' & y & [<-|Hg'] & Hy & E).
      * left. exists y. rewrite Eg in Hy. now split.
      * right. now exists g', y.
Qed.

(** X8: when generate_graphs returns, the number it returns is the
    growth of len(dest): the writer has added, behind the certificates
    it held, the certificates of the children of the source graphs that
    it did not hold, each once; it wrote one line for each to the file
    that was set and nothing when that is the Dummy object.  The
    certificates held from earlier calls, for other files too, are
    never written again. *)
Theorem generate_graphs_counts_new_certificates (source : list G)
  (w w' : GraphFileWriter cert) (d d' : disk) (n : Z) :
  NoDup (_certs w) ->
  generate_graphs cert_eqb dumps gen_cert alg source w d = Returns (n, w', d') ->
  n = writer_len w' - writer_len w /\ NoDup (_certs w') /\ _fp w' = _fp w /\
  (forall c, In c (_certs w') <->
     In c (_certs w) \/
     exists g ge, In g source /\ In ge (fst (alg g)) /\ gen_cert ge = Ok c) /\
  match _fp w with
  | Some (GzipFile name) =>
      exists texts, d' = d ++ map (pair name) texts /\ len texts = n
  | _ => d' = d
  end.
Proof.
  intros Hnd H. apply generate_graphs_admitted in H.
  destruct H as (F & (a & C & K & N & I) & D). rewrite Z.sub_0_r in K, D.
  split; [|split; [|split; [exact F|split; [|exact D]]]].
  - unfold writer_len, len in *. rewrite C, length_app. lia.
  - rewrite C. apply NoDup_app; auto. intros c H1 H2. apply I in H2. tauto.
  - intros c. rewrite C, in_app_iff, I. split; [tauto|].
    intros [H|H]; [now left|].
    destruct (existsb (cert_eqb c) (_certs w)) eqn:E.
    + left. now apply cert_mem.
    + right. split; [|exact H]. intros Hin. apply cert_mem in Hin. congruence.
Qed.

End WriterFacts.

Lemma generate_graphs_counts_new_certificates_witness :
  let w := mkGraphFileWriter [5] (Some (GzipFile "m3c-05-08-B.txt.gz")) in
  let alg := fun g : Z => ([g; g + 1; 5], Ok tt) in
  exists w' d', generate_graphs Z.eqb (fun g : Z => Ok "g"%string) (fun g : Z => Ok g) alg
                  [1; 2] w [] = Returns (3, w', d') /\
                writer_len w' = 4 /\ length d' = 3%nat.
Proof.
  intros w alg.
  destruct (generate_graphs Z.eqb (fun g : Z => Ok "g"%string) (fun g : Z => Ok g) alg
              [1; 2] w []) as [[[n w'] d']|e| |] eqn:E; try (vm_compute in E; discriminate).
  destruct (generate_graphs_counts_new_certificates Z Z Z.eqb Z.eqb_eq
              (fun g : Z => Ok "g"%string) (fun g : Z => Ok g) alg [1; 2] w w' [] d' n)
    as (H1 & _ & _ & _ & H2).
  - repeat constructor. simpl. tauto.
  - exact E.
  - vm_compute in E. injection E as En Ew Ed. subst n.
    exists w', d'. split; [reflexivity|]. split.
    + change (writer_len w) with 1 in H1. lia.
    + now subst d'.
Defined.

(** ** bx_graph.pyx: histories as JSON lists; cycles.pyx: the Cycle constructor *)

Lemma op_from_list_to_list_any (op : Operation) :
  op_from_list (op_to_list op) =
  if is_loop op then Raise (ValueError "Cannot connect a vertex to itself") else Ok op.
Proof.
  destruct op as [|i j|i j]; reflexivity.
Qed.

Lemma ops_from_list_to_list_any (ops : list Operation) :
  mapM (fun x => let* l := as_list x in op_from_list l)
       (map (fun op => VList (op_to_list op)) ops) =
  if existsb is_loop ops then Raise (ValueError "Cannot connect a vertex to itself")
  else Ok ops.
Proof.
  induction ops as [|op ops IH]; [reflexivity|].
  simpl. rewrite op_from_list_to_list_any, IH.
  destruct (is_loop op); [reflexivity|]. simpl. now destruct (existsb is_loop ops).
Qed.

Lemma transformation_from_list_to_list_any (t : Transformation) :
  transformation_from_list (Transformation_to_list t) =
  if existsb is_loop (ops t) then Raise (ValueError "Cannot connect a vertex to itself")
  else Ok t.
Proof.
  unfold transformation_from_list, Transformation_to_list.
  destruct (Z.ltb_spec (len (VStr (alg t) :: map (fun op => VList (op_to_list op)) (ops t))) 1)
    as [Hl|_]; [unfold len in Hl; simpl length in Hl; lia|].
  rewrite ops_from_list_to_list_any.
  destruct (existsb is_loop (ops t)); [reflexivity|]. now destruct t.
Qed.

Lemma history_from_list_to_list_any (h : History) :
  history_from_list (History_to_list h) =
  if has_loop h then Raise (ValueError "Cannot connect a vertex to itself") else Ok h.
Proof.
  unfold history_from_list, History_to_list, has_loop.
  destruct (Z.ltb_spec (len (VStr (root h) :: map (fun x => VList (Transformation_to_list x))
                                                  (elements h))) 1)
    as [Hl|_]; [unfold len in Hl; simpl length in Hl; lia|].
  assert (E : mapM (fun x => let* l := as_list x in transformation_from_list l)
                   (map (fun x => VList (Transformation_to_list x)) (elements h))
              = if existsb (fun t => existsb is_loop (ops t)) (elements h)
                then Raise (ValueError "Cannot connect a vertex to itself")
                else Ok (elements h)).
  { induction (elements h) as [|t txs IH]; [reflexivity|].
    simpl. rewrite transformation_from_list_to_list_any, IH.
    destruct (existsb is_loop (ops t)); [reflexivity|]. simpl.
    now destruct (existsb _ txs). }
  rewrite E. destruct (existsb _ (elements h)); [reflexivity|]. now destruct h.
Qed.

(** X9: the list form of a history, which to_list builds for JSON, is
    read back by history_from_list as the same history, whatever the
    lengths of its names and the sizes of its numbers; the one history
    it refuses is one holding an edge addition from a vertex to itself,
    which raises ValueError. *)
Theorem history_list_roundtrip (h : History) :
  history_from_list (History_to_list h) =
  if has_loop h then Raise (ValueError "Cannot connect a vertex to itself") else Ok h.
Proof. apply history_from_list_to_list_any. Qed.

Lemma rotate_Permutation (k : nat) (l : list Z) : Permutation l (rotate k l).
Proof.
  unfold rotate. rewrite <- (firstn_skipn k l) at 1. apply Permutation_app_comm.
Qed.

Lemma same_cyclic_Permutation (l1 l2 : list Z) : same_cyclic l1 l2 -> Permutation l1 l2.
Proof.
  intros (k & _ & [->| ->]).
  - apply rotate_Permutation.
  - eapply Permutation_trans; [apply Permutation_rev|apply rotate_Permutation].
Qed.

(** X10: Cycle(vlist) raises TypeError on an empty sequence; on any
    other it keeps a rotation of the sequence or of its reversal, so the
    same vertices as often as they were given, with a least one first,
    and building a Cycle from that tuple again changes nothing. *)
Theorem Cycle_init_rearranges (l : list Z) :
  match l with
  | [] => Cycle_init l = Raise TypeError
  | _ :: _ =>
      exists c, Cycle_init l = Ok c /\
        same_cyclic l (vlist c) /\ Permutation l (vlist c) /\
        (forall x, In x l -> item (vlist c) 0 <= x) /\
        Cycle_init (vlist c) = Ok c
  end.
Proof.
  destruct l as [|a l]; [reflexivity|].
  destruct (arrange_ok (a :: l)) as (i & _ & (Hi & Hle & _) & E); [discriminate|].
  exists (mkCycle (arranged (a :: l) i)).
  assert (Hc : Cycle_init (a :: l) = Ok (mkCycle (arranged (a :: l) i)))
    by (unfold Cycle_init; now rewrite E).
  split; [exact Hc|]. cbn [vlist].
  pose proof (arranged_same_cyclic (a :: l) i Hi) as Hs.
  split; [exact Hs|]. split; [now apply same_cyclic_Permutation|]. split.
  - intros x Hx. rewrite item_arranged by lia.
    rewrite Z.mul_0_r, Z.add_0_r, Z.mod_small by lia.
    destruct (In_item _ _ Hx) as (j & Hj & <-). now apply Hle.
  - exact (Cycle_init_canonical _ _ Hc).
Qed.

(** ** bx_graph.pyx and cycles.pyx: graphs written to a file are read back *)

Lemma hexdigit_back (d : Z) :
  0 <= d < 16 -> ascii_space (hexdigit d) = false /\ hexval (hexdigit d) = Some d.
Proof.
  intros H.
  assert (E : forallb (fun d => negb (ascii_space (hexdigit d)) &&
                                match hexval (hexdigit d) with
                                | Some v => v =? d
                                | None => false
                                end) (range 16) = true) by (vm_compute; reflexivity).
  pose proof (forallb_range _ _ E d H) as Hd. cbv beta in Hd.
  apply andb_prop in Hd as [H1 H2]. split; [now apply negb_true_iff|].
  destruct (hexval (hexdigit d)) as [v|]; [|discriminate].
  apply Z.eqb_eq in H2. now subst.
Qed.

Lemma fromhex_hex (b : bytes) : Forall byte b -> fromhex (hex b) = Ok b.
Proof.
  induction 1 as [|x b Hx _ IH]; [reflexivity|]. unfold byte in Hx.
  change (hex (x :: b)) with (hexdigit (x / 16) :: hexdigit (x mod 16) :: hex b).
  assert (H1 : 0 <= x / 16 < 16) by (Z.div_mod_to_equations; lia).
  assert (H2 : 0 <= x mod 16 < 16) by (apply Z.mod_pos_bound; lia).
  destruct (hexdigit_back _ H1) as [S1 V1], (hexdigit_back _ H2) as [S2 V2].
  cbn [fromhex]. rewrite S1, V1, V2, IH. cbn [bind].
  assert (E : 16 * (x / 16) + x mod 16 = x) by (pose proof (Z.div_mod x 16); lia).
  now rewrite E.
Qed.

Lemma le_digits_bytes (sz : nat) (v : Z) : Forall byte (le_digits sz v).
Proof.
  revert v. induction sz as [|sz IH]; intros v; simpl; constructor; [|apply IH].
  apply Z.mod_pos_bound. lia.
Qed.

Lemma digits_bytes (order : byteorder) (sz : nat) (v : Z) : Forall byte (digits order sz v).
Proof.
  destruct order; simpl; [|apply Forall_rev]; apply le_digits_bytes.
Qed.

Lemma ascii_tag_bytes (s : str) : ascii_tag s -> Forall byte s.
Proof.
  intros (c1 & c2 & -> & H1 & H2).
  constructor; [unfold byte; lia|]. constructor; [unfold byte; lia|]. constructor.
Qed.

Lemma Forall_concat_map {A : Type} (f : A -> list Z) (l : list A) :
  (forall x, In x l -> Forall byte (f x)) -> Forall byte (concat (map f l)).
Proof.
  induction l as [|x l IH]; intros H; simpl; [constructor|].
  apply Forall_app. split; [apply H; now left|]. apply IH. intros y Hy. apply H. now right.
Qed.

Lemma enc_op_bytes (order : byteorder) (op : Operation) : Forall byte (enc_op order op).
Proof.
  destruct op as [|i j|i j]; simpl.
  - constructor; [unfold byte; lia|]. constructor; [unfold byte; lia|]. constructor.
  - constructor; [unfold byte; lia|]. constructor; [unfold byte; lia|].
    apply Forall_app. split; apply digits_bytes.
  - constructor; [unfold byte; lia|]. constructor; [unfold byte; lia|].
    apply Forall_app. split; apply digits_bytes.
Qed.

Lemma enc_hist_bytes (order : byteorder) (h : History) :
  hist_ok h -> Forall byte (enc_hist order h).
Proof.
  intros (Htag & _ & Htxs). unfold enc_hist.
  apply Forall_app. split; [now apply ascii_tag_bytes|].
  apply Forall_app. split; [apply digits_bytes|].
  apply Forall_concat_map. intros t Ht. rewrite Forall_forall in Htxs.
  destruct (Htxs t Ht) as (Ha & _ & _). unfold enc_tx.
  apply Forall_app. split; [now apply ascii_tag_bytes|].
  apply Forall_app. split; [apply digits_bytes|].
  apply Forall_concat_map. intros op _. apply enc_op_bytes.
Qed.

Lemma enc_cycles_bytes (order : byteorder) (cs : list Cycle) :
  Forall byte (concat (map (enc_cycle order) cs)).
Proof.
  apply Forall_concat_map. intros c _. unfold enc_cycle.
  apply Forall_app. split; [apply digits_bytes|].
  apply Forall_concat_map. intros v _. apply digits_bytes.
Qed.

Lemma getitem_0 {A : Type} (a : A) (l : list A) : getitem (a :: l) 0 = Ok a.
Proof.
  unfold getitem. cbn [Z.ltb Z.compare]. 
  replace ((0 <=? 0) && (0 <? len (a :: l))) with true; [reflexivity|].
  unfold len. simpl length. symmetry. apply andb_true_iff. split; [reflexivity|].
  apply Z.ltb_lt. lia.
Qed.

Lemma getitem_1 {A : Type} (a b : A) (l : list A) : getitem (a :: b :: l) 1 = Ok b.
Proof.
  unfold getitem. cbn [Z.ltb Z.compare].
  replace ((0 <=? 1) && (1 <? len (a :: b :: l))) with true; [reflexivity|].
  unfold len. simpl length. symmetry. apply andb_true_iff. split; [reflexivity|].
  apply Z.ltb_lt. lia.
Qed.

Lemma getitem_2 {A : Type} (a b c : A) (l : list A) : getitem (a :: b :: c :: l) 2 = Ok c.
Proof.
  unfold getitem. cbn [Z.ltb Z.compare].
  replace ((0 <=? 2) && (2 <? len (a :: b :: c :: l))) with true; [reflexivity|].
  unfold len. simpl length. symmetry. apply andb_true_iff. split; [reflexivity|].
  apply Z.ltb_lt. lia.
Qed.

Lemma getitem_3 {A : Type} (a b c d : A) (l : list A) :
  getitem (a :: b :: c :: d :: l) 3 = Ok d.
Proof.
  unfold getitem. cbn [Z.ltb Z.compare].
  replace ((0 <=? 3) && (3 <? len (a :: b :: c :: d :: l))) with true; [reflexivity|].
  unfold len. simpl length. symmetry. apply andb_true_iff. split; [reflexivity|].
  apply Z.ltb_lt. lia.
Qed.

Section ListFacts.

Variable order : byteorder.
Variable int_of_str : str -> result Z.

Lemma graph_elements_back (g : BXGraph) (rest : list value) :
  hist_ok (history g) -> Forall byte (badj g) ->
  graph_elements_from_bytes_list order int_of_str
    (VStr (hex (enc_hist order (history g))) :: VInt (size g)
       :: VStr (hex (badj g)) :: rest)
  = Ok (history g, size g, badj g).
Proof.
  intros Hh Hb. unfold graph_elements_from_bytes_list.
  rewrite getitem_0. cbn [bind fromhex_value].
  rewrite fromhex_hex by now apply enc_hist_bytes. cbn [bind].
  destruct (history_roundtrip order (history g) Hh) as (b & Eb & Ed).
  rewrite History_to_bytes_enc in Eb by exact Hh. inversion Eb; subst b.
  rewrite Ed. cbn [bind].
  rewrite getitem_1. cbn [bind py_int].
  rewrite getitem_2. cbn [bind fromhex_value].
  now rewrite fromhex_hex by exact Hb.
Qed.

(** X11: a graph from the constructor whose history the codec can carry
    is read back by graph_from_bytes_list from its to_bytes_list as the
    same graph. *)
Theorem graph_bytes_list_roundtrip (g : BXGraph) :
  constructed g -> hist_ok (history g) -> Forall byte (badj g) ->
  exists l, BXGraph_to_bytes_list order g = Ok l /\
            graph_from_bytes_list order int_of_str l = Ok g.
Proof.
  intros Hg Hh Hb. unfold BXGraph_to_bytes_list.
  rewrite History_to_bytes_enc by exact Hh. cbn [bind].
  eexists. split; [reflexivity|]. unfold graph_from_bytes_list.
  change (negb (len [?a; ?b; ?c] =? 3)) with false. cbv iota.
  rewrite graph_elements_back by assumption. cbn [bind]. exact Hg.
Qed.

(** X12: with cycles the codec can carry, a graph with cycles is read
    back by graph_cyc_from_bytes_list from its to_bytes_list as the same
    graph with the same list of cycles. *)
Theorem graph_cyc_bytes_list_roundtrip (bgc : BXGraphCyc) :
  constructed (graph bgc) -> hist_ok (history (graph bgc)) ->
  Forall byte (badj (graph bgc)) -> Forall cycle_ok (cycles bgc) ->
  exists l, BXGraphCyc_to_bytes_list order bgc = Ok l /\
            graph_cyc_from_bytes_list order int_of_str l = Ok bgc.
Proof.
  intros Hg Hh Hb Hc. unfold BXGraphCyc_to_bytes_list, BXGraph_to_bytes_list.
  rewrite History_to_bytes_enc by exact Hh. cbn [bind].
  destruct (cycles_roundtrip order (cycles bgc) Hc) as (cb & Ecb & Ecd).
  rewrite Ecb. cbn [bind app].
  eexists. split; [reflexivity|]. unfold graph_cyc_from_bytes_list.
  change (negb (len [?a; ?b; ?c; ?d] =? 4)) with false. cbv iota.
  rewrite graph_elements_back by assumption. cbn [bind].
  rewrite getitem_3. cbn [bind fromhex_value].
  rewrite bytes_from_cycle_list_enc in Ecb by exact Hc. inversion Ecb; subst cb.
  rewrite fromhex_hex by apply enc_cycles_bytes. cbn [bind].
  rewrite Ecd. cbn [bind]. unfold BXGraphCyc_init.
  unfold constructed in Hg. rewrite Hg. cbn [bind]. now destruct bgc.
Qed.

(** X13: the plain list form needs no such limits: a graph from the
    constructor is read back by graph_from_list from its to_list as the
    same graph, unless its history holds an edge addition from a vertex
    to itself, which raises ValueError. *)
Theorem graph_list_roundtrip (g : BXGraph) :
  constructed g -> Forall byte (badj g) ->
  graph_from_list int_of_str (BXGraph_to_list g) =
  if has_loop (history g) then Raise (ValueError "Cannot connect a vertex to itself")
  else Ok g.
Proof.
  intros Hg Hb. unfold graph_from_list, BXGraph_to_list.
  change (negb (len [?a; ?b; ?c] =? 3)) with false. cbv iota.
  rewrite getitem_0. cbn [bind as_list].
  rewrite history_from_list_to_list_any.
  destruct (has_loop (history g)); [reflexivity|]. cbn [bind].
  rewrite getitem_1. cbn [bind py_int].
  rewrite getitem_2. cbn [bind fromhex_value].
  rewrite fromhex_hex by exact Hb. cbn [bind]. exact Hg.
Qed.

End ListFacts.

Lemma graph_bytes_list_roundtrip_witness :
  let g := mkBXGraph (mkHistory (str_of "pr")
                        [mkTransformation (str_of "e1") [OpAddEdge 2 1]]) 3 [7] 3 in
  exists l, BXGraph_to_bytes_list little g = Ok l /\
            graph_from_bytes_list little (fun _ => Raise TypeError) l = Ok g.
Proof.
  intros g. apply (graph_bytes_list_roundtrip little (fun _ => Raise TypeError) g).
  - reflexivity.
  - unfold hist_ok, tx_ok, op_ok, ascii_tag, u16. simpl.
    repeat (split || constructor || (eexists; eexists; split; [reflexivity|]));
      try (unfold len; simpl; lia); try discriminate.
  - repeat constructor; unfold byte; simpl; lia.
Defined.

Lemma graph_cyc_bytes_list_roundtrip_witness :
  let g := mkBXGraph (mkHistory (str_of "pr")
                        [mkTransformation (str_of "e1") [OpAddEdge 2 1]]) 3 [7] 3 in
  let bgc := mkBXGraphCyc g [mkCycle [0; 1; 2]] in
  exists l, BXGraphCyc_to_bytes_list big bgc = Ok l /\
            graph_cyc_from_bytes_list big (fun _ => Raise TypeError) l = Ok bgc.
Proof.
  intros g bgc.
  apply (graph_cyc_bytes_list_roundtrip big (fun _ => Raise TypeError) bgc).
  - reflexivity.
  - unfold hist_ok, tx_ok, op_ok, ascii_tag, u16. simpl.
    repeat (split || constructor || (eexists; eexists; split; [reflexivity|]));
      try (unfold len; simpl; lia); try discriminate.
  - repeat constructor; unfold byte; simpl; lia.
  - repeat constructor; unfold u16, len; simpl; lia.
Defined.

Lemma graph_list_roundtrip_witness :
  let g := mkBXGraph (mkHistory (str_of "prism")
                        [mkTransformation (str_of "e1") [OpAddEdge 70000 1]]) 3 [7] 3 in
  graph_from_list (fun _ => Raise TypeError) (BXGraph_to_list g) = Ok g.
Proof.
  intros g. apply (graph_list_roundtrip (fun _ => Raise TypeError) g).
  - reflexivity.
  - repeat constructor; unfold byte; simpl; lia.
Defined.

(** ** generators.pyx: what the coextension rules yield *)

Lemma apply_ops_proper (m : Z) (ops : list Operation) (adj adj' : matrix) :
  square m adj -> diag_clear m adj -> Forall op_nonneg ops ->
  (forall i j, In (OpAddEdge i j) ops -> i <> j) ->
  foldM apply_op ops adj = Ok adj' -> Forall op_proper ops.
Proof.
  revert adj. induction ops as [|op ops IH]; intros adj Hsq Hd Hnn Hadd H.
  - constructor.
  - simpl in H. destruct (apply_op adj op) as [adj1|e|] eqn:E; simpl in H; try discriminate.
    inversion Hnn as [|? ? Hop Hrest]; subst.
    assert (Hp : op_proper op /\ square m adj1 /\ diag_clear m adj1).
    { destruct op as [|i j|i j]; simpl in E, Hop.
      - inversion E; subst. simpl. auto.
      - assert (Hne : i <> j) by (apply Hadd; now left).
        destruct (get2 adj i j) as [a|e|]; simpl in E; try discriminate.
        destruct (a =? 1); try discriminate.
        destruct (set2 adj i j 1) as [r1|e|] eqn:E1; simpl in E; try discriminate.
        destruct (set2_both m adj r1 adj1 i j 1 Hsq E1 E) as (Hsq1 & Hi & Hj & C).
        rewrite norm_id in Hi, Hj, C by lia. rewrite (norm_id m j) in C by lia.
        split; [simpl; lia|]. split; [exact Hsq1|].
        intros a' Ha'. rewrite (C a' a' Ha' Ha').
        destruct (Z.eqb_spec a' i), (Z.eqb_spec a' j); simpl; try lia; now apply Hd.
      - destruct (get2 adj i j) as [a|e|] eqn:G; simpl in E; try discriminate.
        destruct (a =? 0) eqn:Ea; try discriminate.
        destruct (set2 adj i j 0) as [r1|e|] eqn:E1; simpl in E; try discriminate.
        destruct (set2_both m adj r1 adj1 i j 0 Hsq E1 E) as (Hsq1 & Hi & Hj & C).
        rewrite norm_id in Hi, Hj, C by lia. rewrite (norm_id m j) in C by lia.
        assert (Hne : i <> j).
        { intros ->. rewrite (get2_cell m) in G by assumption.
          rewrite Hd in G by lia. inversion G; subst a. discriminate. }
        split; [simpl; lia|]. split; [exact Hsq1|].
        intros a' Ha'. rewrite (C a' a' Ha' Ha').
        destruct (Z.eqb_spec a' i), (Z.eqb_spec a' j); simpl; try lia; now apply Hd. }
    destruct Hp as (Hp & Hsq1 & Hd1). constructor; [exact Hp|].
    apply (IH adj1); auto. intros i j Hin. apply Hadd. now right.
Qed.

(** A transformation that succeeds has deleted no edge from a vertex to
    itself: there is none in the table. *)
Lemma apply_transformation_proper (g g' : BXGraph) (t : Transformation) :
  apply_transformation g t = Ok g' -> Forall op_nonneg (ops t) ->
  (forall i j, In (OpAddEdge i j) (ops t) -> i <> j) -> Forall op_proper (ops t).
Proof.
  intros H Hnn Hadd. unfold apply_transformation in H. fold (count_vertex_ops t) in H.
  destruct (ext_adj_from_bytes _ _ _) as [adj0|e|] eqn:E0; simpl in H; try discriminate.
  destruct (foldM apply_op _ adj0) as [adj|e|] eqn:E1; simpl in H; try discriminate.
  unfold ext_adj_from_bytes in E0.
  destruct (fill_from_bytes_cells _ _ _ _ E0) as [Hsq Hc].
  apply (apply_ops_proper _ _ adj0 adj Hsq); auto.
  intros a Ha. apply (Hc a a Ha Ha). lia.
Qed.

Lemma gbind_yields {A B : Type} (P : BXGraphCyc -> Prop) (m : gen A) (k : A -> gen B) :
  Forall P (fst m) -> (forall a, snd m = Ok a -> Forall P (fst (k a))) ->
  Forall P (fst (gbind m k)).
Proof.
  intros Hm Hk. destruct m as [ys [a|e|]]; simpl in *; auto.
  specialize (Hk a eq_refl). destruct (k a) as [zs r]. simpl in *.
  apply Forall_app. now split.
Qed.

Lemma gfor_yields {A : Type} (P : BXGraphCyc -> Prop) (xs : list A) (body : A -> gen unit) :
  (forall x, In x xs -> Forall P (fst (body x))) -> Forall P (fst (gfor xs body)).
Proof.
  induction xs as [|x xs IH]; intros H; [constructor|].
  cbn [gfor]. apply gbind_yields; [apply H; now left|].
  intros _ _. apply IH. intros y Hy. apply H. now right.
Qed.

Lemma lift_bind_yields {A B : Type} (P : BXGraphCyc -> Prop) (r : result A) (k : A -> gen B) :
  (forall a, r = Ok a -> Forall P (fst (k a))) -> Forall P (fst (gbind (lift r) k)).
Proof. intros H. apply gbind_yields; [constructor|exact H]. Qed.

(** A child that a coextension yields has come through
    [apply_transformation] and the constructor. *)
Lemma coextend_yields (bgc : BXGraphCyc) (name : string)
  (tx_ops : result (list Operation)) (s1 s2 m1 m2 n : Z) :
  constructed (graph bgc) -> 0 <= size (graph bgc) ->
  (forall l, tx_ops = Ok l ->
     Forall op_nonneg l /\ (forall i j, In (OpAddEdge i j) l -> i <> j) /\
     count_vertex_ops (Transformation_of name l) = 1 /\
     count is_add l = 3 /\ count is_del l = 2) ->
  Forall (coext_child name bgc) (fst (coextend bgc name tx_ops s1 s2 m1 m2 n)).
Proof.
  intros Hg Hsz Hops. unfold coextend.
  apply lift_bind_yields. intros l El. cbv zeta.
  destruct (Hops l El) as (Hnn & Hadd & Hv & Ha & Hd).
  apply lift_bind_yields. intros bg Ebg.
  apply lift_bind_yields. intros cs1 _.
  apply lift_bind_yields. intros cs2 _.
  apply lift_bind_yields. intros child Echild.
  constructor; [|constructor].
  pose proof (proj1 (apply_transformation_constructed _ _ _ Ebg)) as Hbg.
  rewrite (from_bxgraph_constructed bg cs2 Hbg) in Echild. inversion Echild; subst child.
  pose proof (apply_transformation_proper _ _ _ Ebg Hnn Hadd) as Hpp.
  destruct (apply_transformation_conn _ _ _ Ebg Hnn) as (Hs & Hh & _).
  unfold coext_child. cbn [graph].
  split; [exact Hbg|]. split; [now rewrite Hs, Hv|]. split.
  - rewrite (apply_transformation_nedge _ _ _ Hg Hsz Ebg Hpp).
    cbn [ops Transformation_of]. lia.
  - exists l. split; [exact Ebg|exact Hh].
Qed.

Lemma six_ops_inv (d1 d2 a1 a2 d3 d4 a3 n : Z) (l : list Operation) :
  six_ops d1 d2 a1 a2 d3 d4 a3 n = Ok l ->
  l = [OpAddVertex; OpDelEdge d1 d2; OpAddEdge a1 n; OpAddEdge a2 n;
       OpDelEdge d3 d4; OpAddEdge a3 n] /\ a1 <> n /\ a2 <> n /\ a3 <> n.
Proof.
  unfold six_ops, AddEdge.
  destruct (Z.eqb_spec a1 n); simpl; [discriminate|].
  destruct (Z.eqb_spec a2 n); simpl; [discriminate|].
  destruct (Z.eqb_spec a3 n); simpl; [discriminate|].
  intros H. inversion H. auto.
Qed.

Lemma six_ops_yields (bgc : BXGraphCyc) (name : string)
  (d1 d2 a1 a2 d3 d4 a3 s1 s2 m1 m2 : Z) :
  constructed (graph bgc) -> 0 <= size (graph bgc) ->
  0 <= d1 -> 0 <= d2 -> 0 <= a1 -> 0 <= a2 -> 0 <= d3 -> 0 <= d4 -> 0 <= a3 ->
  Forall (coext_child name bgc)
    (fst (coextend bgc name (six_ops d1 d2 a1 a2 d3 d4 a3 (size (graph bgc)))
            s1 s2 m1 m2 (size (graph bgc)))).
Proof.
  intros Hg Hsz D1 D2 A1 A2 D3 D4 A3. apply coextend_yields; auto.
  intros l El. apply six_ops_inv in El as (-> & N1 & N2 & N3).
  split; [repeat constructor; simpl; lia|]. split; [|repeat split].
  intros i j Hin. simpl in Hin.
  repeat (destruct Hin as [Hin|Hin]; [inversion Hin; subst; assumption || discriminate|]).
  contradiction.
Qed.

Lemma recorded_op_nonneg (h : History) (t : Transformation) (k : Z) (o : Operation) :
  hist_nonneg h -> In t (elements h) -> getitem (ops t) k = Ok o -> op_nonneg o.
Proof.
  intros Hh Ht Ho. unfold hist_nonneg in Hh. rewrite Forall_forall in Hh.
  specialize (Hh t Ht). rewrite Forall_forall in Hh. apply Hh.
  eapply getitem_In; eauto.
Qed.

Lemma op_i_nonneg (o : Operation) (i : Z) : op_nonneg o -> op_i o = Ok i -> 0 <= i.
Proof. destruct o; simpl; intros H E; inversion E; subst; tauto. Qed.

Lemma op_j_nonneg (o : Operation) (j : Z) : op_nonneg o -> op_j o = Ok j -> 0 <= j.
Proof. destruct o; simpl; intros H E; inversion E; subst; tauto. Qed.

Ltac step H :=
  match type of H with
  | bind ?c _ = _ =>
      let E := fresh "E" in destruct c eqn:E; cbn [bind] in H; try discriminate
  | (if ?c then _ else _) = _ =>
      let E := fresh "E" in destruct c eqn:E; try discriminate
  end.

Lemma typeb_edge_nonneg (g : BXGraph) (a b : Z) :
  hist_nonneg (history g) -> _get_typeb_edge g = Ok (Some (a, b)) -> 0 <= a /\ 0 <= b.
Proof.
  intros Hh H. unfold _get_typeb_edge in H. cbv zeta in H.
  repeat step H. inversion H; subst.
  pose proof (recorded_op_nonneg _ _ _ _ Hh (getitem_In _ _ _ E0) E2) as Hop.
  split; [eapply op_i_nonneg|eapply op_j_nonneg]; eassumption.
Qed.

Lemma c1_vertices_nonneg (bgc : BXGraphCyc) (a b c x : Z) :
  hist_nonneg (history (graph bgc)) ->
  _find_c1_vertices bgc = Ok (Some (a, b, c, x)) -> 0 <= a /\ 0 <= x.
Proof.
  intros Hh H. unfold _find_c1_vertices in H.
  repeat step H. inversion H; subst.
  pose proof (getitem_In _ _ _ E) as Hin.
  pose proof (recorded_op_nonneg _ _ _ _ Hh Hin E1) as H1.
  pose proof (recorded_op_nonneg _ _ _ _ Hh Hin E6) as H2.
  split; [eapply op_i_nonneg; [exact H1|eassumption]
         |eapply op_j_nonneg; [exact H2|eassumption]].
Qed.

Lemma c3_vertices_nonneg (bgc : BXGraphCyc) (a b c : Z) :
  hist_nonneg (history (graph bgc)) ->
  _find_c3_vertices bgc = Ok (Some (a, b, c)) -> 0 <= a /\ 0 <= b /\ 0 <= c.
Proof.
  intros Hh H. unfold _find_c3_vertices in H. cbv zeta in H.
  step H. step H. step H. step H. step H. step H. step H. step H. step H.
  pose proof (recorded_op_nonneg _ _ _ _ Hh (getitem_In _ _ _ E) E2) as H1.
  pose proof (recorded_op_nonneg _ _ _ _ Hh (getitem_In _ _ _ E0) E5) as H2.
  pose proof (op_i_nonneg _ _ H1 E3). pose proof (op_j_nonneg _ _ H1 E4).
  pose proof (op_i_nonneg _ _ H2 E6). pose proof (op_j_nonneg _ _ H2 E7).
  repeat step H; inversion H; subst; lia.
Qed.

Section Coextensions.

Variable oracle : igraph -> Z -> Z -> list (list Z).
Variable bgc : BXGraphCyc.
Hypothesis parent_constructed : constructed (graph bgc).
Hypothesis parent_size : 0 <= size (graph bgc).
Hypothesis parent_history : hist_nonneg (history (graph bgc)).

Lemma c1_pass_yields (g : igraph) (a b : Z) :
  0 <= a -> 0 <= b ->
  Forall (coext_child "c1" bgc) (fst (c1_pass oracle bgc g a b (size (graph bgc)))).
Proof.
  intros Ha Hb. unfold c1_pass. apply gfor_yields. intros c Hc. apply in_range in Hc.
  destruct (negb (c =? a) && negb (c =? b)); [|constructor].
  apply lift_bind_yields. intros k _.
  destruct (k && _); [|constructor].
  apply six_ops_yields; auto; lia.
Qed.

Lemma c1_yields : Forall (coext_child "c1" bgc) (fst (c1 oracle bgc)).
Proof.
  unfold c1. apply lift_bind_yields. intros e Ee.
  destruct e as [[a b]|]; [|constructor].
  destruct (typeb_edge_nonneg _ _ _ parent_history Ee) as [Ha Hb].
  apply lift_bind_yields. intros g _. cbv zeta.
  apply gbind_yields; [|intros _ _]; now apply c1_pass_yields.
Qed.

Lemma c2_yields : Forall (coext_child "c2" bgc) (fst (c2 oracle bgc)).
Proof.
  unfold c2. apply lift_bind_yields. intros v Ev.
  destruct v as [[[[a b] c] x]|]; [|constructor].
  destruct (c1_vertices_nonneg _ _ _ _ _ parent_history Ev) as [Ha Hx].
  apply lift_bind_yields. intros g _. cbv zeta.
  apply gfor_yields. intros d Hd. apply in_range in Hd.
  destruct (not_in d _); [|constructor].
  apply lift_bind_yields. intros k _.
  destruct (k && _); [|constructor].
  apply gbind_yields; [apply six_ops_yields; auto; lia|]. intros _ _.
  apply gfor_yields. intros f Hf. apply in_range in Hf.
  destruct (not_in f _); [|constructor].
  apply lift_bind_yields. intros k' _.
  destruct (k' && _); [|constructor].
  apply coextend_yields; auto.
  intros l El. unfold AddEdge in El.
  destruct (Z.eqb_spec f (size (graph bgc))); simpl in El; [discriminate|].
  destruct (Z.eqb_spec a (size (graph bgc))); simpl in El; [discriminate|].
  destruct (Z.eqb_spec d (size (graph bgc))); simpl in El; [discriminate|].
  inversion El; subst l.
  split; [repeat constructor; simpl; lia|]. split; [|repeat split].
  intros i j Hin. simpl in Hin.
  repeat (destruct Hin as [Hin|Hin]; [inversion Hin; subst; assumption || discriminate|]).
  contradiction.
Qed.

Lemma c3_yields : Forall (coext_child "c3" bgc) (fst (c3 oracle bgc)).
Proof.
  unfold c3. apply lift_bind_yields. intros v Ev.
  destruct v as [[[a b] c]|]; [|constructor].
  destruct (c3_vertices_nonneg _ _ _ _ parent_history Ev) as (Ha & Hb & Hc).
  cbv zeta. apply lift_bind_yields. intros g _.
  destruct (negb _); [|constructor].
  apply six_ops_yields; auto.
Qed.

End Coextensions.

(** X14: whatever the path oracle answers and however the rule ends,
    every child that c1, c2 or c3 yields has one vertex and one edge more
    than its parent, has come out of the constructor, and carries the
    parent's history with one transformation of the rule's name
    appended; the parent is a graph from the constructor whose history
    names its vertices from 0 up. *)
Theorem coextensions_add_a_vertex_and_an_edge
  (oracle : igraph -> Z -> Z -> list (list Z)) (bgc : BXGraphCyc) :
  constructed (graph bgc) -> 0 <= size (graph bgc) ->
  hist_nonneg (history (graph bgc)) ->
  (forall child, In child (fst (c1 oracle bgc)) -> coext_child "c1" bgc child) /\
  (forall child, In child (fst (c2 oracle bgc)) -> coext_child "c2" bgc child) /\
  (forall child, In child (fst (c3 oracle bgc)) -> coext_child "c3" bgc child).
Proof.
  intros Hg Hsz Hh. split; [|split]; apply Forall_forall;
    [apply c1_yields|apply c2_yields|apply c3_yields]; assumption.
Qed.

Lemma coextensions_add_a_vertex_and_an_edge_witness :
  let t1 := mkTransformation (str_of "e1") [OpAddEdge 3 0] in
  let bgc := mkBXGraphCyc (mkBXGraph (mkHistory (str_of "pr") [t1]) 4 [15] 4)
               [mkCycle [0; 1; 2]] in
  exists child, In child (fst (c1 (fun _ _ _ => []) bgc)) /\
                size (graph child) = 5 /\ nedge (graph child) = 5.
Proof.
  intros t1 bgc.
  assert (Hin : exists child, In child (fst (c1 (fun _ _ _ => []) bgc))).
  { vm_compute. eexists. left. reflexivity. }
  destruct Hin as [child Hin]. exists child. split; [exact Hin|].
  destruct (coextensions_add_a_vertex_and_an_edge (fun _ _ _ => []) bgc) as (H1 & _).
  - reflexivity.
  - simpl. lia.
  - repeat constructor; simpl; lia.
  - destruct (H1 child Hin) as (_ & Hs & Hn & _). split; [exact Hs|exact Hn].
Defined.

(** ** generators.pyx: the children of e2 *)

(** What one of the two attempts in the loop of [e2] does. *)
Lemma e2_try_at (bgc : BXGraphCyc) (l i : Z) :
  constructed (graph bgc) -> cycles_ok bgc ->
  0 <= l < size (graph bgc) -> 0 <= i < size (graph bgc) ->
  exists r, e2_try bgc l i = (r, Ok tt) /\
    if free (graph bgc) l i then exists child, r = [child] /\ e2_child bgc l i child
    else r = [].
Proof.
  intros Hg Hcs Hl Hi. set (g := graph bgc) in *. unfold e2_try, free. fold g.
  destruct (Z.eqb_spec i l) as [->|Hne]; cbn [negb andb].
  { exists []. split; reflexivity. }
  rewrite (constructed_conn g l i Hg) by lia.
  unfold lift at 1. cbn [gbind gret].
  destruct (adjacent g l i) eqn:Eadj; cbn [negb].
  - exists []. split; reflexivity.
  - unfold AddEdge. replace (l =? i) with false by lia.
    unfold lift at 1. cbn [gbind]. cbv zeta.
    set (tx := Transformation_of "e2" [OpAddEdge l i]).
    assert (Hnv : count_vertex_ops tx = 0) by reflexivity.
    destruct (apply_transformation_ok g tx Hg ltac:(lia)) as (bg & Ebg & Hbg).
    { repeat constructor; simpl; lia. }
    { rewrite Hnv. simpl. repeat split; try lia. exact Eadj. }
    rewrite Ebg. unfold lift at 1. cbn [gbind].
    destruct (apply_add_edge_returns_on (fun v => 0 <= v < size g) (conn g)
                (fun a b Ha Hb => ex_intro _ _ (constructed_conn g a b Hg Ha Hb))
                (cycles bgc) l i ltac:(cbv beta; lia) ltac:(cbv beta; lia) Hcs)
      as (cs & Ecs & Hincl).
    rewrite Ecs. unfold lift at 1. cbn [gbind].
    rewrite (from_bxgraph_constructed bg cs Hbg). unfold lift, yield. cbn [gbind app].
    eexists. split; [reflexivity|]. eexists. split; [reflexivity|].
    assert (Hnn : Forall op_nonneg (ops tx)) by (repeat constructor; simpl; lia).
    assert (Hpp : Forall op_proper (ops tx)) by (repeat constructor; simpl; lia).
    destruct (apply_transformation_conn g bg tx Ebg Hnn) as (Hs & Hh & Hc).
    rewrite Hnv, Z.add_0_r in Hs.
    unfold e2_child. cbn [graph cycles]. fold g.
    split; [exact Hbg|]. split; [exact Hs|]. split; [|split; [exact Hh|split]].
    + rewrite (apply_transformation_nedge g bg tx Hg ltac:(lia) Ebg Hpp).
      change (count is_add (ops tx)) with 1. change (count is_del (ops tx)) with 0. lia.
    + intros a b Ha Hb Hab. rewrite Hc by lia. reflexivity.
    + exact Hincl.
Qed.

Lemma prev_e_last (g : BXGraph) (pre : list Transformation) (t : Transformation)
  (op : Operation) (rest : list Operation) (li lj : Z) :
  elements (history g) = pre ++ [t] -> is_e_rule t = true ->
  ops t = op :: rest -> op_i op = Ok li -> op_j op = Ok lj ->
  _prev_e g = Ok (Some (li, lj)).
Proof.
  intros E Ht Eo Ei Ej. unfold _prev_e. rewrite E, getitem_last. cbn [bind].
  unfold is_e_rule in Ht. rewrite Ht, Eo, getitem_0. cbn [bind].
  now rewrite Ei, Ej.
Qed.

Lemma e2_children_all (bgc : BXGraphCyc) (li lj : Z) :
  let g := graph bgc in
  constructed g -> cycles_ok bgc -> _prev_e g = Ok (Some (li, lj)) ->
  0 <= li < size g -> 0 <= lj < size g ->
  exists children, e2 bgc = (children, Ok tt) /\
    Z.of_nat (length children) =
      row_count (free g) li (size g) + row_count (free g) lj (size g) /\
    (forall child, In child children ->
       exists l i, (l = li \/ l = lj) /\ 0 <= i < size g /\ free g l i = true /\
                   e2_child bgc l i child) /\
    (forall l i, l = li \/ l = lj -> 0 <= i < size g -> free g l i = true ->
       exists child, In child children /\ e2_child bgc l i child).
Proof.
  intros g Hg Hcs Hprev Hli Hlj. unfold e2. fold g. rewrite Hprev.
  unfold lift at 1. cbn [gbind]. cbv zeta.
  set (S := fun i (r : list BXGraphCyc) =>
    Z.of_nat (length r) = row_count (free g) li i + row_count (free g) lj i /\
    (forall child, In child r ->
       exists l x, (l = li \/ l = lj) /\ 0 <= x < i /\ x < size g /\ free g l x = true /\
                   e2_child bgc l x child) /\
    (forall l x, l = li \/ l = lj -> 0 <= x < i -> free g l x = true ->
       exists child, In child r /\ e2_child bgc l x child)).
  match goal with |- context [gfor (range (size g)) ?body] =>
    destruct (gfor_range2 body S 0 (size g)) as (r & E & Hr) end.
  - unfold S. rewrite !row_count_zero. split; [reflexivity|].
    split; [intros child []|intros l x _ Hx; lia].
  - intros i r Hi (Hlen & Hall & Hex). cbv beta.
    destruct (e2_try_at bgc li i Hg Hcs Hli Hi) as (r1 & E1 & H1).
    destruct (e2_try_at bgc lj i Hg Hcs Hlj Hi) as (r2 & E2 & H2).
    fold g in H1, H2. rewrite E1. cbn [gbind]. rewrite E2.
    exists (r1 ++ r2). split; [reflexivity|]. unfold S.
    rewrite !row_count_succ by lia. rewrite !length_app, !Nat2Z.inj_add.
    assert (L1 : Z.of_nat (length r1) = Z.b2z (free g li i)).
    { destruct (free g li i); [destruct H1 as (c & -> & _)|subst r1]; reflexivity. }
    assert (L2 : Z.of_nat (length r2) = Z.b2z (free g lj i)).
    { destruct (free g lj i); [destruct H2 as (c & -> & _)|subst r2]; reflexivity. }
    split; [lia|]. split.
    + intros c Hc. apply in_app_iff in Hc as [Hc|Hc].
      * destruct (Hall c Hc) as (l & x & Hl & Hx & Hx' & Hf & Hch).
        exists l, x. repeat (split; [assumption || lia|]). exact Hch.
      * apply in_app_iff in Hc as [Hc|Hc].
        -- destruct (free g li i) eqn:F; [|subst r1; contradiction].
           destruct H1 as (c1 & -> & Hch). destruct Hc as [<-|[]].
           exists li, i. split; [now left|]. split; [lia|]. split; [lia|]. now split.
        -- destruct (free g lj i) eqn:F; [|subst r2; contradiction].
           destruct H2 as (c2 & -> & Hch). destruct Hc as [<-|[]].
           exists lj, i. split; [now right|]. split; [lia|]. split; [lia|]. now split.
    + intros l x Hl Hx Hf. destruct (Z.eq_dec x i) as [->|Hne].
      * destruct Hl as [->| ->].
        -- rewrite Hf in H1. destruct H1 as (c1 & -> & Hch). exists c1.
           split; [|exact Hch]. apply in_app_iff. right. apply in_app_iff. left. now left.
        -- rewrite Hf in H2. destruct H2 as (c2 & -> & Hch). exists c2.
           split; [|exact Hch]. apply in_app_iff. right. apply in_app_iff. right. now left.
      * destruct (Hex l x Hl ltac:(lia) Hf) as (c & Hc & Hch).
        exists c. split; [apply in_app_iff; now left|exact Hch].
  - exists r. split; [unfold range; now rewrite E|]. rewrite Z.max_r in Hr by lia.
    destruct Hr as (Hlen & Hall & Hex). split; [exact Hlen|]. split.
    + intros c Hc. destruct (Hall c Hc) as (l & x & Hl & Hx & Hx' & Hf & Hch).
      exists l, x. repeat (split; [assumption || lia|]). exact Hch.
    + exact Hex.
Qed.

(** X15: on a graph from the constructor whose cycles name its vertices,
    none twice, and whose last transformation is an e-rule's with the
    edge (li, lj) first, both vertices of the graph, e2 runs to its end
    without an error; it yields one child for every vertex that is not
    li and not connected to li, and one for every vertex that is not lj
    and not connected to lj, and no other.  The child has that edge and
    one edge more than the parent, the same size, the parent's history
    with the e2 step appended, and the parent's cycles among its own. *)
Theorem e2_yields_a_child_per_free_neighbour (bgc : BXGraphCyc)
  (pre : list Transformation) (t : Transformation)
  (op : Operation) (rest : list Operation) (li lj : Z) :
  constructed (graph bgc) -> cycles_ok bgc ->
  elements (history (graph bgc)) = pre ++ [t] -> is_e_rule t = true ->
  ops t = op :: rest -> op_i op = Ok li -> op_j op = Ok lj ->
  0 <= li < size (graph bgc) -> 0 <= lj < size (graph bgc) ->
  exists children, e2 bgc = (children, Ok tt) /\
    Z.of_nat (length children) =
      row_count (free (graph bgc)) li (size (graph bgc)) +
      row_count (free (graph bgc)) lj (size (graph bgc)) /\
    (forall child, In child children ->
       exists l i, (l = li \/ l = lj) /\ 0 <= i < size (graph bgc) /\ i <> l /\
                   conn (graph bgc) l i = Ok false /\ e2_child bgc l i child) /\
    (forall l i, l = li \/ l = lj -> 0 <= i < size (graph bgc) -> i <> l ->
       conn (graph bgc) l i = Ok false ->
       exists child, In child children /\ e2_child bgc l i child).
Proof.
  intros Hg Hcs E Ht Eo Ei Ej Hli Hlj.
  pose proof (prev_e_last _ _ _ _ _ _ _ E Ht Eo Ei Ej) as Hprev.
  destruct (e2_children_all bgc li lj Hg Hcs Hprev Hli Hlj) as (l & El & Hlen & Hall & Hex).
  exists l. split; [exact El|]. split; [exact Hlen|]. split.
  - intros c Hc. destruct (Hall c Hc) as (v & i & Hv & Hi & Hf & Hch).
    exists v, i. split; [exact Hv|]. split; [exact Hi|].
    unfold free in Hf. apply andb_prop in Hf as [F1 F2].
    apply negb_true_iff in F1, F2. split; [lia|]. split; [|exact Hch].
    rewrite constructed_conn by (auto; destruct Hv; subst; lia). now rewrite F2.
  - intros v i Hv Hi Hne Hconn. apply Hex; auto.
    rewrite constructed_conn in Hconn by (auto; destruct Hv; subst; lia).
    unfold free. inversion Hconn as [Hadj]. rewrite Hadj.
    now replace (i =? v) with false by lia.
Qed.

Lemma e2_yields_a_child_per_free_neighbour_witness :
  let t1 := mkTransformation (str_of "e1") [OpAddEdge 3 0] in
  let bgc := mkBXGraphCyc (mkBXGraph (mkHistory (str_of "pr") [t1]) 4 [15] 4)
               [mkCycle [0; 1; 2]] in
  exists children, e2 bgc = (children, Ok tt) /\ length children = 2%nat.
Proof.
  intros t1 bgc.
  destruct (e2_yields_a_child_per_free_neighbour bgc [] t1 (OpAddEdge 3 0) [] 3 0)
    as (l & E & Hlen & _).
  - reflexivity.
  - intros c [<-|[]]. split.
    + repeat constructor; simpl; intuition lia.
    + simpl. intros v Hv. intuition lia.
  - reflexivity.
  - reflexivity.
  - reflexivity.
  - reflexivity.
  - reflexivity.
  - simpl. lia.
  - simpl. lia.
  - exists l. split; [exact E|].
    assert (Hc : row_count (free (graph bgc)) 3 (size (graph bgc)) +
                 row_count (free (graph bgc)) 0 (size (graph bgc)) = 2) by reflexivity.
    lia.
Defined.

(** ** cycles.pyx: moving an edge when every signature is listed *)

Lemma grows_refl (s : list Cycle) : grows s s.
Proof. split; [apply incl_refl|auto]. Qed.

Lemma grows_trans (s1 s2 s3 : list Cycle) : grows s1 s2 -> grows s2 s3 -> grows s1 s3.
Proof. intros [I1 N1] [I2 N2]. split; [eapply incl_tran; eauto|auto]. Qed.

Lemma grows_add (c : Cycle) (s : list Cycle) : grows s (set_add c s).
Proof. split; [apply set_add_incl|apply set_add_NoDup]. Qed.

Lemma foldM_grows {A : Type} (body : list Cycle -> A -> result (list Cycle))
  (xs : list A) :
  (forall s x s', body s x = Ok s' -> grows s s') ->
  forall s s', foldM body xs s = Ok s' -> grows s s'.
Proof.
  intros Hb. induction xs as [|x xs IH]; intros s s' H; simpl in H.
  - inversion H. apply grows_refl.
  - destruct (body s x) as [s1|e|] eqn:E; simpl in H; try discriminate.
    eapply grows_trans; [eapply Hb; eauto|now apply IH].
Qed.

Lemma add_new_grows (res nc res' nc' : list Cycle) (l : list Z) :
  add_new res nc l = Ok (res', nc') -> grows res res'.
Proof.
  unfold add_new. destruct (Cycle_init l) as [cyc|e|]; simpl; try discriminate.
  intros H. inversion H. apply grows_add.
Qed.

Lemma add_split_grows (res nc res' nc' : list Cycle) (vl : list Z) (start c : Z) :
  add_split res nc vl start c = Ok (res', nc') -> grows res res'.
Proof.
  unfold add_split. destruct (split_at vl start c) as [l1 l2].
  destruct (Cycle_init l1) as [c1|e|]; simpl; try discriminate.
  destruct (Cycle_init l2) as [c2|e|]; simpl; try discriminate.
  intros H. inversion H. eapply grows_trans; apply grows_add.
Qed.

Lemma kept_branch (p : str) :
  In p kept_patterns ->
  patt_is p "a*b" = false /\ patt_is p "a*c*b" = false /\ patt_is p "a*cb" = false /\
  patt_is p "ab*" = false /\ patt_is p "ab*c*" = false /\ patt_is p "abc*" = false /\
  (patt_is p "a*c*" = true \/
   (patt_is p "a*c*" = false /\ patt_in p passthrough_patterns = true)).
Proof.
  intros H. unfold kept_patterns, passthrough_patterns in H. simpl in H.
  repeat (destruct H as [<-|H]; [vm_compute; tauto|]). contradiction.
Qed.

(** One cycle of the loop: the result is only added to, and a cycle
    with a kept signature is in it afterwards. *)
Lemma move_one_keeps (a b c : Z) (res nc res' nc' : list Cycle) (cycle : Cycle) :
  move_one a b c (res, nc) cycle = Ok (res', nc') ->
  grows res res' /\
  (patt_in (get_pattern (vlist cycle) a b c) kept_patterns = true -> In cycle res').
Proof.
  intros H. unfold move_one in H. cbv zeta in H.
  destruct (get_index (vlist cycle) a b c) as [[ai bi] ci].
  set (patt := get_pattern (vlist cycle) a b c) in *. split.
  - destruct (patt_is patt "a*b"); [eapply add_new_grows; eauto|].
    destruct (patt_is patt "a*c*").
    { eapply grows_trans; [apply grows_add|eapply add_split_grows; eauto]. }
    destruct (patt_is patt "a*c*b"); [eapply add_split_grows; eauto|].
    destruct (patt_is patt "a*cb"); [eapply add_new_grows; eauto|].
    destruct (patt_is patt "ab*"); [eapply add_new_grows; eauto|].
    destruct (patt_is patt "ab*c*"); [eapply add_split_grows; eauto|].
    destruct (patt_is patt "abc*"); [eapply add_new_grows; eauto|].
    destruct (patt_in patt passthrough_patterns).
    + inversion H. apply grows_add.
    + destruct (patt_in patt impossible_patterns); discriminate.
  - intros Hk. unfold patt_in in Hk. apply existsb_exists in Hk as (p & Hp & E).
    apply str_eqb_eq in E. rewrite E in H.
    destruct (kept_branch p Hp) as (F1 & F3 & F4 & F5 & F6 & F7 & [T|[F2 T]]).
    + rewrite F1, T in H. apply add_split_grows in H as [Hi _].
      apply Hi, set_add_In. now left.
    + rewrite F1, F2, F3, F4, F5, F6, F7, T in H. inversion H.
      apply set_add_In. now left.
Qed.

Lemma stitch_pair_grows (a b c : Z) (cyc1 cyc2 : Cycle) (res res' : list Cycle) :
  stitch_pair a b c cyc1 cyc2 res = Ok res' -> grows res res'.
Proof.
  unfold stitch_pair.
  destruct (negb (meet_only_at _ _ _)); [intros H; inversion H; apply grows_refl|].
  destruct (get_index (vlist cyc1) a b c) as [[ai1 bi1] ci1].
  destruct (negb (patt_in _ _)); [intros H; inversion H; apply grows_refl|].
  destruct (get_index (vlist cyc2) a b c) as [[ai2 bi2] ci2].
  destruct (negb (patt_in _ _)); [intros H; inversion H; apply grows_refl|].
  cbv zeta.
  destruct (walk _ _ _ _ _ _ []) as [l1|e|]; simpl; try discriminate.
  destruct (walk _ _ _ _ _ _ l1) as [l2|e|]; simpl; try discriminate.
  destruct (Cycle_init _) as [cyc|e|]; simpl; try discriminate.
  intros H. inversion H. apply grows_add.
Qed.

Lemma stitch_all_grows (cs : list Cycle) (a b c : Z) (res res' : list Cycle) :
  stitch_all cs a b c res = Ok res' -> grows res res'.
Proof.
  unfold stitch_all. apply foldM_grows. intros s cyc1 s'.
  apply foldM_grows. intros r cyc2 r'. apply stitch_pair_grows.
Qed.

Lemma move_loop_returns (cs : list Cycle) (a b c : Z) (l : list Cycle) :
  forall st,
    (forall cyc, In cyc l -> unlisted a b c cyc = false) ->
    exists st', foldM (move_step cs a b c) l st = Ok st' /\
      grows (fst st) (fst st') /\
      forall cyc, In cyc l ->
        patt_in (get_pattern (vlist cyc) a b c) kept_patterns = true ->
        In cyc (fst st').
Proof.
  induction l as [|x l IH]; intros st Hl.
  - exists st. split; [reflexivity|]. split; [apply grows_refl|intros cyc []].
  - cbn [foldM]. unfold move_step at 1.
    assert (Hx : patt_in (get_pattern (vlist x) a b c)
                   (rewrite_patterns ++ passthrough_patterns) = true).
    { specialize (Hl x (or_introl eq_refl)). unfold unlisted in Hl.
      now apply negb_false_iff in Hl. }
    destruct (move_one_handled a b c st x Hx) as [[res nc] E1]. rewrite E1. cbn [bind].
    destruct (stitch_all_ok cs a b c res) as [res1 E2]. rewrite E2. cbn [bind].
    destruct (IH (res1, nc)) as (st' & E3 & G3 & K3).
    { intros cyc Hc. apply Hl. now right. }
    exists st'. split; [exact E3|]. destruct st as [res0 nc0].
    destruct (move_one_keeps a b c res0 nc0 res nc x E1) as [G1 K1].
    pose proof (stitch_all_grows cs a b c res res1 E2) as G2. cbn [fst] in *.
    split; [eapply grows_trans; [exact G1|eapply grows_trans; eauto]|].
    intros cyc [<-|Hc] Hk; [|now apply K3].
    apply (proj1 G3), (proj1 G2). now apply K1.
Qed.

(** X16: when the signature of every cycle is one of the listed ones,
    apply_move_edge returns (both walks of each stitch end); the list it
    returns holds no cycle twice, and every cycle whose signature is
    passed through, or is a*c*, is in it. *)
Theorem apply_move_edge_returns_on_listed (cs : list Cycle) (a b c : Z) :
  (forall cyc, In cyc cs ->
     patt_in (get_pattern (vlist cyc) a b c)
             (rewrite_patterns ++ passthrough_patterns) = true) ->
  exists res, apply_move_edge cs a b c = Ok res /\ NoDup res /\
    forall cyc, In cyc cs ->
      patt_in (get_pattern (vlist cyc) a b c) kept_patterns = true -> In cyc res.
Proof.
  intros H.
  destruct (move_loop_returns cs a b c cs ([], [])) as ([res nc] & E & [_ N] & K).
  { intros cyc Hc. unfold unlisted. now rewrite (H cyc Hc). }
  exists res. unfold apply_move_edge. rewrite E. cbn [bind fst] in *.
  split; [reflexivity|]. split; [apply N; constructor|exact K].
Qed.

Lemma apply_move_edge_returns_on_listed_witness :
  exists res, apply_move_edge [mkCycle [0; 1; 2]; mkCycle [2; 3; 5]] 1 0 4 = Ok res /\
              In (mkCycle [2; 3; 5]) res.
Proof.
  destruct (apply_move_edge_returns_on_listed
              [mkCycle [0; 1; 2]; mkCycle [2; 3; 5]] 1 0 4) as (res & E & _ & K).
  - intros cyc [<-|[<-|[]]]; reflexivity.
  - exists res. split; [exact E|]. apply K; [simpl; auto|reflexivity].
Defined.

(** ** bx_graph.pyx: the constructor and the length of the bytes *)

Lemma foldM_ok_or_raise {A St : Type} (body : St -> A -> result St) (e : exn)
  (xs : list A) :
  (forall s x, In x xs -> (exists s', body s x = Ok s') \/ body s x = Raise e) ->
  forall st, (exists st', foldM body xs st = Ok st') \/ foldM body xs st = Raise e.
Proof.
  induction xs as [|x xs IH]; intros H st; simpl; [eauto|].
  destruct (H st x (or_introl eq_refl)) as [[s' ->]| ->]; simpl; [|now right].
  apply IH. intros s y Hy. apply H. now right.
Qed.

Lemma foldM_raises {A St : Type} (body : St -> A -> result St) (e : exn)
  (xs : list A) :
  (forall s x, In x xs -> (exists s', body s x = Ok s') \/ body s x = Raise e) ->
  (exists x, In x xs /\ forall s, body s x = Raise e) ->
  forall st, foldM body xs st = Raise e.
Proof.
  induction xs as [|x xs IH]; intros H (y & Hy & Hbad) st; [contradiction|].
  simpl. destruct (H st x (or_introl eq_refl)) as [[s' E]| ->]; [|reflexivity].
  rewrite E. simpl. apply IH; [intros s z Hz; apply H; now right|].
  destruct Hy as [->|Hy]; [rewrite Hbad in E; discriminate|]. now exists y.
Qed.

Lemma are_conn_short (b : bytes) (n i j : Z) :
  0 <= j < i -> i < n -> len b <= (tri i + j) / 8 ->
  _are_conn b n i j = Raise IndexError.
Proof.
  intros Hj Hi Hq. unfold _are_conn.
  replace (i <? 0) with false by lia. replace (i >=? n) with false by lia.
  replace (j <? 0) with false by lia. replace (j >=? n) with false by lia.
  cbn [orb]. replace (i =? j) with false by lia. replace (i >? j) with true by lia.
  fold (tri i). rewrite Z.shiftr_div_pow2 by lia. change (2 ^ 3) with 8.
  pose proof (tri_nonneg i ltac:(lia)).
  assert (0 <= (tri i + j) / 8) by (apply Z.div_pos; lia).
  unfold getitem. replace ((tri i + j) / 8 <? 0) with false by lia.
  replace ((tri i + j) / 8 <? len b) with false by lia.
  now rewrite andb_false_r.
Qed.

Lemma count_le {A : Type} (p : A -> bool) (xs : list A) : count p xs <= len xs.
Proof.
  induction xs as [|x xs IH]; [reflexivity|].
  rewrite count_cons. unfold len in *. cbn [length]. rewrite Nat2Z.inj_succ.
  destruct (p x); lia.
Qed.

Lemma count_lower_bounds (f : Z -> Z -> bool) (n : Z) :
  0 <= n -> 0 <= count_lower f n <= tri n.
Proof.
  intros Hn. replace n with (Z.of_nat (Z.to_nat n)) by lia.
  induction (Z.to_nat n) as [|k IH].
  - rewrite count_lower_small by lia. split; [lia|now vm_compute].
  - destruct k as [|k].
    + rewrite count_lower_small by lia. split; [lia|now vm_compute].
    + replace (Z.of_nat (S (S k))) with (Z.of_nat (S k) + 1) by lia.
      rewrite count_lower_succ, tri_succ by lia.
      pose proof (count_pos (f (Z.of_nat (S k))) (range (Z.of_nat (S k)))) as H0.
      pose proof (count_le (f (Z.of_nat (S k))) (range (Z.of_nat (S k)))) as H1.
      unfold len in H1. rewrite range_length in H1. unfold row_count. lia.
Qed.

(** X17: the constructor reads one bit of badj for every pair of
    vertices, so it returns exactly when badj has a bit for each of the
    size*(size-1)/2 pairs, and raises IndexError when it is shorter;
    bytes beyond those are accepted and never read.  nedge is the
    number of bits set among those of the pairs, at most the number of
    pairs. *)
Theorem BXGraph_init_needs_a_bit_per_pair (h : History) (n : Z) (b : bytes) :
  0 <= n ->
  (n * (n - 1) / 2 <= 8 * len b ->
   BXGraph_init h n b = Ok (mkBXGraph h n b (count_lower (stored b) n)) /\
   0 <= count_lower (stored b) n <= n * (n - 1) / 2) /\
  (8 * len b < n * (n - 1) / 2 -> BXGraph_init h n b = Raise IndexError).
Proof.
  intros Hn. rewrite <- tri_div. split.
  - intros Hlen. split; [|now apply count_lower_bounds].
    apply BXGraph_init_returns. intros i j Hj Hi. apply are_conn_bit; auto.
    pose proof (tri_below i j n 0 Hj ltac:(lia) ltac:(lia)) as Hlt.
    apply Z.div_lt_upper_bound; lia.
  - intros Hlen. unfold BXGraph_init, _nedge.
    assert (Hcell : forall i j acc, 0 <= j < i -> i < n ->
              (exists s', (let* c := _are_conn b n i j in
                           Ok (if c then acc + 1 else acc)) = Ok s') \/
              (let* c := _are_conn b n i j in
               Ok (if c then acc + 1 else acc)) = Raise IndexError).
    { intros i j acc Hj Hi.
      destruct (Z_lt_ge_dec ((tri i + j) / 8) (len b)) as [Hq|Hq].
      - rewrite are_conn_bit by assumption. left. cbn [bind]. eauto.
      - rewrite are_conn_short by (auto; lia). now right. }
    assert (H2 : 2 <= n).
    { destruct (Z_lt_ge_dec n 2); [|lia].
      assert (Ht : tri n = 0)
        by (assert (n = 0 \/ n = 1) as [-> | ->] by lia; reflexivity).
      pose proof (len_nonneg b). lia. }
    rewrite foldM_raises with (e := IndexError); [reflexivity| |].
    + intros acc i Hi. apply in_range2 in Hi. apply foldM_ok_or_raise.
      intros s j Hj. apply in_range in Hj. apply Hcell; lia.
    + exists (n - 1). split; [apply in_range2; lia|]. intros acc.
      apply foldM_raises.
      * intros s j Hj. apply in_range in Hj. apply Hcell; lia.
      * exists (n - 2). split; [apply in_range; lia|]. intros s.
        rewrite are_conn_short; [reflexivity|lia|lia|].
        replace (tri (n - 1) + (n - 2)) with (tri n - 1)
          by (replace n with (n - 1 + 1) at 1 by lia; rewrite tri_succ; lia).
        apply Z.div_le_lower_bound; lia.
Qed.

Lemma BXGraph_init_needs_a_bit_per_pair_witness :
  BXGraph_init (mkHistory (str_of "pr") []) 5 [255; 1; 9] =
    Ok (mkBXGraph (mkHistory (str_of "pr") []) 5 [255; 1; 9] 9) /\
  BXGraph_init (mkHistory (str_of "pr") []) 5 [255] = Raise IndexError.
Proof.
  destruct (BXGraph_init_needs_a_bit_per_pair (mkHistory (str_of "pr") []) 5 [255; 1; 9])
    as [H1 _]; [lia|].
  destruct (BXGraph_init_needs_a_bit_per_pair (mkHistory (str_of "pr") []) 5 [255])
    as [_ H2]; [lia|].
  split.
  - apply H1. vm_compute. discriminate.
  - apply H2. reflexivity.
Defined.

(** ** bgx.pyx: integers on a fixed number of bytes *)

Lemma slice_beyond {A : Type} (l : list A) (lo hi : Z) :
  len l <= lo -> slice l lo hi = [].
Proof.
  intros H. unfold slice.
  assert (E : clamp l lo = length l).
  { unfold clamp, len in *. destruct (Z.ltb_spec lo 0); lia. }
  rewrite E, skipn_all. now destruct (_ - _)%nat.
Qed.

(** X18: bytes_from_int(i, sz) returns sz bytes when 0 <= i < 256^sz and
    raises OverflowError for any other i; int_from_bytes reads the
    number back wherever the bytes stand in a longer string, and
    returns the index behind them.  Reading at or behind the end of the
    bytes raises nothing: it gives 0 and moves the index on by sz. *)
Theorem int_bytes_roundtrip (order : byteorder) (sz : nat) (i : Z) :
  (0 <= i < 256 ^ Z.of_nat sz ->
   exists b, bytes_from_int order i sz = Ok b /\ length b = sz /\ Forall byte b /\
     forall pre suf, int_from_bytes order (pre ++ b ++ suf) (len pre) sz
                     = (i, len pre + Z.of_nat sz)) /\
  (~ 0 <= i < 256 ^ Z.of_nat sz -> bytes_from_int order i sz = Raise OverflowError) /\
  (forall b ix, len b <= ix -> int_from_bytes order b ix sz = (0, ix + Z.of_nat sz)).
Proof.
  split; [|split].
  - intros Hi. exists (digits order sz i).
    split; [now apply bytes_from_int_digits|]. split; [apply digits_length|].
    split; [apply digits_bytes|]. intros pre suf. now apply int_from_bytes_part.
  - intros Hi. unfold bytes_from_int, to_bytes.
    destruct (Z.leb_spec 0 i), (Z.ltb_spec i (256 ^ Z.of_nat sz)); simpl; try reflexivity.
    lia.
  - intros b ix H. unfold int_from_bytes. rewrite slice_beyond by exact H.
    now destruct order.
Qed.

Lemma int_bytes_roundtrip_witness :
  bytes_from_int big 258 2 = Ok [1; 2] /\
  int_from_bytes big [9; 1; 2; 7] 1 2 = (258, 3) /\
  bytes_from_int little 65536 2 = Raise OverflowError.
Proof.
  destruct (int_bytes_roundtrip big 2 258) as [H1 _].
  destruct (int_bytes_roundtrip little 2 65536) as (_ & H2 & _).
  destruct H1 as (b & E & _ & _ & Hr); [lia|].
  split; [reflexivity|]. split.
  - assert (Eb : b = [1; 2]) by (vm_compute in E; now inversion E).
    subst b. exact (Hr [9] [7]).
  - apply H2. lia.
Defined.

(** ** cycles.pyx: decoding cycles from any bytes *)

Lemma le_value_nonneg (b : bytes) : Forall byte b -> 0 <= le_value b.
Proof.
  induction 1 as [|x l Hx _ IH]; cbn [le_value]; [lia|]. unfold byte in Hx. lia.
Qed.

Lemma from_bytes_nonneg (order : byteorder) (b : bytes) :
  Forall byte b -> 0 <= from_bytes order b.
Proof.
  intros H. destruct order; simpl; apply le_value_nonneg; [exact H|now apply Forall_rev].
Qed.

Lemma slice_Forall {A : Type} (P : A -> Prop) (l : list A) (lo hi : Z) :
  Forall P l -> Forall P (slice l lo hi).
Proof.
  intros H. unfold slice.
  assert (Hs : Forall P (skipn (clamp l lo) l)).
  { rewrite <- (firstn_skipn (clamp l lo) l) in H. now apply Forall_app in H. }
  rewrite <- (firstn_skipn (clamp l hi - clamp l lo) _) in Hs.
  now apply Forall_app in Hs.
Qed.

Lemma cycle_list_loop_ends (order : byteorder) (bb : bytes) :
  Forall byte bb ->
  forall fuel offset acc,
    len bb - offset <= Z.of_nat fuel -> Forall canonical acc ->
    (exists cs, cycle_list_loop order fuel bb offset acc = Ok cs /\ Forall canonical cs) \/
    cycle_list_loop order fuel bb offset acc = Raise TypeError.
Proof.
  intros Hb. induction fuel as [|fuel IH]; intros offset acc Hf Hacc.
  - simpl. destruct (Z.ltb_spec offset (len bb)); [lia|]. left. eauto.
  - cbn [cycle_list_loop]. destruct (Z.ltb_spec offset (len bb)); [|left; eauto].
    unfold cycle_from_bytes, int_from_bytes.
    set (n := from_bytes order (slice bb offset (offset + Z.of_nat 4))).
    assert (Hn : 0 <= n) by (apply from_bytes_nonneg, slice_Forall, Hb).
    set (cv := map _ (range n)).
    destruct (Z.eq_dec n 0) as [E|E].
    + right. subst cv. rewrite E. reflexivity.
    + destruct (Cycle_init_nonempty cv) as [c Ec].
      { intros Hnil. apply (f_equal (@length Z)) in Hnil. subst cv.
        rewrite length_map, range_length in Hnil. simpl in Hnil. lia. }
      rewrite Ec. cbn [bind]. apply IH; [lia|].
      apply Forall_app. split; [exact Hacc|].
      constructor; [|constructor]. eapply Cycle_init_canonical; eauto.
Qed.

(** X19: the loop of cycle_list_from_bytes ends on every byte string,
    whatever it holds: each record moves the offset on by at least four
    bytes.  It returns a list of cycles in canonical form, or raises
    TypeError when it meets a record of length 0, and nothing else. *)
Theorem cycle_list_from_bytes_ends (order : byteorder) (bb : bytes) :
  Forall byte bb ->
  (exists cs, cycle_list_from_bytes order bb = Ok cs /\ Forall canonical cs) \/
  cycle_list_from_bytes order bb = Raise TypeError.
Proof.
  intros Hb. unfold cycle_list_from_bytes.
  apply cycle_list_loop_ends; [exact Hb|unfold len; lia|constructor].
Qed.

Lemma cycle_list_from_bytes_ends_witness :
  (exists cs, cycle_list_from_bytes big [0; 0; 0; 3; 0; 2; 0; 1] = Ok cs) /\
  cycle_list_from_bytes big [0; 0; 0; 3; 0; 2; 0; 1; 0; 0; 0; 0; 0; 0] = Raise TypeError.
Proof.
  split.
  - destruct (cycle_list_from_bytes_ends big [0; 0; 0; 3; 0; 2; 0; 1])
      as [(cs & E & _)|E].
    + repeat constructor; unfold byte; lia.
    + eauto.
    + vm_compute in E. discriminate.
  - destruct (cycle_list_from_bytes_ends big [0; 0; 0; 3; 0; 2; 0; 1; 0; 0; 0; 0; 0; 0])
      as [(cs & E & _)|E].
    + repeat constructor; unfold byte; lia.
    + vm_compute in E. discriminate.
    + exact E.
Defined.

(** ** generate.pyx: the first extension step *)

Section WriterRuns.

Variables G cert : Type.
Variable cert_eqb : cert -> cert -> bool.
Variable dumps : G -> result string.
Variable gen_cert : G -> result cert.

Lemma add_graph_returns (w : GraphFileWriter cert) (d : disk) (g : G) (c : cert)
  (fp : handle) :
  _fp w = Some fp -> (exists s, dumps g = Ok s) ->
  exists k w' d', add_graph cert_eqb dumps w d g c = Returns (k, w', d') /\
    0 <= k <= 1 /\ _fp w' = Some fp /\ writer_len w' = writer_len w + k.
Proof.
  intros Hfp [s Hs]. unfold add_graph. rewrite Hfp.
  destruct (existsb (cert_eqb c) (_certs w)); cbn [negb].
  - exists 0, w, d. split; [reflexivity|]. split; [lia|]. split; [exact Hfp|lia].
  - rewrite Hs. cbn [of_result].
    eexists _, _, _. split; [reflexivity|]. split; [lia|]. cbn [_fp _certs].
    split; [reflexivity|]. unfold writer_len. cbn [_certs]. rewrite len_app. reflexivity.
Qed.

Lemma add_children_returns (children : list G) (fp : handle) :
  (forall g, In g children -> exists s, dumps g = Ok s) ->
  (forall g, In g children -> exists c, gen_cert g = Ok c) ->
  forall n (w : GraphFileWriter cert) (d : disk),
    _fp w = Some fp ->
    exists n' w' d',
      add_children cert_eqb dumps gen_cert children n w d = Returns (n', w', d') /\
      n <= n' <= n + len children /\ _fp w' = Some fp /\
      writer_len w' = writer_len w + (n' - n).
Proof.
  induction children as [|ge rest IH]; intros Hd Hc n w d Hfp.
  - exists n, w, d. split; [reflexivity|]. change (len (@nil G)) with 0.
    split; [lia|]. split; [exact Hfp|lia].
  - cbn [add_children]. destruct (Hc ge (or_introl eq_refl)) as [c ->]. cbn [of_result].
    destruct (add_graph_returns w d ge c fp Hfp (Hd ge (or_introl eq_refl)))
      as (k & w1 & d1 & -> & Hk & Hfp1 & L1).
    destruct (IH (fun g H => Hd g (or_intror H)) (fun g H => Hc g (or_intror H))
                (n + k) w1 d1 Hfp1) as (n' & w' & d' & E & Hn & Hfp' & L').
    exists n', w', d'. split; [exact E|].
    change (ge :: rest) with ([ge] ++ rest). rewrite len_app. change (len [ge]) with 1.
    split; [lia|]. split; [exact Hfp'|lia].
Qed.

End WriterRuns.

(** X20: the first extension step on one graph.  With a file set in the
    writer, and a certificate and a line of text to be had for each
    child, generate_graphs([g], e1, writer) returns without an error for
    a graph from the constructor whose cycles name its vertices, none
    twice; the number it returns is at most the number of pairs of
    vertices that are not connected, and len(writer) has grown by it. *)
Theorem generate_graphs_with_e1_returns {cert : Type}
  (cert_eqb : cert -> cert -> bool)
  (dumps : BXGraphCyc -> result string) (gen_cert : BXGraphCyc -> result cert)
  (bgc : BXGraphCyc) (w : GraphFileWriter cert) (d : disk) (fp : handle) :
  (forall child, In child (fst (e1 bgc)) -> exists s, dumps child = Ok s) ->
  (forall child, In child (fst (e1 bgc)) -> exists c, gen_cert child = Ok c) ->
  constructed (graph bgc) -> 0 <= size (graph bgc) -> cycles_ok bgc ->
  _fp w = Some fp ->
  exists n w' d',
    generate_graphs cert_eqb dumps gen_cert e1 [bgc] w d = Returns (n, w', d') /\
    0 <= n <= size (graph bgc) * (size (graph bgc) - 1) / 2 - nedge (graph bgc) /\
    writer_len w' = writer_len w + n.
Proof.
  intros Hd Hc Hg Hsz Hcs Hfp.
  destruct (e1_children_all bgc Hg Hsz Hcs) as (children & E & Hlen & _).
  unfold generate_graphs. cbn [generate_graphs_from]. rewrite E in *. cbn [fst] in *.
  destruct (add_children_returns BXGraphCyc cert cert_eqb dumps gen_cert
              children fp Hd Hc 0 w d Hfp) as (n & w' & d' & -> & Hn & _ & L).
  exists n, w', d'. cbn [of_result]. split; [reflexivity|].
  rewrite <- tri_div, (constructed_nedge _ Hg). unfold len in Hn. split; lia.
Qed.

Lemma generate_graphs_with_e1_returns_witness :
  let bgc := mkBXGraphCyc (mkBXGraph (mkHistory (str_of "pr") []) 4 [7] 3)
               [mkCycle [0; 1; 2]] in
  let w := mkGraphFileWriter (@nil Z) (Some Dummy) in
  exists n w' d',
    generate_graphs Z.eqb (fun _ => Ok "g"%string) (fun g => Ok (nedge (graph g)))
      e1 [bgc] w [] = Returns (n, w', d') /\ 0 <= n <= 3.
Proof.
  intros bgc w.
  destruct (generate_graphs_with_e1_returns Z.eqb (fun _ => Ok "g"%string)
              (fun g => Ok (nedge (graph g))) bgc w [] Dummy)
    as (n & w' & d' & E & Hn & _).
  - intros g _. eauto.
  - intros g _. eauto.
  - reflexivity.
  - simpl. lia.
  - intros c [<-|[]]. split.
    + repeat constructor; simpl; intuition lia.
    + simpl. intros v Hv. intuition lia.
  - reflexivity.
  - exists n, w', d'. split; [exact E|].
    change (size (graph bgc) * (size (graph bgc) - 1) / 2 - nedge (graph bgc)) with 3 in Hn.
    exact Hn.
Defined.

(** ** nauty_cert.pyx: what the certificate is computed from *)

Lemma foldM_ext {A St : Type} (f g : St -> A -> result St) (xs : list A) (st : St) :
  (forall s x, In x xs -> f s x = g s x) -> foldM f xs st = foldM g xs st.
Proof.
  revert st. induction xs as [|x xs IH]; intros st H; [reflexivity|].
  simpl. rewrite (H st x) by now left. destruct (g st x); simpl; auto.
  apply IH. intros s y Hy. apply H. now right.
Qed.

Section NautyFacts.

Variables pgraph cert : Type.
Variable Graph : Z -> result pgraph.
Variable connect_vertex : pgraph -> Z -> list Z -> result pgraph.
Variable certificate : pgraph -> result cert.

(** The neighbours handed to pynauty for the vertex [i] are the
    vertices above [i] that are connected to it, in order. *)
Lemma nbrs_of_adjacent (g : BXGraph) (i : Z) :
  constructed g -> 0 <= i < size g ->
  nbrs_of g i = Ok (filter (adjacent g i) (range2 (i + 1) (size g))).
Proof.
  intros Hg Hi. unfold nbrs_of.
  rewrite (foldM_pure _ (fun nbrs j => if adjacent g i j then nbrs ++ [j] else nbrs)).
  - f_equal. generalize (range2 (i + 1) (size g)) as l.
    assert (H : forall l acc,
              fold_left (fun nbrs j => if adjacent g i j then nbrs ++ [j] else nbrs) l acc
              = acc ++ filter (adjacent g i) l).
    { induction l as [|x l IH]; intros acc; simpl; [now rewrite app_nil_r|].
      rewrite IH. destruct (adjacent g i x); [now rewrite <- app_assoc|reflexivity]. }
    intros l. apply (H l []).
  - intros j nbrs Hj. apply in_range2 in Hj.
    now rewrite constructed_conn by (auto; lia).
Qed.

(** X21: the certificate of a graph from the constructor is computed
    from its size and from which pairs of vertices are connected, and
    from nothing else: two such graphs of the same size with the same
    pairs connected get the same calls of pynauty and the same answer,
    whatever their histories and whatever bytes carry the pairs. *)
Theorem gen_cert_reads_adjacency_only (g g' : BXGraph) :
  constructed g -> constructed g' -> size g = size g' ->
  (forall i j, 0 <= i < j -> j < size g -> adjacent g i j = adjacent g' i j) ->
  gen_cert pgraph cert Graph connect_vertex certificate g =
  gen_cert pgraph cert Graph connect_vertex certificate g'.
Proof.
  intros Hg Hg' Hs Hadj. unfold gen_cert. rewrite <- Hs.
  destruct (Graph (size g)) as [p|e|]; [cbn [bind]|reflexivity|reflexivity].
  f_equal. apply foldM_ext. intros s i Hi. apply in_range in Hi.
  rewrite (nbrs_of_adjacent g i Hg), (nbrs_of_adjacent g' i Hg') by lia.
  rewrite <- Hs.
  assert (E : filter (adjacent g' i) (range2 (i + 1) (size g))
              = filter (adjacent g i) (range2 (i + 1) (size g))).
  { apply filter_ext_in. intros j Hj. apply in_range2 in Hj. symmetry. apply Hadj; lia. }
  now rewrite E.
Qed.

End NautyFacts.

Lemma gen_cert_reads_adjacency_only_witness :
  let g := mkBXGraph (mkHistory (str_of "pr") []) 3 [3] 2 in
  let g' := mkBXGraph (mkHistory (str_of "k3")
                         [mkTransformation (str_of "c1") [OpDelEdge 2 1]]) 3 [11; 0] 2 in
  gen_cert (list (Z * list Z)) (list (Z * list Z))
    (fun _ => Ok []) (fun p v nbrs => Ok (p ++ [(v, nbrs)])) (fun p => Ok p) g =
  gen_cert (list (Z * list Z)) (list (Z * list Z))
    (fun _ => Ok []) (fun p v nbrs => Ok (p ++ [(v, nbrs)])) (fun p => Ok p) g'.
Proof.
  intros g g'. apply gen_cert_reads_adjacency_only; try reflexivity.
  intros i j Hi Hj. change (size g) with 3 in Hj.
  assert (H : (i = 0 /\ j = 1) \/ (i = 0 /\ j = 2) \/ (i = 1 /\ j = 2)) by lia.
  destruct H as [[-> ->]|[[-> ->]|[-> ->]]]; reflexivity.
Defined.
